(** * Troza store engine: a shallow embedding of [src/index.ts]

    The store of [create] is modelled over an explicit object heap.  Object
    identity is a location, a property is a descriptor as returned by
    [Reflect.getOwnPropertyDescriptor], and every WeakMap / Map / Set that
    the closure of [create] keeps is a finite map or set keyed by location.

    Modelling conventions.
    - Property keys are strings; enumeration order is the order of
      definition.  Keys naming members of [Object.prototype] are not
      distinguished (the record objects of [mutationCache] are treated as
      having no inherited members).
    - Numbers are [NaN], negative zero, or an integer; that is all the
      engine's identity tests ([===] and [Object.is]) can tell apart.
    - A getter is modelled by the value it yields and a setter by its
      presence: accessor bodies are user code that lives outside the store.
    - Recursive engine functions take a [fuel] bound on the recursion depth
      (the call stack); [None] is an exhausted stack, or a value outside
      the modelled domain where that is stated. *)

From Stdlib Require Import DecimalString.
From stdpp Require Import gmap strings list fin_maps.

Open Scope string_scope.
Open Scope list_scope.

(** ** Values and objects *)

Definition loc := positive.
Definition key := string.

Inductive num :=
| NaN
| NegZero
| Num (z : Z).

Inductive value :=
| VUndef
| VNull
| VBool (b : bool)
| VNum (n : num)
| VStr (s : string)
| VFun (f : nat)      (* a function object; opaque *)
| VRef (l : loc)      (* an ordinary object *)
| VDraft (l : loc)    (* [proxy(target)]: the draft view of object [l] *)
| VTrack (l : loc)    (* a proxy-compare tracking proxy of object [l] *)
| VStore.             (* [proxiedStore], the [this] of actions *)

Global Instance num_eq_dec : EqDecision num.
Proof. solve_decision. Defined.
Global Instance value_eq_dec : EqDecision value.
Proof. solve_decision. Defined.

(** [Object.is]: with canonical numbers it is equality of values. *)
Definition object_is (x y : value) : bool := bool_decide (x = y).

(** [x === y]: [NaN] differs from itself, the two zeros are equal. *)
Definition strict_eq (x y : value) : bool :=
  match x, y with
  | VNum NaN, _ | _, VNum NaN => false
  | VNum NegZero, VNum (Num 0) | VNum (Num 0), VNum NegZero => true
  | _, _ => bool_decide (x = y)
  end.

Definition truthy (v : value) : bool :=
  match v with
  | VUndef | VNull | VBool false | VNum NaN | VNum NegZero | VNum (Num 0) => false
  | VStr s => negb (bool_decide (s = ""))
  | _ => true
  end.

Inductive okind :=
| Plain     (* prototype is Object.prototype, not iterable *)
| Arr       (* Array.isArray *)
| Exotic.   (* class instances, Date, Map, typed arrays, ... *)

Inductive slot :=
| Data (v : value) (writable : bool)
| Accessor (getter : option value) (setter : bool).

Record desc := Desc {
  d_slot : slot;
  d_enumerable : bool;
  d_configurable : bool;
}.

Record obj := Obj {
  o_kind : okind;
  o_props : list (key * desc);
}.

Abbreviation heap := (gmap loc obj).

Global Instance okind_eq_dec : EqDecision okind.
Proof. solve_decision. Defined.
Global Instance slot_eq_dec : EqDecision slot.
Proof. solve_decision. Defined.
Global Instance desc_eq_dec : EqDecision desc.
Proof. solve_decision. Defined.
Global Instance obj_eq_dec : EqDecision obj.
Proof. solve_decision. Defined.

(** ** Property lists with the key order of JS objects *)

(** A canonical decimal string is an integer index ("0", "17", not "017"). *)
Definition array_index (k : key) : option N :=
  match NilEmpty.uint_of_string k with
  | Some u =>
      let n := N.of_uint u in
      if decide (NilEmpty.string_of_uint (N.to_uint n) = k) then Some n else None
  | None => None
  end.

Section alist.
Context {A : Type}.

Fixpoint alookup (k : key) (l : list (key * A)) : option A :=
  match l with
  | [] => None
  | (k', a) :: l' => if decide (k = k') then Some a else alookup k l'
  end.

Fixpoint areplace (k : key) (a : A) (l : list (key * A)) : list (key * A) :=
  match l with
  | [] => []
  | (k', a') :: l' =>
      if decide (k = k') then (k, a) :: l' else (k', a') :: areplace k a l'
  end.

(** A new integer key goes among the integer keys in ascending order. *)
Fixpoint ainsert_index (n : N) (k : key) (a : A) (l : list (key * A)) :
    list (key * A) :=
  match l with
  | [] => [(k, a)]
  | (k', a') :: l' =>
      match array_index k' with
      | Some n' =>
          if decide (n < n')%N then (k, a) :: (k', a') :: l'
          else (k', a') :: ainsert_index n k a l'
      | None => (k, a) :: (k', a') :: l'
      end
  end.

(** Defining a property keeps the place of an existing key; a new integer
    key is sorted in, any other new key goes last. *)
Definition aset (k : key) (a : A) (l : list (key * A)) : list (key * A) :=
  match alookup k l with
  | Some _ => areplace k a l
  | None =>
      match array_index k with
      | Some n => ainsert_index n k a l
      | None => l ++ [(k, a)]
      end
  end.

Fixpoint adel (k : key) (l : list (key * A)) : list (key * A) :=
  match l with
  | [] => []
  | (k', a') :: l' =>
      if decide (k = k') then adel k l' else (k', a') :: adel k l'
  end.

Definition akeys (l : list (key * A)) : list key := l.*1.
End alist.

(** [Array.from(new Set(keys))]: duplicates dropped, first occurrence kept. *)
Fixpoint dedup_from (seen keys : list key) : list key :=
  match keys with
  | [] => []
  | k :: keys' =>
      if decide (k ∈ seen) then dedup_from seen keys'
      else k :: dedup_from (k :: seen) keys'
  end.

Definition dedup (keys : list key) : list key := dedup_from [] keys.

(** ** Reflection on ordinary objects and arrays *)

(** [Reflect.getOwnPropertyDescriptor(target, key)] *)
Definition getOwnPropertyDescriptor (h : heap) (l : loc) (k : key) : option desc :=
  o ← h !! l; alookup k (o_props o).

(** [Reflect.ownKeys(target)] *)
Definition ownKeys (h : heap) (l : loc) : list key :=
  match h !! l with
  | Some o => akeys (o_props o)
  | None => []
  end.

(** [desc.value] and [desc.writable]; both are [undefined] on an accessor. *)
Definition desc_value (d : desc) : value :=
  match d_slot d with
  | Data v _ => v
  | Accessor _ _ => VUndef
  end.

Definition desc_writable (d : desc) : bool :=
  match d_slot d with
  | Data _ w => w
  | Accessor _ _ => false
  end.

(** ["value" in desc] *)
Definition has_value (d : desc) : bool :=
  match d_slot d with
  | Data _ _ => true
  | Accessor _ _ => false
  end.

(** [desc.value = v] on a data descriptor (the engine does not use the
    result on an accessor). *)
Definition with_value (d : desc) (v : value) : desc :=
  match d_slot d with
  | Data _ w => Desc (Data v w) (d_enumerable d) (d_configurable d)
  | Accessor _ _ => d
  end.

(** [desc.writable = false] *)
Definition clear_writable (d : desc) : desc :=
  match d_slot d with
  | Data v _ => Desc (Data v false) (d_enumerable d) (d_configurable d)
  | Accessor _ _ => d
  end.

(** The [length] of an array object. *)
Definition array_length (props : list (key * desc)) : N :=
  match alookup "length" props with
  | Some (Desc (Data (VNum (Num z)) _) _ _) => Z.to_N z
  | _ => 0%N
  end.

(** Elements that survive [length = n]. *)
Definition below_length (n : N) (p : key * desc) : bool :=
  match array_index p.1 with
  | Some i => bool_decide (i < n)%N
  | None => true
  end.

(** [Object.defineProperty(target, key, desc)].  The engine only defines
    absent or configurable properties and the (writable) [length] of an
    array; [None] is the TypeError / RangeError of a definition the target
    refuses. *)
Definition defineProperty (h : heap) (l : loc) (k : key) (d : desc) : option heap :=
  o ← h !! l;
  match alookup k (o_props o) with
  | Some d0 =>
      if d_configurable d0 then
        Some (<[l := Obj (o_kind o) (areplace k d (o_props o))]> h)
      else
        (* a non-configurable property only takes a new value while it is
           writable and the other attributes stay as they are *)
        match d_slot d0, d_slot d with
        | Data _ true, Data v w =>
            if bool_decide (d_enumerable d = d_enumerable d0)
               && negb (d_configurable d)
            then
              match o_kind o, bool_decide (k = "length"), v with
              | Arr, true, VNum (Num z) =>
                  if bool_decide (0 ≤ z < 4294967296)%Z then
                    let kept := filter (λ p, below_length (Z.to_N z) p = true) (o_props o) in
                    if forallb (λ p, below_length (Z.to_N z) p || d_configurable p.2)
                         (o_props o)
                    then Some (<[l := Obj Arr (areplace k d kept)]> h)
                    else None
                  else None
              | Arr, true, _ => None
              | _, _, _ => Some (<[l := Obj (o_kind o) (areplace k d (o_props o))]> h)
              end
            else None
        | _, _ => None
        end
  | None =>
      match o_kind o, array_index k with
      | Arr, Some i =>
          let props := aset k d (o_props o) in
          if bool_decide (array_length (o_props o) ≤ i)%N then
            match alookup "length" props with
            | Some dl =>
                if desc_writable dl then
                  Some (<[l := Obj Arr (areplace "length"
                           (with_value dl (VNum (Num (Z.of_N i + 1)))) props)]> h)
                else None
            | None => Some (<[l := Obj Arr props]> h)
            end
          else Some (<[l := Obj Arr props]> h)
      | _, _ => Some (<[l := Obj (o_kind o) (aset k d (o_props o))]> h)
      end
  end.

(** [Reflect.get(target, key)] on an ordinary object: own properties only
    (inherited members are outside the model). *)
Definition reflect_get (h : heap) (l : loc) (k : key) : value :=
  match getOwnPropertyDescriptor h l k with
  | Some (Desc (Data v _) _ _) => v
  | Some (Desc (Accessor (Some v) _) _ _) => v
  | _ => VUndef
  end.

(** [key in target] on an ordinary object. *)
Definition reflect_has (h : heap) (l : loc) (k : key) : bool :=
  bool_decide (is_Some (getOwnPropertyDescriptor h l k)).

(** [typeof x === "object" && x !== null] *)
Definition isObject (x : value) : bool :=
  match x with
  | VRef _ | VDraft _ | VTrack _ | VStore => true
  | _ => false
  end.

(** The object a value denotes once proxies are looked through: what
    [Array.isArray] and [Object.getPrototypeOf] see. *)
Definition target_of (x : value) : option loc :=
  match x with
  | VRef l | VDraft l | VTrack l => Some l
  | _ => None
  end.

(** [canProxy]: arrays and plain non-iterable objects. *)
Definition canProxy (h : heap) (x : value) : bool :=
  match target_of x with
  | Some l =>
      match h !! l with
      | Some o =>
          match o_kind o with
          | Plain | Arr => true
          | Exotic => false
          end
      | None => false
      end
  | None => false
  end.

(** A fresh object: [{}], or [[]] with its [length]. *)
Definition empty_obj (k : okind) : obj :=
  match k with
  | Arr => Obj Arr [("length", Desc (Data (VNum (Num 0)) true) false false)]
  | _ => Obj k []
  end.

Definition alloc (h : heap) (o : obj) : loc * heap :=
  let l := fresh (dom h) in (l, <[l := o]> h).

(** ** [readonly]

    [readonly(target, deep, visited)] is run on ordinary objects.  On a
    proxy the source re-enters the proxy's traps; that is outside the
    model and yields [None], as does an exhausted [fuel]. *)

Definition readonly_loop
    (rec : heap → value → gset loc → option (heap * gset loc))
    (deep : bool) (l : loc) :
    list key → heap → gset loc → option (heap * gset loc) :=
  fix loop keys h visited :=
    match keys with
    | [] => Some (h, visited)
    | k :: keys' =>
        match getOwnPropertyDescriptor h l k with
        | None => loop keys' h visited
        | Some d =>
            if negb (d_configurable d) then loop keys' h visited
            else
              match
                (if deep && truthy (desc_value d) && canProxy h (desc_value d)
                 then rec h (desc_value d) visited
                 else Some (h, visited))
              with
              | None => None
              | Some (h1, visited1) =>
                  if negb (desc_writable d) then loop keys' h1 visited1
                  else
                    match defineProperty h1 l k (clear_writable d) with
                    | Some h2 => loop keys' h2 visited1
                    | None => None
                    end
              end
        end
    end.

Fixpoint readonly (fuel : nat) (h : heap) (target : value) (deep : bool)
    (visited : gset loc) : option (heap * gset loc) :=
  match fuel with
  | 0 => None
  | S fuel' =>
      if negb (canProxy h target) then Some (h, visited)
      else
        match target with
        | VRef l =>
            if decide (l ∈ visited) then Some (h, visited)
            else
              readonly_loop (λ h' v vis, readonly fuel' h' v true vis) deep l
                (ownKeys h l) h ({[l]} ∪ visited)
        | _ => None
        end
  end.

(** Assignment [target[key] = v] on an ordinary object in strict code, for
    an own property or a new key: [None] is the TypeError of a refused
    assignment. *)
Definition ordinary_set (h : heap) (l : loc) (k : key) (v : value) : option heap :=
  match getOwnPropertyDescriptor h l k with
  | Some d =>
      match d_slot d with
      | Data _ true => defineProperty h l k (with_value d v)
      | Data _ false => None
      | Accessor _ true => Some h
      | Accessor _ false => None
      end
  | None => defineProperty h l k (Desc (Data v true) true true)
  end.
(** ** The closure state of [create] *)

(** A pending operation of [mutationCache]: [["set", value]] or [["del"]]. *)
Inductive mop :=
| MSet (v : value)
| MDel.

(** The record [mutationCache] keeps per target: the pending operations
    and the [DIRTY_SYMBOL] flag. *)
Record mutations := Mut {
  m_dirty : bool;
  m_ops : list (key * mop);
}.

(** [Used] and [Affected] of proxy-compare: per object, the keys checked
    with [in] ("h"), whether all own keys were listed ("w"), the keys
    checked for own existence ("o"), and the keys read ("k"). *)
Record used := Used {
  u_has : list key;
  u_allown : bool;
  u_hasown : list key;
  u_keys : list key;
}.

Abbreviation affected := (gmap loc used).

(** An entry of [computedCache], of the [cache] of a snapshot, or of a
    memoized selector. *)
Record centry := CEntry {
  ce_state : loc;
  ce_affected : affected;
  ce_result : value;
}.

(** Code that reads through tracking proxies: a computed getter or a
    selector.  Each node is one trapped operation on a tracking proxy (or a
    plain read of an ordinary object), or the allocation of a result. *)
Inductive rprog :=
| RRet (v : value)
| RThrow (e : value)
| RGet (t : value) (k : key) (cont : value → rprog)
| RHas (t : value) (k : key) (cont : bool → rprog)
| RHasOwn (t : value) (k : key) (cont : bool → rprog)
| ROwnKeys (t : value) (cont : list key → rprog)
| RNew (kind : okind) (props : list (key * value)) (cont : value → rprog).

(** A computed getter, as a function of its [this]. *)
Definition evaluator := value → rprog.

Record store := Store {
  s_heap : heap;
  _state : loc;
  _computedState : loc;
  _initialComputedState : loc;
  (* [listeners], in registration order, and the trace of the calls
     [listener(state, prevState)] made so far *)
  listeners : list nat;
  notified : list (nat * loc * loc);
  inAction : bool;
  mutationCache : gmap loc mutations;
  flushCache : gmap loc loc;
  childrenCache : gmap loc (list (key * loc));
  parentsCache : gmap loc (list loc);
  (* the slice: computed getters and the names of actions *)
  computed : list (key * evaluator);
  actionNames : list key;
  computedCache : list (key * centry);
  snapshotCache : gmap loc loc;
  (* per snapshot object: the state it was taken of and the [cache] its
     getters close over *)
  snapshots : gmap loc (loc * list (key * centry));
  trackMemoUntrackedObjSet : gset loc;
  (* trace of the calls of computed getters: name and state *)
  evaluated : list (key * loc);
}.

Definition with_heap (h : heap) (st : store) : store :=
  Store h (_state st) (_computedState st) (_initialComputedState st)
    (listeners st) (notified st) (inAction st) (mutationCache st)
    (flushCache st) (childrenCache st) (parentsCache st) (computed st)
    (actionNames st) (computedCache st) (snapshotCache st) (snapshots st)
    (trackMemoUntrackedObjSet st) (evaluated st).

Definition with_state (s c : loc) (st : store) : store :=
  Store (s_heap st) s c (_initialComputedState st)
    (listeners st) (notified st) (inAction st) (mutationCache st)
    (flushCache st) (childrenCache st) (parentsCache st) (computed st)
    (actionNames st) (computedCache st) (snapshotCache st) (snapshots st)
    (trackMemoUntrackedObjSet st) (evaluated st).

Definition with_listeners (ls : list nat) (st : store) : store :=
  Store (s_heap st) (_state st) (_computedState st) (_initialComputedState st)
    ls (notified st) (inAction st) (mutationCache st)
    (flushCache st) (childrenCache st) (parentsCache st) (computed st)
    (actionNames st) (computedCache st) (snapshotCache st) (snapshots st)
    (trackMemoUntrackedObjSet st) (evaluated st).

Definition with_notified (n : list (nat * loc * loc)) (st : store) : store :=
  Store (s_heap st) (_state st) (_computedState st) (_initialComputedState st)
    (listeners st) n (inAction st) (mutationCache st)
    (flushCache st) (childrenCache st) (parentsCache st) (computed st)
    (actionNames st) (computedCache st) (snapshotCache st) (snapshots st)
    (trackMemoUntrackedObjSet st) (evaluated st).

Definition with_inAction (b : bool) (st : store) : store :=
  Store (s_heap st) (_state st) (_computedState st) (_initialComputedState st)
    (listeners st) (notified st) b (mutationCache st)
    (flushCache st) (childrenCache st) (parentsCache st) (computed st)
    (actionNames st) (computedCache st) (snapshotCache st) (snapshots st)
    (trackMemoUntrackedObjSet st) (evaluated st).

Definition with_mutationCache (mc : gmap loc mutations) (st : store) : store :=
  Store (s_heap st) (_state st) (_computedState st) (_initialComputedState st)
    (listeners st) (notified st) (inAction st) mc
    (flushCache st) (childrenCache st) (parentsCache st) (computed st)
    (actionNames st) (computedCache st) (snapshotCache st) (snapshots st)
    (trackMemoUntrackedObjSet st) (evaluated st).

Definition with_flushCache (fc : gmap loc loc) (st : store) : store :=
  Store (s_heap st) (_state st) (_computedState st) (_initialComputedState st)
    (listeners st) (notified st) (inAction st) (mutationCache st)
    fc (childrenCache st) (parentsCache st) (computed st)
    (actionNames st) (computedCache st) (snapshotCache st) (snapshots st)
    (trackMemoUntrackedObjSet st) (evaluated st).

Definition with_links (cc : gmap loc (list (key * loc)))
    (pc : gmap loc (list loc)) (st : store) : store :=
  Store (s_heap st) (_state st) (_computedState st) (_initialComputedState st)
    (listeners st) (notified st) (inAction st) (mutationCache st)
    (flushCache st) cc pc (computed st)
    (actionNames st) (computedCache st) (snapshotCache st) (snapshots st)
    (trackMemoUntrackedObjSet st) (evaluated st).

Definition with_computedCache (c : list (key * centry)) (st : store) : store :=
  Store (s_heap st) (_state st) (_computedState st) (_initialComputedState st)
    (listeners st) (notified st) (inAction st) (mutationCache st)
    (flushCache st) (childrenCache st) (parentsCache st) (computed st)
    (actionNames st) c (snapshotCache st) (snapshots st)
    (trackMemoUntrackedObjSet st) (evaluated st).

Definition with_snapshots (sc : gmap loc loc)
    (ss : gmap loc (loc * list (key * centry))) (st : store) : store :=
  Store (s_heap st) (_state st) (_computedState st) (_initialComputedState st)
    (listeners st) (notified st) (inAction st) (mutationCache st)
    (flushCache st) (childrenCache st) (parentsCache st) (computed st)
    (actionNames st) (computedCache st) sc ss
    (trackMemoUntrackedObjSet st) (evaluated st).

Definition with_memoSet (s : gset loc) (st : store) : store :=
  Store (s_heap st) (_state st) (_computedState st) (_initialComputedState st)
    (listeners st) (notified st) (inAction st) (mutationCache st)
    (flushCache st) (childrenCache st) (parentsCache st) (computed st)
    (actionNames st) (computedCache st) (snapshotCache st) (snapshots st)
    s (evaluated st).

Definition with_evaluated (e : list (key * loc)) (st : store) : store :=
  Store (s_heap st) (_state st) (_computedState st) (_initialComputedState st)
    (listeners st) (notified st) (inAction st) (mutationCache st)
    (flushCache st) (childrenCache st) (parentsCache st) (computed st)
    (actionNames st) (computedCache st) (snapshotCache st) (snapshots st)
    (trackMemoUntrackedObjSet st) e.

(** What an engine entry point yields: a value and the next state, an
    exception raised to the caller with the state it leaves behind, or
    [Stuck] (exhausted fuel, or behaviour outside the model). *)
Inductive result (A : Type) :=
| Ok (a : A) (st : store)
| Exn (e : value) (st : store)
| Stuck.
Arguments Ok {A} a st.
Arguments Exn {A} e st.
Arguments Stuck {A}.

Definition rbind {A B} (r : result A) (f : A → store → result B) : result B :=
  match r with
  | Ok a st => f a st
  | Exn e st => Exn e st
  | Stuck => Stuck
  end.

Definition TypeError : value := VStr "TypeError".

(** The keys of [store]: the helper methods and the declared actions. *)
Definition helperMethodNames : list key :=
  ["$act"; "$get"; "$getInitialState"; "$set"; "$patch"; "$update";
   "$subscribe"; "$watch"].

Definition in_store (st : store) (k : key) : bool :=
  bool_decide (k ∈ helperMethodNames ++ actionNames st).

Definition computedNames (st : store) : list key := akeys (computed st).

(** ** The draft engine *)

(** [set.add(x)] on an insertion-ordered set. *)
Definition set_add (x : loc) (s : list loc) : list loc :=
  if decide (x ∈ s) then s else s ++ [x].

(** [set.delete(x)] *)
Definition set_delete (x : loc) (s : list loc) : list loc :=
  filter (λ y, y ≠ x) s.

(** [unlinkCache(target, prop)] *)
Definition unlinkCache (target : loc) (prop : key) (st : store) : store :=
  match childrenCache st !! target with
  | Some children =>
      match alookup prop children with
      | Some child =>
          let cc := <[target := adel prop children]> (childrenCache st) in
          match parentsCache st !! child with
          | Some childParents =>
              with_links cc
                (<[child := set_delete target childParents]> (parentsCache st)) st
          | None => with_links cc (parentsCache st) st
          end
      | None => st
      end
  | None => st
  end.

(** [markDirty(target)]: set the flag on the target and on everything
    [parentsCache] reaches from it.  The source does not guard against a
    cycle of parents; [fuel] bounds the depth of the recursion. *)
Fixpoint markDirty (fuel : nat) (pc : gmap loc (list loc)) (target : loc)
    (mc : gmap loc mutations) : option (gmap loc mutations) :=
  match fuel with
  | 0 => None
  | S fuel' =>
      let m := default (Mut false []) (mc !! target) in
      let mc1 := <[target := Mut true (m_ops m)]> mc in
      match pc !! target with
      | None => Some mc1
      | Some parents =>
          foldl (λ acc p, mc' ← acc; markDirty fuel' pc p mc') (Some mc1) parents
      end
  end.

(** The [get] trap of [createHandler(target)]. *)
Definition handler_get (target : loc) (prop : key) (st : store) : result value :=
  let h := s_heap st in
  let desc := getOwnPropertyDescriptor h target prop in
  if match desc with
     | Some d => negb (has_value d) && negb (desc_writable d) && negb (d_configurable d)
     | None => false
     end
  then Ok (reflect_get h target prop) st
  else
    match mutationCache st !! target ≫= (λ m, alookup prop (m_ops m)) with
    | Some (MSet v) => Ok v st
    | Some MDel => Ok VUndef st
    | None =>
        let v := reflect_get h target prop in
        if negb (canProxy h v) then Ok v st
        else
          match v with
          | VRef child =>
              let children := default [] (childrenCache st !! target) in
              let valueParents := default [] (parentsCache st !! child) in
              Ok (VDraft child)
                (with_links (<[target := aset prop child children]> (childrenCache st))
                   (<[child := set_add target valueParents]> (parentsCache st)) st)
          | _ => Stuck   (* a proxy stored in the state: not modelled *)
          end
    end.

(** The [has] trap. *)
Definition handler_has (target : loc) (prop : key) (st : store) : bool :=
  match mutationCache st !! target ≫= (λ m, alookup prop (m_ops m)) with
  | Some (MSet _) => true
  | Some MDel => false
  | None => reflect_has (s_heap st) target prop
  end.

(** The [ownKeys] trap. *)
Definition handler_ownKeys (target : loc) (st : store) : list key :=
  match mutationCache st !! target with
  | None => ownKeys (s_heap st) target
  | Some m =>
      foldl (λ keys p,
               match p.2 with
               | MSet _ => if decide (p.1 ∈ keys) then keys else keys ++ [p.1]
               | MDel => filter (λ k, k ≠ p.1) keys
               end)
        (dedup (ownKeys (s_heap st) target)) (m_ops m)
  end.

(** [getFlushed(obj)]: the copy-on-write materialisation of the pending
    operations below [obj]. *)
Definition getFlushed_loop (fuel : nat)
    (rec : value → store → option (value * store)) (obj newObj : loc) :
    list key → store → option store :=
  fix loop keys st :=
    match keys with
    | [] => Some st
    | k :: keys' =>
        match mutationCache st !! obj ≫= (λ m, alookup k (m_ops m)) with
        | Some (MSet v) =>
            let desc := getOwnPropertyDescriptor (s_heap st) obj k in
            '(h1, _) ← readonly fuel (s_heap st) v true ∅;
            match desc with
            | Some d =>
                if has_value d then
                  h2 ← defineProperty h1 newObj k (with_value d v);
                  loop keys' (with_heap h2 st)
                else None   (* accessor descriptor with a value: TypeError *)
            | None =>
                h2 ← defineProperty h1 newObj k (Desc (Data v false) true true);
                loop keys' (with_heap h2 st)
            end
        | Some MDel => loop keys' st
        | None =>
            match getOwnPropertyDescriptor (s_heap st) newObj k with
            | Some _ => loop keys' st   (* Array.length *)
            | None =>
                d ← getOwnPropertyDescriptor (s_heap st) obj k;
                if has_value d && d_configurable d then
                  '(v, st1) ← rec (reflect_get (s_heap st) obj k) st;
                  h2 ← defineProperty (s_heap st1) newObj k (with_value d v);
                  loop keys' (with_heap h2 st1)
                else
                  h2 ← defineProperty (s_heap st) newObj k d;
                  loop keys' (with_heap h2 st)
            end
        end
    end.

Fixpoint getFlushed (fuel : nat) (x : value) (st : store) : option (value * store) :=
  match fuel with
  | 0 => None
  | S fuel' =>
      match x with
      | VRef obj =>
          match mutationCache st !! obj with
          | None => Some (x, st)
          | Some m =>
              if negb (m_dirty m) then
                Some (match flushCache st !! obj with
                      | Some n => VRef n
                      | None => VUndef
                      end, st)
              else
                let st1 := with_mutationCache
                             (<[obj := Mut false (m_ops m)]> (mutationCache st)) st in
                let isArray := match s_heap st !! obj with
                               | Some (Obj Arr _) => true
                               | _ => false
                               end in
                let '(newObj, h1) :=
                  alloc (s_heap st1) (empty_obj (if isArray then Arr else Plain)) in
                let st2 := with_flushCache (<[obj := newObj]> (flushCache st1))
                             (with_heap h1 st1) in
                st3 ← getFlushed_loop fuel' (getFlushed fuel') obj newObj
                        (dedup (ownKeys (s_heap st) obj ++ akeys (m_ops m))) st2;
                Some (VRef newObj, st3)
          end
      | _ => Some (x, st)   (* not an object, or not a key of mutationCache *)
      end
  end.

(** ** Access tracking (proxy-compare) *)

(** [getUntracked(x)]: the original object of a tracking proxy. *)
Definition getUntracked (x : value) : option loc :=
  match x with
  | VTrack l => Some l
  | _ => None
  end.

(** [isOriginalEqual]: [Object.is] on the originals. *)
Definition isOriginalEqual (x y : value) : bool :=
  let orig v := match getUntracked v with Some l => VRef l | None => v end in
  object_is (orig x) (orig y).

Definition key_add (k : key) (ks : list key) : list key :=
  if decide (k ∈ ks) then ks else ks ++ [k].

Definition no_usage : used := Used [] false [] [].

(** [recordUsage(type, key)] of the handler of a tracking proxy. *)
Definition record_keys (l : loc) (k : key) (aff : affected) : affected :=
  let u := default no_usage (aff !! l) in
  <[l := Used (u_has u) (u_allown u) (u_hasown u) (key_add k (u_keys u))]> aff.

Definition record_has (l : loc) (k : key) (aff : affected) : affected :=
  let u := default no_usage (aff !! l) in
  <[l := Used (key_add k (u_has u)) (u_allown u) (u_hasown u) (u_keys u)]> aff.

Definition record_hasown (l : loc) (k : key) (aff : affected) : affected :=
  let u := default no_usage (aff !! l) in
  <[l := Used (u_has u) (u_allown u) (key_add k (u_hasown u)) (u_keys u)]> aff.

Definition record_allown (l : loc) (aff : affected) : affected :=
  let u := default no_usage (aff !! l) in
  <[l := Used (u_has u) true (u_hasown u) (u_keys u)]> aff.

(** [createProxy(obj, affected, ..)]: containers are wrapped, anything else
    is passed through.  A draft view as a state value is not modelled. *)
Definition createProxy (h : heap) (v : value) : option value :=
  if canProxy h v then
    match v with
    | VRef l | VTrack l => Some (VTrack l)
    | _ => None
    end
  else Some v.

Inductive outcome :=
| Returned (v : value)
| Raised (e : value).

(** Reading a property of a value that is not a proxy. *)
Definition plain_get (h : heap) (t : value) (k : key) : option value :=
  match t with
  | VRef l => Some (reflect_get h l k)
  | VUndef | VNull => None
  | _ => Some VUndef
  end.

(** Modelled from the spec: the tracked view of §4.1 ([wrap]), which is
    [createProxy] of proxy-compare and not part of the sources.  Running
    reader code against tracking proxies records each key read, each
    existence check and each enumeration in the access map, and wraps the
    containers it hands out. *)
Fixpoint run_tracked (p : rprog) (h : heap) (aff : affected) :
    option (outcome * heap * affected) :=
  match p with
  | RRet v => Some (Returned v, h, aff)
  | RThrow e => Some (Raised e, h, aff)
  | RGet t k cont =>
      match t with
      | VTrack l =>
          v ← createProxy h (reflect_get h l k);
          run_tracked (cont v) h (record_keys l k aff)
      | VDraft _ | VStore => None
      | _ =>
          match plain_get h t k with
          | Some v => run_tracked (cont v) h aff
          | None => Some (Raised TypeError, h, aff)
          end
      end
  | RHas t k cont =>
      match t with
      | VTrack l => run_tracked (cont (reflect_has h l k)) h (record_has l k aff)
      | VRef l => run_tracked (cont (reflect_has h l k)) h aff
      | VDraft _ | VStore => None
      | _ => Some (Raised TypeError, h, aff)
      end
  | RHasOwn t k cont =>
      match t with
      | VTrack l => run_tracked (cont (reflect_has h l k)) h (record_hasown l k aff)
      | VRef l => run_tracked (cont (reflect_has h l k)) h aff
      | VDraft _ | VStore => None
      | _ => Some (Raised TypeError, h, aff)
      end
  | ROwnKeys t cont =>
      match t with
      | VTrack l => run_tracked (cont (ownKeys h l)) h (record_allown l aff)
      | VRef l => run_tracked (cont (ownKeys h l)) h aff
      | VDraft _ | VStore => None
      | _ => Some (Raised TypeError, h, aff)
      end
  | RNew kind props cont =>
      let '(l, h1) := alloc h (empty_obj kind) in
      h2 ← foldl (λ acc p, h' ← acc;
                    defineProperty h' l p.1 (Desc (Data p.2 true) true true))
             (Some h1) props;
      run_tracked (cont (VRef l)) h2 aff
  end.

(** Modelled from the spec: [changed(oldRoot, newRoot, accessMap)] of §4.1,
    which is [isChanged] of proxy-compare and not part of the sources.  It
    walks only the recorded edges: existence for "has" and "own-keys"
    edges, and for a "key read" edge the two values by identity, recursing
    when they differ and the access map has an entry for the old value,
    and reporting a change when it has none.  [cache] is the WeakMap that
    cuts cycles. *)
Definition hasKeys_changed (h : heap) (p n : loc) (ks : list key) : bool :=
  existsb (λ k, negb (bool_decide (reflect_has h p k = reflect_has h n k))) ks.

Definition isChanged_keys
    (rec : value → value → gmap loc value → option (bool * gmap loc value))
    (h : heap) (p n : loc) :
    list key → gmap loc value → option (bool * gmap loc value) :=
  fix loop ks cache :=
    match ks with
    | [] => Some (false, cache)
    | k :: ks' =>
        '(c, cache1) ← rec (reflect_get h p k) (reflect_get h n k) cache;
        if c : bool then Some (true, cache1) else loop ks' cache1
    end.

Fixpoint isChanged (fuel : nat) (h : heap) (prevObj nextObj : value)
    (aff : affected) (cache : gmap loc value) : option (bool * gmap loc value) :=
  match fuel with
  | 0 => None
  | S fuel' =>
      if isOriginalEqual prevObj nextObj then Some (false, cache)
      else
        match prevObj, nextObj with
        | VRef p, VRef n =>
            match aff !! p with
            | None => Some (true, cache)
            | Some u =>
                if bool_decide (cache !! p = Some nextObj) then Some (false, cache)
                else
                  let cache1 := <[p := nextObj]> cache in
                  if hasKeys_changed h p n (u_has u) then Some (true, cache1)
                  else if (if u_allown u
                           then negb (bool_decide (ownKeys h p = ownKeys h n))
                           else hasKeys_changed h p n (u_hasown u))
                  then Some (true, cache1)
                  else
                    match u_has u, u_allown u, u_hasown u, u_keys u with
                    | [], false, [], [] => None   (* "invalid used" *)
                    | _, _, _, _ =>
                        isChanged_keys
                          (λ pv nv c, isChanged fuel' h pv nv aff c) h p n
                          (u_keys u) cache1
                    end
            end
        | (VDraft _ | VTrack _ | VStore), _ | _, (VDraft _ | VTrack _ | VStore) =>
            None   (* proxies inside a state: not modelled *)
        | _, _ => Some (true, cache)
        end
  end.

(** [touchAffected(dst, src, affected)] for a [dst] that is not a proxy:
    the replayed operations have no effect, but the walk over [affected]
    has to end. *)
Fixpoint touchAffected (fuel : nat) (h : heap) (dst src : value)
    (aff : affected) : option unit :=
  match fuel with
  | 0 => None
  | S fuel' =>
      match dst, src with
      | VRef d, VRef s =>
          match aff !! s with
          | None => Some ()
          | Some u =>
              foldl (λ acc k, _ ← acc;
                       touchAffected fuel' h (reflect_get h d k) (reflect_get h s k) aff)
                (Some ()) (u_keys u)
          end
      | (VDraft _ | VTrack _ | VStore), _ | _, (VDraft _ | VTrack _ | VStore) => None
      | _, _ => Some ()
      end
  end.

(** ** [untrack] *)

(** What [untrack] works on: the heap, the access map the proxies record
    into, [trackMemoUntrackedObjSet], and [seen]. *)
Record ustate := UState {
  us_heap : heap;
  us_affected : affected;
  us_memo : gset loc;
  us_seen : gset loc;
}.

(** The keys [for (const k in x)] visits. *)
Definition enumerable_keys (h : heap) (l : loc) : list key :=
  match h !! l with
  | Some o => akeys (filter (λ p, d_enumerable p.2 = true) (o_props o))
  | None => []
  end.

Definition untrack_loop (rec : value → ustate → option (value * ustate))
    (x : loc) : list key → ustate → option ustate :=
  fix loop ks s :=
    match ks with
    | [] => Some s
    | k :: ks' =>
        let v := reflect_get (us_heap s) x k in
        '(vv, s1) ← rec v s;
        if object_is vv v then loop ks' s1
        else
          h2 ← ordinary_set (us_heap s1) x k vv;
          loop ks' (UState h2 (us_affected s1) (us_memo s1) (us_seen s1))
    end.

(** [untrack(x, seen)].  [None] is an exhausted stack, the TypeError of a
    refused assignment, or a draft view (not modelled). *)
Fixpoint untrack (fuel : nat) (x : value) (s : ustate) : option (value * ustate) :=
  match fuel with
  | 0 => None
  | S fuel' =>
      if negb (isObject x) then Some (x, s)
      else
        match getUntracked x with
        | Some untrackedObj =>
            (* trackMemo(x) makes the proxy drop the usage of its object *)
            Some (VRef untrackedObj,
                  UState (us_heap s) (delete untrackedObj (us_affected s))
                    ({[untrackedObj]} ∪ us_memo s) (us_seen s))
        | None =>
            match x with
            | VRef l =>
                if decide (l ∈ us_seen s) then Some (x, s)
                else
                  s' ← untrack_loop (untrack fuel') l (enumerable_keys (us_heap s) l)
                         (UState (us_heap s) (us_affected s) (us_memo s)
                            ({[l]} ∪ us_seen s));
                  Some (x, s')
            | _ => None
            end
        end
  end.

(** ** Snapshots and computed values *)

(** [map.set(key, value)] on a [Map] in insertion order. *)
Definition map_set {A} (k : key) (a : A) (m : list (key * A)) : list (key * A) :=
  match alookup k m with
  | Some _ => areplace k a m
  | None => m ++ [(k, a)]
  end.

(** [!isChanged(prev, next, affected, new WeakMap(), isOriginalEqual)] *)
Definition unchanged (fuel : nat) (h : heap) (prev next : loc) (aff : affected) :
    option bool :=
  '(c, _) ← isChanged fuel h (VRef prev) (VRef next) aff ∅;
  Some (negb c).

(** [{ ...state }]: the enumerable own properties, read and redefined as
    plain data properties.  The getters [snapshotComputedState] then
    installs for the computed names are kept in [snapshots], not in the
    heap object; a state key of the same name is shadowed. *)
Definition spread (h : heap) (state : loc) (shadow : list key) : obj :=
  Obj Plain
    (omap (λ p, if d_enumerable p.2 && negb (bool_decide (p.1 ∈ shadow))
                then Some (p.1, Desc (Data (reflect_get h state p.1) true) true true)
                else None)
       (match h !! state with Some o => o_props o | None => [] end)).

(** [snapshotComputedState(state)] *)
Definition snapshotComputedState (fuel : nat) (state : loc) (st : store) :
    result loc :=
  match snapshotCache st !! state with
  | Some c => Ok c st
  | None =>
      let '(computedState, h1) :=
        alloc (s_heap st) (spread (s_heap st) state (computedNames st)) in
      match
        foldl (λ acc p,
                 cache ← acc;
                 u ← unchanged fuel h1 (ce_state p.2) state (ce_affected p.2);
                 if u : bool then
                   _ ← touchAffected fuel h1 (VRef state) (VRef (ce_state p.2))
                         (ce_affected p.2);
                   Some (map_set p.1 p.2 cache)
                 else Some cache)
          (Some []) (computedCache st)
      with
      | Some cache =>
          Ok computedState
            (with_snapshots (<[state := computedState]> (snapshotCache st))
               (<[computedState := (state, cache)]> (snapshots st))
               (with_heap h1 st))
      | None => Stuck
      end
  end.

Definition set_snapshot_cache (snap : loc) (state : loc) (k : key) (e : centry)
    (st : store) : store :=
  let cache := match snapshots st !! snap with
               | Some (_, c) => c
               | None => []
               end in
  with_snapshots (snapshotCache st)
    (<[snap := (state, map_set k e cache)]> (snapshots st)) st.

(** The getter [snapshotComputedState] installs on a snapshot for the
    computed value [key].  The getter body runs against a tracking proxy of
    the state; getters that read other computed values or call actions are
    outside the model. *)
Definition computed_get (fuel : nat) (snap : loc) (k : key) (st : store) :
    result value :=
  match snapshots st !! snap, alookup k (computed st) with
  | Some (state, cache), Some getter =>
      match alookup k cache with
      | Some e =>
          match touchAffected fuel (s_heap st) (VRef state) (VRef (ce_state e))
                  (ce_affected e) with
          | Some _ => Ok (ce_result e) st
          | None => Stuck
          end
      | None =>
          let evaluate :=
            match run_tracked (getter (VTrack state)) (s_heap st) ∅ with
            | Some (Raised e, h1, _) =>
                Exn e (with_evaluated (evaluated st ++ [(k, state)]) (with_heap h1 st))
            | Some (Returned r, h1, aff1) =>
                match untrack fuel r
                        (UState h1 aff1 (trackMemoUntrackedObjSet st) ∅) with
                | Some (v, s2) =>
                    let st1 := with_evaluated (evaluated st ++ [(k, state)])
                                 (with_memoSet (us_memo s2)
                                    (with_heap (us_heap s2) st)) in
                    let aff := us_affected s2 in
                    let e := CEntry state aff v in
                    match touchAffected fuel (s_heap st1) (VRef state) (VRef state) aff with
                    | Some _ =>
                        match alookup k (computedCache st1) with
                        | None =>
                            Ok v (set_snapshot_cache snap state k e
                                    (with_computedCache
                                       (map_set k e (computedCache st1)) st1))
                        | Some _ =>
                            match getFlushed fuel (VRef (_state st1)) st1 with
                            | Some (VRef latest, st2) =>
                                match unchanged fuel (s_heap st2) state latest aff with
                                | Some true =>
                                    Ok v (set_snapshot_cache snap state k e
                                            (with_computedCache
                                               (map_set k e (computedCache st2)) st2))
                                | Some false =>
                                    Ok v (set_snapshot_cache snap state k e st2)
                                | None => Stuck
                                end
                            | _ => Stuck
                            end
                        end
                    | None => Stuck
                    end
                | None => Stuck
                end
            | None => Stuck
            end in
          match alookup k (computedCache st) with
          | Some e =>
              match unchanged fuel (s_heap st) (ce_state e) state (ce_affected e) with
              | Some true =>
                  match touchAffected fuel (s_heap st) (VRef state)
                          (VRef (ce_state e)) (ce_affected e) with
                  | Some _ =>
                      Ok (ce_result e)
                        (set_snapshot_cache snap state k
                           (CEntry state (ce_affected e) (ce_result e)) st)
                  | None => Stuck
                  end
              | Some false => evaluate
              | None => Stuck
              end
          | None => evaluate
          end
      end
  | _, _ => Stuck
  end.

(** ** Publishing *)

(** [setState(state)] *)
Definition setState (fuel : nat) (state : value) (st : store) : result unit :=
  match state with
  | VRef s =>
      if object_is state (VRef (_state st)) then Ok () st
      else
        let prevState := _computedState st in
        rbind (snapshotComputedState fuel s (with_state s prevState st))
          (λ c st1,
             Ok () (with_notified
                      (notified st1 ++ map (λ listener, (listener, c, prevState)) (listeners st1))
                      (with_state s c st1)))
  | _ => Stuck   (* a state is an object *)
  end.

(** [flushMutations()] *)
Definition flushMutations (fuel : nat) (st : store) : result unit :=
  match mutationCache st !! _state st with
  | None => Ok () st
  | Some _ =>
      match getFlushed fuel (VRef (_state st)) st with
      | Some (v, st1) =>
          rbind (setState fuel v st1)
            (λ _ st2, Ok () (with_mutationCache ∅ st2))
      | None => Stuck
      end
  end.

(** [setValue(value)] in the [set] trap, and the common tail of
    [deleteProperty]. *)
Definition record_op (fuel : nat) (target : loc) (prop : key) (op : mop)
    (st : store) : result bool :=
  let mutations := default (Mut false []) (mutationCache st !! target) in
  let st1 := unlinkCache target prop st in
  let mc1 := <[target := Mut (m_dirty mutations) (aset prop op (m_ops mutations))]>
               (mutationCache st1) in
  match markDirty fuel (parentsCache st1) target mc1 with
  | Some mc2 =>
      let st2 := with_mutationCache mc2 st1 in
      if inAction st2 then Ok true st2
      else rbind (flushMutations fuel st2) (λ _ st3, Ok true st3)
  | None => Stuck
  end.

(** The [set] trap of [createHandler(target)]. *)
Definition handler_set (fuel : nat) (target : loc) (prop : key) (v : value)
    (st : store) : result bool :=
  let desc := getOwnPropertyDescriptor (s_heap st) target prop in
  if match desc with
     | Some d => negb (desc_writable d) && negb (d_configurable d)
     | None => false
     end
  then Ok false st
  else
    let mutations := default (Mut false []) (mutationCache st !! target) in
    match alookup prop (m_ops mutations) with
    | Some prevMutation =>
        match prevMutation with
        | MSet prevValue =>
            if object_is prevValue v then Ok true st
            else record_op fuel target prop (MSet v) st
        | MDel => record_op fuel target prop (MSet v) st
        end
    | None =>
        match desc with
        | Some (Desc (Accessor _ setter) _ _) =>
            (* [desc.set.call(handler, value)]: user code, or a TypeError
               when there is no setter *)
            if setter then Ok true st else Exn TypeError st
        | Some (Desc (Data dv _) _ _) =>
            if strict_eq dv v then Ok true st
            else record_op fuel target prop (MSet v) st
        | None => record_op fuel target prop (MSet v) st
        end
    end.

(** The [deleteProperty] trap. *)
Definition handler_deleteProperty (fuel : nat) (target : loc) (prop : key)
    (st : store) : result bool :=
  let desc := getOwnPropertyDescriptor (s_heap st) target prop in
  match desc with
  | Some d =>
      if negb (d_configurable d) then Ok false st
      else
        let mutations := default (Mut false []) (mutationCache st !! target) in
        match alookup prop (m_ops mutations) with
        | Some MDel => Ok true st
        | _ => record_op fuel target prop MDel st
        end
  | None => Ok true st
  end.

(** ** [proxiedStore] and the code that runs against it *)

(** Client code of the store: the body of an action, of an [$update]
    callback, or code that holds the store from outside.  Each node is one
    operation on a value the code holds ([VStore] is [this]); [Put] and
    [Delete] hand the boolean of [Reflect.set] / [Reflect.deleteProperty]
    to the continuation, which is where strict code raises.  Reading a
    computed value through [proxiedStore] is not modelled. *)
Inductive prog :=
| Ret (v : value)
| Throw (e : value)
| Get (t : value) (k : key) (cont : value → prog)
| Put (t : value) (k : key) (v : value) (cont : bool → prog)
| Delete (t : value) (k : key) (cont : bool → prog)
| Has (t : value) (k : key) (cont : bool → prog)
| Keys (t : value) (cont : list key → prog)
| New (kind : okind) (props : list (key * value)) (cont : value → prog)
| Call (body : prog) (cont : value → prog).

(** [act(action, args)], over the run of the action's body. *)
Definition act_with (fuel : nat) (body : store → result value) (st : store) :
    result value :=
  if inAction st then body st
  else
    rbind (body (with_inAction true st))
      (λ r st1,
         rbind (flushMutations fuel st1)
           (λ _ st2, Ok r (with_inAction false st2))).

Fixpoint exec (fuel : nat) (p : prog) (st : store) : result value :=
  match p with
  | Ret v => Ok v st
  | Throw e => Exn e st
  | Get t k cont =>
      match t with
      | VStore =>
          if in_store st k then exec fuel (cont (VFun 0)) st
          else if bool_decide (k ∈ computedNames st) then Stuck
          else rbind (handler_get (_state st) k st) (λ v st1, exec fuel (cont v) st1)
      | VDraft l => rbind (handler_get l k st) (λ v st1, exec fuel (cont v) st1)
      | VTrack _ => Stuck
      | _ =>
          match plain_get (s_heap st) t k with
          | Some v => exec fuel (cont v) st
          | None => Exn TypeError st
          end
      end
  | Put t k v cont =>
      match t with
      | VStore =>
          if in_store st k || bool_decide (k ∈ computedNames st)
          then exec fuel (cont false) st
          else rbind (handler_set fuel (_state st) k v st)
                 (λ b st1, exec fuel (cont b) st1)
      | VDraft l =>
          rbind (handler_set fuel l k v st) (λ b st1, exec fuel (cont b) st1)
      | VRef l =>
          match ordinary_set (s_heap st) l k v with
          | Some h1 => exec fuel (cont true) (with_heap h1 st)
          | None => exec fuel (cont false) st
          end
      | VTrack _ => Stuck
      | VUndef | VNull => Exn TypeError st
      | _ => exec fuel (cont false) st
      end
  | Delete t k cont =>
      match t with
      | VStore =>
          if in_store st k || bool_decide (k ∈ computedNames st)
          then exec fuel (cont false) st
          else rbind (handler_deleteProperty fuel (_state st) k st)
                 (λ b st1, exec fuel (cont b) st1)
      | VDraft l =>
          rbind (handler_deleteProperty fuel l k st) (λ b st1, exec fuel (cont b) st1)
      | VRef l =>
          match getOwnPropertyDescriptor (s_heap st) l k, s_heap st !! l with
          | Some d, Some o =>
              if d_configurable d then
                exec fuel (cont true)
                  (with_heap (<[l := Obj (o_kind o) (adel k (o_props o))]> (s_heap st)) st)
              else exec fuel (cont false) st
          | _, _ => exec fuel (cont true) st
          end
      | VTrack _ => Stuck
      | VUndef | VNull => Exn TypeError st
      | _ => exec fuel (cont true) st
      end
  | Has t k cont =>
      match t with
      | VStore =>
          if in_store st k || bool_decide (k ∈ computedNames st)
          then exec fuel (cont true) st
          else
            match mutationCache st !! _state st with
            | Some _ => exec fuel (cont (handler_has (_state st) k st)) st
            | None => exec fuel (cont (reflect_has (s_heap st) (_state st) k)) st
            end
      | VDraft l => exec fuel (cont (handler_has l k st)) st
      | VRef l => exec fuel (cont (reflect_has (s_heap st) l k)) st
      | VTrack _ => Stuck
      | _ => Exn TypeError st
      end
  | Keys t cont =>
      match t with
      | VStore =>
          exec fuel
            (cont (helperMethodNames
                   ++ match mutationCache st !! _state st with
                      | Some _ => handler_ownKeys (_state st) st
                      | None => ownKeys (s_heap st) (_state st)
                      end
                   ++ computedNames st ++ actionNames st)) st
      | VDraft l => exec fuel (cont (handler_ownKeys l st)) st
      | VRef l => exec fuel (cont (ownKeys (s_heap st) l)) st
      | VTrack _ => Stuck
      | _ => Exn TypeError st
      end
  | New kind props cont =>
      let '(l, h1) := alloc (s_heap st) (empty_obj kind) in
      match foldl (λ acc p, h' ← acc;
                     defineProperty h' l p.1 (Desc (Data p.2 true) true true))
              (Some h1) props with
      | Some h2 => exec fuel (cont (VRef l)) (with_heap h2 st)
      | None => Stuck
      end
  | Call body cont =>
      rbind (act_with fuel (exec fuel body) st) (λ v st1, exec fuel (cont v) st1)
  end.

(** ** The store methods *)

(** [$act(action, args)] and the callables of declared actions. *)
Definition act (fuel : nat) (action : prog) (st : store) : result value :=
  act_with fuel (exec fuel action) st.

(** [$get()] *)
Definition get (st : store) : loc := _computedState st.

(** [$getInitialState()] *)
Definition getInitialState (st : store) : loc := _initialComputedState st.

(** [$set(newState)] with a state object. *)
Definition set (fuel : nat) (newState : value) (st : store) : result unit :=
  setState fuel newState st.

(** [$set(setter)] with a setter function, given as the code of its body. *)
Definition set_with (fuel : nat) (setter : loc → prog) (st : store) : result unit :=
  rbind (exec fuel (setter (_state st)) st) (λ v st1, setState fuel v st1).

(** [$patch(partial)]: [setState({ ..._state, ...partial })]. *)
Definition patch (fuel : nat) (partial : loc) (st : store) : result unit :=
  let h := s_heap st in
  let '(l, h1) := alloc h (spread h (_state st) []) in
  match foldl (λ acc p, h' ← acc; defineProperty h' l p.1 p.2)
          (Some h1) (o_props (spread h partial [])) with
  | Some h2 => setState fuel (VRef l) (with_heap h2 st)
  | None => Stuck
  end.

(** [$update(updater)] *)
Definition update (fuel : nat) (updater : value → prog) (st : store) : result unit :=
  rbind (act fuel (updater VStore) st) (λ _ st1, Ok () st1).

(** [$subscribe(subscriber)]: registers a listener; the model names it by a
    number and returns it (the source returns the unsubscribe closure). *)
Definition subscribe (st : store) : nat * store :=
  let id := fresh (list_to_set (C := gset nat) (listeners st)) in
  (id, with_listeners (listeners st ++ [id]) st).

Definition unsubscribe (id : nat) (st : store) : store :=
  with_listeners (filter (λ x, x ≠ id) (listeners st)) st.

(** [create(slice)]: freeze the slice, split it into state, computed
    getters and actions, and take the first snapshot.  In the model the
    slice object holds the state properties; getters and action names come
    separately. *)
Definition create (fuel : nat) (h : heap) (slice : loc)
    (getters : list (key * evaluator)) (actions : list key) : option store :=
  '(h1, _) ← readonly fuel h (VRef slice) true ∅;
  let '(initialState, h2) := alloc h1 (Obj Plain []) in
  h3 ← foldl (λ acc k, h' ← acc;
                d ← getOwnPropertyDescriptor h' slice k;
                match desc_value d with
                | VFun _ => Some h'
                | _ => defineProperty h' initialState k d
                end)
        (Some h2) (ownKeys h1 slice);
  let st0 := Store h3 initialState initialState initialState [] [] false
               ∅ ∅ ∅ ∅ getters actions [] ∅ ∅ ∅ [] in
  match snapshotComputedState fuel initialState st0 with
  | Ok c st1 =>
      Some (Store (s_heap st1) initialState c c [] [] false
              ∅ ∅ ∅ ∅ getters actions [] (snapshotCache st1) (snapshots st1) ∅ [])
  | _ => None
  end.

(** ** Inlining a callee (the reading of re-entrancy in the spec) *)

(** [bind p k]: the code [p] followed by [k] applied to what [p] returns. *)
Fixpoint bind (p : prog) (k : value → prog) : prog :=
  match p with
  | Ret v => k v
  | Throw e => Throw e
  | Get t key cont => Get t key (λ v, bind (cont v) k)
  | Put t key v cont => Put t key v (λ b, bind (cont b) k)
  | Delete t key cont => Delete t key (λ b, bind (cont b) k)
  | Has t key cont => Has t key (λ b, bind (cont b) k)
  | Keys t cont => Keys t (λ ks, bind (cont ks) k)
  | New kind props cont => New kind props (λ v, bind (cont v) k)
  | Call body cont => Call body (λ v, bind (cont v) k)
  end.

(** [inline p]: every call of an action replaced by the callee's body. *)
Fixpoint inline (p : prog) : prog :=
  match p with
  | Ret v => Ret v
  | Throw e => Throw e
  | Get t key cont => Get t key (λ v, inline (cont v))
  | Put t key v cont => Put t key v (λ b, inline (cont b))
  | Delete t key cont => Delete t key (λ b, inline (cont b))
  | Has t key cont => Has t key (λ b, inline (cont b))
  | Keys t cont => Keys t (λ ks, inline (cont ks))
  | New kind props cont => New kind props (λ v, inline (cont v))
  | Call body cont => bind (inline body) (λ v, inline (cont v))
  end.

(** ** Sample slices, stores and actions *)

Definition data (v : value) : desc := Desc (Data v true) true true.

(** [create({ count: 0, inc() {..}, fail() {..} })] *)
Definition counter_store : option store :=
  create 4 {[ 1%positive := Obj Plain [("count", data (VNum (Num 0)))] ]}
    1%positive [] ["inc"; "fail"].

(** [inc() { this.count += 1 }] *)
Definition inc : prog :=
  Get VStore "count" (λ c,
    Put VStore "count"
      (match c with VNum (Num z) => VNum (Num (z + 1)) | _ => VNum NaN end)
      (λ _, Ret VUndef)).

(** [fail() { this.count = 1; throw "boom" }] *)
Definition fail : prog :=
  Put VStore "count" (VNum (Num 1)) (λ _, Throw (VStr "boom")).

(** [keep() { this.count = 0 }] *)
Definition keep : prog :=
  Put VStore "count" (VNum (Num 0)) (λ _, Ret VUndef).

(** [create({ ratio: NaN, renew() { this.ratio = NaN } })] *)
Definition ratio_store : option store :=
  create 4 {[ 1%positive := Obj Plain [("ratio", data (VNum NaN))] ]}
    1%positive [] ["renew"].

Definition renew : prog :=
  Put VStore "ratio" (VNum NaN) (λ _, Ret VUndef).

(** A store whose state is [{ limits: L }] with [L = { max: 10 }] frozen
    by [Object.freeze] (object 1 is the state, 2 is [L], 3 the snapshot). *)
Definition limits_store : store :=
  Store
    {[ 1%positive := Obj Plain [("limits", Desc (Data (VRef 2%positive) false) true true)];
       2%positive := Obj Plain [("max", Desc (Data (VNum (Num 10)) false) true false)];
       3%positive := Obj Plain [("limits", data (VRef 2%positive))] ]}
    1%positive 3%positive 3%positive [] [] true
    ∅ ∅ ∅ ∅ [] [] [] {[ 1%positive := 3%positive ]}
    {[ 3%positive := (1%positive, []) ]} ∅ [].

(** [create({ user: { name: "ann" }, settings: { theme: "dark" },
              rename() { this.user.name = "bob" } })]: object 1 is the
    slice, 2 the user, 3 the settings. *)
Definition profile_heap : heap :=
  {[ 1%positive := Obj Plain [("user", data (VRef 2%positive));
                              ("settings", data (VRef 3%positive))];
     2%positive := Obj Plain [("name", data (VStr "ann"))];
     3%positive := Obj Plain [("theme", data (VStr "dark"))] ]}.

Definition profile_store : store :=
  default limits_store (create 8 profile_heap 1%positive [] ["rename"]).

(** [rename() { this.user.name = "bob" }] *)
Definition rename : prog :=
  Get VStore "user" (λ u, Put u "name" (VStr "bob") (λ _, Ret VUndef)).

(** The store when the body of [rename] has run inside an action, and
    after the commit that follows. *)
Definition profile_renamed : store :=
  match exec 8 rename (with_inAction true profile_store) with
  | Ok _ st1 => st1
  | _ => profile_store
  end.

Definition profile_committed : store :=
  match getFlushed 8 (VRef (_state profile_renamed)) profile_renamed with
  | Some (_, st2) => st2
  | None => profile_renamed
  end.

(** [profile_store] with one subscriber, and the same when the body of
    [rename] has run inside an action. *)
Definition profile_watched : store := (subscribe profile_store).2.

Definition profile_watched_renamed : store :=
  match exec 12 rename (with_inAction true profile_watched) with
  | Ok _ st1 => st1
  | _ => profile_watched
  end.

(** [create({ user: { name: "ann" }, settings: { theme: "dark" },
              [get("label")]() { return this.user.name },
              retheme() { this.settings.theme = "light" } })] *)
Definition label : evaluator :=
  λ this, RGet this "user" (λ u, RGet u "name" (λ n, RRet n)).

Definition labelled_store : store :=
  default limits_store
    (create 8 profile_heap 1%positive [("label", label)] ["retheme"]).

(** [retheme() { this.settings.theme = "light" }] *)
Definition retheme : prog :=
  Get VStore "settings" (λ s, Put s "theme" (VStr "light") (λ _, Ret VUndef)).

(** The store after [label] has been read once and [retheme] has been
    dispatched. *)
Definition labelled_rethemed : store :=
  match computed_get 8 (get labelled_store) "label" labelled_store with
  | Ok _ st1 =>
      match act 12 retheme st1 with
      | Ok _ st2 => st2
      | _ => st1
      end
  | _ => labelled_store
  end.

(** What the first read of [label] has recorded: [user] on the state
    (object 4) and [name] on the user (object 2). *)
Definition label_affected : affected :=
  {[ 4%positive := Used [] false [] ["user"];
     2%positive := Used [] false [] ["name"] ]}.

(** ** Vocabulary of the statements *)

(** [d'] is [d] with, at most, [writable] cleared, and that only on a
    configurable property. *)
Definition same_but_writable (d d' : desc) : Prop :=
  d_enumerable d' = d_enumerable d
  ∧ d_configurable d' = d_configurable d
  ∧ match d_slot d, d_slot d' with
    | Data v w, Data v' w' =>
        v' = v ∧ (w' = true → w = true) ∧ (d_configurable d = false → w' = w)
    | Accessor g s, Accessor g' s' => g' = g ∧ s' = s
    | _, _ => False
    end.

(** Every object of [h] is in [h'] with the same kind, keys, values and
    attributes, except that properties may have lost [writable]. *)
Definition frozen_by (h h' : heap) : Prop :=
  ∀ l o, h !! l = Some o →
    ∃ o', h' !! l = Some o' ∧ o_kind o' = o_kind o
      ∧ Forall2 (λ p p', p'.1 = p.1 ∧ same_but_writable p.2 p'.2)
          (o_props o) (o_props o').

(** The edges [readonly] follows: a configurable data property that holds
    a plain object or an array. *)
Definition cfg_edge (h : heap) (l c : loc) : Prop :=
  ∃ k d, getOwnPropertyDescriptor h l k = Some d
    ∧ d_configurable d = true
    ∧ desc_value d = VRef c
    ∧ canProxy h (VRef c) = true.

(** Any data property that holds an object. *)
Definition data_edge (h : heap) (l c : loc) : Prop :=
  ∃ k d, getOwnPropertyDescriptor h l k = Some d ∧ desc_value d = VRef c.

(** Every configurable own property of [l] is non-writable. *)
Definition frozen_obj (h : heap) (l : loc) : Prop :=
  ∀ k d, getOwnPropertyDescriptor h l k = Some d →
    d_configurable d = true → desc_writable d = false.

(** No property holds a proxy (a draft view, a tracking proxy or the
    store). *)
Definition plain_desc (d : desc) : Prop :=
  match d_slot d with
  | Data (VDraft _ | VTrack _ | VStore) _ => False
  | Accessor (Some (VDraft _ | VTrack _ | VStore)) _ => False
  | _ => True
  end.

Global Instance plain_desc_dec d : Decision (plain_desc d).
Proof. unfold plain_desc. repeat case_match; apply _. Defined.

Definition proxy_free (h : heap) : Prop :=
  map_Forall (λ _ o, Forall (λ p, plain_desc p.2) (o_props o)) h.

Global Instance proxy_free_dec h : Decision (proxy_free h).
Proof. unfold proxy_free. apply _. Defined.

(** [{ a: Object.freeze({ inner: { x: 1 } }) }]: the object at [2] is
    shallowly frozen by its owner before the slice is handed over. *)
Definition sealed_slice : heap :=
  {[ 1%positive := Obj Plain [("a", data (VRef 2%positive))];
     2%positive := Obj Plain [("inner", Desc (Data (VRef 3%positive) false) true false)];
     3%positive := Obj Plain [("x", data (VNum (Num 1)))] ]}.

Definition not_proxy (v : value) : Prop :=
  match v with
  | VDraft _ | VTrack _ | VStore => False
  | _ => True
  end.

(** [d'] is [d], or [d] with the tracking proxy it held replaced by the
    proxy's original object. *)
Definition unwrapped_desc (d d' : desc) : Prop :=
  d_enumerable d' = d_enumerable d
  ∧ d_configurable d' = d_configurable d
  ∧ match d_slot d, d_slot d' with
    | Data v w, Data v' w' => w' = w ∧ (v' = v ∨ ∃ c, v = VTrack c ∧ v' = VRef c)
    | Accessor g s, Accessor g' s' => g' = g ∧ s' = s
    | _, _ => False
    end.

(** The heap [h'] has the objects of [h], each with the same kind, keys
    and attributes, and each property holds what it held in [h], up to the
    replacement of a tracking proxy by its original: the shape of the
    object graph, cycles included, is the same. *)
Definition unwrapped_by (h h' : heap) : Prop :=
  dom h' = dom h
  ∧ ∀ l o, h !! l = Some o →
      ∃ o', h' !! l = Some o' ∧ o_kind o' = o_kind o
        ∧ Forall2 (λ p p', p'.1 = p.1 ∧ unwrapped_desc p.2 p'.2)
            (o_props o) (o_props o').

(** What [untrack] can process: a tracking proxy sits in a writable,
    configurable data property, and no property holds a draft view or the
    store. *)
Definition untrack_ok_desc (d : desc) : Prop :=
  match d_slot d with
  | Data (VTrack _) w => w = true ∧ d_configurable d = true
  | Data (VDraft _ | VStore) _ => False
  | Accessor (Some (VTrack _ | VDraft _ | VStore)) _ => False
  | _ => True
  end.

Global Instance untrack_ok_desc_dec d : Decision (untrack_ok_desc d).
Proof. unfold untrack_ok_desc. repeat case_match; apply _. Defined.

Definition untrack_ok (h : heap) : Prop :=
  map_Forall (λ _ o, Forall (λ p, untrack_ok_desc p.2) (o_props o)) h.

Global Instance untrack_ok_dec h : Decision (untrack_ok h).
Proof. unfold untrack_ok. apply _. Defined.

(** The enumerable properties of [x] hold no tracking proxy, and the
    objects they hold are in [V]. *)
Definition settled (h : heap) (V : gset loc) (x : loc) : Prop :=
  Forall (λ k, match reflect_get h x k with
               | VTrack _ => False
               | VRef z => z ∈ V
               | _ => True
               end) (enumerable_keys h x).

Global Instance settled_dec h V x : Decision (settled h V x).
Proof.
  unfold settled. apply Forall_dec. intros k.
  destruct (reflect_get h x k); apply _.
Defined.

(** [G] holds the originals of all tracking proxies around ([v] itself and
    those held by properties), and what can be reached from them holds no
    tracking proxy. *)
Definition original_in (G : gset loc) (d : desc) : Prop :=
  match d_slot d with
  | Data (VTrack c) _ => c ∈ G
  | _ => True
  end.

Global Instance original_in_dec G d : Decision (original_in G d).
Proof. unfold original_in. repeat case_match; apply _. Defined.

Definition originals_in (h : heap) (G : gset loc) : Prop :=
  map_Forall (λ _ o, Forall (λ p, original_in G p.2) (o_props o)) h.

Global Instance originals_in_dec h G : Decision (originals_in h G).
Proof. unfold originals_in. apply _. Defined.

Definition originals_clean (h : heap) (v : value) (G : gset loc) : Prop :=
  match v with
  | VTrack c => c ∈ G
  | VDraft _ | VStore => False
  | _ => True
  end
  ∧ originals_in h G
  ∧ set_Forall (settled h G) G.

Global Instance originals_clean_dec h v G : Decision (originals_clean h v G).
Proof. unfold originals_clean. destruct v; apply _. Defined.

(** The state objects [A = { b: B }] and [B = { a: A }] form a cycle; a
    computed getter returned the fresh object [{ a: <proxy of A>, self }]
    whose [self] is the object itself. *)
Definition cyclic_result : heap :=
  {[ 1%positive := Obj Plain [("b", Desc (Data (VRef 2%positive) false) true true)];
     2%positive := Obj Plain [("a", Desc (Data (VRef 1%positive) false) true true)];
     3%positive := Obj Plain [("a", data (VTrack 1%positive));
                              ("self", data (VRef 3%positive))] ]}.

(** ** Invariants used in the proofs *)

(** What [setState] and the snapshots own, together with [inAction]: the
    draft traps leave it alone while an action runs. *)
Definition published (st : store) :=
  (_state st, _computedState st, listeners st, notified st, inAction st,
   (flushCache st, computed st, actionNames st, computedCache st,
    snapshotCache st, snapshots st, evaluated st)).

(** [l] is finished: frozen, and all its successors are in [V]. *)
Definition ro_done (h : heap) (V : gset loc) (l : loc) : Prop :=
  frozen_obj h l ∧ ∀ c, cfg_edge h l c → c ∈ V.

(** The outcome of [readonly] on [v], from [(h, vis)] to [(h', vis')]. *)
Definition ro_post (h : heap) (v : value) (vis : gset loc)
    (h' : heap) (vis' : gset loc) : Prop :=
  frozen_by h h' ∧ dom h' = dom h ∧ vis ⊆ vis'
  ∧ (canProxy h v = true → ∃ l, v = VRef l ∧ l ∈ vis')
  ∧ (∀ x, x ∈ vis' → x ∉ vis → ro_done h' vis' x).

(** [original v]: a tracking proxy stands for its original. *)
Definition original (v : value) : value :=
  match v with
  | VTrack c => VRef c
  | _ => v
  end.

(** The outcome of [untrack] from [s] to [s'], and what it needs. *)
Definition ut_post (G : gset loc) (s : ustate) (x : value) (s' : ustate) : Prop :=
  unwrapped_by (us_heap s) (us_heap s')
  ∧ us_seen s ⊆ us_seen s'
  ∧ (∀ l, x = VRef l → l ∈ us_seen s')
  ∧ (∀ c, x = VTrack c → us_heap s' = us_heap s)
  ∧ (∀ y, y ∈ us_seen s' → y ∉ us_seen s →
       settled (us_heap s') (G ∪ us_seen s') y).

Definition ut_pre (G : gset loc) (s : ustate) : Prop :=
  untrack_ok (us_heap s) ∧ originals_in (us_heap s) G.

Definition value_ok (G : gset loc) (v : value) : Prop :=
  match v with
  | VTrack c => c ∈ G
  | VDraft _ | VStore => False
  | _ => True
  end.


(** ** Vocabulary of the commit *)

(** The pending operation on [o[k]], if any. *)
Definition pending (mc : gmap loc mutations) (o : loc) (k : key) : option mop :=
  mc !! o ≫= λ m, alookup k (m_ops m).

Definition is_dirty (mc : gmap loc mutations) (o : loc) : Prop :=
  ∃ m, mc !! o = Some m ∧ m_dirty m = true.

Definition not_dirty (mc : gmap loc mutations) (o : loc) : Prop :=
  match mc !! o with
  | Some m => m_dirty m = false
  | None => True
  end.

(** What a commit puts in place of a value: an object that has a record in
    [mutationCache] is replaced by its copy in [flushCache], anything else
    is kept as it is. *)
Definition committed (mc : gmap loc mutations) (fc : gmap loc loc) (v : value) : value :=
  match v with
  | VRef c =>
      match mc !! c with
      | Some _ =>
          match fc !! c with
          | Some n => VRef n
          | None => VUndef
          end
      | None => v
      end
  | _ => v
  end.

Definition is_array (h : heap) (o : loc) : Prop :=
  ∃ ps, h !! o = Some (Obj Arr ps).

(** The property [k] of [o'] in [h'] is what the commit makes of the
    property [k] of [o]: a pending [set] is in place, a pending [delete]
    has removed the key, and any other property of [o] holds the committed
    form of what it held ([h] is the heap before the commit, [mc] the
    pending operations, [fc] the copies). *)
Definition key_done (h : heap) (mc : gmap loc mutations) (fc : gmap loc loc)
    (h' : heap) (o o' : loc) (k : key) : Prop :=
  match pending mc o k with
  | Some (MSet v) => reflect_get h' o' k = v
  | Some MDel => getOwnPropertyDescriptor h' o' k = None
  | None =>
      match getOwnPropertyDescriptor h o k with
      | Some d =>
          if has_value d && d_configurable d then
            reflect_get h' o' k = committed mc fc (reflect_get h o k)
          else reflect_get h' o' k = reflect_get h o k
      | None => getOwnPropertyDescriptor h' o' k = None
      end
  end.

(** The child under the key [k] of [o] that a commit descends into has
    been dealt with: it is not flagged any more. *)
Definition child_done (h : heap) (mc : gmap loc mutations) (o : loc) (k : key) : Prop :=
  ∀ d c, pending mc o k = None →
    getOwnPropertyDescriptor h o k = Some d →
    has_value d && d_configurable d = true →
    reflect_get h o k = VRef c → not_dirty mc c.

(** [o'] in [h'] is the materialised form of [o].  On an array this is
    stated for the keys other than [length], when no operation on [length]
    is pending. *)
Definition materialized (h : heap) (mc : gmap loc mutations) (fc : gmap loc loc)
    (h' : heap) (o o' : loc) : Prop :=
  (is_array h o → pending mc o "length" = None) →
  ∀ k, (is_array h o → k ≠ "length") →
    key_done h mc fc h' o o' k ∧ child_done h mc o k.

(** [o] was copied by the commit that led from heap [h] to [st']: its copy
    is a new object, and it is materialised. *)
Definition copied (h : heap) (st' : store) (o : loc) : Prop :=
  ∃ o', flushCache st' !! o = Some o'
    ∧ h !! o' = None
    ∧ is_Some (s_heap st' !! o')
    ∧ not_dirty (mutationCache st') o
    ∧ materialized h (mutationCache st') (flushCache st') (s_heap st') o o'.

(** The records of [mc'] are those of [mc], with flags cleared at most. *)
Definition flags_cleared (mc mc' : gmap loc mutations) : Prop :=
  ∀ l, match mc !! l, mc' !! l with
       | Some m, Some m' => m_ops m' = m_ops m ∧ (m_dirty m' = true → m_dirty m = true)
       | None, None => True
       | _, _ => False
       end.

(** [n] is an object the commit from [st] to [st'] has made: the copy of
    an object that was flagged. *)
Definition copy_of_flagged (st st' : store) (n : loc) : Prop :=
  ∃ o, is_dirty (mutationCache st) o ∧ not_dirty (mutationCache st') o
    ∧ flushCache st' !! o = Some n.

(** What [getFlushed] does to the store, from [st] to [st'].  [keep] says
    which objects of the heap before it keeps as they are (up to
    [writable]). *)
Definition flush_rel (keep : heap) (st st' : store) : Prop :=
  st' = with_flushCache (flushCache st')
          (with_mutationCache (mutationCache st') (with_heap (s_heap st') st))
  ∧ frozen_by keep (s_heap st')
  ∧ dom (s_heap st) ⊆ dom (s_heap st')
  ∧ flags_cleared (mutationCache st) (mutationCache st')
  ∧ (∀ o, not_dirty (mutationCache st) o → flushCache st' !! o = flushCache st !! o)
  ∧ (∀ o, is_dirty (mutationCache st) o →
       is_dirty (mutationCache st') o ∨ copied (s_heap st) st' o)
  ∧ (∀ n, s_heap st !! n = None → is_Some (s_heap st' !! n) →
       copy_of_flagged st st' n).

(** A parent back-reference: [p] is in [parentsCache.get(c)]. *)
Definition plink (pc : gmap loc (list loc)) (p c : loc) : Prop :=
  ∃ ps, pc !! c = Some ps ∧ p ∈ ps.

Definition parent_link (st : store) (p c : loc) : Prop :=
  plink (parentsCache st) p c.

(** [o] has a pending operation of its own. *)
Definition written (st : store) (o : loc) : Prop :=
  ∃ m, mutationCache st !! o = Some m ∧ m_ops m ≠ [].

(** Every record of [mutationCache] belongs to a written object or to an
    ancestor, along the parent back-references, of a written object. *)
Definition justified (st : store) : Prop :=
  ∀ o, is_Some (mutationCache st !! o) →
    ∃ w, written st w ∧ rtc (parent_link st) o w.

(** Every record of [mutationCache] is the record of an object of the
    heap. *)
Definition wf_mc (st : store) : Prop :=
  ∀ o, is_Some (mutationCache st !! o) → is_Some (s_heap st !! o).

(** The property [k] of [l] is the same in [h] and [h'], up to
    [writable]. *)
Definition same_prop (h h' : heap) (l : loc) (k : key) : Prop :=
  match getOwnPropertyDescriptor h l k, getOwnPropertyDescriptor h' l k with
  | Some d, Some d' => same_but_writable d d'
  | None, None => True
  | _, _ => False
  end.

(** What [getFlushed] returns for [x]. *)
Definition flush_result (x v : value) (st' : store) : Prop :=
  v = committed (mutationCache st') (flushCache st') x
  ∧ ∀ c, x = VRef c → not_dirty (mutationCache st') c.

(** What holds of the store while [getFlushed] fills the copy [N] of
    [obj], whose pending operations are [ops]. *)
Definition filling (obj N : loc) (ops : list (key * mop)) (st : store) : Prop :=
  wf_mc st
  ∧ is_Some (s_heap st !! N)
  ∧ mutationCache st !! N = None
  ∧ mutationCache st !! obj = Some (Mut false ops)
  ∧ (is_array (s_heap st) N → is_array (s_heap st) obj).

(** One round of the loop of [getFlushed], on the key [k], from [st] to
    [st1]. *)
Definition round_post (obj N : loc) (k : key) (st st1 : store) : Prop :=
  flush_rel (delete N (s_heap st)) st st1
  ∧ (is_array (s_heap st1) N ↔ is_array (s_heap st) N)
  ∧ (pending (mutationCache st) obj k = None
     ∨ getOwnPropertyDescriptor (s_heap st) N k = None →
     ∀ k', k' ≠ k → (is_array (s_heap st) N → k' ≠ "length") →
       same_prop (s_heap st) (s_heap st1) N k')
  ∧ (getOwnPropertyDescriptor (s_heap st) N k = None →
     key_done (s_heap st) (mutationCache st1) (flushCache st1) (s_heap st1) obj N k
     ∧ child_done (s_heap st) (mutationCache st1) obj k).

(** What [markDirty(t)] does to [mutationCache]: records keep their
    operations and their flags stay set; a new record is empty, flagged,
    and belongs to [t] or to an ancestor of [t]. *)
Definition mark_rel (pc : gmap loc (list loc)) (t : loc)
    (mc mc' : gmap loc mutations) : Prop :=
  ∀ o, match mc !! o, mc' !! o with
       | Some m, Some m' => m_ops m' = m_ops m ∧ (m_dirty m = true → m_dirty m' = true)
       | None, Some m' => m_ops m' = [] ∧ m_dirty m' = true ∧ rtc (plink pc) o t
       | None, None => True
       | Some _, None => False
       end.

(** Every record of [mutationCache] is flagged. *)
Definition all_dirty (st : store) : Prop :=
  ∀ o m, mutationCache st !! o = Some m → m_dirty m = true.

(** ** What the commit needs to go through *)

Global Instance not_proxy_dec v : Decision (not_proxy v).
Proof. unfold not_proxy. destruct v; apply _. Defined.

(** The flagged objects. *)
Definition dirty_set (mc : gmap loc mutations) : gset loc :=
  dom (filter (λ p, m_dirty p.2 = true) mc).

(** The [length] of an array as the engine makes it: a number, writable,
    not enumerable, not configurable. *)
Definition standard_length (d : desc) : Prop :=
  match d with
  | Desc (Data (VNum (Num _)) true) false false => True
  | _ => False
  end.

Global Instance standard_length_dec d : Decision (standard_length d).
Proof. unfold standard_length. repeat case_match; apply _. Defined.

(** A value [length] can be set to. *)
Definition valid_length (v : value) : Prop :=
  match v with
  | VNum (Num z) => (0 ≤ z < 4294967296)%Z
  | _ => False
  end.

Global Instance valid_length_dec v : Decision (valid_length v).
Proof. unfold valid_length. repeat case_match; apply _. Defined.

(** Every property other than [length] is configurable. *)
Definition elements_configurable (ps : list (key * desc)) : Prop :=
  Forall (λ p, p.1 = "length" ∨ d_configurable p.2 = true) ps.

(** A pending operation [getFlushed] can apply to the copy of [o]: a [set]
    holds no proxy and does not hit an accessor. *)
Definition op_ok (h : heap) (o : loc) (p : key * mop) : Prop :=
  match p.2 with
  | MSet v =>
      not_proxy v
      ∧ match getOwnPropertyDescriptor h o p.1 with
        | Some d => has_value d = true
        | None => True
        end
  | MDel => True
  end.

Global Instance op_ok_dec h o p : Decision (op_ok h o p).
Proof. unfold op_ok. repeat case_match; apply _. Defined.

(** On an array, [length] is the standard one; a pending [set] of
    [length] holds a valid length and meets configurable elements only. *)
Definition array_ok (h : heap) (o : loc) (ops : list (key * mop)) : Prop :=
  match h !! o with
  | Some (Obj Arr ps) =>
      match alookup "length" ps with
      | Some d => standard_length d
      | None => False
      end
      ∧ match alookup "length" ops with
        | Some (MSet v) => valid_length v ∧ elements_configurable ps
        | _ => True
        end
  | _ => True
  end.

Global Instance array_ok_dec h o ops : Decision (array_ok h o ops).
Proof. unfold array_ok, elements_configurable. repeat case_match; apply _. Defined.

Definition record_ok (h : heap) (o : loc) (m : mutations) : Prop :=
  Forall (op_ok h o) (m_ops m) ∧ array_ok h o (m_ops m).

(** The store can be committed: the records are records of objects of the
    heap, no proxy has been stored, and every record can be applied. *)
Definition flushable (st : store) : Prop :=
  dom (mutationCache st) ⊆ dom (s_heap st)
  ∧ proxy_free (s_heap st)
  ∧ map_Forall (record_ok (s_heap st)) (mutationCache st).

Global Instance flushable_dec st : Decision (flushable st).
Proof. unfold flushable, record_ok. apply _. Defined.

(** The copy [N] while it is filled: an array copy has the standard
    [length], and configurable elements only when [length] is to be set. *)
Definition building (h : heap) (N : loc) (ops : list (key * mop)) : Prop :=
  match h !! N with
  | Some (Obj Arr ps) =>
      match alookup "length" ps with
      | Some d => standard_length d
      | None => False
      end
      ∧ match alookup "length" ops with
        | Some (MSet v) => elements_configurable ps
        | _ => True
        end
  | Some (Obj Plain _) => True
  | _ => False
  end.

(** The size of what is left to do, and of the heap. *)
Definition flush_size (st : store) : nat :=
  size (dom (s_heap st)) + size (dirty_set (mutationCache st)).

(** ** Samples for the further properties *)

(** [profile_store] inside an action. *)
Definition profile_acting : store := with_inAction true profile_store.

(** ... after [user.name = "bob"], after [user.nick = "bo"] and after
    [delete user.name] through the draft of the user (object 2). *)
Definition profile_named : store :=
  match handler_set 8 2%positive "name" (VStr "bob") profile_acting with
  | Ok _ s => s
  | _ => profile_acting
  end.

Definition profile_nicked : store :=
  match handler_set 8 2%positive "nick" (VStr "bo") profile_acting with
  | Ok _ s => s
  | _ => profile_acting
  end.

Definition profile_unnamed : store :=
  match handler_deleteProperty 8 2%positive "name" profile_acting with
  | Ok _ s => s
  | _ => profile_acting
  end.

(** [create({ me: o })] with [o = { n: 0 }] and [o.self = o] (object 1). *)
Definition knot_store : store :=
  default limits_store
    (create 8
       {[ 1%positive := Obj Plain [("n", data (VNum (Num 0))); ("self", data (VRef 1%positive))];
          2%positive := Obj Plain [("me", data (VRef 1%positive))] ]}
       2%positive [] []).

(** The counter store with one subscriber. *)
Definition counter_watched : store :=
  (subscribe (default limits_store counter_store)).2.

(** ** Frozen copies *)

(** A property a direct assignment cannot change: it is not writable
    (an accessor has no [writable]), the [length] of an array aside. *)
Definition hard_prop (kd : okind) (p : key * desc) : Prop :=
  desc_writable p.2 = false ∨ (kd = Arr ∧ p.1 = "length").

Global Instance hard_prop_dec kd p : Decision (hard_prop kd p).
Proof. unfold hard_prop. apply _. Defined.

(** Every property of the object at [l] is such a property. *)
Definition hard (h : heap) (l : loc) : Prop :=
  match h !! l with
  | Some o => Forall (hard_prop (o_kind o)) (o_props o)
  | None => True
  end.

Global Instance hard_dec h l : Decision (hard h l).
Proof. unfold hard. destruct (h !! l); apply _. Defined.

(** The store in which [getFlushed] enters its loop for the flagged object
    [obj] with pending operations [ops], and the new object. *)
Definition start_copy (obj : loc) (ops : list (key * mop)) (st : store) : loc * store :=
  let st1 := with_mutationCache (<[obj := Mut false ops]> (mutationCache st)) st in
  let isArray := match s_heap st !! obj with
                 | Some (Obj Arr _) => true
                 | _ => false
                 end in
  let '(newObj, h1) := alloc (s_heap st1) (empty_obj (if isArray then Arr else Plain)) in
  (newObj, with_flushCache (<[obj := newObj]> (flushCache st1)) (with_heap h1 st1)).

(** What the loop of [getFlushed] keeps, besides [filling], while it fills
    the copy [N] of [obj]: the objects outside [G] are frozen, [G] holds
    neither the copy nor an object with a mutation record, and the copy of
    an array is an array. *)
Definition hardening (G : gset loc) (obj N : loc) (st : store) : Prop :=
  (is_array (s_heap st) obj → is_array (s_heap st) N)
  ∧ (N ∉ G)
  ∧ (∀ o, is_Some (mutationCache st !! o) → o ∉ G)
  ∧ (G ⊆ dom (s_heap st))
  ∧ (∀ n, n ∉ G → hard (s_heap st) n).

(** The store after [$set(l)] on a state object [l]. *)
Definition set_to (l : loc) (st : store) : store :=
  match set 8 (VRef l) st with
  | Ok _ st' => st'
  | _ => st
  end.

(** [profile_watched] after [$patch(p)] with [p] the settings object
    [{ theme: "dark" }]. *)
Definition profile_patched : store :=
  match patch 8 3%positive profile_watched with
  | Ok _ st' => st'
  | _ => profile_watched
  end.

(** ** The [getOwnPropertyDescriptor] trap *)

(** [Reflect.getOwnPropertyDescriptor(draft, prop)] through the trap of
    [createHandler(target)].  On a pending [set] the trap writes the new
    value into the descriptor of the target; on an accessor that gives a
    descriptor with both an accessor and a value, which the Proxy refuses
    with a TypeError.  The descriptor of a new key has no [writable],
    which reads as [false]. *)
Definition handler_getOwnPropertyDescriptor (target : loc) (prop : key)
    (st : store) : result (option desc) :=
  match mutationCache st !! target ≫= (λ m, alookup prop (m_ops m)) with
  | None => Ok (getOwnPropertyDescriptor (s_heap st) target prop) st
  | Some (MSet v) =>
      match getOwnPropertyDescriptor (s_heap st) target prop with
      | Some d => if has_value d then Ok (Some (with_value d v)) st else Exn TypeError st
      | None => Ok (Some (Desc (Data v false) true true)) st
      end
  | Some MDel => Ok None st
  end.

(** ** [memoizeSelector] *)

(** What a memoized selector works on: the heap, [trackMemoUntrackedObjSet],
    its one-entry [cache], and the trace of the states [fn] was run on. *)
Record memo := Memo {
  memo_heap : heap;
  memo_set : gset loc;
  memo_cache : option centry;
  memo_runs : list loc;
}.

(** One call [memoized(state)] of [memoized = memoizeSelector(fn)]: the
    outcome and the memo afterwards.  An exception of [fn] leaves the cache
    as it was. *)
Definition memoizeSelector (fuel : nat) (fn : evaluator) (state : loc) (m : memo) :
    option (outcome * memo) :=
  let evaluate :=
    '(out, h1, aff1) ← run_tracked (fn (VTrack state)) (memo_heap m) ∅;
    match out with
    | Raised e =>
        Some (Raised e, Memo h1 (memo_set m) (memo_cache m) (memo_runs m ++ [state]))
    | Returned r =>
        '(v, s2) ← untrack fuel r (UState h1 aff1 (memo_set m) ∅);
        _ ← touchAffected fuel (us_heap s2) (VRef state) (VRef state) (us_affected s2);
        Some (Returned v,
              Memo (us_heap s2) (us_memo s2)
                (Some (CEntry state (us_affected s2) v)) (memo_runs m ++ [state]))
    end in
  match memo_cache m with
  | Some e =>
      u ← unchanged fuel (memo_heap m) (ce_state e) state (ce_affected e);
      if u : bool then
        _ ← touchAffected fuel (memo_heap m) (VRef state) (VRef (ce_state e))
              (ce_affected e);
        Some (Returned (ce_result e), m)
      else evaluate
  | None => evaluate
  end.

(** ** Getter names *)

Definition getterNamePrefix : string := "troza/getter:".

(** [get(name)] of the slice helpers: the key under which a slice declares
    the computed value [name]. *)
Definition getterName (name : string) : key := getterNamePrefix +:+ name.

(** [key.slice(n)] *)
Definition string_slice (n : nat) (s : string) : string :=
  String.substring n (String.length s - n) s.

(** Where [create] puts a property of the slice: among the computed values
    (under the name after the prefix), the actions, or the state. *)
Inductive slice_slot :=
| SComputed (name : key)
| SAction
| SState.

Definition slot_of (k : key) (d : desc) : slice_slot :=
  match desc_value d with
  | VFun _ =>
      if String.prefix getterNamePrefix k
      then SComputed (string_slice (String.length getterNamePrefix) k)
      else SAction
  | _ => SState
  end.

(** [labelled_store] after the first read of [label]. *)
Definition labelled_read : store :=
  match computed_get 8 (get labelled_store) "label" labelled_store with
  | Ok _ st1 => st1
  | _ => labelled_store
  end.

(** The memo of [memoizeSelector(s => s.user.name)] after a call on the
    profile state (object 1 of [profile_heap]), and the same over a heap
    where object 4 is that state with other settings. *)
Definition label_memo : memo :=
  match memoizeSelector 8 label 1%positive (Memo profile_heap ∅ None []) with
  | Some (_, m) => m
  | None => Memo profile_heap ∅ None []
  end.

Definition label_memo_rethemed : memo :=
  Memo (<[4%positive := Obj Plain [("user", data (VRef 2%positive));
                                   ("settings", data (VRef 5%positive))]]>
          (<[5%positive := Obj Plain [("theme", data (VStr "light"))]]>
             (memo_heap label_memo)))
    (memo_set label_memo) (memo_cache label_memo) (memo_runs label_memo).

(** [profile_heap] after [readonly(state, true)], and the objects visited. *)
Definition profile_frozen : heap * gset loc :=
  default (profile_heap, ∅) (readonly 8 profile_heap (VRef 1%positive) true ∅).

(** ** Code that only reads *)

(** Client code without an assignment or a [delete]. *)
Inductive reads_only : prog → Prop :=
| reads_ret v : reads_only (Ret v)
| reads_throw e : reads_only (Throw e)
| reads_get t k cont : (∀ v, reads_only (cont v)) → reads_only (Get t k cont)
| reads_has t k cont : (∀ b, reads_only (cont b)) → reads_only (Has t k cont)
| reads_keys t cont : (∀ ks, reads_only (cont ks)) → reads_only (Keys t cont)
| reads_new kind props cont :
    (∀ v, reads_only (cont v)) → reads_only (New kind props cont)
| reads_call body cont :
    reads_only body → (∀ v, reads_only (cont v)) → reads_only (Call body cont).

(** [total() { return this.count }] *)
Definition total : prog := Get VStore "count" (λ c, Ret c).

(** [counter_watched] after the action [total] has been dispatched. *)
Definition counter_read : store :=
  match act 8 total counter_watched with
  | Ok _ st' => st'
  | _ => counter_watched
  end.

(** ** A subscription with a selector *)

(** What a call of the listener of [$subscribe(selector, subscriber)] comes
    to: the subscriber is not called, it is called with the two selected
    values, or the selector has thrown. *)
Inductive notice :=
| Silent
| Notify (newValue prevValue : value)
| Throws (e : value).

(** [listener(state, prevState)] of [$subscribe(selector, subscriber)], over
    the memo of [memoizeSelector(selector)]. *)
Definition selector_listener (fuel : nat) (selector : evaluator)
    (state prevState : loc) (m : memo) : option (notice * memo) :=
  '(o1, m1) ← memoizeSelector fuel selector state m;
  match o1 with
  | Raised e => Some (Throws e, m1)
  | Returned newValue =>
      '(o2, m2) ← memoizeSelector fuel selector prevState m1;
      match o2 with
      | Raised e => Some (Throws e, m2)
      | Returned prevValue =>
          if object_is newValue prevValue then Some (Silent, m2)
          else Some (Notify newValue prevValue, m2)
      end
  end.

(** [profile_watched] after the user has been read through the store
    outside an action ([const u = store.user]), and then after
    [store.flag = true], which publishes a new state. *)
Definition profile_read : store :=
  match handler_get (_state profile_watched) "user" profile_watched with
  | Ok _ st' => st'
  | _ => profile_watched
  end.

Definition profile_moved : store :=
  match handler_set 12 (_state profile_read) "flag" (VBool true) profile_read with
  | Ok _ st' => st'
  | _ => profile_read
  end.

(** ... and after [u.nick = "bo"] through the draft read before. *)
Definition profile_late : store :=
  match handler_set 12 2%positive "nick" (VStr "bo") profile_moved with
  | Ok _ st' => st'
  | _ => profile_moved
  end.

(** ** Strict assignment, and reading along enumerable properties *)

(** [t[k] = v] as a statement of strict code (module code and class
    bodies are strict): a [false] from the [set] trap or from an ordinary
    object is a TypeError. *)
Definition assign (t : value) (k : key) (v : value) (cont : prog) : prog :=
  Put t k v (λ b, if b : bool then cont else Throw TypeError).

(** [y[k]] is the object [z], for an enumerable key [k]. *)
Definition enum_edge (h : heap) (y z : loc) : Prop :=
  ∃ k, k ∈ enumerable_keys h y ∧ reflect_get h y k = VRef z.

(** The state object [{ n: 1 }] and the result [{ u: <proxy of the state> }]
    of a computed getter that has frozen what it returns. *)
Definition frozen_result : heap :=
  {[ 1%positive := Obj Plain [("n", Desc (Data (VNum (Num 1)) false) true true)];
     2%positive := Obj Plain [("u", Desc (Data (VTrack 1%positive) false) true false)] ]}.

(** [create({ a: { x: 1 } })]: object 1 is the slice, 2 the nested object. *)
Definition nested_store : store :=
  default limits_store
    (create 8 {[ 1%positive := Obj Plain [("a", data (VRef 2%positive))];
                 2%positive := Obj Plain [("x", data (VNum (Num 1)))] ]}
       1%positive [] []).

(** [create({ count: 0, limits: Object.freeze({ max: 10 }), raise_max() {..} })]:
    object 1 is the slice, 2 the frozen limits. *)
Definition guarded_store : option store :=
  create 8 {[ 1%positive := Obj Plain [("count", data (VNum (Num 0)));
                                       ("limits", data (VRef 2%positive))];
              2%positive := Obj Plain [("max", Desc (Data (VNum (Num 10)) false) true false)] ]}
    1%positive [] ["raise_max"].

(** [raise_max() { this.count = 1; this.limits.max = 11 }] *)
Definition raise_max : prog :=
  assign VStore "count" (VNum (Num 1))
    (Get VStore "limits" (λ l, assign l "max" (VNum (Num 11)) (Ret VUndef))).

(** [flag_and_rename() { this.flag = true; this.rename() }]: an action that
    writes and then calls the action [rename]. *)
Definition flag_and_rename : prog :=
  Put VStore "flag" (VBool true) (λ _, Call rename (λ _, Ret VUndef)).

(** The store when the body of [flag_and_rename] has run inside an action. *)
Definition profile_flagged_renamed : store :=
  match exec 12 flag_and_rename (with_inAction true profile_watched) with
  | Ok _ st1 => st1
  | _ => profile_watched
  end.

(** The string keys of [Object.prototype] (ECMAScript, with its Annex B):
    what [k in o] finds on a plain object besides the own keys of [o]. *)
Definition object_prototype_keys : list key :=
  ["constructor"; "__defineGetter__"; "__defineSetter__"; "hasOwnProperty";
   "__lookupGetter__"; "__lookupSetter__"; "isPrototypeOf";
   "propertyIsEnumerable"; "toString"; "valueOf"; "__proto__"; "toLocaleString"].

(** [pick_user() { return this.user }] *)
Definition pick_user : prog := Get VStore "user" (λ u, Ret u).

(** * Properties *)

(** ** Records: the projections of the field updates *)

Lemma with_id_heap st : with_heap (s_heap st) st = st.
Proof. by destruct st. Qed.

Lemma with_id_inAction st : with_inAction (inAction st) st = st.
Proof. by destruct st. Qed.

(** ** [$set] with the current state *)

(** C9. Calling [$set] with the object that is the store's current state
    (identical under [Object.is]) returns at once and leaves the whole
    store as it was: the same state and snapshot, no listener called.  A
    setter function that returns the state it was given does the same. *)
Theorem set_current_state_noop (fuel : nat) (st : store) :
  set fuel (VRef (_state st)) st = Ok () st
  ∧ set_with fuel (λ prevState, Ret (VRef prevState)) st = Ok () st.
Proof.
  assert (H : setState fuel (VRef (_state st)) st = Ok () st).
  { unfold setState, object_is. by rewrite bool_decide_eq_true_2. }
  split; [exact H|]. unfold set_with. simpl. exact H.
Qed.

(** ** Rejected writes *)

Lemma handler_set_rejected fuel target prop v st d :
  getOwnPropertyDescriptor (s_heap st) target prop = Some d →
  desc_writable d = false →
  d_configurable d = false →
  handler_set fuel target prop v st = Ok false st.
Proof.
  intros Hd Hw Hc. unfold handler_set. rewrite Hd, Hw, Hc. reflexivity.
Qed.

(** C5 (the code at the failing input).  The state is
    [{ count: 0, limits: L }] with [L = Object.freeze({ max: 10 })], and
    there is one subscriber.  The action [raise_max] assigns
    [this.count = 1] and then [this.limits.max = 11].  The [set] trap
    answers [false] for the frozen key, which in the strict code of an
    action is a TypeError: the dispatch is left by the exception, no
    listener is called and [$get()] is unchanged, the store stays inside
    the action, and the write to [count] stays pending, uncommitted. *)
Lemma frozen_key_write_raises_in_action :
  (st ← guarded_store;
   let st0 := (subscribe st).2 in
   match handler_set 8 2%positive "max" (VNum (Num 11)) (with_inAction true st0),
         act 8 raise_max st0 with
   | Ok b _, Exn e st1 =>
       Some (b, e, inAction st1, pending (mutationCache st1) (_state st1) "count",
             notified st1, bool_decide (get st1 = get st0))
   | _, _ => None
   end) = Some (false, TypeError, true, Some (MSet (VNum (Num 1))), [], true).
Proof. vm_compute. reflexivity. Qed.
(** ** Re-entrant actions *)

Lemma rbind_assoc {A B C} (r : result A) (f : A → store → result B)
    (g : B → store → result C) :
  rbind (rbind r f) g = rbind r (λ a st, rbind (f a st) g).
Proof. by destruct r. Qed.

Lemma rbind_ext_on {A B} (r : result A) (f g : A → store → result B) :
  (∀ a st, r = Ok a st → f a st = g a st) → rbind r f = rbind r g.
Proof. destruct r; simpl; auto. Qed.

(** Running [bind p k] is running [p] and then [k]. *)
Lemma exec_bind fuel p k st :
  exec fuel (bind p k) st = rbind (exec fuel p st) (λ v st', exec fuel (k v) st').
Proof.
  revert st. induction p as [v|e|t key cont IH|t key v cont IH|t key cont IH
    |t key cont IH|t cont IH|kind props cont IH|body IHb cont IH]; intros st; simpl.
  - done.
  - done.
  - repeat case_match; simpl; rewrite ?rbind_assoc; try done;
      try (apply rbind_ext_on; intros; apply IH); apply IH.
  - repeat case_match; simpl; rewrite ?rbind_assoc; try done;
      try (apply rbind_ext_on; intros; apply IH); apply IH.
  - repeat case_match; simpl; rewrite ?rbind_assoc; try done;
      try (apply rbind_ext_on; intros; apply IH); apply IH.
  - repeat case_match; simpl; rewrite ?rbind_assoc; try done; apply IH.
  - repeat case_match; simpl; rewrite ?rbind_assoc; try done; apply IH.
  - repeat case_match; simpl; rewrite ?rbind_assoc; try done; apply IH.
  - rewrite rbind_assoc. apply rbind_ext_on; intros; apply IH.
Qed.

Lemma published_inAction st st' :
  published st' = published st → inAction st' = inAction st.
Proof. unfold published. congruence. Qed.

Lemma unlinkCache_published target prop st :
  published (unlinkCache target prop st) = published st.
Proof. unfold unlinkCache. by repeat case_match. Qed.

Lemma handler_get_published target prop st v st' :
  handler_get target prop st = Ok v st' → published st' = published st.
Proof.
  unfold handler_get. intros H. repeat case_match; simplify_eq; done.
Qed.

Lemma handler_get_no_exn target prop st e st' :
  handler_get target prop st = Exn e st' → False.
Proof. unfold handler_get. intros H. repeat case_match; simplify_eq. Qed.

Lemma record_op_published fuel target prop op st b st' :
  inAction st = true →
  record_op fuel target prop op st = Ok b st' → published st' = published st.
Proof.
  intros Hin. unfold record_op.
  destruct (markDirty _ _ _ _) as [mc|]; [|done].
  assert (Hp : published (with_mutationCache mc (unlinkCache target prop st))
               = published st).
  { pose proof (unlinkCache_published target prop st) as Hu.
    unfold published in *. simpl. exact Hu. }
  assert (Hi : inAction (with_mutationCache mc (unlinkCache target prop st)) = true).
  { rewrite (published_inAction _ _ Hp). done. }
  rewrite Hi. intros [= <- <-]. exact Hp.
Qed.

Lemma record_op_no_exn fuel target prop op st e st' :
  inAction st = true →
  record_op fuel target prop op st = Exn e st' → False.
Proof.
  intros Hin. unfold record_op.
  destruct (markDirty _ _ _ _) as [mc|]; [|done].
  assert (Hi : inAction (with_mutationCache mc (unlinkCache target prop st)) = true).
  { pose proof (published_inAction _ _ (unlinkCache_published target prop st)) as Hu.
    simpl. congruence. }
  rewrite Hi. done.
Qed.

Lemma handler_set_published fuel target prop v st b st' :
  inAction st = true →
  handler_set fuel target prop v st = Ok b st' → published st' = published st.
Proof.
  intros Hin. unfold handler_set. intros H.
  repeat case_match; simplify_eq; try done;
    eapply record_op_published; eauto.
Qed.

Lemma handler_set_exn fuel target prop v st e st' :
  inAction st = true →
  handler_set fuel target prop v st = Exn e st' → st' = st.
Proof.
  intros Hin. unfold handler_set. intros H.
  repeat case_match; simplify_eq; try done;
    exfalso; eapply record_op_no_exn; eauto.
Qed.

Lemma handler_deleteProperty_published fuel target prop st b st' :
  inAction st = true →
  handler_deleteProperty fuel target prop st = Ok b st' →
  published st' = published st.
Proof.
  intros Hin. unfold handler_deleteProperty. intros H.
  repeat case_match; simplify_eq; try done;
    eapply record_op_published; eauto.
Qed.

Lemma handler_deleteProperty_no_exn fuel target prop st e st' :
  inAction st = true →
  handler_deleteProperty fuel target prop st = Exn e st' → False.
Proof.
  intros Hin. unfold handler_deleteProperty. intros H.
  repeat case_match; simplify_eq; try done;
    eapply record_op_no_exn; eauto.
Qed.

(** Inside an action, code returns or throws with nothing published. *)
Lemma exec_published fuel p : ∀ st,
  inAction st = true →
  (∀ v st', exec fuel p st = Ok v st' → published st' = published st)
  ∧ (∀ e st', exec fuel p st = Exn e st' → published st' = published st).
Proof.
  induction p as [v|e|t key cont IH|t key v cont IH|t key cont IH
    |t key cont IH|t cont IH|kind props cont IH|body IHb cont IH]; intros st Hin.
  - simpl. split; intros; simplify_eq; done.
  - simpl. split; intros; simplify_eq; done.
  - assert (Hstep : ∀ l r,
      rbind (handler_get l key st) (λ v st1, exec fuel (cont v) st1) = r →
      (∀ v st', r = Ok v st' → published st' = published st)
      ∧ (∀ e st', r = Exn e st' → published st' = published st)).
    { intros l r <-. destruct (handler_get l key st) as [v1 st1|e1 st1|] eqn:Hg; simpl.
      - pose proof (handler_get_published _ _ _ _ _ Hg) as Hp.
        destruct (IH v1 st1) as [H1 H2].
        { rewrite (published_inAction _ _ Hp). done. }
        split; intros; rewrite <- Hp; eauto.
      - by destruct (handler_get_no_exn _ _ _ _ _ Hg).
      - split; intros; done. }
    simpl. repeat case_match; try (eapply Hstep; reflexivity);
      try (apply IH; done); split; intros; simplify_eq; done.
  - assert (Hstep : ∀ l r,
      rbind (handler_set fuel l key v st) (λ b st1, exec fuel (cont b) st1) = r →
      (∀ v st', r = Ok v st' → published st' = published st)
      ∧ (∀ e st', r = Exn e st' → published st' = published st)).
    { intros l r <-. destruct (handler_set fuel l key v st) as [v1 st1|e1 st1|] eqn:Hg; simpl.
      - pose proof (handler_set_published _ _ _ _ _ _ _ Hin Hg) as Hp.
        destruct (IH v1 st1) as [H1 H2].
        { rewrite (published_inAction _ _ Hp). done. }
        split; intros; rewrite <- Hp; eauto.
      - rewrite (handler_set_exn _ _ _ _ _ _ _ Hin Hg).
        split; intros; simplify_eq; done.
      - split; intros; done. }
    simpl. repeat case_match; try (eapply Hstep; reflexivity);
      try (apply IH; done); try (split; intros; simplify_eq; done).
    match goal with
    | |- context [exec fuel (cont true) (with_heap ?h st)] =>
        destruct (IH true (with_heap h st)) as [Hk1 Hk2]; [done|];
        split; intros ? ? Hx; [rewrite (Hk1 _ _ Hx)|rewrite (Hk2 _ _ Hx)]; done
    end.
  - assert (Hstep : ∀ l r,
      rbind (handler_deleteProperty fuel l key st) (λ b st1, exec fuel (cont b) st1) = r →
      (∀ v st', r = Ok v st' → published st' = published st)
      ∧ (∀ e st', r = Exn e st' → published st' = published st)).
    { intros l r <-.
      destruct (handler_deleteProperty fuel l key st) as [v1 st1|e1 st1|] eqn:Hg; simpl.
      - pose proof (handler_deleteProperty_published _ _ _ _ _ _ Hin Hg) as Hp.
        destruct (IH v1 st1) as [H1 H2].
        { rewrite (published_inAction _ _ Hp). done. }
        split; intros; rewrite <- Hp; eauto.
      - by destruct (handler_deleteProperty_no_exn _ _ _ _ _ _ Hin Hg).
      - split; intros; done. }
    simpl. repeat case_match; try (eapply Hstep; reflexivity);
      try (apply IH; done); try (split; intros; simplify_eq; done).
    match goal with
    | |- context [exec fuel (cont true) (with_heap ?h st)] =>
        destruct (IH true (with_heap h st)) as [Hk1 Hk2]; [done|];
        split; intros ? ? Hx; [rewrite (Hk1 _ _ Hx)|rewrite (Hk2 _ _ Hx)]; done
    end.
  - simpl. repeat case_match; try (apply IH; done);
      split; intros; simplify_eq; done.
  - simpl. repeat case_match; try (apply IH; done);
      split; intros; simplify_eq; done.
  - simpl. repeat case_match; try (split; intros; simplify_eq; done).
    match goal with
    | |- context [exec fuel (cont ?v) (with_heap ?h st)] =>
        destruct (IH v (with_heap h st)) as [Hk1 Hk2]; [done|];
        split; intros ? ? Hx; [rewrite (Hk1 _ _ Hx)|rewrite (Hk2 _ _ Hx)]; done
    end.
  - simpl. unfold act_with. rewrite Hin.
    destruct (IHb st Hin) as [Hb1 Hb2].
    destruct (exec fuel body st) as [v1 st1|e1 st1|] eqn:Hb; simpl.
    + pose proof (Hb1 _ _ eq_refl) as Hp.
      destruct (IH v1 st1) as [H1 H2].
      { rewrite (published_inAction _ _ Hp). done. }
      split; intros; rewrite <- Hp; eauto.
    + split; intros; simplify_eq. eauto.
    + split; intros; done.
Qed.

Lemma exec_inAction fuel p st v st' :
  inAction st = true → exec fuel p st = Ok v st' → inAction st' = true.
Proof.
  intros Hin He. destruct (exec_published fuel p st Hin) as [H _].
  rewrite (published_inAction _ _ (H _ _ He)). done.
Qed.

(** Inside an action, a program and its inlined form run alike. *)
Lemma exec_inline fuel p : ∀ st,
  inAction st = true → exec fuel (inline p) st = exec fuel p st.
Proof.
  induction p as [v|e|t key cont IH|t key v cont IH|t key cont IH
    |t key cont IH|t cont IH|kind props cont IH|body IHb cont IH]; intros st Hin;
    simpl; try done.
  - repeat case_match; try done; try (by apply IH);
      apply rbind_ext_on; intros v1 st1 Hg; apply IH;
      rewrite (published_inAction _ _ (handler_get_published _ _ _ _ _ Hg)); done.
  - repeat case_match; try done; try (by apply IH);
      apply rbind_ext_on; intros v1 st1 Hg; apply IH;
      rewrite (published_inAction _ _ (handler_set_published _ _ _ _ _ _ _ Hin Hg)); done.
  - repeat case_match; try done; try (by apply IH);
      apply rbind_ext_on; intros v1 st1 Hg; apply IH;
      rewrite (published_inAction _ _
                 (handler_deleteProperty_published _ _ _ _ _ _ Hin Hg)); done.
  - repeat case_match; try done; by apply IH.
  - repeat case_match; try done; by apply IH.
  - repeat case_match; try done; by apply IH.
  - rewrite exec_bind. unfold act_with. rewrite Hin. rewrite IHb by done.
    apply rbind_ext_on. intros v1 st1 Hb. apply IH.
    eapply exec_inAction; eauto.
Qed.
(** ** An action that throws *)

(** When the body of a top-level action throws, [act] is left by the
    exception: nothing was published, but [inAction] stays set and the
    pending operations stay in [mutationCache]. *)
Lemma act_throw_state fuel a st e st1 :
  inAction st = false →
  exec fuel a (with_inAction true st) = Exn e st1 →
  act fuel a st = Exn e st1
  ∧ inAction st1 = true
  ∧ get st1 = get st
  ∧ notified st1 = notified st.
Proof.
  intros Hin He. unfold act, act_with. rewrite Hin, He. simpl.
  destruct (exec_published fuel a (with_inAction true st) eq_refl) as [_ H].
  specialize (H _ _ He). unfold published in H. simpl in H.
  injection H as H1 H2 H3 H4 H5.
  unfold get. split; [done|]. split; [done|]. split; done.
Qed.

(** C6 (the code at the failing input). On [{ count: 0 }] with one
    subscriber, [fail] writes [count = 1] and throws.  No listener is
    called and [$get()] is unchanged, but the store is left inside the
    action with the write still pending; the next action [inc] then runs
    as a nested call: it returns normally, publishes nothing and calls no
    listener, and [$get()] still answers the snapshot from before [fail]. *)
Lemma throwing_action_blocks_later_actions :
  (st ← counter_store;
   let st0 := (subscribe st).2 in
   match act 4 fail st0 with
   | Exn _ st1 =>
       match act 4 inc st1 with
       | Ok _ st2 =>
           Some (inAction st1, size (mutationCache st1), notified st1,
                 bool_decide (get st1 = get st0),
                 inAction st2, size (mutationCache st2), notified st2,
                 bool_decide (get st2 = get st0))
       | _ => None
       end
   | _ => None
   end) = Some (true, 1, [], true, true, 1, [], true).
Proof. vm_compute. reflexivity. Qed.

(** ** Writes of the value a property already has *)

(** A write is dropped when it is [Object.is]-identical to the pending
    value, or, with nothing pending, [===] to the value of the underlying
    data property. *)
Lemma handler_set_same_pending fuel target prop v st m :
  (match getOwnPropertyDescriptor (s_heap st) target prop with
   | Some d => negb (desc_writable d) && negb (d_configurable d)
   | None => false
   end) = false →
  mutationCache st !! target = Some m →
  alookup prop (m_ops m) = Some (MSet v) →
  handler_set fuel target prop v st = Ok true st.
Proof.
  intros Hd Hm Hp. unfold handler_set. rewrite Hd, Hm. simpl. rewrite Hp.
  unfold object_is. by rewrite bool_decide_eq_true_2.
Qed.

Lemma handler_set_same_snapshot fuel target prop v st dv w e c :
  getOwnPropertyDescriptor (s_heap st) target prop = Some (Desc (Data dv w) e c) →
  w || c = true →
  (mutationCache st !! target ≫= λ m, alookup prop (m_ops m)) = None →
  strict_eq dv v = true →
  handler_set fuel target prop v st = Ok true st.
Proof.
  intros Hd Hwc Hm Hs. unfold handler_set. rewrite Hd.
  destruct (mutationCache st !! target) as [m|]; simpl in *;
    rewrite ?Hm, Hs; by destruct w, c.
Qed.

(** C10 (the code at the failing input). On [{ ratio: NaN }] with one
    subscriber, the action [renew] assigns [NaN] to [ratio], the value the
    property already has.  The [set] trap compares with [===], under which
    [NaN] differs from itself: the write is recorded, a new snapshot is
    published and the listener is called once. *)
Lemma nan_rewrite_publishes :
  (st ← ratio_store;
   let st0 := (subscribe st).2 in
   match exec 4 renew (with_inAction true st0), act 4 renew st0 with
   | Ok _ st1, Ok _ st2 =>
       Some (reflect_get (s_heap st0) (_state st0) "ratio",
             (λ m, m_ops m) <$> mutationCache st1 !! _state st1,
             length (notified st2),
             bool_decide (get st2 = get st0))
   | _, _ => None
   end) = Some (VNum NaN, Some [("ratio", MSet (VNum NaN))], 1, false).
Proof. vm_compute. reflexivity. Qed.

(** ** One round per batch *)

(** ** Property lists *)

Section alist_facts.
Context {A : Type}.
Implicit Types (l : list (key * A)) (k : key).

Lemma alookup_areplace_eq l k a :
  is_Some (alookup k l) → alookup k (areplace k a l) = Some a.
Proof.
  induction l as [|[k' a'] l IH]; simpl; [by intros [? ?]|].
  destruct (decide (k = k')) as [->|Hne]; simpl.
  - by rewrite decide_True.
  - rewrite decide_False by done. exact IH.
Qed.

Lemma alookup_areplace_ne l k k' a :
  k' ≠ k → alookup k' (areplace k a l) = alookup k' l.
Proof.
  intros Hne. induction l as [|[k0 a0] l IH]; simpl; [done|].
  destruct (decide (k = k0)) as [->|Hne0]; simpl.
  - by rewrite !decide_False.
  - by rewrite IH.
Qed.

Lemma akeys_areplace l k a : akeys (areplace k a l) = akeys l.
Proof.
  unfold akeys. induction l as [|[k0 a0] l IH]; simpl; [done|].
  destruct (decide (k = k0)) as [->|Hne0]; simpl; [done|]. f_equal. exact IH.
Qed.

Lemma alookup_is_Some_akeys l k : is_Some (alookup k l) ↔ k ∈ akeys l.
Proof.
  unfold akeys. induction l as [|[k0 a0] l IH]; simpl.
  - split; [by intros [? ?]|]. intros H. by apply elem_of_nil in H.
  - destruct (decide (k = k0)) as [->|Hne0].
    + split; [intros; left|eauto].
    + rewrite IH. split; [by right|]. intros H.
      apply elem_of_cons in H as [?|?]; done.
Qed.

Lemma alookup_None_akeys l k : alookup k l = None ↔ k ∉ akeys l.
Proof.
  rewrite <- alookup_is_Some_akeys. rewrite eq_None_not_Some. done.
Qed.
End alist_facts.

Lemma Forall2_alookup {A B} (R : A → B → Prop) (l : list (key * A))
    (l' : list (key * B)) k :
  Forall2 (λ p p', p'.1 = p.1 ∧ R p.2 p'.2) l l' →
  match alookup k l, alookup k l' with
  | Some a, Some b => R a b
  | None, None => True
  | _, _ => False
  end.
Proof.
  induction 1 as [|[k1 a] [k2 b] l l' [Hk HR] _ IH]; simpl in *; [done|].
  subst k2. destruct (decide (k = k1)); done.
Qed.

Lemma Forall2_areplace {A} (R : A → A → Prop) (l : list (key * A)) k a a' :
  alookup k l = Some a → R a a' → (∀ x, R x x) →
  Forall2 (λ p p', p'.1 = p.1 ∧ R p.2 p'.2) l (areplace k a' l).
Proof.
  intros Hl HR Hrefl. induction l as [|[k0 a0] l IH]; simpl in *; [done|].
  destruct (decide (k = k0)) as [->|Hne]; simplify_eq.
  - constructor; [done|]. apply Forall2_same_length_lookup_2; [done|].
    intros i x y Hx Hy. simplify_eq. done.
  - constructor; [done|]. by apply IH.
Qed.

(** ** [frozen_by] *)

Lemma same_but_writable_refl d : same_but_writable d d.
Proof. unfold same_but_writable. destruct (d_slot d); auto. Qed.

Lemma same_but_writable_trans d1 d2 d3 :
  same_but_writable d1 d2 → same_but_writable d2 d3 → same_but_writable d1 d3.
Proof.
  unfold same_but_writable. intros (?&?&H1) (?&?&H2).
  split; [congruence|]. split; [congruence|].
  destruct (d_slot d1) as [v1 w1|g1 s1], (d_slot d2) as [v2 w2|g2 s2],
    (d_slot d3) as [v3 w3|g3 s3]; try done.
  - destruct H1 as (? & ? & Hc1), H2 as (? & ? & Hc2).
    split; [congruence|]. split; [tauto|]. intros Hc.
    rewrite Hc2, Hc1 by congruence. done.
  - destruct H1, H2. split; congruence.
Qed.

Lemma same_but_writable_clear d :
  d_configurable d = true → same_but_writable d (clear_writable d).
Proof.
  unfold same_but_writable, clear_writable.
  destruct d as [[v w|g s] e c]; simpl; intros ->; done.
Qed.

Lemma frozen_by_refl h : frozen_by h h.
Proof.
  intros l o Hl. exists o. split; [done|]. split; [done|].
  apply Forall2_same_length_lookup_2; [done|].
  intros i x y Hx Hy. simplify_eq. split; [done|]. apply same_but_writable_refl.
Qed.

Lemma frozen_by_trans h1 h2 h3 :
  frozen_by h1 h2 → frozen_by h2 h3 → frozen_by h1 h3.
Proof.
  intros H12 H23 l o Hl.
  destruct (H12 l o Hl) as (o2 & Hl2 & Hk2 & HF2).
  destruct (H23 l o2 Hl2) as (o3 & Hl3 & Hk3 & HF3).
  exists o3. split; [done|]. split; [congruence|].
  eapply Forall2_trans; [|exact HF2|exact HF3].
  intros x y z [? ?] [? ?]. split; [congruence|].
  eapply same_but_writable_trans; eauto.
Qed.

Lemma frozen_by_gopd h h' l k d :
  frozen_by h h' → getOwnPropertyDescriptor h l k = Some d →
  ∃ d', getOwnPropertyDescriptor h' l k = Some d' ∧ same_but_writable d d'.
Proof.
  unfold getOwnPropertyDescriptor. intros Hf Hd.
  destruct (h !! l) as [o|] eqn:Hl; simpl in *; [|done].
  destruct (Hf l o Hl) as (o' & Hl' & _ & HF). rewrite Hl'. simpl.
  pose proof (Forall2_alookup _ _ _ k HF) as H. rewrite Hd in H.
  destruct (alookup k (o_props o')); [eauto|done].
Qed.

Lemma frozen_by_gopd_inv h h' l k d' :
  frozen_by h h' → dom h' = dom h →
  getOwnPropertyDescriptor h' l k = Some d' →
  ∃ d, getOwnPropertyDescriptor h l k = Some d ∧ same_but_writable d d'.
Proof.
  unfold getOwnPropertyDescriptor. intros Hf Hdom Hd.
  destruct (h' !! l) as [o'|] eqn:Hl'; simpl in *; [|done].
  assert (is_Some (h !! l)) as [o Hl].
  { apply elem_of_dom. rewrite <- Hdom. apply elem_of_dom. eauto. }
  destruct (Hf l o Hl) as (o2 & Hl2 & _ & HF). simplify_eq. rewrite Hl. simpl.
  pose proof (Forall2_alookup _ _ _ k HF) as H. rewrite Hd in H.
  destruct (alookup k (o_props o)); [eauto|done].
Qed.

Lemma frozen_by_canProxy h h' v :
  frozen_by h h' → dom h' = dom h → canProxy h' v = canProxy h v.
Proof.
  intros Hf Hdom. unfold canProxy. destruct (target_of v) as [l|]; [|done].
  destruct (h !! l) as [o|] eqn:Hl.
  - destruct (Hf l o Hl) as (o' & -> & -> & _). done.
  - assert (h' !! l = None) as ->; [|done].
    apply not_elem_of_dom. rewrite Hdom. by apply not_elem_of_dom.
Qed.

Lemma frozen_by_ownKeys h h' l :
  frozen_by h h' → dom h' = dom h → ownKeys h' l = ownKeys h l.
Proof.
  intros Hf Hdom. unfold ownKeys. destruct (h !! l) as [o|] eqn:Hl.
  - destruct (Hf l o Hl) as (o' & -> & _ & HF). unfold akeys.
    induction HF as [|[] [] ? ? [? ?] ? IH]; simpl in *; [done|].
    f_equal; [congruence|exact IH].
  - assert (h' !! l = None) as ->; [|done].
    apply not_elem_of_dom. rewrite Hdom. by apply not_elem_of_dom.
Qed.

Lemma frozen_by_cfg_edge h h' l c :
  frozen_by h h' → dom h' = dom h → cfg_edge h' l c ↔ cfg_edge h l c.
Proof.
  intros Hf Hdom. unfold cfg_edge. split.
  - intros (k & d' & Hd & Hc & Hv & Hp).
    destruct (frozen_by_gopd_inv _ _ _ _ _ Hf Hdom Hd) as (d & Hd0 & He & Hcc & Hs).
    exists k, d. split; [done|]. split; [congruence|].
    rewrite (frozen_by_canProxy _ _ _ Hf Hdom) in Hp. split; [|done].
    unfold desc_value in *. destruct (d_slot d), (d_slot d'); try done.
    destruct Hs. congruence.
  - intros (k & d & Hd & Hc & Hv & Hp).
    destruct (frozen_by_gopd _ _ _ _ _ Hf Hd) as (d' & Hd0 & He & Hcc & Hs).
    exists k, d'. split; [done|]. split; [congruence|].
    rewrite (frozen_by_canProxy _ _ _ Hf Hdom). split; [|done].
    unfold desc_value in *. destruct (d_slot d), (d_slot d'); try done.
    destruct Hs. congruence.
Qed.

Lemma frozen_by_frozen_obj h h' l :
  frozen_by h h' → dom h' = dom h → frozen_obj h l → frozen_obj h' l.
Proof.
  intros Hf Hdom Hfo k d' Hd Hc.
  destruct (frozen_by_gopd_inv _ _ _ _ _ Hf Hdom Hd) as (d & Hd0 & He & Hcc & Hs).
  specialize (Hfo k d Hd0). rewrite <- Hcc in Hfo. specialize (Hfo Hc).
  unfold desc_writable in *.
  destruct (d_slot d) as [v w|g s], (d_slot d') as [v' w'|g' s']; try done.
  destruct Hs as (_ & Hw & _). destruct w'; [|done]. specialize (Hw eq_refl). congruence.
Qed.

(** Clearing [writable] on a configurable property. *)
Lemma defineProperty_clear h l k d0 d :
  getOwnPropertyDescriptor h l k = Some d0 →
  d_configurable d0 = true →
  same_but_writable d0 d →
  ∃ h', defineProperty h l k d = Some h' ∧ frozen_by h h' ∧ dom h' = dom h
    ∧ getOwnPropertyDescriptor h' l k = Some d.
Proof.
  unfold getOwnPropertyDescriptor, defineProperty. intros Hd Hc Hs.
  destruct (h !! l) as [o|] eqn:Hl; simpl in *; [|done].
  rewrite Hd, Hc. eexists. split; [done|]. split; [|split].
  - intros l' o' Hl'. destruct (decide (l' = l)) as [->|Hne].
    + simplify_eq. rewrite lookup_insert_eq. eexists. split; [done|].
      split; [done|]. simpl.
      eapply (Forall2_areplace same_but_writable); eauto.
      apply same_but_writable_refl.
    + rewrite lookup_insert_ne by done. exists o'. split; [done|].
      split; [done|]. apply Forall2_same_length_lookup_2; [done|].
      intros i x y Hx Hy. simplify_eq. split; [done|]. apply same_but_writable_refl.
  - rewrite dom_insert_L. apply elem_of_dom_2 in Hl. set_solver.
  - rewrite lookup_insert_eq. simpl. apply alookup_areplace_eq. eauto.
Qed.
(** ** [readonly]: what a deep freeze reaches *)

Lemma ro_done_mono h h' V V' l :
  frozen_by h h' → dom h' = dom h → V ⊆ V' → ro_done h V l → ro_done h' V' l.
Proof.
  intros Hf Hdom HV [Hfo He]. split.
  - eapply frozen_by_frozen_obj; eauto.
  - intros c Hc. apply HV, He. by apply (frozen_by_cfg_edge h h').
Qed.

Section readonly_loop.
Context (rec : heap → value → gset loc → option (heap * gset loc)).
Context (l : loc).
Hypothesis rec_post : ∀ h v vis h' vis',
  rec h v vis = Some (h', vis') → ro_post h v vis h' vis'.

Lemma readonly_loop_spec ks : ∀ h vis h' vis',
  readonly_loop rec true l ks h vis = Some (h', vis') →
  frozen_by h h' ∧ dom h' = dom h ∧ vis ⊆ vis'
  ∧ (∀ x, x ∈ vis' → x ∉ vis → ro_done h' vis' x)
  ∧ (∀ k d', k ∈ ks → getOwnPropertyDescriptor h' l k = Some d' →
       d_configurable d' = true →
       desc_writable d' = false
       ∧ ∀ c, desc_value d' = VRef c → canProxy h' (VRef c) = true → c ∈ vis').
Proof.
  induction ks as [|k ks IH]; intros h vis h' vis' Hrun; simpl in Hrun.
  { simplify_eq. split; [apply frozen_by_refl|]. split; [done|].
    split; [done|]. split; [done|]. intros k d' Hk. by apply elem_of_nil in Hk. }
  (* one step brings us to [(h2, vis1)], from where the rest runs *)
  assert (∃ h2 vis1,
    readonly_loop rec true l ks h2 vis1 = Some (h', vis')
    ∧ frozen_by h h2 ∧ dom h2 = dom h ∧ vis ⊆ vis1
    ∧ (∀ x, x ∈ vis1 → x ∉ vis → ro_done h2 vis1 x)
    ∧ (∀ d2, getOwnPropertyDescriptor h2 l k = Some d2 →
         d_configurable d2 = true →
         desc_writable d2 = false
         ∧ ∀ c, desc_value d2 = VRef c → canProxy h2 (VRef c) = true → c ∈ vis1))
    as (h2 & vis1 & Hrest & Hf2 & Hdom2 & Hv2 & Hnew2 & Hk2).
  { destruct (getOwnPropertyDescriptor h l k) as [d|] eqn:Hd.
    2:{ exists h, vis. split; [done|]. split; [apply frozen_by_refl|].
        split; [done|]. split; [done|]. split; [done|]. intros d2 Hd2. congruence. }
    destruct (d_configurable d) eqn:Hc; simpl in Hrun.
    2:{ exists h, vis. split; [done|]. split; [apply frozen_by_refl|].
        split; [done|]. split; [done|]. split; [done|]. intros d2 Hd2. congruence. }
    (* the recursive call, if any *)
    assert (∃ h1 vis1,
      (if truthy (desc_value d) && canProxy h (desc_value d)
       then rec h (desc_value d) vis else Some (h, vis)) = Some (h1, vis1)
      ∧ frozen_by h h1 ∧ dom h1 = dom h ∧ vis ⊆ vis1
      ∧ (∀ x, x ∈ vis1 → x ∉ vis → ro_done h1 vis1 x)
      ∧ (∀ c, desc_value d = VRef c → canProxy h (VRef c) = true → c ∈ vis1))
      as (h1 & vis1 & Hcall & Hf1 & Hdom1 & Hv1 & Hnew1 & Hedge1).
    { destruct (truthy (desc_value d) && canProxy h (desc_value d)) eqn:Hcond.
      - destruct (rec h (desc_value d) vis) as [[h1 vis1]|] eqn:Hr; [|done].
        destruct (rec_post _ _ _ _ _ Hr) as (Hf & Hdom & Hv & Ht & Hnew).
        exists h1, vis1. repeat (split; [done|]).
        intros c Hvc Hp. rewrite Hvc in Ht. destruct (Ht Hp) as (l' & ? & ?).
        by simplify_eq.
      - exists h, vis. split; [done|]. split; [apply frozen_by_refl|].
        repeat (split; [done|]). intros c Hvc Hp. rewrite Hvc in Hcond.
        simpl in Hcond. congruence. }
    simpl in Hrun. rewrite Hcall in Hrun.
    destruct (frozen_by_gopd _ _ _ _ _ Hf1 Hd) as (d1 & Hd1 & Hs1).
    destruct (desc_writable d) eqn:Hw; simpl in Hrun.
    - (* writable: redefine *)
      assert (same_but_writable d1 (clear_writable d)) as Hs2.
      { destruct Hs1 as (He & Hcc & Hs). unfold same_but_writable, clear_writable.
        unfold desc_writable in Hw.
        destruct d as [[v w|g s] e c], d1 as [[v1 w1|g1 s1] e1 c1];
          simpl in *; try done. destruct Hs as (-> & _ & _). subst.
      split; [done|]. split; [done|]. split; [done|]. split; [done|].
      intros; congruence. }
      destruct (defineProperty_clear h1 l k d1 (clear_writable d)) as
        (h2 & Hdef & Hf2 & Hdom2 & Hd2); [done|destruct Hs1 as (?&?&?); congruence|done|].
      rewrite Hdef in Hrun. exists h2, vis1. split; [done|].
      split; [eapply frozen_by_trans; eauto|]. split; [congruence|].
      split; [done|]. split.
      + intros x Hx Hnx.
        apply (ro_done_mono h1 h2 vis1 vis1); [exact Hf2|exact Hdom2|set_solver|eauto].
      + intros d2 Hd2' _. assert (d2 = clear_writable d) as -> by congruence. split.
        * clear. unfold clear_writable, desc_writable.
          by destruct d as [[v w|g s] e c].
        * intros c Hvc Hp. apply Hedge1.
          -- clear -Hvc. unfold clear_writable, desc_value in *.
             by destruct d as [[v w|g s] e c0].
          -- rewrite <- (frozen_by_canProxy h h2); [done| |congruence].
             eapply frozen_by_trans; eauto.
    - (* already non-writable *)
      exists h1, vis1. repeat (split; [done|]).
      intros d2 Hd2 _. assert (d2 = d1) as -> by congruence.
      destruct Hs1 as (He & Hcc & Hs). split.
      + unfold desc_writable in *.
        destruct (d_slot d) as [v w|g s], (d_slot d1) as [v2 w2|g2 s2]; try done.
        destruct Hs as (_ & Hs & _). destruct w2; [|done]. specialize (Hs eq_refl). congruence.
      + intros c Hvc Hp. apply Hedge1.
        * unfold desc_value in *.
          destruct (d_slot d) as [v w|g s], (d_slot d1) as [v2 w2|g2 s2]; try done.
          destruct Hs. congruence.
        * by rewrite <- (frozen_by_canProxy h h1). }
  destruct (IH _ _ _ _ Hrest) as (Hf & Hdom & Hv & Hnew & Hks).
  split; [eapply frozen_by_trans; eauto|]. split; [congruence|].
  split; [by etrans|]. split.
  - intros x Hx Hnx. destruct (decide (x ∈ vis1)) as [Hin|Hnin].
    + apply (ro_done_mono h2 h' vis1 vis'); [exact Hf|exact Hdom|exact Hv|eauto].
    + eauto.
  - intros k' d' Hk' Hd' Hc'. apply elem_of_cons in Hk' as [->|Hk']; [|eauto].
    destruct (frozen_by_gopd_inv _ _ _ _ _ Hf Hdom Hd') as (d2 & Hd2 & He & Hcc & Hs).
    destruct (Hk2 d2 Hd2) as [Hw2 He2]; [congruence|]. split.
    + unfold desc_writable in *.
      destruct (d_slot d2) as [v w|g s], (d_slot d') as [v2 w2|g2 s2]; try done.
      destruct Hs as (_ & Hs & _). destruct w2; [|done]. specialize (Hs eq_refl). congruence.
    + intros c Hvc Hp. apply Hv, He2.
      * unfold desc_value in *.
        destruct (d_slot d2) as [v w|g s], (d_slot d') as [v2 w2|g2 s2]; try done.
        destruct Hs. congruence.
      * by rewrite <- (frozen_by_canProxy h2 h').
Qed.
End readonly_loop.

Lemma readonly_post fuel : ∀ h target vis h' vis',
  readonly fuel h target true vis = Some (h', vis') →
  ro_post h target vis h' vis'.
Proof.
  induction fuel as [|fuel IH]; intros h target vis h' vis' Hrun; [done|].
  simpl in Hrun. destruct (canProxy h target) eqn:Hp; simpl in Hrun.
  2:{ simplify_eq. split; [apply frozen_by_refl|]. split; [done|].
      split; [done|]. split; [intros; congruence|]. intros x Hx Hnx. done. }
  destruct target as [| | | | | |l| | |]; try done.
  destruct (decide (l ∈ vis)) as [Hin|Hnin].
  { simplify_eq. split; [apply frozen_by_refl|]. split; [done|].
    split; [done|]. split; [eauto|]. intros x Hx Hnx. done. }
  destruct (readonly_loop_spec _ l IH _ _ _ _ _ Hrun)
    as (Hf & Hdom & Hv & Hnew & Hks).
  split; [done|]. split; [done|]. split; [set_solver|]. split.
  { intros _. exists l. split; [done|]. set_solver. }
  intros x Hx Hnx. destruct (decide (x = l)) as [->|Hne].
  - split.
    + intros k d' Hd' Hc'. eapply Hks; eauto.
      rewrite <- (frozen_by_ownKeys h h') by done.
      unfold ownKeys, getOwnPropertyDescriptor in *.
      destruct (h' !! l); simpl in *; [|done].
      apply alookup_is_Some_akeys. eauto.
    + intros c (k & d' & Hd' & Hc' & Hvc & Hpc). eapply Hks; eauto.
      rewrite <- (frozen_by_ownKeys h h') by done.
      unfold ownKeys, getOwnPropertyDescriptor in *.
      destruct (h' !! l); simpl in *; [|done].
      apply alookup_is_Some_akeys. eauto.
  - apply Hnew; [done|]. set_solver.
Qed.

(** Everything [readonly] can reach from the target is frozen. *)
Lemma readonly_reach fuel h root h' vis :
  canProxy h (VRef root) = true →
  readonly fuel h (VRef root) true ∅ = Some (h', vis) →
  ∀ l, rtc (cfg_edge h) root l → l ∈ vis ∧ frozen_obj h' l.
Proof.
  intros Hp Hrun.
  destruct (readonly_post _ _ _ _ _ _ Hrun) as (Hf & Hdom & Hv & Ht & Hnew).
  assert (∀ l, rtc (cfg_edge h) root l → l ∈ vis) as Hin.
  { intros l Hr. apply rtc_nsteps in Hr as [n Hr]. revert l Hr.
    induction n as [|n IHn]; intros l Hr.
    - inversion Hr; subst. destruct (Ht Hp) as (l' & ? & ?). by simplify_eq.
    - apply nsteps_inv_r in Hr as (m & Hm & He).
      destruct (Hnew m (IHn _ Hm)) as [_ Hclosed]; [set_solver|].
      apply Hclosed. by apply (frozen_by_cfg_edge h h'). }
  intros l Hr. split; [by apply Hin|].
  apply Hnew; [by apply Hin|set_solver].
Qed.
(** ** [readonly] returns *)

Lemma proxy_free_lookup h l k d :
  proxy_free h → getOwnPropertyDescriptor h l k = Some d → plain_desc d.
Proof.
  unfold proxy_free, getOwnPropertyDescriptor. intros Hpf Hd.
  destruct (h !! l) as [o|] eqn:Hl; simpl in *; [|done].
  specialize (Hpf l o Hl). simpl in Hpf. rewrite Forall_forall in Hpf.
  revert Hd Hpf. generalize (o_props o). intros ps.
  induction ps as [|[k0 d0] ps IH]; simpl; [done|].
  intros Hd Hpf. destruct (decide (k = k0)) as [->|Hne].
  - simplify_eq. apply (Hpf (k0, d)). left.
  - apply IH; [done|]. intros x Hx. apply Hpf. by right.
Qed.

Lemma plain_desc_value d : plain_desc d → not_proxy (desc_value d).
Proof.
  unfold plain_desc, desc_value, not_proxy.
  destruct (d_slot d) as [v w|g s]; [|done]. by destruct v.
Qed.

Lemma same_but_writable_plain d d' :
  same_but_writable d d' → plain_desc d → plain_desc d'.
Proof.
  unfold same_but_writable, plain_desc. intros (_ & _ & Hs).
  destruct (d_slot d) as [v w|g s], (d_slot d') as [v' w'|g' s']; try done.
  - destruct Hs as [-> _]. done.
  - destruct Hs as [-> _]. done.
Qed.

Lemma frozen_by_proxy_free h h' :
  frozen_by h h' → dom h' = dom h → proxy_free h → proxy_free h'.
Proof.
  intros Hf Hdom Hpf l o' Hl'. simpl.
  assert (is_Some (h !! l)) as [o Hl].
  { apply elem_of_dom. rewrite <- Hdom. apply elem_of_dom. eauto. }
  destruct (Hf l o Hl) as (o2 & Hl2 & _ & HF). simplify_eq.
  specialize (Hpf l o Hl). simpl in Hpf.
  revert Hpf. induction HF as [|[k d] [k' d'] ps ps' [_ Hs] _ IH]; [done|].
  intros Hpf. apply Forall_cons in Hpf as [Hd Hps]. constructor; [|by apply IH].
  simpl in *. eapply same_but_writable_plain; eauto.
Qed.

Lemma unvisited_mono (h h' : heap) (vis vis' : gset loc) :
  dom h' = dom h → vis ⊆ vis' → (size (dom h' ∖ vis') ≤ size (dom h ∖ vis))%nat.
Proof. intros -> Hv. apply subseteq_size. set_solver. Qed.

Section readonly_loop_total.
Context (rec : heap → value → gset loc → option (heap * gset loc)).
Context (l : loc) (n : nat).
Hypothesis rec_post : ∀ h v vis h' vis',
  rec h v vis = Some (h', vis') → ro_post h v vis h' vis'.
Hypothesis rec_total : ∀ h v vis,
  proxy_free h → not_proxy v → size (dom h ∖ vis) < n → is_Some (rec h v vis).

Lemma readonly_loop_total ks : ∀ h vis,
  proxy_free h → size (dom h ∖ vis) < n →
  is_Some (readonly_loop rec true l ks h vis).
Proof.
  induction ks as [|k ks IH]; intros h vis Hpf Hn; simpl; [eauto|].
  destruct (getOwnPropertyDescriptor h l k) as [d|] eqn:Hd; [|by apply IH].
  destruct (d_configurable d) eqn:Hc; simpl; [|by apply IH].
  assert (∃ h1 vis1,
    (if truthy (desc_value d) && canProxy h (desc_value d)
     then rec h (desc_value d) vis else Some (h, vis)) = Some (h1, vis1)
    ∧ frozen_by h h1 ∧ dom h1 = dom h ∧ vis ⊆ vis1)
    as (h1 & vis1 & -> & Hf1 & Hdom1 & Hv1).
  { destruct (truthy (desc_value d) && canProxy h (desc_value d)).
    - destruct (rec_total h (desc_value d) vis) as [[h1 vis1] Hr]; [done| |done|].
      { apply plain_desc_value. eapply proxy_free_lookup; eauto. }
      destruct (rec_post _ _ _ _ _ Hr) as (Hf & Hdom & Hv & _).
      exists h1, vis1. done.
    - exists h, vis. split; [done|]. split; [apply frozen_by_refl|]. done. }
  assert (proxy_free h1) as Hpf1 by (eapply frozen_by_proxy_free; eauto).
  assert (size (dom h1 ∖ vis1) < n) as Hn1.
  { eapply Nat.le_lt_trans; [|exact Hn]. by apply unvisited_mono. }
  destruct (desc_writable d) eqn:Hw; simpl; [|by apply IH].
  destruct (frozen_by_gopd _ _ _ _ _ Hf1 Hd) as (d1 & Hd1 & Hs1).
  destruct (defineProperty_clear h1 l k d1 (clear_writable d)) as
    (h2 & -> & Hf2 & Hdom2 & Hd2); [done|destruct Hs1 as (?&?&?); congruence| |].
  { destruct Hs1 as (He & Hcc & Hs). unfold same_but_writable, clear_writable.
    unfold desc_writable in Hw.
    destruct d as [[v w|g s] e c], d1 as [[v1 w1|g1 s1] e1 c1];
      simpl in *; try done. destruct Hs as (-> & _ & _). subst.
      split; [done|]. split; [done|]. split; [done|]. split; [done|].
      intros; congruence. }
  apply IH.
  - eapply frozen_by_proxy_free; eauto.
  - eapply Nat.le_lt_trans; [|exact Hn1]. by apply unvisited_mono.
Qed.
End readonly_loop_total.

Lemma readonly_total fuel : ∀ h target vis,
  proxy_free h → not_proxy target → size (dom h ∖ vis) < fuel →
  is_Some (readonly fuel h target true vis).
Proof.
  induction fuel as [|fuel IH]; intros h target vis Hpf Hnp Hn; [lia|].
  simpl. destruct (canProxy h target) eqn:Hp; simpl; [|eauto].
  destruct target as [| | | | | |l| | |]; try done.
  destruct (decide (l ∈ vis)) as [Hin|Hnin]; [eauto|].
  apply (readonly_loop_total _ l fuel).
  - intros. by eapply readonly_post.
  - intros. by apply IH.
  - done.
  - assert (l ∈ dom h).
    { unfold canProxy in Hp. simpl in Hp. apply elem_of_dom.
      destruct (h !! l); [eauto|done]. }
    assert (size (dom h ∖ ({[l]} ∪ vis)) < size (dom h ∖ vis)); [|lia].
    apply subset_size. set_solver.
Qed.

(** ** Freeze enforcement *)

(** C7 (counterexample).  Two mutations from outside that reach the store.
    In the slice [{ a: F }], where [F] was frozen shallowly by its owner
    ([inner] is neither configurable nor writable) and holds the plain
    object [{ x: 1 }], [readonly] does not descend through [inner]: the
    nested object is reachable from the slice, its property [x] is
    configurable and still writable, and assigning to it from outside
    succeeds and changes the object the state shares.  And in the store
    of [create({ a: { x: 1 } })], where [readonly] has reached the nested
    object, its property [x] is still configurable: [delete] on it from
    outside succeeds, and the object the state holds under [a] has lost
    [x], with the same snapshot and no listener called. *)
Lemma slice_mutable_after_readonly :
  rtc (data_edge sealed_slice) 1%positive 3%positive
  ∧ ((readonly 4 sealed_slice (VRef 1%positive) true ∅) ≫= λ '(h', _),
       Some (getOwnPropertyDescriptor h' 3%positive "x",
             (λ h'', reflect_get h'' 3%positive "x")
               <$> ordinary_set h' 3%positive "x" (VNum (Num 2))))
    = Some (Some (data (VNum (Num 1))), Some (VNum (Num 2)))
  ∧ match exec 4 (Delete (VRef 2%positive) "x" (λ b, Ret (VBool b))) nested_store with
    | Ok r st' =>
        Some (r, getOwnPropertyDescriptor (s_heap nested_store) 2%positive "x",
              reflect_get (s_heap st') 2%positive "x",
              reflect_get (s_heap st') (_state st') "a",
              bool_decide (get st' = get nested_store), notified st')
    | _ => None
    end
    = Some (VBool true, Some (Desc (Data (VNum (Num 1)) false) true true),
            VUndef, VRef 2%positive, true, []).
Proof.
  split; [|split].
  - eapply rtc_l; [|eapply rtc_once].
    + exists "a", (data (VRef 2%positive)). split; reflexivity.
    + exists "inner", (Desc (Data (VRef 3%positive) false) true false).
      split; reflexivity.
  - vm_compute. reflexivity.
  - vm_compute. reflexivity.
Qed.

Lemma ordinary_set_refused h l k d v :
  getOwnPropertyDescriptor h l k = Some d →
  has_value d = true → desc_writable d = false →
  ordinary_set h l k v = None.
Proof.
  intros Hd Hv Hw. unfold ordinary_set. rewrite Hd.
  unfold desc_writable, has_value in *.
  destruct (d_slot d) as [dv w|g s]; [by subst w|done].
Qed.

(** C7 (amended).  [readonly(slice, true)], the first step of [create],
    returns on every slice that holds no proxy, and it only clears
    [writable] attributes: accessor properties are left as they are and
    every property stays as configurable as it was.  Afterwards, on every
    plain object or array that is reachable from the slice through
    configurable data properties, each configurable own data property is
    non-writable, and an assignment to it is refused (a TypeError in
    strict code, nothing changed). *)
Theorem readonly_freezes_slice (fuel : nat) (h : heap) (slice : loc) :
  proxy_free h →
  canProxy h (VRef slice) = true →
  size (dom h) < fuel →
  ∃ h' vis,
    readonly fuel h (VRef slice) true ∅ = Some (h', vis)
    ∧ frozen_by h h'
    ∧ ∀ l, rtc (cfg_edge h) slice l →
        ∀ k d, getOwnPropertyDescriptor h' l k = Some d →
          d_configurable d = true → has_value d = true →
          desc_writable d = false
          ∧ ∀ v, ordinary_set h' l k v = None.
Proof.
  intros Hpf Hp Hn.
  destruct (readonly_total fuel h (VRef slice) ∅) as [[h' vis] Hrun]; [done|done| |].
  { eapply Nat.le_lt_trans; [|exact Hn]. apply subseteq_size. set_solver. }
  exists h', vis. split; [done|].
  destruct (readonly_post _ _ _ _ _ _ Hrun) as (Hf & _).
  split; [done|]. intros l Hr k d Hd Hc Hv.
  destruct (readonly_reach _ _ _ _ _ Hp Hrun l Hr) as [_ Hfo].
  pose proof (Hfo k d Hd Hc) as Hw. split; [done|].
  intros v. by apply ordinary_set_refused with (d := d).
Qed.

Lemma readonly_freezes_slice_witness :
  ∃ h' vis,
    readonly 4 sealed_slice (VRef 1%positive) true ∅ = Some (h', vis)
    ∧ frozen_by sealed_slice h'
    ∧ ∀ l, rtc (cfg_edge sealed_slice) 1%positive l →
        ∀ k d, getOwnPropertyDescriptor h' l k = Some d →
          d_configurable d = true → has_value d = true →
          desc_writable d = false
          ∧ ∀ v, ordinary_set h' l k v = None.
Proof.
  apply (readonly_freezes_slice 4 sealed_slice 1%positive).
  - apply (bool_decide_unpack _). vm_compute. exact I.
  - reflexivity.
  - vm_compute. lia.
Defined.
(** ** [untrack] *)

Lemma object_is_refl v : object_is v v = true.
Proof. unfold object_is. by apply bool_decide_eq_true_2. Qed.

Lemma unwrapped_desc_refl d : unwrapped_desc d d.
Proof. unfold unwrapped_desc. destruct (d_slot d); auto. Qed.

Lemma unwrapped_desc_trans d1 d2 d3 :
  unwrapped_desc d1 d2 → unwrapped_desc d2 d3 → unwrapped_desc d1 d3.
Proof.
  unfold unwrapped_desc. intros (?&?&H1) (?&?&H2).
  split; [congruence|]. split; [congruence|].
  destruct (d_slot d1), (d_slot d2), (d_slot d3); try done.
  - destruct H1 as [-> H1], H2 as [-> H2]. split; [done|].
    destruct H1 as [->|(c & -> & ->)]; [done|].
    destruct H2 as [->|(c' & ? & ?)]; [eauto|done].
  - destruct H1, H2. split; congruence.
Qed.

Lemma unwrapped_by_refl h : unwrapped_by h h.
Proof.
  split; [done|]. intros l o Hl. exists o. split; [done|]. split; [done|].
  apply Forall2_same_length_lookup_2; [done|].
  intros i x y Hx Hy. simplify_eq. split; [done|]. apply unwrapped_desc_refl.
Qed.

Lemma unwrapped_by_trans h1 h2 h3 :
  unwrapped_by h1 h2 → unwrapped_by h2 h3 → unwrapped_by h1 h3.
Proof.
  intros [Hd12 H12] [Hd23 H23]. split; [congruence|]. intros l o Hl.
  destruct (H12 l o Hl) as (o2 & Hl2 & Hk2 & HF2).
  destruct (H23 l o2 Hl2) as (o3 & Hl3 & Hk3 & HF3).
  exists o3. split; [done|]. split; [congruence|].
  eapply Forall2_trans; [|exact HF2|exact HF3].
  intros x y z [? ?] [? ?]. split; [congruence|].
  eapply unwrapped_desc_trans; eauto.
Qed.

Lemma unwrapped_by_gopd h h' l k :
  unwrapped_by h h' →
  match getOwnPropertyDescriptor h l k, getOwnPropertyDescriptor h' l k with
  | Some d, Some d' => unwrapped_desc d d'
  | None, None => True
  | _, _ => False
  end.
Proof.
  unfold getOwnPropertyDescriptor. intros [Hdom Hu].
  destruct (h !! l) as [o|] eqn:Hl; simpl.
  - destruct (Hu l o Hl) as (o' & -> & _ & HF). simpl.
    apply (Forall2_alookup _ _ _ k HF).
  - assert (h' !! l = None) as ->; [|done].
    apply not_elem_of_dom. rewrite Hdom. by apply not_elem_of_dom.
Qed.

Lemma unwrapped_by_reflect_get h h' l k :
  unwrapped_by h h' →
  reflect_get h' l k = reflect_get h l k
  ∨ ∃ c, reflect_get h l k = VTrack c ∧ reflect_get h' l k = VRef c.
Proof.
  intros Hu. pose proof (unwrapped_by_gopd h h' l k Hu) as H.
  unfold reflect_get.
  destruct (getOwnPropertyDescriptor h l k) as [[[v w|g s] e c]|],
    (getOwnPropertyDescriptor h' l k) as [[[v' w'|g' s'] e' c']|];
    try (by destruct H); try (by left);
    destruct H as (_ & _ & H); simpl in H; try (by destruct H).
  all: first [ destruct H as [_ [->|(x & -> & ->)]]; by eauto
             | destruct H as [-> _]; by left ].
Qed.

Lemma unwrapped_by_reflect_get_stable h h' l k :
  unwrapped_by h h' → (∀ c, reflect_get h l k ≠ VTrack c) →
  reflect_get h' l k = reflect_get h l k.
Proof.
  intros Hu Hn. destruct (unwrapped_by_reflect_get h h' l k Hu) as [?|(c & ? & _)];
    [done|]. by destruct (Hn c).
Qed.

Lemma unwrapped_by_enumerable_keys h h' l :
  unwrapped_by h h' → enumerable_keys h' l = enumerable_keys h l.
Proof.
  intros [Hdom Hu]. unfold enumerable_keys. destruct (h !! l) as [o|] eqn:Hl.
  - destruct (Hu l o Hl) as (o' & -> & _ & HF). unfold akeys.
    induction HF as [|[k d] [k' d'] ps ps' [Hk (He & _)] _ IH]; [done|].
    simpl in *. rewrite !filter_cons. simpl. rewrite He, Hk.
    destruct (decide (d_enumerable d = true)); simpl; [f_equal|]; exact IH.
  - assert (h' !! l = None) as ->; [|done].
    apply not_elem_of_dom. rewrite Hdom. by apply not_elem_of_dom.
Qed.

Lemma heap_Forall_inv (P : desc → Prop) (Q : desc → Prop) (h h' : heap)
    (R : desc → desc → Prop) :
  (∀ d d', R d d' → P d → Q d') →
  dom h' = dom h →
  (∀ l o, h !! l = Some o → ∃ o', h' !! l = Some o' ∧ o_kind o' = o_kind o
      ∧ Forall2 (λ p p', p'.1 = p.1 ∧ R p.2 p'.2) (o_props o) (o_props o')) →
  map_Forall (λ _ o, Forall (λ p, P p.2) (o_props o)) h →
  map_Forall (λ _ o, Forall (λ p, Q p.2) (o_props o)) h'.
Proof.
  intros HPQ Hdom Hu HP l o' Hl'. simpl.
  assert (is_Some (h !! l)) as [o Hl].
  { apply elem_of_dom. rewrite <- Hdom. apply elem_of_dom. eauto. }
  destruct (Hu l o Hl) as (o2 & Hl2 & _ & HF). simplify_eq.
  specialize (HP l o Hl). simpl in HP.
  revert HP. induction HF as [|[k d] [k' d'] ps ps' [_ Hs] _ IH]; [done|].
  intros HP. apply Forall_cons in HP as [Hd Hps]. constructor; [|by apply IH].
  simpl in *. eauto.
Qed.

Lemma unwrapped_by_untrack_ok h h' :
  unwrapped_by h h' → untrack_ok h → untrack_ok h'.
Proof.
  intros [Hdom Hu]. apply (heap_Forall_inv _ _ h h' unwrapped_desc); [|done|done].
  unfold unwrapped_desc, untrack_ok_desc. intros d d' (_ & Hc & H).
  destruct (d_slot d) as [v w|g s], (d_slot d') as [v' w'|g' s']; try done.
  - destruct H as [-> [->|(c & -> & ->)]]; [by rewrite Hc|done].
  - destruct H as [-> _]. done.
Qed.

Lemma unwrapped_by_originals_in h h' G :
  unwrapped_by h h' → originals_in h G → originals_in h' G.
Proof.
  intros [Hdom Hu]. apply (heap_Forall_inv _ _ h h' unwrapped_desc); [|done|done].
  unfold unwrapped_desc, original_in. intros d d' (_ & _ & H).
  destruct (d_slot d) as [v w|g s], (d_slot d') as [v' w'|g' s']; try done.
  destruct H as [-> [->|(c & -> & ->)]]; done.
Qed.

Lemma heap_Forall_reflect_get (P : desc → Prop) (h : heap) l k :
  map_Forall (λ _ o, Forall (λ p, P p.2) (o_props o)) h →
  match getOwnPropertyDescriptor h l k with
  | Some d => P d
  | None => True
  end.
Proof.
  unfold getOwnPropertyDescriptor. intros HP.
  destruct (h !! l) as [o|] eqn:Hl; simpl; [|done].
  specialize (HP l o Hl). simpl in HP.
  induction (o_props o) as [|[k0 d0] ps IH]; simpl; [done|].
  apply Forall_cons in HP as [Hd Hps].
  destruct (decide (k = k0)); [done|]. by apply IH.
Qed.

Lemma settled_mono h h' V V' x :
  unwrapped_by h h' → V ⊆ V' → settled h V x → settled h' V' x.
Proof.
  intros Hu HV. unfold settled. rewrite (unwrapped_by_enumerable_keys h h') by done.
  intros HF. eapply Forall_impl; [exact HF|]. simpl. intros k Hk.
  rewrite (unwrapped_by_reflect_get_stable h h'); [|done|].
  - destruct (reflect_get h x k); try done. by apply HV.
  - intros c Hc. by rewrite Hc in Hk.
Qed.

(** Replacing the tracking proxy in a writable, configurable property. *)
Lemma ordinary_set_unwrap h x k c :
  untrack_ok h → reflect_get h x k = VTrack c →
  ∃ h', ordinary_set h x k (VRef c) = Some h' ∧ unwrapped_by h h'
    ∧ reflect_get h' x k = VRef c.
Proof.
  intros Hok Hv. pose proof (heap_Forall_reflect_get _ h x k Hok) as Hd.
  unfold reflect_get in *. unfold ordinary_set.
  destruct (getOwnPropertyDescriptor h x k) as [[[v w|[g|] s] e cf]|] eqn:Hg;
    simpl in *; try done; subst;
    unfold untrack_ok_desc in Hd; simpl in Hd; try done.
  destruct Hd as [-> ->]. unfold defineProperty.
  unfold getOwnPropertyDescriptor in Hg.
  destruct (h !! x) as [o|] eqn:Hx; simpl in *; [|done].
  rewrite Hg. simpl. eexists. split; [done|]. split; [split|].
  - rewrite dom_insert_L. apply elem_of_dom_2 in Hx. set_solver.
  - intros l' o' Hl'. destruct (decide (l' = x)) as [->|Hne].
    + simplify_eq. rewrite lookup_insert_eq. eexists. split; [done|].
      split; [done|]. simpl.
      eapply (Forall2_areplace unwrapped_desc); eauto.
      * unfold unwrapped_desc. simpl. eauto 10.
      * apply unwrapped_desc_refl.
    + rewrite lookup_insert_ne by done. exists o'. split; [done|].
      split; [done|]. apply Forall2_same_length_lookup_2; [done|].
      intros i a b Ha Hb. simplify_eq. split; [done|]. apply unwrapped_desc_refl.
  - unfold getOwnPropertyDescriptor. rewrite lookup_insert_eq. simpl.
    rewrite alookup_areplace_eq by eauto. done.
Qed.

Lemma reflect_get_value_ok G h x k :
  untrack_ok h → originals_in h G → value_ok G (reflect_get h x k).
Proof.
  intros Hok Hor.
  pose proof (heap_Forall_reflect_get _ h x k Hok) as H1.
  pose proof (heap_Forall_reflect_get _ h x k Hor) as H2.
  unfold reflect_get, value_ok, untrack_ok_desc, original_in in *.
  destruct (getOwnPropertyDescriptor h x k) as [[[v w|[g|] s] e cf]|];
    simpl in *; try done.
  - by destruct v.
  - by destruct g.
Qed.

Section untrack_loop.
Context (G : gset loc) (n : nat).
Context (rec : value → ustate → option (value * ustate)).
Context (x : loc).
Hypothesis rec_run : ∀ v s,
  ut_pre G s → value_ok G v →
  (size (dom (us_heap s) ∖ us_seen s) < n)%nat →
  ∃ s', rec v s = Some (original v, s') ∧ ut_post G s v s'.

Lemma untrack_loop_run ks : ∀ s,
  ut_pre G s → (size (dom (us_heap s) ∖ us_seen s) < n)%nat →
  ∃ s', untrack_loop rec x ks s = Some s'
    ∧ unwrapped_by (us_heap s) (us_heap s')
    ∧ us_seen s ⊆ us_seen s'
    ∧ (∀ y, y ∈ us_seen s' → y ∉ us_seen s →
         settled (us_heap s') (G ∪ us_seen s') y)
    ∧ Forall (λ k, match reflect_get (us_heap s') x k with
                   | VTrack _ => False
                   | VRef z => z ∈ G ∪ us_seen s'
                   | _ => True
                   end) ks.
Proof.
  induction ks as [|k ks IH]; intros s [Hok Hor] Hn; simpl.
  { exists s. split; [done|]. split; [apply unwrapped_by_refl|].
    split; [done|]. split; [done|]. constructor. }
  pose proof (reflect_get_value_ok G _ x k Hok Hor) as Hv.
  destruct (rec_run (reflect_get (us_heap s) x k) s) as (s1 & -> & Hpost);
    [done|done|done|]. simpl.
  destruct Hpost as (Hu1 & Hs1 & Href1 & Htr1 & Hnew1).
  (* the assignment, if any *)
  assert (∃ s2,
    (if object_is (original (reflect_get (us_heap s) x k)) (reflect_get (us_heap s) x k)
     then untrack_loop rec x ks s1
     else h2 ← ordinary_set (us_heap s1) x k (original (reflect_get (us_heap s) x k));
          untrack_loop rec x ks
            (UState h2 (us_affected s1) (us_memo s1) (us_seen s1)))
    = untrack_loop rec x ks s2
    ∧ unwrapped_by (us_heap s1) (us_heap s2) ∧ us_seen s2 = us_seen s1
    ∧ match reflect_get (us_heap s2) x k with
      | VTrack _ => False
      | VRef z => z ∈ G ∪ us_seen s2
      | _ => True
      end) as (s2 & -> & Hu2 & Hs2 & Hk2).
  { destruct (reflect_get (us_heap s) x k) as [| |b|n0|s0|f|z|z|c|] eqn:Hg;
      simpl in Hv; try done; simpl original; rewrite ?object_is_refl.
    all: try (exists s1; split; [done|]; split; [apply unwrapped_by_refl|];
              split; [done|];
              rewrite (unwrapped_by_reflect_get_stable _ _ _ _ Hu1);
              rewrite Hg; [|done];
              first [done | apply elem_of_union_r; by apply Href1]).
    unfold object_is. rewrite bool_decide_eq_false_2 by done.
    rewrite (Htr1 c eq_refl).
    destruct (ordinary_set_unwrap (us_heap s) x k c Hok Hg) as (h2 & -> & Hu & Hg2).
    simpl. eexists (UState h2 _ _ _). split; [done|]. simpl.
    split; [done|]. split; [done|].
    rewrite Hg2. by apply elem_of_union_l. }
  destruct (IH s2) as (s' & -> & Hu' & Hs' & Hnew' & Hks').
  { split.
    - eapply unwrapped_by_untrack_ok; [|exact Hok]. eapply unwrapped_by_trans; eauto.
    - eapply unwrapped_by_originals_in; [|exact Hor]. eapply unwrapped_by_trans; eauto. }
  { destruct Hu1 as [Hd1 _], Hu2 as [Hd2 _]. rewrite Hd2, Hd1, Hs2.
    eapply Nat.le_lt_trans; [|exact Hn]. apply subseteq_size.
    intros a. rewrite !elem_of_difference. intros [? ?]. split; [done|]. eauto. }
  exists s'. split; [done|].
  split; [eapply unwrapped_by_trans; [exact Hu1|eapply unwrapped_by_trans; eauto]|].
  split; [rewrite Hs2 in Hs'; by etrans|]. split.
  - intros y Hy Hny. destruct (decide (y ∈ us_seen s1)) as [Hin|Hnin].
    + eapply settled_mono; [eapply unwrapped_by_trans; [exact Hu2|exact Hu']| |eauto].
      rewrite Hs2 in Hs'. intros a. rewrite !elem_of_union. intros [?|?]; eauto.
    + apply Hnew'; [done|]. by rewrite Hs2.
  - constructor; [|done].
    rewrite (unwrapped_by_reflect_get_stable _ _ _ _ Hu').
    + destruct (reflect_get (us_heap s2) x k); try done.
      revert Hk2. rewrite !elem_of_union. intros [?|?]; eauto.
    + intros c Hc. by rewrite Hc in Hk2.
Qed.
End untrack_loop.


Lemma settled_outside h V x : h !! x = None → settled h V x.
Proof. unfold settled, enumerable_keys. intros ->. constructor. Qed.

Lemma untrack_run G fuel : ∀ v s,
  ut_pre G s → value_ok G v →
  (size (dom (us_heap s) ∖ us_seen s) < fuel)%nat →
  ∃ s', untrack fuel v s = Some (original v, s') ∧ ut_post G s v s'.
Proof.
  induction fuel as [|fuel IH]; intros v s Hpre Hv Hn; [lia|].
  assert (∀ s0 : ustate, s0 = s → (∀ l, v = VRef l → l ∈ us_seen s) →
          ut_post G s v s0) as Hid.
  { intros s0 -> Hl. split; [apply unwrapped_by_refl|]. split; [done|].
    split; [done|]. split; [done|]. intros y Hy Hny. done. }
  simpl. destruct v as [| |b|n0|s0|f|l|z|c|]; simpl in *; try done;
    try (eexists; split; [done|]; by apply Hid).
  - (* an ordinary object *)
    destruct (decide (l ∈ us_seen s)) as [Hin|Hnin].
    { eexists; split; [done|]. apply Hid; [done|]. by intros ? [= <-]. }
    set (s0 := UState (us_heap s) (us_affected s) (us_memo s) ({[l]} ∪ us_seen s)).
    destruct (us_heap s !! l) as [o|] eqn:Hl.
    + destruct (untrack_loop_run G fuel (untrack fuel) l IH
                  (enumerable_keys (us_heap s) l) s0)
        as (s' & -> & Hu & Hs & Hnew & Hks).
      { done. }
      { simpl. assert (size (dom (us_heap s) ∖ ({[l]} ∪ us_seen s))
                       < size (dom (us_heap s) ∖ us_seen s))%nat; [|lia].
        apply subset_size. apply elem_of_dom_2 in Hl. set_solver. }
      simpl. exists s'. split; [done|]. simpl in *.
      split; [done|]. split; [set_solver|]. split; [set_solver|]. split; [done|].
      intros y Hy Hny. destruct (decide (y = l)) as [->|Hne].
      * unfold settled. by rewrite (unwrapped_by_enumerable_keys _ _ _ Hu).
      * apply Hnew; [done|]. set_solver.
    + unfold enumerable_keys. rewrite Hl. simpl. exists s0. split; [done|].
      split; [apply unwrapped_by_refl|]. simpl. split; [set_solver|].
      split; [set_solver|]. split; [done|]. intros y Hy Hny.
      assert (y = l) as -> by set_solver. by apply settled_outside.
  - (* a tracking proxy *)
    eexists. split; [done|]. split; [apply unwrapped_by_refl|]. simpl.
    split; [done|]. split; [done|]. split; [done|]. intros y Hy Hny. done.
Qed.

(** Where nothing reachable holds a tracking proxy, [untrack] changes
    nothing but [seen]. *)
Section untrack_clean_loop.
Context (V : gset loc) (n : nat) (h : heap) (aff : affected) (memo : gset loc).
Context (rec : value → ustate → option (value * ustate)).
Context (l : loc).
Hypothesis h_ok : untrack_ok h.
Hypothesis rec_clean : ∀ z seen0,
  z ∈ V → (size (dom h ∖ seen0) < n)%nat →
  ∃ seen1, rec (VRef z) (UState h aff memo seen0)
           = Some (VRef z, UState h aff memo seen1) ∧ seen0 ⊆ seen1.
Hypothesis rec_prim : ∀ v s,
  (0 < n)%nat → isObject v = false → rec v s = Some (v, s).

Lemma untrack_clean_loop ks : ∀ seen0,
  Forall (λ k, match reflect_get h l k with
               | VTrack _ => False
               | VRef z => z ∈ V
               | _ => True
               end) ks →
  (size (dom h ∖ seen0) < n)%nat →
  ∃ seen', untrack_loop rec l ks (UState h aff memo seen0)
           = Some (UState h aff memo seen') ∧ seen0 ⊆ seen'.
Proof.
  induction ks as [|k ks IHk]; intros seen0 Hset Hn; simpl.
  { eexists. split; [done|]. done. }
  apply Forall_cons in Hset as [Hk Hks].
  assert (∃ seen1,
    rec (reflect_get h l k) (UState h aff memo seen0)
    = Some (reflect_get h l k, UState h aff memo seen1)
    ∧ seen0 ⊆ seen1) as (seen1 & -> & Hs1).
  { destruct (reflect_get h l k) as [| |b|n0|s0|f|z|z|c|] eqn:Hg;
      try done; try (exists seen0; split; [apply rec_prim; [lia|done]|done]).
    - by apply rec_clean.
    - exfalso. clear -h_ok Hg.
      pose proof (heap_Forall_reflect_get _ _ l k h_ok) as H.
      unfold reflect_get in Hg.
      destruct (getOwnPropertyDescriptor h l k) as [[[v w|[g|] s1] e cf]|];
        simpl in *; subst; try done.
    - exfalso. clear -h_ok Hg.
      pose proof (heap_Forall_reflect_get _ _ l k h_ok) as H.
      unfold reflect_get in Hg.
      destruct (getOwnPropertyDescriptor h l k) as [[[v w|[g|] s1] e cf]|];
        simpl in *; subst; try done. }
  simpl. rewrite object_is_refl.
  destruct (IHk seen1) as (seen' & -> & Hs'); [done| |].
  { eapply Nat.le_lt_trans; [|exact Hn]. apply subseteq_size.
    intros a. rewrite !elem_of_difference. intros [? ?]. split; [done|]. eauto. }
  exists seen'. split; [done|]. by etrans.
Qed.
End untrack_clean_loop.

Lemma untrack_clean V fuel h aff memo :
  set_Forall (settled h V) V → untrack_ok h →
  ∀ l seen0, l ∈ V → (size (dom h ∖ seen0) < fuel)%nat →
  ∃ seen', untrack fuel (VRef l) (UState h aff memo seen0)
           = Some (VRef l, UState h aff memo seen')
    ∧ seen0 ⊆ seen'.
Proof.
  intros HV Hok. induction fuel as [|fuel IH]; intros l seen0 Hl Hn; [lia|].
  simpl. destruct (decide (l ∈ seen0)) as [Hin|Hnin].
  { exists seen0. done. }
  destruct (h !! l) as [o|] eqn:Hhl.
  2:{ unfold enumerable_keys. rewrite Hhl. simpl. eexists. split; [done|].
      apply union_subseteq_r. }
  destruct (untrack_clean_loop V fuel h aff memo (untrack fuel) l Hok IH)
    with (ks := enumerable_keys h l) (seen0 := {[l]} ∪ seen0)
    as (seen' & Hr & Hs').
  { intros v s Hf Hv. destruct fuel; [lia|]. by destruct v. }
  { apply (HV l Hl). }
  { assert (size (dom h ∖ ({[l]} ∪ seen0)) < size (dom h ∖ seen0))%nat; [|lia].
    apply subset_size. apply elem_of_dom_2 in Hhl. set_solver. }
  rewrite Hr. simpl. exists seen'. split; [done|].
  etrans; [|exact Hs']. apply union_subseteq_r.
Qed.


(** On the cyclic sample, [v.a.b.a] and [v.a] are the same object after
    [untrack], and [v.self] is still [v]. *)
Lemma untrack_cyclic_sample :
  (untrack 4 (VRef 3%positive) (UState cyclic_result ∅ ∅ ∅)) ≫= (λ '(v, s),
     let get x k := match x with VRef l => reflect_get (us_heap s) l k | _ => VUndef end in
     Some (v, get v "a", get (get (get v "a") "b") "a", get v "self"))
  = Some (VRef 3%positive, VRef 1%positive, VRef 1%positive, VRef 3%positive).
Proof. vm_compute. reflexivity. Qed.


(** ** The commit: [getFlushed] *)

Lemma same_but_writable_facts d d' :
  same_but_writable d d' →
  has_value d' = has_value d ∧ d_configurable d' = d_configurable d
  ∧ desc_value d' = desc_value d.
Proof.
  unfold same_but_writable, has_value, desc_value. intros (_ & Hc & Hs).
  destruct (d_slot d) as [v w|g s], (d_slot d') as [v' w'|g' s']; try done.
  destruct Hs as (-> & _). done.
Qed.

Lemma same_prop_reflect_get h h' l k :
  same_prop h h' l k → reflect_get h' l k = reflect_get h l k.
Proof.
  unfold same_prop, reflect_get.
  destruct (getOwnPropertyDescriptor h l k) as [[[v w|g s] e c]|],
    (getOwnPropertyDescriptor h' l k) as [[[v' w'|g' s'] e' c']|]; try done;
    intros (_ & _ & Hs); simpl in Hs; try done.
  - by destruct Hs as (-> & _).
  - by destruct Hs as (-> & _).
Qed.

Lemma frozen_by_same_prop h h' l k :
  frozen_by h h' → is_Some (h !! l) → same_prop h h' l k.
Proof.
  intros Hf [o Hl]. unfold same_prop, getOwnPropertyDescriptor. rewrite Hl.
  destruct (Hf l o Hl) as (o' & -> & _ & HF). simpl.
  apply (Forall2_alookup _ _ _ k HF).
Qed.

Lemma same_prop_refl h l k : same_prop h h l k.
Proof.
  unfold same_prop. destruct (getOwnPropertyDescriptor h l k); [|done].
  apply same_but_writable_refl.
Qed.

Lemma same_prop_trans h1 h2 h3 l k :
  same_prop h1 h2 l k → same_prop h2 h3 l k → same_prop h1 h3 l k.
Proof.
  unfold same_prop.
  destruct (getOwnPropertyDescriptor h1 l k), (getOwnPropertyDescriptor h2 l k),
    (getOwnPropertyDescriptor h3 l k); try done.
  apply same_but_writable_trans.
Qed.

Lemma frozen_by_is_array h h' l :
  frozen_by h h' → is_Some (h !! l) → is_array h' l ↔ is_array h l.
Proof.
  intros Hf [o Hl]. destruct (Hf l o Hl) as (o' & Hl' & Hk & _).
  unfold is_array. rewrite Hl, Hl'. destruct o as [ko ps], o' as [ko' ps'].
  simpl in Hk. subst. split; intros [? [= -> _]]; eauto.
Qed.

Lemma frozen_by_delete_trans N h1 h2 h3 :
  frozen_by (delete N h1) h2 → frozen_by (delete N h2) h3 →
  frozen_by (delete N h1) h3.
Proof.
  intros H12 H23 l o Hl.
  destruct (H12 l o Hl) as (o2 & Hl2 & Hk2 & HF2).
  assert (l ≠ N) as Hne.
  { intros ->. by rewrite lookup_delete_eq in Hl. }
  destruct (H23 l o2) as (o3 & Hl3 & Hk3 & HF3).
  { by rewrite lookup_delete_ne. }
  exists o3. split; [done|]. split; [congruence|].
  eapply Forall2_trans; [|exact HF2|exact HF3].
  intros x y z [? ?] [? ?]. split; [congruence|].
  eapply same_but_writable_trans; eauto.
Qed.

Lemma frozen_by_delete N h h' : frozen_by h h' → frozen_by (delete N h) h'.
Proof.
  intros Hf l o Hl. apply Hf. apply lookup_delete_Some in Hl. tauto.
Qed.

Lemma frozen_by_fresh N h h' :
  h !! N = None → frozen_by (delete N h) h' → frozen_by h h'.
Proof. intros HN. by rewrite delete_id. Qed.

Lemma flags_cleared_refl mc : flags_cleared mc mc.
Proof. intros l. by destruct (mc !! l). Qed.

Lemma flags_cleared_trans mc1 mc2 mc3 :
  flags_cleared mc1 mc2 → flags_cleared mc2 mc3 → flags_cleared mc1 mc3.
Proof.
  intros H12 H23 l. specialize (H12 l). specialize (H23 l).
  destruct (mc1 !! l), (mc2 !! l), (mc3 !! l); try done.
  destruct H12 as [? ?], H23 as [? ?]. split; [congruence|tauto].
Qed.

Lemma flags_cleared_not_dirty mc mc' o :
  flags_cleared mc mc' → not_dirty mc o → not_dirty mc' o.
Proof.
  intros Hc. specialize (Hc o). unfold not_dirty.
  destruct (mc !! o) as [m|], (mc' !! o) as [m'|]; try done.
  destruct Hc as [_ Hd]. intros Hn. destruct (m_dirty m'); [|done].
  rewrite Hd in Hn; done.
Qed.

Lemma flags_cleared_pending mc mc' o k :
  flags_cleared mc mc' → pending mc' o k = pending mc o k.
Proof.
  intros Hc. specialize (Hc o). unfold pending.
  destruct (mc !! o) as [m|], (mc' !! o) as [m'|]; try done.
  destruct Hc as [Ho _]. simpl. by rewrite Ho.
Qed.

Lemma flags_cleared_lookup mc mc' o :
  flags_cleared mc mc' → is_Some (mc' !! o) ↔ is_Some (mc !! o).
Proof.
  intros Hc. specialize (Hc o).
  destruct (mc !! o), (mc' !! o); try done; split; eauto; by intros [? ?].
Qed.

Lemma not_dirty_is_dirty mc o : is_dirty mc o → not_dirty mc o → False.
Proof. unfold not_dirty. intros (m & -> & Hd). congruence. Qed.

Lemma dirty_or_not mc o : is_dirty mc o ∨ not_dirty mc o.
Proof.
  unfold is_dirty, not_dirty. destruct (mc !! o) as [m|]; [|by right].
  destruct (m_dirty m) eqn:Hd; [left; eauto|by right].
Qed.

Lemma committed_stable mc mc' fc fc' v :
  flags_cleared mc mc' →
  (∀ c, v = VRef c → not_dirty mc c) →
  (∀ o, not_dirty mc o → fc' !! o = fc !! o) →
  committed mc' fc' v = committed mc fc v.
Proof.
  intros Hc Hn Hfc. destruct v as [| | | | | |c| | |]; try done. simpl.
  specialize (Hc c). rewrite (Hfc c) by eauto.
  destruct (mc !! c), (mc' !! c); done.
Qed.

Lemma flush_rel_refl st : flush_rel (s_heap st) st st.
Proof.
  split; [by destruct st|]. split; [apply frozen_by_refl|]. split; [done|].
  split; [apply flags_cleared_refl|]. split; [done|].
  split; [intros o Ho; by left|]. intros n Hn [? ?]. congruence.
Qed.

Lemma flags_cleared_is_dirty mc mc' o :
  flags_cleared mc mc' → is_dirty mc' o → is_dirty mc o.
Proof.
  intros Hc (m' & Hm' & Hd). specialize (Hc o). rewrite Hm' in Hc.
  unfold is_dirty. destruct (mc !! o) as [m|]; [|done].
  exists m. split; [done|]. tauto.
Qed.

Lemma child_done_persist h mc mc' o k :
  flags_cleared mc mc' → child_done h mc o k → child_done h mc' o k.
Proof.
  intros Hc Hch d c Hp Hd Hv Hr. eapply flags_cleared_not_dirty; [done|].
  eapply Hch; eauto. by rewrite <- (flags_cleared_pending _ _ _ _ Hc).
Qed.

Lemma child_done_rebase h h1 mc o k :
  same_prop h h1 o k → child_done h1 mc o k → child_done h mc o k.
Proof.
  intros Hsame Hch d c Hp Hd Hvc Hv.
  pose proof (same_prop_reflect_get _ _ _ _ Hsame) as Hg.
  unfold same_prop in Hsame. rewrite Hd in Hsame.
  destruct (getOwnPropertyDescriptor h1 o k) as [d1|] eqn:Hd1; [|done].
  destruct (same_but_writable_facts _ _ Hsame) as (Hhv & Hcc & _).
  eapply (Hch d1 c); eauto; [by rewrite Hhv, Hcc|congruence].
Qed.

(** A property that was built stays what it is while the commit goes on. *)
Lemma key_done_persist h mc mc' fc fc' h1 h2 o o' k :
  same_prop h1 h2 o' k →
  flags_cleared mc mc' →
  (∀ c, not_dirty mc c → fc' !! c = fc !! c) →
  child_done h mc o k →
  key_done h mc fc h1 o o' k → key_done h mc' fc' h2 o o' k.
Proof.
  intros Hsame Hc Hfc Hch Hmat. unfold key_done in *.
  rewrite !(flags_cleared_pending _ _ _ _ Hc) in *.
  destruct (pending mc o k) as [[v|]|] eqn:Hp.
  - by rewrite (same_prop_reflect_get _ _ _ _ Hsame).
  - unfold same_prop in Hsame. rewrite Hmat in Hsame.
    by destruct (getOwnPropertyDescriptor h2 o' k).
  - destruct (getOwnPropertyDescriptor h o k) as [d|] eqn:Hd.
    + rewrite (same_prop_reflect_get _ _ _ _ Hsame).
      destruct (has_value d && d_configurable d) eqn:Hvc; [|done].
      rewrite Hmat. symmetry. apply committed_stable; [done| |done].
      intros c Hv. eapply Hch; eauto.
    + unfold same_prop in Hsame. rewrite Hmat in Hsame.
      by destruct (getOwnPropertyDescriptor h2 o' k).
Qed.

(** A property described against a later heap is described against an
    earlier one as well. *)
Lemma key_done_rebase h h1 mc fc h' o o' k :
  same_prop h h1 o k →
  key_done h1 mc fc h' o o' k → key_done h mc fc h' o o' k.
Proof.
  intros Hsame Hmat. unfold key_done in *.
  destruct (pending mc o k) as [[v|]|]; [done|done|].
  pose proof (same_prop_reflect_get _ _ _ _ Hsame) as Hg.
  unfold same_prop in Hsame.
  destruct (getOwnPropertyDescriptor h o k) as [d|] eqn:Hd,
    (getOwnPropertyDescriptor h1 o k) as [d1|] eqn:Hd1; try done.
  destruct (same_but_writable_facts _ _ Hsame) as (Hhv & Hcc & _).
  rewrite Hhv, Hcc, Hg in Hmat. done.
Qed.

Lemma frozen_by_delete_same_prop N h h1 o k :
  frozen_by (delete N h) h1 → is_Some (h !! o) → o ≠ N → same_prop h h1 o k.
Proof.
  intros Hf Ho Hne.
  apply frozen_by_same_prop with (l := o) (k := k) in Hf as Hs;
    [|by rewrite lookup_delete_ne].
  unfold same_prop, getOwnPropertyDescriptor in *.
  by rewrite lookup_delete_ne in Hs.
Qed.

Lemma frozen_by_delete_is_array N h h1 o :
  frozen_by (delete N h) h1 → is_Some (h !! o) → o ≠ N →
  is_array h1 o ↔ is_array h o.
Proof.
  intros Hf [ob Hob] Hne.
  destruct (Hf o ob) as (ob' & Hob' & Hk & _); [by rewrite lookup_delete_ne|].
  unfold is_array. rewrite Hob, Hob'. destruct ob as [ko ps], ob' as [ko' ps'].
  simpl in Hk. subst. split; intros [? [= -> _]]; eauto.
Qed.

Lemma copied_persist N h st1 st2 o :
  is_Some (h !! N) → is_Some (h !! o) →
  dom h ⊆ dom (s_heap st1) →
  frozen_by (delete N (s_heap st1)) (s_heap st2) →
  flags_cleared (mutationCache st1) (mutationCache st2) →
  (∀ c, not_dirty (mutationCache st1) c → flushCache st2 !! c = flushCache st1 !! c) →
  copied h st1 o → copied h st2 o.
Proof.
  intros HN Ho Hdom Hf Hc Hfc (o' & Hfo & Hnew & Hex & Hnd & Hmat).
  assert (o' ≠ N) as Hne.
  { intros ->. destruct HN as [? HN]. congruence. }
  exists o'. split; [by rewrite Hfc|]. split; [done|]. split.
  { destruct Hex as [ob Hob].
    destruct (Hf o' ob) as (ob' & -> & _); [by rewrite lookup_delete_ne|]. eauto. }
  split; [by eapply flags_cleared_not_dirty|].
  intros Hq k Hk. rewrite (flags_cleared_pending _ _ _ _ Hc) in Hq.
  destruct (Hmat Hq k Hk) as [Hkd Hcd].
  split; [|by eapply child_done_persist].
  eapply key_done_persist; eauto.
  eapply frozen_by_delete_same_prop; eauto.
Qed.

Lemma copied_rebase N h h1 st2 o :
  is_Some (h !! o) → o ≠ N →
  frozen_by (delete N h) h1 → dom h ⊆ dom h1 →
  copied h1 st2 o → copied h st2 o.
Proof.
  intros Ho Hne Hf Hdom (o' & Hfo & Hnew & Hex & Hnd & Hmat).
  pose proof (frozen_by_delete_is_array _ _ _ _ Hf Ho Hne) as Harr.
  exists o'. split; [done|]. split.
  { apply not_elem_of_dom. intros Hin. apply Hdom in Hin.
    apply elem_of_dom in Hin as [? ?]. congruence. }
  split; [done|]. split; [done|].
  intros Hq k Hk.
  pose proof (frozen_by_delete_same_prop _ _ _ _ k Hf Ho Hne) as Hs.
  destruct (Hmat (λ Hx, Hq (proj1 Harr Hx)) k (λ Hx, Hk (proj1 Harr Hx))) as [Hkd Hcd].
  split; [by eapply key_done_rebase|by eapply child_done_rebase].
Qed.

(** Two runs in a row, while the object [N] is being built. *)
Lemma flush_rel_trans N st st1 st2 :
  is_Some (s_heap st !! N) → mutationCache st !! N = None → wf_mc st →
  flush_rel (delete N (s_heap st)) st st1 →
  flush_rel (delete N (s_heap st1)) st1 st2 →
  flush_rel (delete N (s_heap st)) st st2.
Proof.
  intros HN HmN Hwf (He1 & Hf1 & Hd1 & Hc1 & Hfc1 & Hcp1 & Hal1)
    (He2 & Hf2 & Hd2 & Hc2 & Hfc2 & Hcp2 & Hal2).
  split.
  { rewrite He2. rewrite He1. by destruct st. }
  split; [eapply frozen_by_delete_trans; eauto|]. split; [by etrans|].
  split; [eapply flags_cleared_trans; eauto|]. split.
  { intros o Ho. rewrite Hfc2; [by apply Hfc1|]. by eapply flags_cleared_not_dirty. }
  split.
  2:{ intros n Hn Hn2. destruct (s_heap st1 !! n) as [ob|] eqn:Hn1.
      - destruct (Hal1 n Hn) as (o & Hdo & Hno & Hfo); [eauto|].
        exists o. split; [done|]. split; [by eapply flags_cleared_not_dirty|].
        by rewrite Hfc2.
      - destruct (Hal2 n Hn1 Hn2) as (o & Hdo & Hno & Hfo).
        exists o. split; [by eapply flags_cleared_is_dirty|]. done. }
  intros o Ho.
  assert (is_Some (s_heap st !! o)) as Hoh.
  { apply Hwf. destruct Ho as (m & -> & _). eauto. }
  assert (o ≠ N) as Hne.
  { intros ->. destruct Ho as (m & ? & _). congruence. }
  destruct (Hcp1 o Ho) as [Hstill|Hcop].
  - destruct (Hcp2 o Hstill) as [?|Hcop2]; [by left|]. right.
    eapply (copied_rebase N); eauto.
  - right. eapply (copied_persist N); eauto.
Qed.

(** [Object.defineProperty] touches the one object. *)
Lemma defineProperty_frame h N k d h' :
  defineProperty h N k d = Some h' →
  frozen_by (delete N h) h' ∧ dom h' = dom h ∧ is_Some (h' !! N)
  ∧ (is_array h' N ↔ is_array h N).
Proof.
  unfold defineProperty. intros H.
  destruct (h !! N) as [o|] eqn:HN; simpl in H; [|done].
  assert (∃ ps, h' = <[N := Obj (o_kind o) ps]> h) as [ps ->].
  { repeat case_match; simplify_eq; eauto. }
  split; [|split; [|split]].
  - intros l o' Hl. apply lookup_delete_Some in Hl as [Hne Hl].
    rewrite lookup_insert_ne by done. exists o'. split; [done|]. split; [done|].
    apply Forall2_same_length_lookup_2; [done|].
    intros i x y Hx Hy. simplify_eq. split; [done|]. apply same_but_writable_refl.
  - rewrite dom_insert_L. apply elem_of_dom_2 in HN. set_solver.
  - rewrite lookup_insert_eq. eauto.
  - unfold is_array. rewrite lookup_insert_eq, HN. destruct o as [ko ps'].
    simpl. split; intros [? [= -> _]]; eauto.
Qed.

Lemma alookup_app {A} (l1 l2 : list (key * A)) k :
  alookup k (l1 ++ l2) =
  match alookup k l1 with Some a => Some a | None => alookup k l2 end.
Proof.
  induction l1 as [|[k0 a0] l1 IH]; simpl; [done|].
  by destruct (decide (k = k0)).
Qed.

Lemma alookup_ainsert_index {A} (l : list (key * A)) n k a k' :
  alookup k l = None →
  alookup k' (ainsert_index n k a l) = if decide (k' = k) then Some a else alookup k' l.
Proof.
  induction l as [|[k0 a0] l IH]; simpl; intros Hl.
  - by destruct (decide (k' = k)).
  - destruct (decide (k = k0)) as [->|Hne]; [done|]. specialize (IH Hl).
    destruct (array_index k0) as [n'|]; [destruct (decide (n < n')%N)|]; simpl;
      rewrite ?IH; repeat case_decide; simplify_eq; done.
Qed.

Lemma alookup_aset_new {A} (l : list (key * A)) k a k' :
  alookup k l = None →
  alookup k' (aset k a l) = if decide (k' = k) then Some a else alookup k' l.
Proof.
  intros Hl. unfold aset. rewrite Hl. destruct (array_index k) as [n|].
  - by apply alookup_ainsert_index.
  - rewrite alookup_app. simpl. destruct (decide (k' = k)) as [->|Hne].
    + by rewrite Hl.
    + by destruct (alookup k' l).
Qed.

Lemma array_index_length : array_index "length" = None.
Proof. reflexivity. Qed.

(** Defining a key the object does not have yet: the key holds the
    descriptor, and the other keys (but the [length] of an array) are as
    they were. *)
Lemma defineProperty_new h N k d h' :
  getOwnPropertyDescriptor h N k = None →
  defineProperty h N k d = Some h' →
  getOwnPropertyDescriptor h' N k = Some d
  ∧ ∀ k', k' ≠ k → (is_array h N → k' ≠ "length") →
      getOwnPropertyDescriptor h' N k' = getOwnPropertyDescriptor h N k'.
Proof.
  unfold defineProperty, getOwnPropertyDescriptor, is_array.
  destruct (h !! N) as [[ko ps]|] eqn:HN; simpl; [|done].
  intros Hk. rewrite Hk. intros Hd.
  assert (∀ k', alookup k' (aset k d ps) = if decide (k' = k) then Some d else alookup k' ps)
    as Haset by (intros; by apply alookup_aset_new).
  assert (∀ h0, Some (<[N := Obj ko (aset k d ps)]> h) = Some h0 →
    (<[N := Obj ko (aset k d ps)]> h !! N ≫= λ o, alookup k (o_props o)) = Some d
    ∧ ∀ k', k' ≠ k → ((∃ ps0, Some (Obj ko ps) = Some (Obj Arr ps0)) → k' ≠ "length") →
       (<[N := Obj ko (aset k d ps)]> h !! N ≫= λ o, alookup k' (o_props o)) = alookup k' ps)
    as Hplain.
  { intros h0 _. rewrite lookup_insert_eq. simpl. rewrite !Haset.
    destruct (decide (k = k)); [|done]. split; [done|]. intros k' Hne _.
    rewrite Haset. by destruct (decide (k' = k)). }
  destruct ko; try (simplify_eq; by apply (Hplain _ eq_refl)).
  destruct (array_index k) as [i|] eqn:Hi; [|simplify_eq; by apply (Hplain _ eq_refl)].
  destruct (bool_decide (array_length ps ≤ i)%N); [|simplify_eq; by apply (Hplain _ eq_refl)].
  destruct (alookup "length" (aset k d ps)) as [dl|] eqn:Hdl;
    [|simplify_eq; by apply (Hplain _ eq_refl)].
  destruct (desc_writable dl); [|done]. simplify_eq.
  assert (k ≠ "length") as Hkl.
  { intros ->. by rewrite array_index_length in Hi. }
  rewrite lookup_insert_eq. simpl. split.
  - rewrite alookup_areplace_ne by done. rewrite Haset. by destruct (decide (k = k)).
  - intros k' Hne Hl. rewrite alookup_areplace_ne by eauto.
    rewrite Haset. by destruct (decide (k' = k)).
Qed.

Lemma readonly_frame fuel h v h1 vis :
  readonly fuel h v true ∅ = Some (h1, vis) → frozen_by h h1 ∧ dom h1 = dom h.
Proof.
  intros Hr. apply readonly_post in Hr. destruct Hr as (? & ? & _). done.
Qed.

Lemma reflect_get_desc h l k d :
  getOwnPropertyDescriptor h l k = Some d → has_value d = true →
  reflect_get h l k = desc_value d.
Proof.
  unfold reflect_get, has_value, desc_value. intros ->.
  by destruct d as [[v w|g s] e c].
Qed.

Lemma reflect_get_with_value h l k d v :
  getOwnPropertyDescriptor h l k = Some (with_value d v) → has_value d = true →
  reflect_get h l k = v.
Proof.
  unfold reflect_get, has_value, with_value. intros ->.
  by destruct d as [[v' w|g s] e c].
Qed.

Lemma reflect_get_same_desc h h' l l' k d :
  getOwnPropertyDescriptor h l k = Some d →
  getOwnPropertyDescriptor h' l' k = Some d →
  reflect_get h' l' k = reflect_get h l k.
Proof. unfold reflect_get. by intros -> ->. Qed.

Lemma flush_rel_heap N st h2 :
  frozen_by (delete N (s_heap st)) h2 → dom h2 = dom (s_heap st) →
  flush_rel (delete N (s_heap st)) st (with_heap h2 st).
Proof.
  intros Hf Hd. split; [by destruct st|]. split; [done|].
  split; [simpl; by rewrite Hd|].
  split; [apply flags_cleared_refl|]. split; [done|].
  split; [intros o Ho; by left|]. intros n Hn Hn2. simpl in Hn2.
  apply elem_of_dom in Hn2. rewrite Hd in Hn2. apply elem_of_dom in Hn2 as [? ?].
  congruence.
Qed.

Lemma flush_rel_delete N st st' :
  flush_rel (s_heap st) st st' → flush_rel (delete N (s_heap st)) st st'.
Proof.
  intros (? & ? & ?). split; [done|]. split; [by apply frozen_by_delete|]. done.
Qed.

Lemma filling_obj obj N ops st :
  filling obj N ops st → is_Some (s_heap st !! obj) ∧ obj ≠ N.
Proof.
  intros (Hwf & _ & HmN & Hmo & _). split; [apply Hwf; eauto|].
  intros ->. congruence.
Qed.

Lemma filling_step obj N ops st st1 :
  filling obj N ops st →
  flush_rel (delete N (s_heap st)) st st1 →
  (is_array (s_heap st1) N ↔ is_array (s_heap st) N) →
  filling obj N ops st1.
Proof.
  intros Hfill (He & Hf & Hd & Hc & Hfc & Hcp) Harr.
  destruct (filling_obj _ _ _ _ Hfill) as [Ho Hne].
  destruct Hfill as (Hwf & HN & HmN & Hmo & Hlink).
  split; [|split; [|split; [|split]]].
  - intros o Hs. apply (flags_cleared_lookup _ _ _ Hc) in Hs. apply Hwf in Hs.
    apply elem_of_dom. apply Hd. by apply elem_of_dom.
  - apply elem_of_dom. apply Hd. by apply elem_of_dom.
  - specialize (Hc N). rewrite HmN in Hc. by destruct (mutationCache st1 !! N).
  - specialize (Hc obj). rewrite Hmo in Hc.
    destruct (mutationCache st1 !! obj) as [[dm om]|]; [|done]. simpl in Hc.
    destruct Hc as [-> Hdm]. destruct dm; [by discriminate Hdm|done].
  - intros Ha. apply (frozen_by_delete_is_array _ _ _ _ Hf Ho Hne).
    apply Hlink. by apply Harr.
Qed.

Lemma is_array_dec h o : is_array h o ∨ ¬ is_array h o.
Proof.
  unfold is_array. destruct (h !! o) as [[[] ps]|]; eauto;
    right; intros [? ?]; congruence.
Qed.

Lemma same_prop_None h h' l k :
  same_prop h h' l k → getOwnPropertyDescriptor h l k = None →
  getOwnPropertyDescriptor h' l k = None.
Proof.
  unfold same_prop. intros Hs Hn. rewrite Hn in Hs.
  by destruct (getOwnPropertyDescriptor h' l k).
Qed.

Section getFlushed_loop.
Context (fuel : nat) (rec : value → store → option (value * store)).
Context (obj N : loc) (ops : list (key * mop)).
Hypothesis rec_spec : ∀ x st v st',
  wf_mc st → rec x st = Some (v, st') →
  flush_rel (s_heap st) st st' ∧ flush_result x v st'.

Lemma define_round st k d h1 h2 :
  filling obj N ops st →
  frozen_by (s_heap st) h1 → dom h1 = dom (s_heap st) →
  defineProperty h1 N k d = Some h2 →
  flush_rel (delete N (s_heap st)) st (with_heap h2 st)
  ∧ (is_array h2 N ↔ is_array (s_heap st) N)
  ∧ (getOwnPropertyDescriptor (s_heap st) N k = None →
     getOwnPropertyDescriptor h2 N k = Some d
     ∧ ∀ k', k' ≠ k → (is_array (s_heap st) N → k' ≠ "length") →
         same_prop (s_heap st) h2 N k').
Proof.
  intros Hfill Hf1 Hd1 Hdef.
  destruct Hfill as (Hwf & HN & HmN & Hmo & Hlink).
  destruct (defineProperty_frame _ _ _ _ _ Hdef) as (Hf2 & Hd2 & HN2 & Harr2).
  pose proof (frozen_by_is_array _ _ N Hf1 HN) as Harr1.
  split; [|split].
  - apply flush_rel_heap.
    + eapply frozen_by_delete_trans; [|exact Hf2]. by apply frozen_by_delete.
    + congruence.
  - by rewrite Harr2.
  - intros Habs.
    pose proof (frozen_by_same_prop _ _ N k Hf1 HN) as Hs. unfold same_prop in Hs.
    rewrite Habs in Hs.
    destruct (getOwnPropertyDescriptor h1 N k) eqn:Habs1; [done|].
    destruct (defineProperty_new _ _ _ _ _ Habs1 Hdef) as [Hk Hother].
    split; [done|]. intros k' Hne Hl.
    eapply same_prop_trans; [by apply (frozen_by_same_prop _ _ N k' Hf1 HN)|].
    unfold same_prop. rewrite Hother; [|done|by rewrite Harr1].
    destruct (getOwnPropertyDescriptor h1 N k'); [apply same_but_writable_refl|done].
Qed.

Lemma getFlushed_round k ks st st' :
  filling obj N ops st →
  getFlushed_loop fuel rec obj N (k :: ks) st = Some st' →
  ∃ st1, getFlushed_loop fuel rec obj N ks st1 = Some st'
    ∧ round_post obj N k st st1.
Proof.
  intros Hfill Hrun.
  destruct (filling_obj _ _ _ _ Hfill) as [Ho Hne].
  simpl in Hrun. fold (pending (mutationCache st) obj k) in Hrun.
  destruct (pending (mutationCache st) obj k) as [[v|]|] eqn:Hp.
  - (* a pending set *)
    destruct (readonly fuel (s_heap st) v true ∅) as [[h1 vis]|] eqn:Hro;
      simpl in Hrun; [|done].
    destruct (readonly_frame _ _ _ _ _ Hro) as [Hf1 Hd1].
    assert (∀ dd h2, defineProperty h1 N k dd = Some h2 →
      (∀ h l, getOwnPropertyDescriptor h l k = Some dd → reflect_get h l k = v) →
      round_post obj N k st (with_heap h2 st)) as Hround.
    { intros dd h2 Hdef Hdd.
      destruct (define_round _ _ _ _ _ Hfill Hf1 Hd1 Hdef) as (Hfr & Harr & Hnew).
      split; [done|]. split; [done|]. split.
      { intros [?|Habs]; [congruence|]. by apply Hnew. }
      intros Habs. destruct (Hnew Habs) as [Hk _]. split.
      - unfold key_done. simpl. rewrite Hp. by apply Hdd.
      - intros d c Hp'. simpl in Hp'. congruence. }
    destruct (getOwnPropertyDescriptor (s_heap st) obj k) as [d|] eqn:Hd.
    + destruct (has_value d) eqn:Hv; [|done].
      destruct (defineProperty h1 N k (with_value d v)) as [h2|] eqn:Hdef;
        simpl in Hrun; [|done].
      exists (with_heap h2 st). split; [done|]. apply (Hround _ _ Hdef).
      intros h l Hg. by eapply reflect_get_with_value.
    + destruct (defineProperty h1 N k _) as [h2|] eqn:Hdef; simpl in Hrun; [|done].
      exists (with_heap h2 st). split; [done|]. apply (Hround _ _ Hdef).
      intros h l Hg. unfold reflect_get. by rewrite Hg.
  - (* a pending delete *)
    exists st. split; [done|].
    split; [apply flush_rel_delete, flush_rel_refl|]. split; [done|].
    split; [intros; apply same_prop_refl|]. intros Habs. split.
    + unfold key_done. by rewrite Hp.
    + intros d c Hp'. congruence.
  - destruct (getOwnPropertyDescriptor (s_heap st) N k) as [dN|] eqn:HNk.
    { exists st. split; [done|].
      split; [apply flush_rel_delete, flush_rel_refl|]. split; [done|].
      split; [intros; apply same_prop_refl|]. intros ?. congruence. }
    destruct (getOwnPropertyDescriptor (s_heap st) obj k) as [d|] eqn:Hd;
      simpl in Hrun; [|done].
    destruct (has_value d && d_configurable d) eqn:Hvc.
    + (* the child is committed first *)
      destruct (rec (reflect_get (s_heap st) obj k) st) as [[v st1]|] eqn:Hrec;
        simpl in Hrun; [|done].
      destruct (defineProperty (s_heap st1) N k (with_value d v)) as [h2|] eqn:Hdef;
        simpl in Hrun; [|done].
      exists (with_heap h2 st1). split; [done|].
      pose proof Hfill as (Hwf & HN & HmN & Hmo & Hlink).
      destruct (rec_spec _ _ _ _ Hwf Hrec) as [Hrel [Hv Hc]].
      pose proof Hrel as (_ & Hfz & _ & Hfl & _).
      pose proof (frozen_by_is_array _ _ N Hfz HN) as HarrN.
      assert (filling obj N ops st1) as Hfill1.
      { eapply filling_step; [done|by apply flush_rel_delete|done]. }
      destruct (define_round _ _ _ _ _ Hfill1 (frozen_by_refl _) eq_refl Hdef)
        as (Hfr & Harr & Hnew).
      pose proof (frozen_by_same_prop _ _ N k Hfz HN) as HsN.
      unfold same_prop in HsN. rewrite HNk in HsN.
      destruct (getOwnPropertyDescriptor (s_heap st1) N k) eqn:HNk1; [done|].
      destruct (Hnew eq_refl) as [Hk Hother].
      split; [|split; [|split]].
      * eapply flush_rel_trans; [done|done|done|by apply flush_rel_delete|done].
      * simpl. by rewrite Harr.
      * intros _ k' Hne' Hl. eapply same_prop_trans.
        -- by apply (frozen_by_same_prop _ _ N k' Hfz HN).
        -- apply Hother; [done|]. by rewrite HarrN.
      * intros _. split.
        -- unfold key_done. simpl. rewrite (flags_cleared_pending _ _ _ _ Hfl), Hp, Hd, Hvc.
           rewrite <- Hv. eapply reflect_get_with_value; [done|].
           by apply andb_prop in Hvc as [? _].
        -- intros d' c _ _ _ Hr. simpl. by apply Hc.
    + destruct (defineProperty (s_heap st) N k d) as [h2|] eqn:Hdef;
        simpl in Hrun; [|done].
      exists (with_heap h2 st). split; [done|].
      destruct (define_round _ _ _ _ _ Hfill (frozen_by_refl _) eq_refl Hdef)
        as (Hfr & Harr & Hnew).
      split; [done|]. split; [done|]. split; [intros _; by apply (Hnew HNk)|].
      intros _. destruct (Hnew HNk) as [Hk _]. split.
      * unfold key_done. simpl. rewrite Hp, Hd, Hvc.
        by eapply reflect_get_same_desc.
      * intros d' c _ Hd' Hvc'. congruence.
Qed.

(** The loop of [getFlushed] over the keys [ks]. *)
Lemma getFlushed_loop_spec ks : ∀ st st',
  filling obj N ops st →
  getFlushed_loop fuel rec obj N ks st = Some st' →
  flush_rel (delete N (s_heap st)) st st'
  ∧ (is_array (s_heap st') N ↔ is_array (s_heap st) N)
  ∧ ((is_array (s_heap st) obj → alookup "length" ops = None) →
     NoDup ks →
     (∀ k, k ∈ ks → (is_array (s_heap st) obj → k ≠ "length") →
        getOwnPropertyDescriptor (s_heap st) N k = None) →
     (∀ k, k ∉ ks → (is_array (s_heap st) obj → k ≠ "length") →
        same_prop (s_heap st) (s_heap st') N k)
     ∧ (∀ k, k ∈ ks → (is_array (s_heap st) obj → k ≠ "length") →
          key_done (s_heap st) (mutationCache st') (flushCache st') (s_heap st') obj N k
          ∧ child_done (s_heap st) (mutationCache st') obj k)).
Proof.
  induction ks as [|k ks IH]; intros st st' Hfill Hrun.
  { simpl in Hrun. simplify_eq. split; [apply flush_rel_delete, flush_rel_refl|].
    split; [done|]. intros _ _ _. split; [intros; apply same_prop_refl|].
    intros k Hk. by apply elem_of_nil in Hk. }
  destruct (getFlushed_round _ _ _ _ Hfill Hrun) as (st1 & Hrun1 & Hrel1 & Harr1 & Hper1 & Hcon1).
  pose proof (filling_step _ _ _ _ _ Hfill Hrel1 Harr1) as Hfill1.
  destruct (IH _ _ Hfill1 Hrun1) as (Hrel2 & Harr2 & Hrest).
  destruct (filling_obj _ _ _ _ Hfill) as [Ho Hne].
  pose proof Hfill as (Hwf & HN & HmN & Hmo & Hlink).
  pose proof Hrel1 as (_ & Hfz1 & _ & Hfl1 & _).
  pose proof Hrel2 as (_ & Hfz2 & _ & Hfl2 & Hfc2 & _).
  pose proof (frozen_by_delete_is_array _ _ _ _ Hfz1 Ho Hne) as Harro.
  split; [by eapply flush_rel_trans|]. split; [by rewrite Harr2|].
  intros Hquiet Hnd Habs. apply NoDup_cons in Hnd as [Hk Hnd].
  assert (pending (mutationCache st) obj k = None
          ∨ getOwnPropertyDescriptor (s_heap st) N k = None) as Hpre.
  { destruct (decide (k = "length")) as [->|Hkl].
    - destruct (is_array_dec (s_heap st) obj) as [Ha|Ha].
      + left. unfold pending. rewrite Hmo. simpl. by apply Hquiet.
      + right. apply Habs; [left|done].
    - right. apply Habs; [left|done]. }
  assert (∀ k', k' ≠ k → (is_array (s_heap st) obj → k' ≠ "length") →
    same_prop (s_heap st) (s_heap st1) N k') as Hper.
  { intros k' Hne' Hl. apply Hper1; [done|done|]. intros Ha. by apply Hl, Hlink. }
  destruct Hrest as [Hper2 Hcon2].
  { intros Ha. apply Hquiet. by apply Harro. }
  { done. }
  { intros k' Hin Hl. eapply same_prop_None.
    - apply Hper; [intros ->; done|]. intros Ha. apply Hl. by apply Harro.
    - apply Habs; [by right|]. intros Ha. apply Hl. by apply Harro. }
  split.
  - intros k' Hnin Hl. apply not_elem_of_cons in Hnin as [Hne' Hnin].
    eapply same_prop_trans; [by apply Hper|].
    apply Hper2; [done|]. intros Ha. apply Hl. by apply Harro.
  - intros k' Hin Hl. apply elem_of_cons in Hin as [->|Hin].
    + destruct Hcon1 as [Hkd Hcd]; [by apply Habs; [left|]|].
      split; [|by eapply child_done_persist].
      eapply key_done_persist; [|done|done|done|done].
      apply Hper2; [done|]. intros Ha. apply Hl. by apply Harro.
    + destruct (Hcon2 k' Hin) as [Hkd Hcd].
      { intros Ha. apply Hl. by apply Harro. }
      pose proof (frozen_by_delete_same_prop _ _ _ _ k' Hfz1 Ho Hne) as Hs.
      split; [by eapply key_done_rebase|by eapply child_done_rebase].
Qed.
End getFlushed_loop.

Lemma dedup_from_spec keys : ∀ seen,
  NoDup (dedup_from seen keys)
  ∧ ∀ k, k ∈ dedup_from seen keys ↔ k ∈ keys ∧ k ∉ seen.
Proof.
  induction keys as [|k0 keys IH]; intros seen; simpl.
  { split; [constructor|]. intros k. set_solver. }
  destruct (decide (k0 ∈ seen)) as [Hin|Hnin].
  - destruct (IH seen) as [Hnd Hel]. split; [done|]. intros k. rewrite Hel. set_solver.
  - destruct (IH (k0 :: seen)) as [Hnd Hel]. split.
    + constructor; [|done]. rewrite Hel. set_solver.
    + intros k. rewrite elem_of_cons, Hel. destruct (decide (k = k0)); set_solver.
Qed.

Lemma NoDup_dedup keys : NoDup (dedup keys).
Proof. apply dedup_from_spec. Qed.

Lemma elem_of_dedup keys k : k ∈ dedup keys ↔ k ∈ keys.
Proof. unfold dedup. rewrite (proj2 (dedup_from_spec keys [])). set_solver. Qed.

Lemma frozen_by_insert_fresh (h : heap) N o : h !! N = None → frozen_by h (<[N := o]> h).
Proof.
  intros HN l o' Hl. exists o'. rewrite lookup_insert_ne by congruence.
  split; [done|]. split; [done|].
  apply Forall2_same_length_lookup_2; [done|].
  intros i x y Hx Hy. simplify_eq. split; [done|]. apply same_but_writable_refl.
Qed.

Lemma fresh_heap (h : heap) : h !! fresh (dom h) = None.
Proof. apply not_elem_of_dom. apply is_fresh. Qed.

Lemma ownKeys_gopd h l k :
  k ∉ ownKeys h l → getOwnPropertyDescriptor h l k = None.
Proof.
  unfold ownKeys, getOwnPropertyDescriptor. destruct (h !! l) as [o|]; [|done].
  simpl. intros Hk. by apply alookup_None_akeys.
Qed.

(** [getFlushed]: what a commit does to the store. *)
Lemma getFlushed_spec fuel : ∀ x st v st',
  wf_mc st → getFlushed fuel x st = Some (v, st') →
  flush_rel (s_heap st) st st' ∧ flush_result x v st'.
Proof.
  induction fuel as [|fuel IH]; intros x st v st' Hwf Hrun; [done|].
  simpl in Hrun.
  assert (∀ y, committed (mutationCache st) (flushCache st) x = y →
    (∀ c, x = VRef c → not_dirty (mutationCache st) c) →
    Some (y, st) = Some (v, st') →
    flush_rel (s_heap st) st st' ∧ flush_result x v st') as Hsame.
  { intros y Hy Hnd [= <- <-]. split; [apply flush_rel_refl|]. by split. }
  destruct x as [| | | | | |obj| | |]; try (by apply (Hsame _ eq_refl)).
  destruct (mutationCache st !! obj) as [[dm ops]|] eqn:Hmo.
  2:{ apply (Hsame (VRef obj)); [by simpl; rewrite Hmo| |done].
      intros c [= <-]. unfold not_dirty. by rewrite Hmo. }
  simpl in Hrun. destruct dm; simpl in Hrun.
  2:{ eapply Hsame; [|intros c [= <-]; unfold not_dirty; by rewrite Hmo|exact Hrun].
      simpl. by rewrite Hmo. }
  set (N := fresh (dom (s_heap st))) in *.
  set (kind := if match s_heap st !! obj with Some (Obj Arr _) => true | _ => false end
               then Arr else Plain) in *.
  set (st2 := with_flushCache _ _) in Hrun.
  destruct (getFlushed_loop _ _ _ _ _ _) as [st3|] eqn:Hloop; simpl in Hrun; [|done].
  injection Hrun as <- <-.
  pose proof (fresh_heap (s_heap st)) as HN. fold N in HN.
  assert (is_Some (s_heap st !! obj)) as Ho by (apply Hwf; eauto).
  assert (obj ≠ N) as Hne.
  { intros Heq. rewrite Heq in Ho. destruct Ho as [? ?]. congruence. }
  assert (mutationCache st !! N = None) as HmN.
  { destruct (mutationCache st !! N) eqn:Hx; [|done].
    destruct (Hwf N) as [? ?]; [eauto|congruence]. }
  assert (s_heap st2 = <[N := empty_obj kind]> (s_heap st)) as Hh2 by done.
  assert (mutationCache st2 = <[obj := Mut false ops]> (mutationCache st)) as Hm2 by done.
  assert (flushCache st2 = <[obj := N]> (flushCache st)) as Hf2 by done.
  assert (is_array (s_heap st) obj ↔ kind = Arr) as Hkind.
  { unfold is_array, kind. destruct (s_heap st !! obj) as [[[] ps]|]; split;
      try done; try (intros [? ?]; congruence); eauto. }
  assert (filling obj N ops st2) as Hfill.
  { split; [|split; [|split; [|split]]].
    - intros o Hs. rewrite Hm2 in Hs. rewrite Hh2.
      apply lookup_insert_is_Some in Hs as [<-|[_ Hs]].
      + rewrite lookup_insert_ne by done. done.
      + apply Hwf in Hs. destruct (decide (N = o)) as [<-|?].
        * rewrite lookup_insert_eq. eauto.
        * by rewrite lookup_insert_ne.
    - rewrite Hh2, lookup_insert_eq. eauto.
    - rewrite Hm2, lookup_insert_ne by done. done.
    - rewrite Hm2, lookup_insert_eq. done.
    - unfold is_array. rewrite Hh2, lookup_insert_eq, lookup_insert_ne by done.
      intros [ps Hps]. apply Hkind. destruct kind; simpl in Hps; congruence. }
  destruct (getFlushed_loop_spec fuel (getFlushed fuel) obj N ops IH _ _ _ Hfill Hloop)
    as (Hrel & Harr & Hcontent).
  assert (delete N (s_heap st2) = s_heap st) as Hdel.
  { rewrite Hh2. rewrite delete_insert_eq. by apply delete_id. }
  rewrite Hdel in Hrel.
  destruct Hrel as (He & Hfz & Hd & Hfl & Hfc & Hcp & Hal).
  assert (flags_cleared (mutationCache st) (mutationCache st2)) as Hfl0.
  { intros l. rewrite Hm2. destruct (decide (l = obj)) as [->|Hl].
    - rewrite lookup_insert_eq, Hmo. done.
    - rewrite lookup_insert_ne by done. by destruct (mutationCache st !! l). }
  assert (not_dirty (mutationCache st2) obj) as Hnd2.
  { unfold not_dirty. rewrite Hm2, lookup_insert_eq. done. }
  assert (not_dirty (mutationCache st3) obj) as Hnd3
    by (by eapply flags_cleared_not_dirty).
  assert (flushCache st3 !! obj = Some N) as HfN.
  { rewrite Hfc by done. rewrite Hf2, lookup_insert_eq. done. }
  assert (frozen_by (s_heap st) (s_heap st2)) as Hfz0.
  { rewrite Hh2. by apply frozen_by_insert_fresh. }
  assert (dom (s_heap st) ⊆ dom (s_heap st2)) as Hd0.
  { rewrite Hh2, dom_insert_L. set_solver. }
  assert (is_Some (mutationCache st3 !! obj)) as Hmo3.
  { apply (flags_cleared_lookup _ _ _ Hfl). rewrite Hm2, lookup_insert_eq. eauto. }
  split.
  2:{ split; [|by intros c [= <-]]. simpl. destruct Hmo3 as [? ->]. by rewrite HfN. }
  split.
  { rewrite He. unfold st2. by destruct st. }
  split; [done|]. split; [by etrans|].
  split; [by eapply flags_cleared_trans|]. split.
  { intros o Hno. rewrite Hfc by (by eapply flags_cleared_not_dirty).
    rewrite Hf2. apply lookup_insert_ne. intros <-.
    unfold not_dirty in Hno. by rewrite Hmo in Hno. }
  split.
  2:{ intros n Hn Hn3. destruct (decide (n = N)) as [->|HnN].
      - exists obj. split; [exists (Mut true ops); eauto|]. done.
      - destruct (Hal n) as (o & Hdo & Hno & Hfo); [|done|].
        { rewrite Hh2. by rewrite lookup_insert_ne. }
        exists o. split; [by eapply flags_cleared_is_dirty|]. done. }
  intros o Hdo. destruct (decide (o = obj)) as [->|Hoo].
  2:{ destruct (Hcp o) as [?|Hcop]; [|by left|].
      - destruct Hdo as (m & Hm & Hdm). exists m.
        by rewrite Hm2, lookup_insert_ne.
      - right. apply (copied_rebase N _ (s_heap st2)); try done.
        + apply Hwf. destruct Hdo as (m & -> & _). eauto.
        + intros ->. destruct Hdo as (m & ? & _). congruence.
        + by apply frozen_by_delete. }
  right.
  assert (is_array (s_heap st2) obj ↔ is_array (s_heap st) obj) as Harr0
    by (by apply frozen_by_is_array).
  assert (∀ k, same_prop (s_heap st) (s_heap st2) obj k) as Hso
    by (intros; by apply frozen_by_same_prop).
  assert (∀ k, pending (mutationCache st3) obj k = alookup k ops) as Hpend.
  { intros k. rewrite (flags_cleared_pending _ _ _ _ Hfl). unfold pending.
    rewrite Hm2, lookup_insert_eq. done. }
  assert (∀ k, (is_array (s_heap st) obj → k ≠ "length") →
    getOwnPropertyDescriptor (s_heap st2) N k = None) as Hempty.
  { intros k Hk. unfold getOwnPropertyDescriptor. rewrite Hh2, lookup_insert_eq. simpl.
    destruct kind eqn:Hkd; try done. simpl.
    case_decide as Hkl; [|done]. subst k.
    exfalso. by apply Hk; [apply Hkind|]. }
  set (ks := dedup (ownKeys (s_heap st) obj ++ akeys ops)) in *.
  assert (∀ k, k ∉ ks →
    pending (mutationCache st3) obj k = None
    ∧ getOwnPropertyDescriptor (s_heap st) obj k = None) as Hout.
  { intros k Hk. unfold ks in Hk. rewrite elem_of_dedup, elem_of_app in Hk.
    split; [rewrite Hpend; apply alookup_None_akeys; tauto|].
    apply ownKeys_gopd. tauto. }
  exists N. split; [done|]. split; [done|]. split.
  { apply elem_of_dom. apply Hd. rewrite Hh2. apply elem_of_dom.
    rewrite lookup_insert_eq. eauto. }
  split; [done|].
  intros Hq k Hk. rewrite Hpend in Hq.
  destruct Hcontent as [Hper Hcon].
  { intros Ha. apply Hq. by apply Harr0. }
  { apply NoDup_dedup. }
  { intros k' _ Hl. apply Hempty. intros Ha. apply Hl. by apply Harr0. }
  destruct (decide (k ∈ ks)) as [Hin|Hnin].
  - destruct (Hcon k Hin) as [Hkd Hcd].
    { intros Ha. apply Hk. by apply Harr0. }
    split; [by eapply key_done_rebase|by eapply child_done_rebase].
  - destruct (Hout k Hnin) as [Hp Hg]. split.
    + unfold key_done. rewrite Hp, Hg.
      eapply same_prop_None; [|by apply Hempty].
      apply Hper; [done|]. intros Ha. apply Hk. by apply Harr0.
    + intros d c _ Hgd. congruence.
Qed.
(** ** The draft traps: what an action leaves in [mutationCache] *)

Lemma mark_rel_refl pc t mc : mark_rel pc t mc mc.
Proof. intros o. by destruct (mc !! o). Qed.

Lemma mark_rel_trans pc t mc1 mc2 mc3 :
  mark_rel pc t mc1 mc2 → mark_rel pc t mc2 mc3 → mark_rel pc t mc1 mc3.
Proof.
  intros H12 H23 o. specialize (H12 o). specialize (H23 o).
  destruct (mc1 !! o), (mc2 !! o), (mc3 !! o); try done.
  - destruct H12, H23. split; [congruence|tauto].
  - destruct H12 as (? & ? & ?), H23 as (? & ?). split; [congruence|]. split; [tauto|done].
Qed.

Lemma mark_rel_up pc p t mc mc' :
  plink pc p t → mark_rel pc p mc mc' → mark_rel pc t mc mc'.
Proof.
  intros Hl H o. specialize (H o).
  destruct (mc !! o), (mc' !! o); try done.
  destruct H as (? & ? & ?). split; [done|]. split; [done|].
  eapply rtc_r; eauto.
Qed.

Lemma markDirty_spec fuel : ∀ pc t mc mc',
  markDirty fuel pc t mc = Some mc' →
  mark_rel pc t mc mc' ∧ is_dirty mc' t.
Proof.
  induction fuel as [|fuel IH]; intros pc t mc mc' Hrun; [done|].
  simpl in Hrun.
  set (mc1 := <[t := Mut true (m_ops (default (Mut false []) (mc !! t)))]> mc) in *.
  assert (mark_rel pc t mc mc1 ∧ is_dirty mc1 t) as [H1 Hd1].
  { split.
    - intros o. unfold mc1. destruct (decide (o = t)) as [->|Hne].
      + rewrite lookup_insert_eq. destruct (mc !! t); simpl; [done|].
        split; [done|]. split; [done|]. apply rtc_refl.
      + rewrite lookup_insert_ne by done. by destruct (mc !! o).
    - eexists. unfold mc1. rewrite lookup_insert_eq. done. }
  destruct (pc !! t) as [ps|] eqn:Hps; [|by simplify_eq].
  assert (∀ qs mcA, (∀ p, p ∈ qs → plink pc p t) →
    is_dirty mcA t →
    foldl (λ acc p, mc' ← acc; markDirty fuel pc p mc') (Some mcA) qs = Some mc' →
    mark_rel pc t mcA mc' ∧ is_dirty mc' t) as Hfold.
  { clear Hrun. induction qs as [|q qs IHq]; intros mcA Hl HdA Hf; simpl in Hf.
    { simplify_eq. split; [apply mark_rel_refl|done]. }
    destruct (markDirty fuel pc q mcA) as [mcB|] eqn:Hq; simpl in Hf.
    2:{ exfalso. clear -Hf. induction qs as [|? ? IHx]; simpl in Hf; [done|]. eauto. }
    destruct (IH _ _ _ _ Hq) as [HAB _].
    assert (mark_rel pc t mcA mcB) as HAB'.
    { eapply mark_rel_up; [|done]. apply Hl. left. }
    destruct (IHq mcB) as [HB Hd]; [intros; apply Hl; by right| |done|].
    { destruct HdA as (m & Hm & Hdm). specialize (HAB' t). rewrite Hm in HAB'.
      unfold is_dirty. destruct (mcB !! t) as [m'|]; [|done].
      exists m'. split; [done|]. tauto. }
    split; [by eapply mark_rel_trans|done]. }
  destruct (Hfold ps mc1) as [H2 Hd2]; [|done|done|].
  { intros p Hp. exists ps. done. }
  split; [by eapply mark_rel_trans|done].
Qed.

Lemma aset_nonempty {A} k (a : A) l : aset k a l ≠ [].
Proof.
  unfold aset. destruct (alookup k l) as [x|] eqn:Hl.
  - destruct l as [|[k0 y] l]; [done|]. simpl. by destruct (decide (k = k0)).
  - destruct (array_index k).
    + destruct l as [|[k0 y] l]; simpl; [done|]. by repeat case_match.
    + by destruct l.
Qed.

Lemma unlinkCache_fields target prop st :
  s_heap (unlinkCache target prop st) = s_heap st
  ∧ mutationCache (unlinkCache target prop st) = mutationCache st.
Proof. unfold unlinkCache. by repeat case_match. Qed.

Lemma unlinkCache_plink target prop st x y :
  (parent_link (unlinkCache target prop st) x y → parent_link st x y)
  ∧ (parent_link st x y → parent_link (unlinkCache target prop st) x y ∨ x = target).
Proof.
  unfold unlinkCache, parent_link, plink.
  destruct (childrenCache st !! target) as [children|]; [|by eauto].
  destruct (alookup prop children) as [child|]; [|by eauto].
  destruct (parentsCache st !! child) as [ps|] eqn:Hps; simpl; [|by eauto].
  destruct (decide (y = child)) as [->|Hne].
  - rewrite lookup_insert_eq, Hps. split.
    + intros (? & [= <-] & Hin). exists ps. split; [done|].
      unfold set_delete in Hin. apply list_elem_of_filter in Hin. tauto.
    + intros (? & [= <-] & Hin). destruct (decide (x = target)) as [->|Hx]; [by right|].
      left. eexists. split; [done|]. unfold set_delete. by apply list_elem_of_filter.
  - rewrite lookup_insert_ne by done. eauto.
Qed.

Lemma rtc_cut {A} (R R' : relation A) t o w :
  (∀ x y, R x y → R' x y ∨ x = t) →
  rtc R o w → rtc R' o w ∨ rtc R' o t.
Proof.
  intros HR Hrtc. induction Hrtc as [x|x y z Hxy Hyz IH]; [by left|].
  destruct (HR _ _ Hxy) as [Hxy'| ->]; [|by right].
  destruct IH; [left|right]; by eapply rtc_l.
Qed.

Lemma record_op_inAction fuel target prop op st b st' :
  inAction st = true →
  record_op fuel target prop op st = Ok b st' →
  ∃ mc2,
    markDirty fuel (parentsCache (unlinkCache target prop st)) target
      (<[target := Mut (m_dirty (default (Mut false []) (mutationCache st !! target)))
                    (aset prop op (m_ops (default (Mut false []) (mutationCache st !! target))))]>
         (mutationCache st)) = Some mc2
    ∧ st' = with_mutationCache mc2 (unlinkCache target prop st).
Proof.
  intros Hin. unfold record_op.
  destruct (unlinkCache_fields target prop st) as [_ ->].
  destruct (markDirty _ _ _ _) as [mc|]; [|done].
  assert (Hi : inAction (with_mutationCache mc (unlinkCache target prop st)) = true).
  { pose proof (published_inAction _ _ (unlinkCache_published target prop st)) as Hu.
    simpl. congruence. }
  rewrite Hi. intros [= <- <-]. eauto.
Qed.

Lemma record_op_justified fuel target prop op st b st' :
  inAction st = true → justified st →
  record_op fuel target prop op st = Ok b st' → justified st'.
Proof.
  intros Hin Hj Hrun.
  destruct (record_op_inAction _ _ _ _ _ _ _ Hin Hrun) as (mc2 & Hmark & ->).
  apply markDirty_spec in Hmark as [Hrel _].
  set (m0 := default (Mut false []) (mutationCache st !! target)) in *.
  set (st1 := unlinkCache target prop st) in *.
  assert (written (with_mutationCache mc2 st1) target) as Hwt.
  { specialize (Hrel target). rewrite lookup_insert_eq in Hrel. unfold written. simpl.
    destruct (mc2 !! target) as [m'|]; [|done]. exists m'. split; [done|].
    destruct Hrel as [-> _]. apply aset_nonempty. }
  assert (∀ w, written st w → written (with_mutationCache mc2 st1) w) as Hw.
  { intros w (m & Hm & Hops). destruct (decide (w = target)) as [->|Hne]; [done|].
    specialize (Hrel w). rewrite lookup_insert_ne, Hm in Hrel by done.
    unfold written. simpl. destruct (mc2 !! w) as [m'|]; [|done].
    exists m'. split; [done|]. destruct Hrel as [-> _]. done. }
  intros o Ho. simpl in Ho.
  pose proof (Hrel o) as Hro.
  destruct (decide (o = target)) as [->|Hne].
  { exists target. split; [done|]. apply rtc_refl. }
  rewrite lookup_insert_ne in Hro by done.
  destruct (mutationCache st !! o) as [m|] eqn:Hm.
  - destruct (Hj o) as (w & Hww & Hchain); [eauto|].
    destruct (rtc_cut (parent_link st) (parent_link (with_mutationCache mc2 st1)) target o w)
      as [Hc|Hc]; [|done| |].
    + intros x y Hxy. by apply (unlinkCache_plink target prop st x y).
    + exists w. split; [by apply Hw|done].
    + exists target. done.
  - destruct Ho as [m' Hm']. rewrite Hm' in Hro. destruct Hro as (_ & _ & Hchain).
    exists target. done.
Qed.

Lemma record_op_all_dirty fuel target prop op st b st' :
  inAction st = true → all_dirty st →
  record_op fuel target prop op st = Ok b st' → all_dirty st'.
Proof.
  intros Hin Hj Hrun.
  destruct (record_op_inAction _ _ _ _ _ _ _ Hin Hrun) as (mc2 & Hmark & ->).
  apply markDirty_spec in Hmark as [Hrel (mt & Hmt & Hdt)].
  intros o m' Hm'. simpl in Hm'. destruct (decide (o = target)) as [->|Hne]; [congruence|].
  specialize (Hrel o). rewrite lookup_insert_ne, Hm' in Hrel by done.
  destruct (mutationCache st !! o) as [m|] eqn:Hm; [|tauto].
  destruct Hrel as [_ Hd]. apply Hd. by eapply Hj.
Qed.

Lemma handler_get_links target prop st v st' :
  handler_get target prop st = Ok v st' →
  s_heap st' = s_heap st ∧ mutationCache st' = mutationCache st
  ∧ ∀ x y, parent_link st x y → parent_link st' x y.
Proof.
  assert (∀ cc c x y, parent_link st x y →
    parent_link (with_links cc
      (<[c := set_add target (default [] (parentsCache st !! c))]> (parentsCache st)) st) x y)
    as Hadd.
  { intros cc c x y (ps & Hps & Hin). unfold parent_link, plink. simpl.
    destruct (decide (y = c)) as [->|Hne].
    - rewrite lookup_insert_eq. eexists. split; [done|]. rewrite Hps. simpl.
      unfold set_add. case_decide; [done|]. apply elem_of_app. by left.
    - rewrite lookup_insert_ne by done. eauto. }
  unfold handler_get. intros H.
  repeat case_match; simplify_eq; try done;
    (split; [done|]; split; [done|]; apply Hadd).
Qed.

Lemma handler_get_justified target prop st v st' :
  justified st → handler_get target prop st = Ok v st' → justified st'.
Proof.
  intros Hj Hg. destruct (handler_get_links _ _ _ _ _ Hg) as (_ & Hmc & Hl).
  intros o Ho. rewrite Hmc in Ho. destruct (Hj o Ho) as (w & Hw & Hc).
  exists w. split.
  - unfold written. by rewrite Hmc.
  - eapply rtc_subrel; [|done]. exact Hl.
Qed.

Lemma handler_get_all_dirty target prop st v st' :
  all_dirty st → handler_get target prop st = Ok v st' → all_dirty st'.
Proof.
  intros Hj Hg. destruct (handler_get_links _ _ _ _ _ Hg) as (_ & Hmc & _).
  unfold all_dirty. by rewrite Hmc.
Qed.

(** A property of the store that the traps keep is kept by the code of an
    action. *)
Section exec_inv.
Context (I : store → Prop).
Hypothesis I_heap : ∀ st h, I st → I (with_heap h st).
Hypothesis I_get : ∀ l k st v st', I st → handler_get l k st = Ok v st' → I st'.
Hypothesis I_record : ∀ fuel t k op st b st',
  inAction st = true → I st → record_op fuel t k op st = Ok b st' → I st'.

Lemma handler_set_inv fuel l k v st b st' :
  inAction st = true → I st → handler_set fuel l k v st = Ok b st' → I st'.
Proof.
  intros Hin HI. unfold handler_set. intros H.
  repeat case_match; simplify_eq; try done; eapply I_record; eauto.
Qed.

Lemma handler_deleteProperty_inv fuel l k st b st' :
  inAction st = true → I st → handler_deleteProperty fuel l k st = Ok b st' → I st'.
Proof.
  intros Hin HI. unfold handler_deleteProperty. intros H.
  repeat case_match; simplify_eq; try done; eapply I_record; eauto.
Qed.

Lemma exec_inv fuel p : ∀ st,
  inAction st = true → I st →
  (∀ v st', exec fuel p st = Ok v st' → I st')
  ∧ (∀ e st', exec fuel p st = Exn e st' → I st').
Proof.
  induction p as [v|e|t key cont IH|t key v cont IH|t key cont IH
    |t key cont IH|t cont IH|kind props cont IH|body IHb cont IH]; intros st Hin HI.
  - simpl. split; intros; simplify_eq; done.
  - simpl. split; intros; simplify_eq; done.
  - assert (Hstep : ∀ l r,
      rbind (handler_get l key st) (λ v st1, exec fuel (cont v) st1) = r →
      (∀ v st', r = Ok v st' → I st') ∧ (∀ e st', r = Exn e st' → I st')).
    { intros l r <-. destruct (handler_get l key st) as [v1 st1|e1 st1|] eqn:Hg; simpl.
      - pose proof (handler_get_published _ _ _ _ _ Hg) as Hp.
        apply IH; [|by eapply I_get].
        rewrite (published_inAction _ _ Hp). done.
      - by destruct (handler_get_no_exn _ _ _ _ _ Hg).
      - split; intros; done. }
    simpl. repeat case_match; try (eapply Hstep; reflexivity);
      try (apply IH; done); split; intros; simplify_eq; done.
  - assert (Hstep : ∀ l r,
      rbind (handler_set fuel l key v st) (λ b st1, exec fuel (cont b) st1) = r →
      (∀ v st', r = Ok v st' → I st') ∧ (∀ e st', r = Exn e st' → I st')).
    { intros l r <-. destruct (handler_set fuel l key v st) as [v1 st1|e1 st1|] eqn:Hg; simpl.
      - pose proof (handler_set_published _ _ _ _ _ _ _ Hin Hg) as Hp.
        apply IH; [|by eapply handler_set_inv].
        rewrite (published_inAction _ _ Hp). done.
      - rewrite (handler_set_exn _ _ _ _ _ _ _ Hin Hg).
        split; intros; simplify_eq; done.
      - split; intros; done. }
    simpl. repeat case_match; try (eapply Hstep; reflexivity);
      try (apply IH; done); try (split; intros; simplify_eq; done).
    apply IH; [done|by apply I_heap].
  - assert (Hstep : ∀ l r,
      rbind (handler_deleteProperty fuel l key st) (λ b st1, exec fuel (cont b) st1) = r →
      (∀ v st', r = Ok v st' → I st') ∧ (∀ e st', r = Exn e st' → I st')).
    { intros l r <-.
      destruct (handler_deleteProperty fuel l key st) as [v1 st1|e1 st1|] eqn:Hg; simpl.
      - pose proof (handler_deleteProperty_published _ _ _ _ _ _ Hin Hg) as Hp.
        apply IH; [|by eapply handler_deleteProperty_inv].
        rewrite (published_inAction _ _ Hp). done.
      - by destruct (handler_deleteProperty_no_exn _ _ _ _ _ _ Hin Hg).
      - split; intros; done. }
    simpl. repeat case_match; try (eapply Hstep; reflexivity);
      try (apply IH; done); try (split; intros; simplify_eq; done).
    apply IH; [done|by apply I_heap].
  - simpl. repeat case_match; try (apply IH; done);
      split; intros; simplify_eq; done.
  - simpl. repeat case_match; try (apply IH; done);
      split; intros; simplify_eq; done.
  - simpl. repeat case_match; try (split; intros; simplify_eq; done).
    apply IH; [done|by apply I_heap].
  - simpl. unfold act_with. rewrite Hin.
    destruct (IHb st Hin HI) as [Hb1 Hb2].
    destruct (exec fuel body st) as [v1 st1|e1 st1|] eqn:Hb; simpl.
    + destruct (exec_published fuel body st Hin) as [Hp _].
      apply IH; [|by eapply Hb1].
      rewrite (published_inAction _ _ (Hp _ _ Hb)). done.
    + split; intros; simplify_eq. eauto.
    + split; intros; done.
Qed.
End exec_inv.

Lemma exec_justified fuel p st v st' :
  inAction st = true → justified st → exec fuel p st = Ok v st' → justified st'.
Proof.
  intros Hin Hj Hrun.
  destruct (exec_inv justified) with (fuel := fuel) (p := p) (st := st) as [Hok _];
    [| | |exact Hin|exact Hj|by eapply Hok].
  - intros s h Hs. exact Hs.
  - intros. by eapply handler_get_justified.
  - intros. by eapply record_op_justified.
Qed.

Lemma exec_all_dirty fuel p st v st' :
  inAction st = true → all_dirty st → exec fuel p st = Ok v st' → all_dirty st'.
Proof.
  intros Hin Hj Hrun.
  destruct (exec_inv all_dirty) with (fuel := fuel) (p := p) (st := st) as [Hok _];
    [| | |exact Hin|exact Hj|by eapply Hok].
  - intros s h Hs. exact Hs.
  - intros. by eapply handler_get_all_dirty.
  - intros. by eapply record_op_all_dirty.
Qed.
(** ** Structural sharing *)

Lemma wf_mc_dom st : dom (mutationCache st) ⊆ dom (s_heap st) → wf_mc st.
Proof.
  intros Hd o Ho. apply elem_of_dom. apply Hd. by apply elem_of_dom.
Qed.

Lemma justified_empty st : mutationCache st = ∅ → justified st.
Proof. intros He o [m Hm]. rewrite He in Hm. done. Qed.

Lemma justified_with_inAction b st : justified st → justified (with_inAction b st).
Proof. intros Hj. exact Hj. Qed.

Lemma reflect_get_ref_desc h l k c :
  reflect_get h l k = VRef c → is_Some (getOwnPropertyDescriptor h l k).
Proof.
  unfold reflect_get. destruct (getOwnPropertyDescriptor h l k); [eauto|done].
Qed.


(** ** The commit goes through *)

Lemma elem_of_dirty_set mc o : o ∈ dirty_set mc ↔ is_dirty mc o.
Proof.
  unfold dirty_set, is_dirty. rewrite elem_of_dom. split.
  - intros [m Hm]. apply map_lookup_filter_Some in Hm as [? ?]. eauto.
  - intros (m & Hm & Hd). exists m. by apply map_lookup_filter_Some.
Qed.

Lemma dirty_set_flags_cleared mc mc' :
  flags_cleared mc mc' → dirty_set mc' ⊆ dirty_set mc.
Proof.
  intros Hc o. rewrite !elem_of_dirty_set. by apply flags_cleared_is_dirty.
Qed.

Lemma dirty_set_clear mc obj ops :
  mc !! obj = Some (Mut true ops) →
  (size (dirty_set (<[obj := Mut false ops]> mc)) + 1 = size (dirty_set mc))%nat.
Proof.
  intros Hm.
  assert (dirty_set mc = {[obj]} ∪ dirty_set (<[obj := Mut false ops]> mc)) as ->.
  { apply set_eq. intros o. rewrite elem_of_union, elem_of_singleton, !elem_of_dirty_set.
    unfold is_dirty. destruct (decide (o = obj)) as [->|Hne].
    - rewrite lookup_insert_eq. split; [by left|]. intros _. eauto.
    - rewrite lookup_insert_ne by done. split; [by right|]. by intros [?|?]. }
  rewrite size_union, size_singleton; [lia|].
  apply disjoint_singleton_l. rewrite elem_of_dirty_set. unfold is_dirty.
  rewrite lookup_insert_eq. by intros (m & [= <-] & ?).
Qed.

Lemma getFlushed_loop_cons fuel rec obj N k ks st :
  getFlushed_loop fuel rec obj N (k :: ks) st =
  getFlushed_loop fuel rec obj N [k] st ≫= getFlushed_loop fuel rec obj N ks.
Proof.
  simpl. destruct (mutationCache st !! obj ≫= _) as [[v|]|]; [|done|].
  - destruct (readonly _ _ _ _ _) as [[h1 vis]|]; simpl; [|done].
    destruct (getOwnPropertyDescriptor (s_heap st) obj k) as [d|];
      [destruct (has_value d); [|done]|];
      destruct (defineProperty _ _ _ _); simpl; done.
  - destruct (getOwnPropertyDescriptor (s_heap st) N k); [done|].
    destruct (getOwnPropertyDescriptor (s_heap st) obj k) as [d|]; simpl; [|done].
    destruct (has_value d && d_configurable d).
    + destruct (rec _ _) as [[v st1]|]; simpl; [|done].
      destruct (defineProperty _ _ _ _); simpl; done.
    + destruct (defineProperty _ _ _ _); simpl; done.
Qed.

Lemma Forall_areplace {A} (P : key * A → Prop) k a l :
  Forall P l → P (k, a) → Forall P (areplace k a l).
Proof.
  intros Hl Ha. induction Hl as [|[k0 a0] l H0 Hl IH]; simpl; [done|].
  destruct (decide (k = k0)); constructor; done.
Qed.

Lemma Forall_ainsert_index {A} (P : key * A → Prop) n k a l :
  Forall P l → P (k, a) → Forall P (ainsert_index n k a l).
Proof.
  intros Hl Ha. induction Hl as [|[k0 a0] l H0 Hl IH]; simpl; [by constructor|].
  repeat case_match; repeat constructor; done.
Qed.

Lemma Forall_aset {A} (P : key * A → Prop) k a l :
  Forall P l → P (k, a) → Forall P (aset k a l).
Proof.
  intros Hl Ha. unfold aset. repeat case_match.
  - by apply Forall_areplace.
  - by apply Forall_ainsert_index.
  - apply Forall_app. split; [done|]. by constructor.
Qed.

Lemma alookup_filter_None {A} (f : key * A → bool) k (l : list (key * A)) :
  alookup k l = None → alookup k (filter (λ p, f p = true) l) = None.
Proof.
  induction l as [|[k0 a0] l IH]; simpl; [done|].
  destruct (decide (k = k0)) as [->|Hne]; [done|]. intros Hl.
  rewrite filter_cons. case_decide; simpl; [|by apply IH].
  destruct (decide (k = k0)); [done|]. by apply IH.
Qed.

Lemma alookup_filter_Some {A} (f : key * A → bool) k a (l : list (key * A)) :
  alookup k l = Some a → f (k, a) = true →
  alookup k (filter (λ p, f p = true) l) = Some a.
Proof.
  induction l as [|[k0 a0] l IH]; simpl; [done|].
  destruct (decide (k = k0)) as [->|Hne].
  - intros [= ->] Hf. rewrite filter_cons. rewrite decide_True by done. simpl.
    by rewrite decide_True.
  - intros Hl Hf. rewrite filter_cons. case_decide; simpl; [|by apply IH].
    rewrite decide_False by done. by apply IH.
Qed.

(** The shapes of the property list [Object.defineProperty] leaves. *)
Lemma defineProperty_cases h N k dd h' :
  defineProperty h N k dd = Some h' →
  ∃ kd ps ps', h !! N = Some (Obj kd ps) ∧ h' = <[N := Obj kd ps']> h ∧
    ( (is_Some (alookup k ps) ∧ (kd = Arr → k ≠ "length" ∨
                                   ∃ d0, alookup k ps = Some d0 ∧ d_configurable d0 = true)
       ∧ ps' = areplace k dd ps)
    ∨ (kd = Arr ∧ k = "length" ∧ is_Some (alookup k ps)
       ∧ ∃ z, ps' = areplace k dd (filter (λ p, below_length z p = true) ps))
    ∨ (alookup k ps = None ∧ ps' = aset k dd ps)
    ∨ (alookup k ps = None ∧ k ≠ "length"
       ∧ ∃ dl z, alookup "length" ps = Some dl ∧ desc_writable dl = true
           ∧ ps' = areplace "length" (with_value dl (VNum (Num z))) (aset k dd ps)) ).
Proof.
  unfold defineProperty. destruct (h !! N) as [[kd ps]|] eqn:HN; simpl; [|done].
  intros H. exists kd, ps.
  destruct (alookup k ps) as [d0|] eqn:Hk.
  - destruct (d_configurable d0) eqn:Hc.
    { simplify_eq. eexists. split; [done|]. split; [done|]. left.
      split; [eauto|]. split; [|done]. intros _. right. eauto. }
    destruct (d_slot d0) as [v0 [|]|]; try done.
    destruct (d_slot dd) as [v w|]; try done.
    destruct (bool_decide (d_enumerable dd = d_enumerable d0) && negb (d_configurable dd));
      [|done].
    destruct kd; try (simplify_eq; eexists; split; [done|]; split; [done|]; left;
                      split; [eauto|]; split; [|done]; by intros ?).
    destruct (bool_decide (k = "length")) eqn:Hkl.
    + apply bool_decide_eq_true in Hkl. destruct v as [| | |[| |z]| | | | | |]; try done.
      destruct (bool_decide _); [|done]. destruct (forallb _ _); [|done].
      simplify_eq. eexists. split; [done|]. split; [done|]. right. left.
      split; [done|]. split; [done|]. split; [eauto|]. eauto.
    + apply bool_decide_eq_false in Hkl.
      simplify_eq; eexists; split; [done|]; split; [done|]; left.
      split; [eauto|]. split; [|done]. intros _. by left.
  - destruct kd; try (simplify_eq; eexists; split; [done|]; split; [done|];
                      right; right; left; done).
    destruct (array_index k) as [i|] eqn:Hi;
      [|simplify_eq; eexists; split; [done|]; split; [done|]; right; right; left; done].
    assert (k ≠ "length") as Hkl.
    { intros ->. by rewrite array_index_length in Hi. }
    destruct (bool_decide (array_length ps ≤ i)%N);
      [|simplify_eq; eexists; split; [done|]; split; [done|]; right; right; left; done].
    destruct (alookup "length" (aset k dd ps)) as [dl|] eqn:Hdl;
      [|simplify_eq; eexists; split; [done|]; split; [done|]; right; right; left; done].
    destruct (desc_writable dl) eqn:Hw; [|done]. simplify_eq.
    eexists. split; [done|]. split; [done|]. right. right. right.
    split; [done|]. split; [done|]. exists dl. eexists. split; [|done].
    rewrite alookup_aset_new in Hdl by done. by rewrite decide_False in Hdl.
Qed.

Lemma Forall_alookup {A} (P : key * A → Prop) k a l :
  Forall P l → alookup k l = Some a → P (k, a).
Proof.
  intros Hl. induction Hl as [|[k0 a0] l H0 Hl IH]; simpl; [done|].
  destruct (decide (k = k0)) as [->|Hne]; [by intros [= <-]|done].
Qed.

Lemma Forall_filter_keep {A} (P : A → Prop) (Q : A → Prop) `{∀ x, Decision (Q x)} l :
  Forall P l → Forall P (filter Q l).
Proof.
  rewrite !Forall_forall. intros Hl x Hx. apply list_elem_of_filter in Hx. apply Hl. tauto.
Qed.

Lemma defineProperty_Forall (P : key * desc → Prop) h N k dd h' kd ps :
  h !! N = Some (Obj kd ps) → Forall P ps → P (k, dd) →
  (∀ dl z, P ("length", dl) → P ("length", with_value dl (VNum (Num z)))) →
  defineProperty h N k dd = Some h' →
  ∃ ps', h' = <[N := Obj kd ps']> h ∧ Forall P ps'.
Proof.
  intros HN Hps Hdd Hlen Hdef.
  destruct (defineProperty_cases _ _ _ _ _ Hdef) as (kd' & ps0 & ps' & HN' & -> & Hcase).
  rewrite HN in HN'. injection HN' as <- <-. exists ps'. split; [done|].
  destruct Hcase as [(_ & _ & ->)|[(_ & _ & _ & z & ->)|[(_ & ->)|(_ & _ & dl & z & Hdl & _ & ->)]]].
  - by apply Forall_areplace.
  - apply Forall_areplace; [|done]. by apply Forall_filter_keep.
  - by apply Forall_aset.
  - apply Forall_areplace; [by apply Forall_aset|]. apply Hlen.
    eapply Forall_alookup; eauto.
Qed.

Lemma defineProperty_absent h N k dd h' k' :
  defineProperty h N k dd = Some h' → k' ≠ k →
  getOwnPropertyDescriptor h N k' = None → getOwnPropertyDescriptor h' N k' = None.
Proof.
  intros Hdef Hne. unfold getOwnPropertyDescriptor.
  destruct (defineProperty_cases _ _ _ _ _ Hdef) as (kd & ps & ps' & -> & -> & Hcase).
  rewrite lookup_insert_eq. simpl. intros Habs.
  destruct Hcase as [(_ & _ & ->)|[(_ & _ & _ & z & ->)|[(Hk & ->)|(Hk & _ & dl & z & Hdl & _ & ->)]]].
  - by rewrite alookup_areplace_ne.
  - rewrite alookup_areplace_ne by done.
    by apply (alookup_filter_None (below_length z)).
  - rewrite alookup_aset_new by done. by rewrite decide_False.
  - rewrite alookup_areplace_ne by congruence.
    rewrite alookup_aset_new by done. by rewrite decide_False.
Qed.

Lemma plain_with_value dl z : plain_desc dl → plain_desc (with_value dl (VNum (Num z))).
Proof. unfold plain_desc, with_value. by destruct dl as [[v w|g s] e c]. Qed.

Lemma defineProperty_proxy_free h N k dd h' :
  proxy_free h → plain_desc dd → defineProperty h N k dd = Some h' → proxy_free h'.
Proof.
  intros Hpf Hdd Hdef.
  destruct (defineProperty_cases _ _ _ _ _ Hdef) as (kd & ps & ps0 & HN & _ & _).
  destruct (defineProperty_Forall (λ p, plain_desc p.2) h N k dd h' kd ps HN)
    as (ps' & -> & HF); [apply (Hpf N _ HN)|done| |done|].
  - intros dl z. apply plain_with_value.
  - apply map_Forall_insert_2; done.
Qed.

Lemma standard_with_value dl z :
  standard_length dl → standard_length (with_value dl (VNum (Num z))).
Proof.
  unfold standard_length, with_value.
  destruct dl as [[[| | |[| |z0]| | | | | |] [|]|g s] [|] [|]]; done.
Qed.

Lemma standard_length_facts d :
  standard_length d →
  d_configurable d = false ∧ d_enumerable d = false ∧ desc_writable d = true
  ∧ ∃ v, d_slot d = Data v true.
Proof.
  unfold standard_length, desc_writable.
  destruct d as [[[| | |[| |z0]| | | | | |] [|]|g s] [|] [|]]; try done. eauto.
Qed.

Lemma below_length_length z d : below_length z ("length", d) = true.
Proof. reflexivity. Qed.

Lemma defineProperty_building h N k dd h' ops :
  building h N ops →
  (is_array h N → k = "length" → standard_length dd) →
  (is_array h N → ∀ v0, alookup "length" ops = Some (MSet v0) →
   k = "length" ∨ d_configurable dd = true) →
  defineProperty h N k dd = Some h' → building h' N ops.
Proof.
  unfold building. intros Hb Hkl Hcfg Hdef.
  destruct (defineProperty_cases _ _ _ _ _ Hdef) as (kd & ps & ps' & HN & -> & Hcase).
  rewrite HN in Hb. rewrite lookup_insert_eq.
  destruct kd; [done| |done].
  assert (is_array h N) as Ha by (by exists ps).
  specialize (Hkl Ha). specialize (Hcfg Ha).
  destruct (alookup "length" ps) as [dl|] eqn:Hdl; [|by destruct Hb].
  destruct Hb as [Hstd Hel]. destruct (standard_length_facts _ Hstd) as (Hc & _).
  split.
  - destruct Hcase as [(Hk & Hor & ->)|[(_ & -> & _ & z & ->)|[(Hk & ->)|(Hk & Hne & dl' & z & Hdl' & _ & ->)]]].
    + destruct (decide (k = "length")) as [->|Hne].
      * rewrite alookup_areplace_eq by eauto. by apply Hkl.
      * rewrite alookup_areplace_ne by done. by rewrite Hdl.
    + rewrite alookup_areplace_eq; [by apply Hkl|].
      erewrite alookup_filter_Some; eauto.
    + rewrite alookup_aset_new by done. rewrite decide_False by congruence.
      by rewrite Hdl.
    + rewrite alookup_areplace_eq.
      * apply standard_with_value. congruence.
      * rewrite alookup_aset_new by done. rewrite decide_False by congruence. eauto.
  - destruct (alookup "length" ops) as [[v|]|] eqn:Hop; try done.
    destruct (defineProperty_Forall (λ p, p.1 = "length" ∨ d_configurable p.2 = true)
                h N k dd (<[N := Obj Arr ps']> h) Arr ps HN Hel)
      as (ps2 & Heq & HF); [| |exact Hdef|].
    + simpl. by apply (Hcfg v).
    + intros. by left.
    + assert (ps2 = ps') as <-; [|done].
      apply (f_equal (λ m : heap, m !! N)) in Heq.
      rewrite !lookup_insert_eq in Heq. congruence.
Qed.

Lemma defineProperty_total_absent h N k dd ops :
  building h N ops → getOwnPropertyDescriptor h N k = None →
  is_Some (defineProperty h N k dd).
Proof.
  unfold building, getOwnPropertyDescriptor, defineProperty.
  destruct (h !! N) as [[kd ps]|] eqn:HN; simpl; [|done].
  intros Hb Hk. rewrite Hk. destruct kd; try done; try (by eauto).
  destruct (array_index k) as [i|] eqn:Hi; [|eauto].
  assert (k ≠ "length") as Hkl.
  { intros ->. by rewrite array_index_length in Hi. }
  destruct (bool_decide _); [|eauto].
  destruct (alookup "length" (aset k dd ps)) as [dl|] eqn:Hdl; [|eauto].
  rewrite alookup_aset_new in Hdl by done. rewrite decide_False in Hdl by congruence.
  rewrite Hdl in Hb. destruct Hb as [Hstd _].
  destruct (standard_length_facts _ Hstd) as (_ & _ & -> & _). eauto.
Qed.

Lemma defineProperty_total_length h N ps d v ops :
  h !! N = Some (Obj Arr ps) → building h N ops →
  alookup "length" ops = Some (MSet v) → valid_length v → standard_length d →
  is_Some (defineProperty h N "length" (with_value d v)).
Proof.
  unfold building, defineProperty. intros HN Hb Hop Hv Hd. rewrite HN in *. simpl.
  rewrite Hop in Hb.
  destruct (alookup "length" ps) as [d0|] eqn:Hl; [|by destruct Hb].
  destruct Hb as [Hstd Hel].
  destruct (standard_length_facts _ Hstd) as (-> & He0 & _ & v0 & ->).
  destruct (standard_length_facts _ Hd) as (Hc & He & _ & v1 & Hs).
  unfold with_value. rewrite Hs, Hc, He, He0. simpl.
  destruct v as [| | |[| |z]| | | | | |]; try done. simpl in Hv.
  rewrite bool_decide_true by done.
  assert (forallb (λ p, below_length (Z.to_N z) p || d_configurable p.2) ps = true) as ->.
  { apply forallb_forall. intros p Hp. apply list_elem_of_In in Hp.
    unfold elements_configurable in Hel. rewrite Forall_forall in Hel.
    destruct p as [k0 d1]. destruct (Hel _ Hp) as [Hk|Hk]; simpl in Hk.
    - subst. done.
    - simpl. rewrite Hk. apply orb_true_r. }
  eauto.
Qed.

Lemma standard_length_same d d' :
  standard_length d → same_but_writable d d' → standard_length d'.
Proof.
  unfold standard_length, same_but_writable.
  destruct d as [[[| | |[| |z0]| | | | | |] [|]|g s] [|] [|]]; try done.
  destruct d' as [[v' w'|g' s'] e' c']; simpl; intros _ (-> & -> & Hs); [|done].
  destruct Hs as (-> & _ & ->); done.
Qed.

Lemma Forall2_alookup_Some (l l' : list (key * desc)) k d :
  Forall2 (λ p p', p'.1 = p.1 ∧ same_but_writable p.2 p'.2) l l' →
  alookup k l = Some d →
  ∃ d', alookup k l' = Some d' ∧ same_but_writable d d'.
Proof.
  intros HF Hl. pose proof (Forall2_alookup _ _ _ k HF) as H. rewrite Hl in H.
  destruct (alookup k l') as [d'|]; [eauto|done].
Qed.

Lemma elements_configurable_same (l l' : list (key * desc)) :
  Forall2 (λ p p', p'.1 = p.1 ∧ same_but_writable p.2 p'.2) l l' →
  elements_configurable l → elements_configurable l'.
Proof.
  unfold elements_configurable. intros HF.
  induction HF as [|[k d] [k' d'] l l' [Hk Hs] HF IH]; [done|].
  intros Hl. apply Forall_cons in Hl as [Hd Hl]. constructor; [|by apply IH].
  simpl in *. destruct Hs as (_ & Hc & _). destruct Hd as [?|?]; [left|right]; congruence.
Qed.

Lemma building_frozen h h' N ops :
  frozen_by h h' → building h N ops → building h' N ops.
Proof.
  unfold building. intros Hf Hb.
  destruct (h !! N) as [[kd ps]|] eqn:HN; [|done].
  destruct (Hf N _ HN) as ([kd' ps'] & -> & Hk & HF). simpl in *. subst kd'.
  destruct kd; [done| |done].
  destruct (alookup "length" ps) as [dl|] eqn:Hdl; [|by destruct Hb].
  destruct Hb as [Hstd Hel].
  destruct (Forall2_alookup_Some _ _ _ _ HF Hdl) as (d' & -> & Hs).
  split; [by eapply standard_length_same|].
  destruct (alookup "length" ops) as [[v|]|]; try done.
  by eapply elements_configurable_same.
Qed.

Lemma record_ok_frozen h h' o m :
  frozen_by h h' → is_Some (h !! o) → record_ok h o m → record_ok h' o m.
Proof.
  intros Hf Ho [Hops Harr]. split.
  - eapply Forall_impl; [exact Hops|]. intros [k op]. unfold op_ok. simpl.
    destruct op as [v|]; [|done]. intros [Hv Hd]. split; [done|].
    pose proof (frozen_by_same_prop _ _ o k Hf Ho) as Hs. unfold same_prop in Hs.
    destruct (getOwnPropertyDescriptor h o k) as [d|],
      (getOwnPropertyDescriptor h' o k) as [d'|]; try done.
    destruct (same_but_writable_facts _ _ Hs) as (-> & _). done.
  - unfold array_ok in *. destruct Ho as [[kd ps] HN]. rewrite HN in Harr.
    destruct (Hf o _ HN) as ([kd' ps'] & -> & Hk & HF). simpl in *. subst kd'.
    destruct kd; try done.
    destruct (alookup "length" ps) as [dl|] eqn:Hdl; [|by destruct Harr].
    destruct Harr as [Hstd Hel].
    destruct (Forall2_alookup_Some _ _ _ _ HF Hdl) as (d' & -> & Hs).
    split; [by eapply standard_length_same|].
    destruct (alookup "length" (m_ops m)) as [[v|]|]; try done.
    destruct Hel as [? Hel]. split; [done|]. by eapply elements_configurable_same.
Qed.

(** [flushable] along the commit. *)
Lemma flushable_step N st st1 :
  flushable st → is_Some (s_heap st !! N) → mutationCache st !! N = None →
  flush_rel (delete N (s_heap st)) st st1 →
  proxy_free (s_heap st1) → flushable st1.
Proof.
  intros (Hdom & _ & Hrec) HN HmN (_ & Hfz & Hd & Hfl & _) Hpf.
  split; [|split; [done|]].
  - intros o Ho. apply Hd. apply Hdom. apply elem_of_dom in Ho. apply elem_of_dom.
    by apply (flags_cleared_lookup _ _ _ Hfl).
  - intros o m1 Hm1. specialize (Hfl o). rewrite Hm1 in Hfl.
    destruct (mutationCache st !! o) as [m|] eqn:Hm; [|done].
    destruct Hfl as [Hops _].
    assert (o ≠ N) as Hne by congruence.
    assert (is_Some (delete N (s_heap st) !! o)) as Ho.
    { rewrite lookup_delete_ne by done. apply elem_of_dom, Hdom, elem_of_dom. eauto. }
    eapply (record_ok_frozen (delete N (s_heap st))); [done|done|].
    specialize (Hrec o m Hm). destruct Hrec as [H1 H2]. unfold record_ok. rewrite Hops.
    split.
    + eapply Forall_impl; [exact H1|]. intros [k op]. unfold op_ok, getOwnPropertyDescriptor.
      by rewrite lookup_delete_ne.
    + unfold array_ok in *. by rewrite lookup_delete_ne.
Qed.

Lemma flush_size_with_heap st h :
  dom h = dom (s_heap st) → flush_size (with_heap h st) = flush_size st.
Proof. unfold flush_size. simpl. by intros ->. Qed.

Lemma flushable_frozen st h1 :
  flushable st → frozen_by (s_heap st) h1 → dom h1 = dom (s_heap st) →
  flushable (with_heap h1 st).
Proof.
  intros (Hdom & Hpf & Hrec) Hf Hd. split; [|split]; simpl.
  - by rewrite Hd.
  - by eapply frozen_by_proxy_free.
  - intros o m Hm. eapply record_ok_frozen; [done| |by apply Hrec].
    apply elem_of_dom, Hdom, elem_of_dom. eauto.
Qed.

Lemma flushable_define st N k dd h2 :
  flushable st → is_Some (s_heap st !! N) → mutationCache st !! N = None →
  plain_desc dd → defineProperty (s_heap st) N k dd = Some h2 →
  flushable (with_heap h2 st).
Proof.
  intros Hfl HN HmN Hdd Hdef.
  destruct (defineProperty_frame _ _ _ _ _ Hdef) as (Hf2 & Hd2 & _).
  eapply (flushable_step N st); [done|done|done| |].
  - by apply flush_rel_heap.
  - simpl. destruct Hfl as (_ & Hpf & _). by eapply defineProperty_proxy_free.
Qed.

Lemma plain_desc_with_value d v :
  not_proxy v → plain_desc d → plain_desc (with_value d v).
Proof.
  unfold plain_desc, with_value, not_proxy.
  destruct d as [[v0 w|g s] e c]; simpl; [|done]. by destruct v.
Qed.

Lemma not_proxy_committed mc fc x : not_proxy x → not_proxy (committed mc fc x).
Proof.
  destruct x; simpl; try done. intros _. repeat case_match; done.
Qed.

Lemma not_proxy_reflect_get h l k : proxy_free h → not_proxy (reflect_get h l k).
Proof.
  intros Hpf. unfold reflect_get.
  destruct (getOwnPropertyDescriptor h l k) as [d|] eqn:Hd; [|done].
  pose proof (proxy_free_lookup _ _ _ _ Hpf Hd) as Hp. unfold plain_desc in Hp.
  destruct d as [[v w|[g|] s] e c]; simpl in *; try done; by destruct v.
Qed.

Lemma building_length h N ops :
  building h N ops → is_array h N →
  is_Some (getOwnPropertyDescriptor h N "length").
Proof.
  unfold building, getOwnPropertyDescriptor. intros Hb [ps HN]. rewrite HN in *. simpl.
  destruct (alookup "length" ps); [eauto|by destruct Hb].
Qed.

Lemma flushable_record st o m :
  flushable st → mutationCache st !! o = Some m → record_ok (s_heap st) o m.
Proof. intros (_ & _ & Hrec). apply Hrec. Qed.

Section getFlushed_total.
Context (fuel : nat) (rec : value → store → option (value * store)).
Context (obj N : loc) (ops : list (key * mop)).
Hypothesis rec_spec : ∀ x st v st',
  wf_mc st → rec x st = Some (v, st') →
  flush_rel (s_heap st) st st' ∧ flush_result x v st'.
Hypothesis rec_total : ∀ x st,
  flushable st →
  (flush_size st + size (dirty_set (mutationCache st)) < fuel)%nat →
  ∃ v st', rec x st = Some (v, st') ∧ flushable st'
    ∧ (flush_size st' ≤ flush_size st)%nat.

(** One round of the loop goes through. *)
Lemma getFlushed_round_total k st :
  filling obj N ops st → flushable st → building (s_heap st) N ops →
  (getOwnPropertyDescriptor (s_heap st) N k = None
   ∨ (k = "length" ∧ is_array (s_heap st) N)) →
  (pending (mutationCache st) obj k = None →
   is_Some (getOwnPropertyDescriptor (s_heap st) obj k)) →
  (flush_size st + size (dirty_set (mutationCache st)) < fuel)%nat →
  ∃ st1, getFlushed_loop fuel rec obj N [k] st = Some st1
    ∧ flushable st1 ∧ building (s_heap st1) N ops
    ∧ (flush_size st1 ≤ flush_size st)%nat
    ∧ (∀ k', k' ≠ k → getOwnPropertyDescriptor (s_heap st) N k' = None →
         getOwnPropertyDescriptor (s_heap st1) N k' = None).
Proof.
  intros Hfill Hfl Hb Habs Hnoop Hsize.
  destruct (filling_obj _ _ _ _ Hfill) as [Ho Hne].
  pose proof Hfill as (Hwf & HN & HmN & Hmo & Hlink).
  pose proof (flushable_record _ _ _ Hfl Hmo) as [Hops Harr]. simpl in Hops, Harr.
  pose proof Hfl as (_ & Hpf & _).
  assert (pending (mutationCache st) obj k = alookup k ops) as Hpend.
  { unfold pending. by rewrite Hmo. }
  assert (∀ dd st0,
    flushable st0 → is_Some (s_heap st0 !! N) → mutationCache st0 !! N = None →
    building (s_heap st0) N ops →
    frozen_by (s_heap st) (s_heap st0) →
    (flush_size st0 ≤ flush_size st)%nat →
    plain_desc dd →
    (getOwnPropertyDescriptor (s_heap st) N k = None
     ∨ (∃ d v, dd = with_value d v ∧ standard_length d ∧ valid_length v
               ∧ alookup "length" ops = Some (MSet v))) →
    (is_array (s_heap st) N → ∀ v0, alookup "length" ops = Some (MSet v0) →
       k = "length" ∨ d_configurable dd = true) →
    ∃ h2, defineProperty (s_heap st0) N k dd = Some h2
      ∧ flushable (with_heap h2 st0) ∧ building h2 N ops
      ∧ (flush_size (with_heap h2 st0) ≤ flush_size st)%nat
      ∧ (∀ k', k' ≠ k → getOwnPropertyDescriptor (s_heap st) N k' = None →
           getOwnPropertyDescriptor h2 N k' = None)) as Hdefine.
  { intros dd st0 Hfl0 HN0 HmN0 Hb0 Hfz0 Hsz0 Hdd Hcase Hcfg.
    assert (is_array (s_heap st0) N ↔ is_array (s_heap st) N) as Harr0
      by (by apply frozen_by_is_array).
    assert (is_Some (defineProperty (s_heap st0) N k dd)) as [h2 Hdef].
    { destruct Habs as [Hnone|[-> Ha]].
      - eapply defineProperty_total_absent; [done|].
        eapply same_prop_None; [|done]. by apply frozen_by_same_prop.
      - destruct Hcase as [Hnone|(d & v & -> & Hd & Hv & Hop)].
        + destruct (building_length _ _ _ Hb Ha) as [? ?]. congruence.
        + apply Harr0 in Ha as [ps HN1]. by eapply defineProperty_total_length. }
    exists h2. split; [done|].
    destruct (defineProperty_frame _ _ _ _ _ Hdef) as (_ & Hd2 & _).
    split; [by eapply flushable_define|]. split; [|split].
    - eapply defineProperty_building; [done| | |done].
      + intros Ha ->. destruct Hcase as [Hnone|(d & v & -> & Hd & Hv & Hop)].
        * apply Harr0 in Ha. destruct (building_length _ _ _ Hb Ha) as [? ?]. congruence.
        * destruct v as [| | |[| |z]| | | | | |]; try done. by apply standard_with_value.
      + intros Ha v0 Hop. apply Hcfg with v0; [by apply Harr0|done].
    - rewrite flush_size_with_heap by done. done.
    - intros k' Hne' Hn. eapply defineProperty_absent; [done|done|].
      eapply same_prop_None; [|done]. by apply frozen_by_same_prop. }
  assert (∀ k0 d, getOwnPropertyDescriptor (s_heap st) obj k0 = Some d →
    is_array (s_heap st) N → ∀ v0, alookup "length" ops = Some (MSet v0) →
      k0 = "length" ∨ d_configurable d = true) as Hcfgo.
  { intros k0 d Hd Ha v0 Hop. apply Hlink in Ha as [ps Hps].
    unfold array_ok in Harr. rewrite Hps, Hop in Harr.
    destruct Harr as (_ & _ & Hel).
    unfold getOwnPropertyDescriptor in Hd. rewrite Hps in Hd. simpl in Hd.
    apply (Forall_alookup _ _ _ _ Hel Hd). }
  assert (∀ d v, getOwnPropertyDescriptor (s_heap st) obj k = Some d →
    alookup k ops = Some (MSet v) →
    getOwnPropertyDescriptor (s_heap st) N k = None
    ∨ (∃ d0 v0, with_value d v = with_value d0 v0 ∧ standard_length d0 ∧ valid_length v0
               ∧ alookup "length" ops = Some (MSet v0))) as Hlen.
  { intros d v Hd Hop. destruct Habs as [Hnone|[-> Ha]]; [by left|]. right.
    apply Hlink in Ha as [ps Hps].
    unfold array_ok in Harr. rewrite Hps, Hop in Harr.
    unfold getOwnPropertyDescriptor in Hd. rewrite Hps in Hd. simpl in Hd.
    rewrite Hd in Harr. destruct Harr as (Hstd & Hv & _). exists d, v. done. }
  assert (flush_rel (delete N (s_heap st)) st st) as Hrefl
    by apply flush_rel_delete, flush_rel_refl.
  simpl. fold (pending (mutationCache st) obj k). rewrite Hpend.
  destruct (alookup k ops) as [[v|]|] eqn:Hop.
  - (* a pending set *)
    pose proof (Forall_alookup _ _ _ _ Hops Hop) as [Hv Hhv]. simpl in Hv, Hhv.
    destruct (readonly_total fuel (s_heap st) v ∅ Hpf Hv) as [[h1 vis] Hro].
    { unfold flush_size in Hsize.
      assert (size (dom (s_heap st) ∖ ∅) ≤ size (dom (s_heap st)))%nat
        by (apply subseteq_size; set_solver). lia. }
    rewrite Hro. simpl.
    destruct (readonly_frame _ _ _ _ _ Hro) as [Hf1 Hd1].
    pose proof (flushable_frozen _ _ Hfl Hf1 Hd1) as Hfl1.
    assert (is_Some (s_heap (with_heap h1 st) !! N)) as HN1.
    { simpl. apply elem_of_dom. rewrite Hd1. by apply elem_of_dom. }
    assert (∀ dd, plain_desc dd →
      (getOwnPropertyDescriptor (s_heap st) N k = None
       ∨ (∃ d v, dd = with_value d v ∧ standard_length d ∧ valid_length v
               ∧ alookup "length" ops = Some (MSet v))) →
      (is_array (s_heap st) N → ∀ v0, alookup "length" ops = Some (MSet v0) →
         k = "length" ∨ d_configurable dd = true) →
      ∃ st1, (defineProperty h1 N k dd ≫= λ h2, Some (with_heap h2 st)) = Some st1
        ∧ flushable st1 ∧ building (s_heap st1) N ops
        ∧ (flush_size st1 ≤ flush_size st)%nat
        ∧ (∀ k', k' ≠ k → getOwnPropertyDescriptor (s_heap st) N k' = None →
             getOwnPropertyDescriptor (s_heap st1) N k' = None)) as Hgo.
    { intros dd Hdd Hcase Hcfg.
      destruct (Hdefine dd (with_heap h1 st)) as (h2 & Hdef & Hfl2 & Hb2 & Hsz2 & Hab2);
        try done.
      - by eapply building_frozen.
      - by rewrite flush_size_with_heap.
      - simpl in Hdef. rewrite Hdef. simpl. exists (with_heap h2 st). done. }
    destruct (getOwnPropertyDescriptor (s_heap st) obj k) as [d|] eqn:Hd.
    + rewrite Hhv. apply Hgo.
      * apply plain_desc_with_value; [done|]. by eapply proxy_free_lookup.
      * by apply Hlen.
      * intros Ha v0 Hop0. destruct (Hcfgo _ _ Hd Ha v0 Hop0) as [?|Hc]; [by left|].
        right. unfold with_value. by destruct d as [[? ?|? ?] ? ?].
    + apply Hgo.
      * unfold plain_desc. simpl. by destruct v.
      * destruct Habs as [?|[-> Ha]]; [by left|]. exfalso.
        apply Hlink in Ha as [ps Hps]. unfold array_ok in Harr. rewrite Hps in Harr.
        unfold getOwnPropertyDescriptor in Hd. rewrite Hps in Hd. simpl in Hd.
        rewrite Hd in Harr. by destruct Harr.
      * intros; by right.
  - (* a pending delete *)
    exists st. done.
  - destruct (getOwnPropertyDescriptor (s_heap st) N k) as [dN|] eqn:HNk.
    { exists st. done. }
    destruct Hnoop as [d Hd]; [by rewrite Hpend|]. rewrite Hd. simpl.
    pose proof (proxy_free_lookup _ _ _ _ Hpf Hd) as Hpd.
    destruct (has_value d && d_configurable d) eqn:Hvc.
    + destruct (rec_total (reflect_get (s_heap st) obj k) st Hfl Hsize)
        as (v & st1 & Hrec & Hfl1 & Hsz1).
      rewrite Hrec. simpl.
      destruct (rec_spec _ _ _ _ Hwf Hrec) as [Hrel [Hv _]].
      pose proof Hrel as (_ & Hfz & Hdm & Hflg & _).
      assert (filling obj N ops st1) as Hfill1.
      { eapply filling_step; [done|by apply flush_rel_delete|].
        by apply frozen_by_is_array. }
      destruct Hfill1 as (_ & HN1 & HmN1 & _).
      destruct (Hdefine (with_value d v) st1) as (h2 & Hdef & Hfl2 & Hb2 & Hsz2 & Hab2);
        try done.
      * by eapply building_frozen.
      * apply plain_desc_with_value; [|done]. rewrite Hv.
        apply not_proxy_committed. by apply not_proxy_reflect_get.
      * by left.
      * intros _ v0 _. right. apply andb_prop in Hvc as [_ Hc].
        unfold with_value. by destruct d as [[? ?|? ?] ? ?].
      * rewrite Hdef. simpl. exists (with_heap h2 st1). done.
    + destruct (Hdefine d st) as (h2 & Hdef & Hfl2 & Hb2 & Hsz2 & Hab2); try done.
      * apply frozen_by_refl.
      * by left.
      * intros Ha v0 Hop0. by eapply Hcfgo.
      * rewrite Hdef. simpl. exists (with_heap h2 st). done.
Qed.

(** The loop goes through. *)
Lemma getFlushed_loop_total ks : ∀ st,
  filling obj N ops st → flushable st → building (s_heap st) N ops → NoDup ks →
  (∀ k, k ∈ ks → getOwnPropertyDescriptor (s_heap st) N k = None
                 ∨ (k = "length" ∧ is_array (s_heap st) N)) →
  (∀ k, k ∈ ks → pending (mutationCache st) obj k = None →
     is_Some (getOwnPropertyDescriptor (s_heap st) obj k)) →
  (flush_size st + size (dirty_set (mutationCache st)) < fuel)%nat →
  ∃ st', getFlushed_loop fuel rec obj N ks st = Some st' ∧ flushable st'
    ∧ (flush_size st' ≤ flush_size st)%nat.
Proof.
  induction ks as [|k ks IH]; intros st Hfill Hfl Hb Hnd Habs Hnoop Hsize.
  { exists st. done. }
  apply NoDup_cons in Hnd as [Hk Hnd].
  destruct (getFlushed_round_total k st) as (st1 & Hrun1 & Hfl1 & Hb1 & Hsz1 & Hab1);
    [done|done|done|apply Habs; left|apply Hnoop; left|done|].
  rewrite getFlushed_loop_cons, Hrun1. simpl.
  destruct (getFlushed_round fuel rec obj N ops rec_spec k [] st st1 Hfill Hrun1)
    as (st1x & Heq & Hrel & Harr & _).
  simpl in Heq. injection Heq as ->.
  pose proof (filling_step _ _ _ _ _ Hfill Hrel Harr) as Hfill1.
  destruct (filling_obj _ _ _ _ Hfill) as [Ho Hne].
  pose proof Hrel as (_ & Hfz & _ & Hflg & _).
  destruct (IH st1) as (st' & Hrun & Hfl' & Hsz'); try done.
  - intros k' Hin. destruct (Habs k') as [Hn|[-> Ha]]; [by right| |].
    + left. apply Hab1; [|done]. intros ->. done.
    + right. split; [done|]. by apply Harr.
  - intros k' Hin Hp. rewrite (flags_cleared_pending _ _ _ _ Hflg) in Hp.
    destruct (Hnoop k') as [d Hd]; [by right|done|].
    pose proof (frozen_by_delete_same_prop _ _ _ _ k' Hfz Ho Hne) as Hs.
    unfold same_prop in Hs. rewrite Hd in Hs.
    destruct (getOwnPropertyDescriptor (s_heap st1) obj k'); [eauto|done].
  - assert (size (dirty_set (mutationCache st1)) ≤ size (dirty_set (mutationCache st)))%nat
      by (apply subseteq_size; by apply dirty_set_flags_cleared).
    lia.
  - exists st'. split; [done|]. split; [done|]. lia.
Qed.
End getFlushed_total.


(** [getFlushed] goes through on a store that can be committed, given
    fuel for the heap and twice the flagged objects. *)
Lemma getFlushed_total fuel : ∀ x st,
  flushable st →
  (flush_size st + size (dirty_set (mutationCache st)) < fuel)%nat →
  ∃ v st', getFlushed fuel x st = Some (v, st') ∧ flushable st'
    ∧ (flush_size st' ≤ flush_size st)%nat.
Proof.
  induction fuel as [|fuel IH]; intros x st Hfl Hsize; [lia|].
  simpl.
  destruct x as [| | | | | |obj| | |]; try (by eexists _, st).
  destruct (mutationCache st !! obj) as [[dm ops]|] eqn:Hmo; [|by eexists _, st].
  simpl. destruct dm; simpl; [|by eexists _, st].
  set (N := fresh (dom (s_heap st))) in *.
  set (kind := if match s_heap st !! obj with Some (Obj Arr _) => true | _ => false end
               then Arr else Plain) in *.
  set (st2 := with_flushCache _ _).
  pose proof Hfl as (Hdom & Hpf & Hrec).
  pose proof (wf_mc_dom _ Hdom) as Hwf.
  pose proof (fresh_heap (s_heap st)) as HN. fold N in HN.
  assert (is_Some (s_heap st !! obj)) as Ho by (apply Hwf; eauto).
  assert (obj ≠ N) as Hne.
  { intros Heq. rewrite Heq in Ho. destruct Ho as [? ?]. congruence. }
  assert (mutationCache st !! N = None) as HmN.
  { destruct (mutationCache st !! N) eqn:Hx; [|done].
    destruct (Hwf N) as [? ?]; [eauto|congruence]. }
  assert (s_heap st2 = <[N := empty_obj kind]> (s_heap st)) as Hh2 by done.
  assert (mutationCache st2 = <[obj := Mut false ops]> (mutationCache st)) as Hm2 by done.
  assert (is_array (s_heap st) obj ↔ kind = Arr) as Hkind.
  { unfold is_array, kind. destruct (s_heap st !! obj) as [[[] ps]|]; split;
      try done; try (intros [? ?]; congruence); eauto. }
  assert (frozen_by (s_heap st) (s_heap st2)) as Hfz0.
  { rewrite Hh2. by apply frozen_by_insert_fresh. }
  assert (filling obj N ops st2) as Hfill.
  { split; [|split; [|split; [|split]]].
    - intros o Hs. rewrite Hm2 in Hs. rewrite Hh2.
      apply lookup_insert_is_Some in Hs as [<-|[_ Hs]].
      + rewrite lookup_insert_ne by done. done.
      + apply Hwf in Hs. destruct (decide (N = o)) as [<-|?].
        * rewrite lookup_insert_eq. eauto.
        * by rewrite lookup_insert_ne.
    - rewrite Hh2, lookup_insert_eq. eauto.
    - rewrite Hm2, lookup_insert_ne by done. done.
    - rewrite Hm2, lookup_insert_eq. done.
    - unfold is_array. rewrite Hh2, lookup_insert_eq, lookup_insert_ne by done.
      intros [ps Hps]. apply Hkind. destruct kind; simpl in Hps; congruence. }
  assert (flushable st2) as Hfl2.
  { split; [|split].
    - rewrite Hm2, Hh2, !dom_insert_L. apply elem_of_dom_2 in Hmo. set_solver.
    - rewrite Hh2. apply map_Forall_insert_2; [|done]. simpl.
      destruct kind; simpl; repeat constructor.
    - rewrite Hm2. apply map_Forall_insert_2.
      + eapply record_ok_frozen; [exact Hfz0|done|]. apply (Hrec obj _ Hmo).
      + intros o m Hm. eapply record_ok_frozen; [exact Hfz0| |by apply Hrec].
        apply Hwf. eauto. }
  assert (building (s_heap st2) N ops) as Hb2.
  { unfold building. rewrite Hh2, lookup_insert_eq.
    assert (kind = Arr ∨ kind = Plain) as [Hk|Hk]
      by (unfold kind; case_match; eauto).
    - rewrite Hk. simpl. split; [done|].
      destruct (alookup "length" ops) as [[?|]|]; try done.
      constructor; [by left|constructor].
    - by rewrite Hk. }
  assert (flush_size st2 = flush_size st
          ∧ size (dirty_set (mutationCache st2)) + 1
            = size (dirty_set (mutationCache st)))%nat as [Hsz2 Hds2].
  { unfold flush_size. rewrite Hm2, Hh2, dom_insert_L.
    pose proof (dirty_set_clear _ _ _ Hmo) as Hc.
    rewrite size_union, size_singleton; [lia|].
    apply disjoint_singleton_l. by apply not_elem_of_dom. }
  set (ks := dedup (ownKeys (s_heap st) obj ++ akeys ops)).
  destruct (getFlushed_loop_total fuel (getFlushed fuel) obj N ops
              (getFlushed_spec fuel) IH ks st2) as (st3 & Hrun & Hfl3 & Hsz3); try done.
  - apply NoDup_dedup.
  - intros k _. unfold getOwnPropertyDescriptor, is_array.
    rewrite Hh2, lookup_insert_eq. destruct kind; simpl; eauto.
    destruct (decide (k = "length")) as [->|Hkl]; [right; eauto|left]. done.
  - intros k Hin Hp. unfold ks in Hin. rewrite elem_of_dedup, elem_of_app in Hin.
    unfold pending in Hp. rewrite Hm2, lookup_insert_eq in Hp. simpl in Hp.
    destruct Hin as [Hin|Hin].
    + unfold getOwnPropertyDescriptor. rewrite Hh2, lookup_insert_ne by done.
      unfold ownKeys in Hin. destruct (s_heap st !! obj) as [ob|]; simpl.
      * by apply alookup_is_Some_akeys.
      * by apply elem_of_nil in Hin.
    + apply alookup_is_Some_akeys in Hin. rewrite Hp in Hin. by destruct Hin.
  - lia.
  - fold ks. rewrite Hrun. simpl. eexists _, st3. split; [done|]. split; [done|]. lia.
Qed.
(** ** One round per action *)

Lemma all_dirty_empty st : mutationCache st = ∅ → all_dirty st.
Proof. intros He o m Hm. rewrite He in Hm. done. Qed.

Lemma object_is_ref_ne (l l' : loc) : l ≠ l' → object_is (VRef l) (VRef l') = false.
Proof. intros Hne. unfold object_is. apply bool_decide_eq_false. congruence. Qed.

(** The commit of a flagged state: [getFlushed] returns a new object, the
    materialised copy of the state. *)
Lemma getFlushed_state fuel st :
  flushable st →
  is_dirty (mutationCache st) (_state st) →
  (flush_size st + size (dirty_set (mutationCache st)) < fuel)%nat →
  ∃ newState st',
    getFlushed fuel (VRef (_state st)) st = Some (VRef newState, st')
    ∧ flush_rel (s_heap st) st st'
    ∧ s_heap st !! newState = None
    ∧ is_Some (s_heap st' !! newState)
    ∧ materialized (s_heap st) (mutationCache st') (flushCache st') (s_heap st')
        (_state st) newState.
Proof.
  intros Hfl Hd Hsize.
  destruct (getFlushed_total fuel (VRef (_state st)) st Hfl Hsize) as (v & st' & Hrun & _).
  pose proof Hfl as (Hdom & _).
  destruct (getFlushed_spec _ _ _ _ _ (wf_mc_dom _ Hdom) Hrun) as [Hrel [Hv Hnd]].
  pose proof Hrel as (_ & _ & _ & Hflg & _ & Hcp & _).
  destruct (Hcp _ Hd) as [Hstill|(o' & Hfo & Hnew & Hex & _ & Hmat)].
  { destruct (not_dirty_is_dirty _ _ Hstill). by apply Hnd. }
  assert (v = VRef o') as ->.
  { rewrite Hv. simpl. rewrite Hfo.
    destruct (mutationCache st' !! _state st) eqn:Hm; [done|].
    destruct Hd as (m & Hm0 & _). specialize (Hflg (_state st)).
    rewrite Hm0, Hm in Hflg. done. }
  exists o', st'. done.
Qed.

(** [setState] on a state that has no snapshot yet, when no computed value
    is cached: one snapshot is made and every listener is called once. *)
Lemma setState_fresh fuel n st :
  n ≠ _state st → snapshotCache st !! n = None → computedCache st = [] →
  ∃ st2, setState fuel (VRef n) st = Ok () st2
    ∧ _state st2 = n
    ∧ notified st2
      = notified st ++ map (λ l, (l, _computedState st2, _computedState st)) (listeners st)
    ∧ s_heap st !! _computedState st2 = None
    ∧ s_heap st2
      = <[_computedState st2 := spread (s_heap st) n (computedNames st)]> (s_heap st)
    ∧ inAction st2 = inAction st.
Proof.
  intros Hne Hsnap Hcc. unfold setState. rewrite object_is_ref_ne by done.
  unfold snapshotComputedState. simpl. rewrite Hsnap, Hcc. simpl.
  eexists. split; [reflexivity|]. simpl.
  split; [done|]. split; [done|]. split; [apply fresh_heap|]. done.
Qed.

(** The dispatch of an action whose body has recorded a mutation under the
    state, on a store that can be committed: the commit goes through and
    one round of notification is made. *)
Lemma act_commits_batch (fuel : nat) (a : prog) (st st1 : store) (r : value) :
  inAction st = false →
  mutationCache st = ∅ →
  computedCache st = [] →
  exec fuel a (with_inAction true st) = Ok r st1 →
  is_Some (mutationCache st1 !! _state st1) →
  flushable st1 →
  dom (snapshotCache st1) ⊆ dom (s_heap st1) →
  (flush_size st1 + size (dirty_set (mutationCache st1)) < fuel)%nat →
  ∃ newState st1' st2,
    getFlushed fuel (VRef (_state st1)) st1 = Some (VRef newState, st1')
    ∧ act fuel a st = Ok r st2
    ∧ notified st2 = notified st ++ map (λ l, (l, get st2, get st)) (listeners st)
    ∧ _state st2 = newState
    ∧ inAction st2 = false
    ∧ mutationCache st2 = ∅
    ∧ s_heap st1 !! newState = None
    ∧ s_heap st1' !! get st2 = None
    ∧ s_heap st2
      = <[get st2 := spread (s_heap st1') newState (computedNames st)]> (s_heap st1')
    ∧ materialized (s_heap st1) (mutationCache st1') (flushCache st1') (s_heap st1')
        (_state st) newState
    ∧ (∀ o, is_dirty (mutationCache st1) o →
         is_dirty (mutationCache st1') o ∨ copied (s_heap st1) st1' o)
    ∧ flags_cleared (mutationCache st1) (mutationCache st1')
    ∧ is_Some (s_heap st1' !! newState).
Proof.
  intros Hin Hmc Hcc Hrun [m0 Hm0] Hfl Hsc Hsize.
  destruct (exec_published fuel a (with_inAction true st) eq_refl) as [Hpub _].
  specialize (Hpub _ _ Hrun). unfold published in Hpub. simpl in Hpub.
  injection Hpub as Hs1 Hc1 Hl1 Hn1 Hi1 Hf1 Hcp1 Han1 Hcc1 Hsc1 Hss1 Hev1.
  assert (all_dirty st1) as Had.
  { eapply exec_all_dirty; [|apply (all_dirty_empty (with_inAction true st))|]; done. }
  assert (is_dirty (mutationCache st1) (_state st1)) as Hd by (exists m0; eauto).
  destruct (getFlushed_state fuel st1 Hfl Hd Hsize)
    as (newState & st1' & Hflush & Hrel & Hnew & Hex & Hmat).
  pose proof Hrel as (He & _ & Hdm & Hfc & _ & Hcp & _).
  assert (_state st1' = _state st1 ∧ _computedState st1' = _computedState st1
          ∧ listeners st1' = listeners st1 ∧ notified st1' = notified st1
          ∧ snapshotCache st1' = snapshotCache st1
          ∧ computedCache st1' = computedCache st1
          ∧ computed st1' = computed st1) as (Hs & Hc & Hl & Hn & Hsn & Hccs & Hcd).
  { rewrite He. done. }
  destruct (setState_fresh fuel newState st1') as (st2 & Hset & Hs2 & Hn2 & Hc2 & Hh2 & Hi2).
  { rewrite Hs. intros ->. apply Hfl in Hm0 as Hx.
    assert (is_Some (s_heap st1 !! _state st1)) as [? ?]; [|congruence].
    destruct Hfl as (Hdom & _). apply elem_of_dom, Hdom, elem_of_dom. eauto. }
  { rewrite Hsn. apply not_elem_of_dom. intros Hx. apply Hsc in Hx.
    apply elem_of_dom in Hx as [? ?]. congruence. }
  { congruence. }
  exists newState, st1', (with_inAction false (with_mutationCache ∅ st2)).
  split; [done|]. split.
  { unfold act, act_with. rewrite Hin, Hrun. simpl.
    unfold flushMutations. rewrite Hm0, Hflush, Hset. done. }
  unfold get. simpl. split; [by rewrite Hn2, Hn, Hl, Hc, Hn1, Hl1, Hc1|].
  split; [done|]. split; [done|]. split; [done|]. split; [done|]. split; [done|].
  split.
  { rewrite Hh2. unfold computedNames. by rewrite Hcd, Hcp1. }
  split; [by rewrite <- Hs1|]. done.
Qed.



(** ** Path-sensitive computed values *)

Lemma isOriginalEqual_refl v : isOriginalEqual v v = true.
Proof. unfold isOriginalEqual. apply object_is_refl. Qed.

Lemma isChanged_same f h v aff cache :
  isChanged (S f) h v v aff cache = Some (false, cache).
Proof. simpl. by rewrite isOriginalEqual_refl. Qed.

Section path_ab.
Context (h : heap) (aff : affected) (S1 S2 A1 A2 : loc) (a b : key).
Hypothesis aff_root : aff !! S1 = Some (Used [] false [] [a]).
Hypothesis aff_a : aff !! A1 = Some (Used [] false [] [b]).
Hypothesis old_a : reflect_get h S1 a = VRef A1.
Hypothesis new_a : reflect_get h S2 a = VRef A2.
Hypothesis same_b : reflect_get h A2 b = reflect_get h A1 b.

(** The replay of the recorded reads reaches [a.b] on both sides. *)
Lemma touchAffected_ab f0 :
  touchAffected f0 h (reflect_get h A1 b) (reflect_get h A1 b) aff = Some () →
  touchAffected (S (S f0)) h (VRef S2) (VRef S1) aff = Some ().
Proof.
  intros Hb. cbn [touchAffected]. rewrite aff_root. cbn [u_keys foldl mbind option_bind].
  rewrite old_a, new_a. rewrite aff_a. cbn [u_keys foldl mbind option_bind].
  rewrite same_b. exact Hb.
Qed.

(** The comparison walks [a] and [a.b] and finds no change. *)
Lemma unchanged_ab f1 :
  unchanged (S (S (S f1))) h S1 S2 aff = Some true.
Proof.
  unfold unchanged.
  assert (∀ cache, ∃ cache',
    isChanged (S (S f1)) h (VRef A1) (VRef A2) aff cache = Some (false, cache'))
    as Hlevel2.
  { intros cache. cbn [isChanged].
    destruct (isOriginalEqual (VRef A1) (VRef A2)); [eauto|].
    rewrite aff_a. destruct (bool_decide _); [eauto|].
    cbn [u_has u_allown u_hasown u_keys hasKeys_changed existsb isChanged_keys].
    rewrite same_b, isOriginalEqual_refl. simpl. eauto. }
  cbn [isChanged].
  destruct (isOriginalEqual (VRef S1) (VRef S2)); [done|].
  rewrite aff_root. rewrite lookup_empty. rewrite bool_decide_false by done.
  cbn [u_has u_allown u_hasown u_keys hasKeys_changed existsb isChanged_keys].
  rewrite old_a, new_a.
  destruct (Hlevel2 (<[S1 := VRef S2]> ∅)) as [cache' Hc].
  cbn [isChanged] in Hc. rewrite Hc. done.
Qed.
End path_ab.

(** C2.  Let the computed value [c] be cached for the state [S1] with an
    access map that records the read of [a] on [S1] and the read of [b] on
    [S1.a], whatever it records below [a.b].  If [S2.a.b] is [S1.a.b], and
    the replay of the reads below [a.b] ends, then reading [c] on a
    snapshot of [S2] returns the cached result, and the evaluator is not
    called: the trace of evaluations, the heap and the cache are as they
    were. *)
Theorem computed_kept_outside_path (f1 : nat) (st : store) (snap S1 S2 A1 A2 : loc)
    (c : key) (getter : evaluator) (cache : list (key * centry)) (aff : affected)
    (r : value) (a b : key) :
  snapshots st !! snap = Some (S2, cache) →
  alookup c (computed st) = Some getter →
  alookup c (computedCache st) = Some (CEntry S1 aff r) →
  (alookup c cache = None ∨ alookup c cache = Some (CEntry S1 aff r)) →
  aff !! S1 = Some (Used [] false [] [a]) →
  aff !! A1 = Some (Used [] false [] [b]) →
  reflect_get (s_heap st) S1 a = VRef A1 →
  reflect_get (s_heap st) S2 a = VRef A2 →
  reflect_get (s_heap st) A2 b = reflect_get (s_heap st) A1 b →
  touchAffected (S f1) (s_heap st) (reflect_get (s_heap st) A1 b)
    (reflect_get (s_heap st) A1 b) aff = Some () →
  ∃ st', computed_get (S (S (S f1))) snap c st = Ok r st'
    ∧ evaluated st' = evaluated st
    ∧ s_heap st' = s_heap st
    ∧ computedCache st' = computedCache st.
Proof.
  intros Hsnap Hget Hcc Hcache HaS HaA Hold Hnew Hsame Htouch.
  pose proof (touchAffected_ab _ _ _ _ _ _ _ _ HaS HaA Hold Hnew Hsame _ Htouch) as Ht.
  pose proof (unchanged_ab _ _ _ _ _ _ _ _ HaS HaA Hold Hnew Hsame f1) as Hu.
  unfold computed_get. rewrite Hsnap, Hget.
  destruct Hcache as [Hc|Hc]; rewrite Hc.
  - rewrite Hcc. cbn [ce_state ce_affected ce_result]. rewrite Hu, Ht.
    eexists. split; [reflexivity|]. done.
  - cbn [ce_state ce_affected ce_result]. rewrite Ht. eexists. done.
Qed.

Lemma computed_kept_outside_path_witness :
  ∃ st', computed_get 4 (get labelled_rethemed) "label" labelled_rethemed
         = Ok (VStr "ann") st'
    ∧ evaluated st' = evaluated labelled_rethemed
    ∧ s_heap st' = s_heap labelled_rethemed
    ∧ computedCache st' = computedCache labelled_rethemed.
Proof.
  apply (computed_kept_outside_path 1 labelled_rethemed (get labelled_rethemed)
           4%positive 6%positive 2%positive 2%positive "label" label
           [("label", CEntry 4%positive label_affected (VStr "ann"))]
           label_affected (VStr "ann") "user" "name").
  - vm_compute. reflexivity.
  - vm_compute. reflexivity.
  - vm_compute. reflexivity.
  - right. vm_compute. reflexivity.
  - vm_compute. reflexivity.
  - vm_compute. reflexivity.
  - vm_compute. reflexivity.
  - vm_compute. reflexivity.
  - vm_compute. reflexivity.
  - vm_compute. reflexivity.
Defined.
(** * Further properties of the engine *)

(** ** The draft view reads its own writes *)

Lemma alookup_aset {A} k (a : A) l k' :
  alookup k' (aset k a l) = if decide (k' = k) then Some a else alookup k' l.
Proof.
  destruct (alookup k l) as [x|] eqn:Hl; [|by apply alookup_aset_new].
  unfold aset. rewrite Hl. destruct (decide (k' = k)) as [->|Hne].
  - apply alookup_areplace_eq. eauto.
  - by apply alookup_areplace_ne.
Qed.

Lemma mark_rel_pending pc t mc mc' o k :
  mark_rel pc t mc mc' → pending mc' o k = pending mc o k.
Proof.
  intros Hrel. specialize (Hrel o). unfold pending.
  destruct (mc !! o) as [m|], (mc' !! o) as [m'|]; simpl; try done.
  - destruct Hrel as [-> _]. done.
  - destruct Hrel as (-> & _). done.
Qed.

(** What recording an operation inside an action does. *)
Lemma record_op_effect fuel t k op st b st' :
  inAction st = true →
  record_op fuel t k op st = Ok b st' →
  b = true
  ∧ s_heap st' = s_heap st
  ∧ published st' = published st
  ∧ pending (mutationCache st') t k = Some op
  ∧ (∀ o k', (o, k') ≠ (t, k) →
       pending (mutationCache st') o k' = pending (mutationCache st) o k')
  ∧ is_dirty (mutationCache st') t.
Proof.
  intros Hin Hrun.
  pose proof (record_op_published _ _ _ _ _ _ _ Hin Hrun) as Hpub.
  assert (b = true) as ->.
  { revert Hrun. unfold record_op. destruct (markDirty _ _ _ _) as [mc|]; [|done].
    case_match; [by intros [= <- _]|].
    unfold flushMutations. repeat case_match; simpl; try done;
      unfold rbind; repeat case_match; try done; by intros [= <- _]. }
  destruct (record_op_inAction _ _ _ _ _ _ _ Hin Hrun) as (mc2 & Hmark & ->).
  apply markDirty_spec in Hmark as [Hrel Hd].
  destruct (unlinkCache_fields t k st) as [Hh Hm].
  split; [done|]. split; [done|]. split; [done|]. simpl.
  split; [|split; [|done]].
  - rewrite (mark_rel_pending _ _ _ _ _ _ Hrel). unfold pending.
    rewrite lookup_insert_eq. simpl. rewrite alookup_aset. by rewrite decide_True.
  - intros o k' Hne. rewrite (mark_rel_pending _ _ _ _ _ _ Hrel). unfold pending.
    destruct (decide (o = t)) as [->|Ho].
    + rewrite lookup_insert_eq. simpl. rewrite alookup_aset.
      rewrite decide_False by congruence.
      by destruct (mutationCache st !! t).
    + by rewrite lookup_insert_ne.
Qed.

Lemma handler_get_pending t k v st :
  (∀ d, getOwnPropertyDescriptor (s_heap st) t k = Some d → has_value d = true) →
  pending (mutationCache st) t k = Some (MSet v) →
  handler_get t k st = Ok v st.
Proof.
  intros Hd Hp. unfold handler_get. fold (pending (mutationCache st) t k). rewrite Hp.
  destruct (getOwnPropertyDescriptor (s_heap st) t k) as [d|]; [|done].
  by rewrite (Hd d eq_refl).
Qed.

Lemma strict_eq_primitive h dv v :
  strict_eq dv v = true → isObject v = false → canProxy h dv = false.
Proof.
  unfold strict_eq, canProxy. intros Hs Hv.
  destruct dv as [| | |[| |z]| | | | | |]; try done;
    destruct v as [| | |[| |z']| | | | | |]; try done;
    try (by apply bool_decide_eq_true in Hs);
    destruct z; try done; destruct z'; done.
Qed.

(** X1.  Inside an action, after the [set] trap has accepted the write of
    a value that is not an object to a key that is not an accessor, the
    [has] trap reports the key and the [get] trap returns the value
    written (or, when the write was dropped because the property already
    held it, a value [===] to it). *)
Theorem draft_reads_own_write (fuel : nat) (t : loc) (k : key) (v : value)
    (st st' : store) :
  inAction st = true →
  isObject v = false →
  (∀ d, getOwnPropertyDescriptor (s_heap st) t k = Some d → has_value d = true) →
  handler_set fuel t k v st = Ok true st' →
  handler_has t k st' = true
  ∧ ∃ v', handler_get t k st' = Ok v' st' ∧ (v' = v ∨ strict_eq v' v = true).
Proof.
  intros Hin Hv Hd Hset.
  assert (∀ op, record_op fuel t k op st = Ok true st' → op = MSet v →
    handler_has t k st' = true
    ∧ ∃ v', handler_get t k st' = Ok v' st' ∧ (v' = v ∨ strict_eq v' v = true)) as Hrec.
  { intros op Hr ->. destruct (record_op_effect _ _ _ _ _ _ _ Hin Hr)
      as (_ & Hh & _ & Hp & _).
    split.
    - unfold handler_has. fold (pending (mutationCache st') t k). by rewrite Hp.
    - exists v. split; [|by left]. apply handler_get_pending; [|done]. by rewrite Hh. }
  assert (∀ m, mutationCache st !! t = Some m → alookup k (m_ops m) = Some (MSet v) →
    st' = st →
    handler_has t k st' = true
    ∧ ∃ v', handler_get t k st' = Ok v' st' ∧ (v' = v ∨ strict_eq v' v = true)) as Hsame.
  { intros m Hm Hk ->.
    assert (pending (mutationCache st) t k = Some (MSet v)) as Hp.
    { unfold pending. by rewrite Hm. }
    split.
    - unfold handler_has. fold (pending (mutationCache st) t k). by rewrite Hp.
    - exists v. split; [|by left]. by apply handler_get_pending. }
  revert Hset. unfold handler_set.
  destruct (getOwnPropertyDescriptor (s_heap st) t k) as [d|] eqn:Hgd.
  - specialize (Hd d eq_refl).
    destruct (negb (desc_writable d) && negb (d_configurable d)); [done|].
    destruct (mutationCache st !! t) as [m|] eqn:Hm; simpl.
    + destruct (alookup k (m_ops m)) as [[prev|]|] eqn:Hk.
      * destruct (object_is prev v) eqn:Ho; [|by eauto].
        intros [= <-]. apply bool_decide_eq_true in Ho. subst. by eapply Hsame.
      * by eauto.
      * destruct d as [[dv w|g s] e c]; [|done].
        destruct (strict_eq dv v) eqn:Hs; [|by eauto]. intros [= <-].
        split.
        -- unfold handler_has. rewrite Hm. simpl. rewrite Hk.
           unfold reflect_has. rewrite Hgd. by apply bool_decide_eq_true.
        -- exists dv. split; [|by right]. unfold handler_get. rewrite Hgd, Hm. simpl.
           rewrite Hk. unfold reflect_get. rewrite Hgd.
           by rewrite (strict_eq_primitive _ _ _ Hs Hv).
    + destruct d as [[dv w|g s] e c]; [|done].
      destruct (strict_eq dv v) eqn:Hs; [|by eauto]. intros [= <-].
      split.
      * unfold handler_has. rewrite Hm. simpl.
        unfold reflect_has. rewrite Hgd. by apply bool_decide_eq_true.
      * exists dv. split; [|by right]. unfold handler_get. rewrite Hgd, Hm. simpl.
        unfold reflect_get. rewrite Hgd.
        by rewrite (strict_eq_primitive _ _ _ Hs Hv).
  - destruct (mutationCache st !! t) as [m|] eqn:Hm; simpl.
    + destruct (alookup k (m_ops m)) as [[prev|]|] eqn:Hk; try (by eauto).
      destruct (object_is prev v) eqn:Ho; [|by eauto].
      intros [= <-]. apply bool_decide_eq_true in Ho. subst. by eapply Hsame.
    + by eauto.
Qed.

(** ** Deleting through the draft view *)

(** X2.  Inside an action, deleting a key that the underlying object does
    not have is dropped even when a [set] of that key is pending: after
    [this.k = v; delete this.k] on a new key [k], the draft still has [k]
    and reads [v]. *)
Theorem delete_of_added_key_is_dropped (fuel : nat) (t : loc) (k : key) (v : value)
    (st st1 : store) :
  inAction st = true →
  getOwnPropertyDescriptor (s_heap st) t k = None →
  handler_set fuel t k v st = Ok true st1 →
  handler_deleteProperty fuel t k st1 = Ok true st1
  ∧ handler_has t k st1 = true
  ∧ handler_get t k st1 = Ok v st1.
Proof.
  intros Hin Hgd Hset.
  assert (s_heap st1 = s_heap st ∧ pending (mutationCache st1) t k = Some (MSet v))
    as [Hh Hp].
  { revert Hset. unfold handler_set. rewrite Hgd.
    assert (∀ op, record_op fuel t k op st = Ok true st1 → op = MSet v →
      s_heap st1 = s_heap st ∧ pending (mutationCache st1) t k = Some (MSet v)) as Hrec.
    { intros op Hr ->.
      destruct (record_op_effect _ _ _ _ _ _ _ Hin Hr) as (_ & ? & _ & ? & _). done. }
    destruct (mutationCache st !! t) as [m|] eqn:Hm; simpl; [|by eauto].
    destruct (alookup k (m_ops m)) as [[prev|]|] eqn:Hk; try (by eauto).
    destruct (object_is prev v) eqn:Ho; [|by eauto].
    intros [= <-]. apply bool_decide_eq_true in Ho. subst.
    split; [done|]. unfold pending. by rewrite Hm. }
  split; [|split].
  - unfold handler_deleteProperty. by rewrite Hh, Hgd.
  - unfold handler_has. fold (pending (mutationCache st1) t k). by rewrite Hp.
  - apply handler_get_pending; [|done]. rewrite Hh, Hgd. done.
Qed.

Lemma akeys_ainsert_index {A} n k (a : A) l :
  akeys (ainsert_index n k a l) ≡ₚ k :: akeys l.
Proof.
  unfold akeys. induction l as [|[k0 a0] l IH]; simpl; [done|].
  destruct (array_index k0) as [n'|]; [destruct (decide (n < n')%N)|]; simpl; try done.
  rewrite IH. apply Permutation_swap.
Qed.

Lemma NoDup_akeys_aset {A} k (a : A) l :
  NoDup (akeys l) → NoDup (akeys (aset k a l)).
Proof.
  intros Hnd. unfold aset. destruct (alookup k l) as [x|] eqn:Hl.
  - by rewrite akeys_areplace.
  - apply alookup_None_akeys in Hl. destruct (array_index k).
    + rewrite akeys_ainsert_index. by constructor.
    + unfold akeys in *. rewrite fmap_app. simpl. apply NoDup_app.
      split; [done|]. split; [|apply NoDup_singleton].
      intros x Hx Hx'. apply list_elem_of_singleton in Hx'. by subst.
Qed.

Lemma ownKeys_fold k (ops : list (key * mop)) : ∀ keys,
  NoDup (akeys ops) →
  k ∈ foldl (λ keys p,
               match p.2 with
               | MSet _ => if decide (p.1 ∈ keys) then keys else keys ++ [p.1]
               | MDel => filter (λ k, k ≠ p.1) keys
               end) keys ops
  ↔ match alookup k ops with
    | Some (MSet _) => True
    | Some MDel => False
    | None => k ∈ keys
    end.
Proof.
  induction ops as [|[k0 op] ops IH]; intros keys Hnd; simpl; [done|].
  apply NoDup_cons in Hnd as [Hk0 Hnd]. rewrite IH by done.
  destruct (decide (k = k0)) as [->|Hne].
  - assert (alookup k0 ops = None) as -> by (by apply alookup_None_akeys).
    destruct op as [v|]; simpl.
    + destruct (decide (k0 ∈ keys)); [done|]. rewrite elem_of_app, list_elem_of_singleton.
      tauto.
    + rewrite list_elem_of_filter. tauto.
  - destruct (alookup k ops) as [[v|]|]; try done.
    destruct op as [v|]; simpl.
    + destruct (decide (k0 ∈ keys)); [done|]. rewrite elem_of_app, list_elem_of_singleton.
      tauto.
    + rewrite list_elem_of_filter. tauto.
Qed.

Lemma elem_of_handler_ownKeys (t : loc) (k : key) (st : store) :
  (∀ m, mutationCache st !! t = Some m → NoDup (akeys (m_ops m))) →
  k ∈ handler_ownKeys t st ↔ handler_has t k st = true.
Proof.
  intros Hnd. unfold handler_ownKeys, handler_has.
  assert (reflect_has (s_heap st) t k = true ↔ k ∈ ownKeys (s_heap st) t) as Hown.
  { unfold reflect_has, ownKeys, getOwnPropertyDescriptor.
    rewrite bool_decide_eq_true. destruct (s_heap st !! t) as [o|]; simpl.
    - apply alookup_is_Some_akeys.
    - split; [by intros [? ?]|]. intros H. by apply elem_of_nil in H. }
  destruct (mutationCache st !! t) as [m|] eqn:Hm; simpl; [|by rewrite Hown].
  rewrite ownKeys_fold by eauto.
  destruct (alookup k (m_ops m)) as [[v|]|]; try done.
  by rewrite elem_of_dedup, Hown.
Qed.

(** X3.  On the draft of a plain object, for a key that is not the name
    of a member of [Object.prototype], the [ownKeys] trap lists the key
    exactly when the [has] trap reports it (the record of the target
    holds each key once).  The restriction on the key is needed: [in]
    also finds inherited members, which [reflect_has] leaves out and
    [ownKeys] never lists. *)
Theorem ownKeys_agrees_with_has (t : loc) (ps : list (key * desc)) (k : key) (st : store) :
  s_heap st !! t = Some (Obj Plain ps) →
  k ∉ object_prototype_keys →
  (∀ m, mutationCache st !! t = Some m → NoDup (akeys (m_ops m))) →
  k ∈ handler_ownKeys t st ↔ handler_has t k st = true.
Proof. intros _ _. apply elem_of_handler_ownKeys. Qed.

(** X4.  Inside an action, after the [deleteProperty] trap has been run on
    a configurable property of the underlying object, the draft no longer
    has the key: [has] is false, [get] is [undefined] and [ownKeys] does
    not list it. *)
Theorem draft_delete_hides_key (fuel : nat) (t : loc) (k : key) (d : desc)
    (b : bool) (st st' : store) :
  inAction st = true →
  getOwnPropertyDescriptor (s_heap st) t k = Some d →
  d_configurable d = true →
  (∀ m, mutationCache st !! t = Some m → NoDup (akeys (m_ops m))) →
  handler_deleteProperty fuel t k st = Ok b st' →
  b = true
  ∧ handler_has t k st' = false
  ∧ handler_get t k st' = Ok VUndef st'
  ∧ k ∉ handler_ownKeys t st'.
Proof.
  intros Hin Hgd Hc Hnd Hdel.
  assert (b = true ∧ s_heap st' = s_heap st
          ∧ pending (mutationCache st') t k = Some MDel
          ∧ (∀ m, mutationCache st' !! t = Some m → NoDup (akeys (m_ops m))))
    as (-> & Hh & Hp & Hnd').
  { revert Hdel. unfold handler_deleteProperty. rewrite Hgd, Hc. simpl.
    assert (record_op fuel t k MDel st = Ok b st' →
      b = true ∧ s_heap st' = s_heap st
      ∧ pending (mutationCache st') t k = Some MDel
      ∧ (∀ m, mutationCache st' !! t = Some m → NoDup (akeys (m_ops m)))) as Hrec.
    { intros Hr.
      destruct (record_op_effect _ _ _ _ _ _ _ Hin Hr) as (? & ? & _ & ? & _).
      split; [done|]. split; [done|]. split; [done|].
      destruct (record_op_inAction _ _ _ _ _ _ _ Hin Hr) as (mc2 & Hmark & ->).
      apply markDirty_spec in Hmark as [Hrel _]. simpl. intros m' Hm'.
      specialize (Hrel t). rewrite lookup_insert_eq, Hm' in Hrel. simpl in Hrel.
      destruct Hrel as [-> _]. apply NoDup_akeys_aset.
      destruct (mutationCache st !! t) as [m|] eqn:Hm; simpl; [by apply Hnd|].
      constructor. }
    destruct (mutationCache st !! t) as [m|] eqn:Hm; simpl; [|done].
    destruct (alookup k (m_ops m)) as [[prev|]|] eqn:Hk; try done.
    intros [= <- <-]. split; [done|]. split; [done|].
    split; [unfold pending; by rewrite Hm|].
    intros m0 Hm0. apply Hnd. congruence. }
  split; [done|].
  assert (handler_has t k st' = false) as Hhas.
  { unfold handler_has. fold (pending (mutationCache st') t k). by rewrite Hp. }
  split; [done|]. split.
  - unfold handler_get. fold (pending (mutationCache st') t k). rewrite Hp, Hh, Hgd, Hc.
    by rewrite !andb_false_r.
  - rewrite elem_of_handler_ownKeys by done. by rewrite Hhas.
Qed.

Lemma draft_reads_own_write_witness :
  handler_has 2%positive "name" profile_named = true
  ∧ ∃ v', handler_get 2%positive "name" profile_named = Ok v' profile_named
      ∧ (v' = VStr "bob" ∨ strict_eq v' (VStr "bob") = true).
Proof.
  apply (draft_reads_own_write 8 2%positive "name" (VStr "bob") profile_acting).
  - vm_compute. reflexivity.
  - vm_compute. reflexivity.
  - intros d Hd. vm_compute in Hd. injection Hd as <-. reflexivity.
  - vm_compute. reflexivity.
Defined.

Lemma delete_of_added_key_is_dropped_witness :
  handler_deleteProperty 8 2%positive "nick" profile_nicked = Ok true profile_nicked
  ∧ handler_has 2%positive "nick" profile_nicked = true
  ∧ handler_get 2%positive "nick" profile_nicked = Ok (VStr "bo") profile_nicked.
Proof.
  apply (delete_of_added_key_is_dropped 8 2%positive "nick" (VStr "bo") profile_acting).
  - vm_compute. reflexivity.
  - vm_compute. reflexivity.
  - vm_compute. reflexivity.
Defined.

Lemma ownKeys_agrees_with_has_witness :
  "name" ∈ handler_ownKeys 2%positive profile_named
  ↔ handler_has 2%positive "name" profile_named = true.
Proof.
  apply (ownKeys_agrees_with_has 2%positive [("name", Desc (Data (VStr "ann") false) true true)]
           "name" profile_named).
  - vm_compute. reflexivity.
  - apply (bool_decide_unpack _). vm_compute. exact I.
  - intros m Hm. vm_compute in Hm. injection Hm as <-.
    apply (bool_decide_unpack _). vm_compute. exact I.
Defined.

Lemma draft_delete_hides_key_witness :
  true = true
  ∧ handler_has 2%positive "name" profile_unnamed = false
  ∧ handler_get 2%positive "name" profile_unnamed = Ok VUndef profile_unnamed
  ∧ "name" ∉ handler_ownKeys 2%positive profile_unnamed.
Proof.
  apply (draft_delete_hides_key 8 2%positive "name"
           (Desc (Data (VStr "ann") false) true true) true profile_acting).
  - vm_compute. reflexivity.
  - vm_compute. reflexivity.
  - reflexivity.
  - intros m Hm. vm_compute in Hm. discriminate Hm.
  - vm_compute. reflexivity.
Defined.
(** ** [markDirty] *)

Lemma mark_rel_is_dirty pc t mc mc' a :
  mark_rel pc t mc mc' → is_dirty mc a → is_dirty mc' a.
Proof.
  intros Hrel (m & Hm & Hd). specialize (Hrel a). rewrite Hm in Hrel.
  unfold is_dirty. destruct (mc' !! a) as [m'|]; [|done].
  exists m'. split; [done|]. tauto.
Qed.

Lemma foldl_option_None {A B} (f : A → B → option A) l :
  foldl (λ acc x, a ← acc; f a x) None l = None.
Proof. induction l as [|x l IH]; simpl; [done|]. exact IH. Qed.

Lemma markDirty_ancestors fuel : ∀ pc t mc mc',
  markDirty fuel pc t mc = Some mc' →
  ∀ a, rtc (plink pc) a t → is_dirty mc' a.
Proof.
  induction fuel as [|fuel IH]; intros pc t mc mc' Hrun a Ha; [done|].
  pose proof (markDirty_spec _ _ _ _ _ Hrun) as [_ Ht].
  apply rtc_inv_r in Ha as [->|(p & Hap & Hpt)]; [done|].
  simpl in Hrun. destruct Hpt as (ps & Hps & Hin). rewrite Hps in Hrun.
  clear Hps. revert Hrun. generalize (<[t := Mut true (m_ops (default (Mut false []) (mc !! t)))]> mc).
  induction ps as [|q qs IHq]; intros mcA Hf; [by apply elem_of_nil in Hin|].
  simpl in Hf. destruct (markDirty fuel pc q mcA) as [mcB|] eqn:Hq; simpl in Hf.
  2:{ by rewrite foldl_option_None in Hf. }
  apply elem_of_cons in Hin as [->|Hin]; [|by eapply IHq].
  pose proof (IH _ _ _ _ Hq a Hap) as Hd.
  clear IHq Hq. revert mcB Hd Hf.
  induction qs as [|q' qs IHq]; intros mcB Hd Hf; simpl in Hf; [by simplify_eq|].
  destruct (markDirty fuel pc q' mcB) as [mcC|] eqn:Hq'; simpl in Hf.
  2:{ by rewrite foldl_option_None in Hf. }
  apply (IHq mcC); [|done].
  apply markDirty_spec in Hq' as [Hrel _]. by eapply mark_rel_is_dirty.
Qed.

(** X5.  When [markDirty(target)] returns, the target and every object
    from which the target is reached along the parent back-references
    carries the dirty flag. *)
Theorem markDirty_flags_every_ancestor (fuel : nat) (pc : gmap loc (list loc))
    (t : loc) (mc mc' : gmap loc mutations) (a : loc) :
  markDirty fuel pc t mc = Some mc' →
  rtc (plink pc) a t →
  is_dirty mc' a.
Proof. intros Hrun Ha. by eapply markDirty_ancestors. Qed.

Lemma markDirty_cycle fuel : ∀ pc t mc,
  tc (plink pc) t t → markDirty fuel pc t mc = None.
Proof.
  induction fuel as [|fuel IH]; intros pc t mc Hc; [done|].
  assert (∃ p, plink pc p t ∧ tc (plink pc) p p) as (p & Hpt & Hpp).
  { assert (∀ x y, tc (plink pc) x y → ∃ p, plink pc p y ∧ rtc (plink pc) x p) as Hlast.
    { intros x y Hxy. induction Hxy as [x y Hxy|x y z Hxy Hyz (p & Hp & Hr)].
      - exists x. split; [done|apply rtc_refl].
      - exists p. split; [done|]. by eapply rtc_l. }
    destruct (Hlast _ _ Hc) as (p & Hp & Hr). exists p. split; [done|].
    eapply tc_rtc_r; [|exact Hr]. by apply tc_once. }
  simpl. destruct Hpt as (ps & Hps & Hin). rewrite Hps. clear Hps.
  generalize (<[t := Mut true (m_ops (default (Mut false []) (mc !! t)))]> mc).
  induction ps as [|q qs IHq]; intros mcA; [by apply elem_of_nil in Hin|].
  simpl. apply elem_of_cons in Hin as [->|Hin].
  - rewrite (IH pc q mcA Hpp). simpl. apply foldl_option_None.
  - destruct (markDirty fuel pc q mcA) as [mcB|]; simpl.
    + by apply IHq.
    + apply foldl_option_None.
Qed.

(** X6.  [markDirty] has no guard against a cycle of parents: on a target
    that is its own ancestor along the parent back-references it does not
    return, whatever the depth of the stack. *)
Theorem markDirty_parent_cycle_never_returns (fuel : nat) (pc : gmap loc (list loc))
    (t : loc) (mc : gmap loc mutations) :
  tc (plink pc) t t →
  markDirty fuel pc t mc = None.
Proof. apply markDirty_cycle. Qed.

Lemma markDirty_flags_every_ancestor_witness :
  is_dirty
    (default ∅ (markDirty 4 {[ 2%positive := [4%positive] ]} 2%positive ∅))
    4%positive.
Proof.
  apply (markDirty_flags_every_ancestor 4 {[ 2%positive := [4%positive] ]}
           2%positive ∅ _ 4%positive).
  - vm_compute. reflexivity.
  - eapply rtc_l; [|apply rtc_refl]. exists [4%positive].
    split; [vm_compute; reflexivity|apply list_elem_of_here].
Defined.

Lemma markDirty_parent_cycle_never_returns_witness :
  markDirty 1000 {[ 1%positive := [1%positive] ]} 1%positive ∅ = None.
Proof.
  apply (markDirty_parent_cycle_never_returns 1000 {[ 1%positive := [1%positive] ]}
           1%positive ∅).
  apply tc_once. exists [1%positive].
  split; [vm_compute; reflexivity|apply list_elem_of_here].
Defined.

(** X7.  On an object that holds itself under the key [k], reading [k]
    through the draft makes the object its own parent; from then on the
    [set] trap does not return on a new key of that object, whatever the
    depth of the stack. *)
Theorem write_after_reading_self_reference_never_returns (t : loc) (k k' : key)
    (v : value) (st : store) :
  reflect_get (s_heap st) t k = VRef t →
  canProxy (s_heap st) (VRef t) = true →
  (∀ d, getOwnPropertyDescriptor (s_heap st) t k = Some d → has_value d = true) →
  mutationCache st !! t = None →
  childrenCache st !! t = None →
  k' ≠ k →
  getOwnPropertyDescriptor (s_heap st) t k' = None →
  ∃ st1, handler_get t k st = Ok (VDraft t) st1
    ∧ ∀ fuel, handler_set fuel t k' v st1 = Stuck.
Proof.
  intros Hget Hcp Hd Hm Hcc Hne Hk'.
  eexists. split.
  - unfold handler_get. rewrite Hm. simpl. rewrite Hget, Hcp. simpl.
    destruct (getOwnPropertyDescriptor (s_heap st) t k) as [d|]; [|done].
    by rewrite (Hd d eq_refl).
  - intros fuel. unfold handler_set. simpl. rewrite Hk', Hm. simpl.
    unfold record_op, unlinkCache. simpl. rewrite lookup_insert_eq, Hcc. simpl.
    rewrite alookup_aset. rewrite decide_False by done. simpl.
    rewrite Hm. simpl. rewrite markDirty_cycle; [done|].
    apply tc_once. eexists. rewrite lookup_insert_eq. split; [done|].
    unfold set_add. case_decide; [done|]. apply elem_of_app. right.
    apply list_elem_of_here.
Qed.

Lemma write_after_reading_self_reference_never_returns_witness :
  ∃ st1, handler_get 1%positive "self" knot_store = Ok (VDraft 1%positive) st1
    ∧ ∀ fuel, handler_set fuel 1%positive "m" (VNum (Num 1)) st1 = Stuck.
Proof.
  apply (write_after_reading_self_reference_never_returns 1%positive "self" "m"
           (VNum (Num 1)) knot_store).
  - vm_compute. reflexivity.
  - vm_compute. reflexivity.
  - intros d Hd. vm_compute in Hd. injection Hd as <-. reflexivity.
  - vm_compute. reflexivity.
  - vm_compute. reflexivity.
  - discriminate.
  - vm_compute. reflexivity.
Defined.
(** ** More on the commit *)

(** X8.  Committing again without a write in between gives the same
    object and leaves the store as it is. *)
Theorem getFlushed_again_is_stable (fuel : nat) (x v : value) (st st' : store) :
  dom (mutationCache st) ⊆ dom (s_heap st) →
  getFlushed fuel x st = Some (v, st') →
  getFlushed fuel x st' = Some (v, st').
Proof.
  intros Hdom Hrun.
  destruct (getFlushed_spec _ _ _ _ _ (wf_mc_dom _ Hdom) Hrun) as [_ [Hv Hnd]].
  destruct fuel as [|fuel]; [done|]. simpl.
  destruct x as [| | | | | |obj| | |]; simpl in Hv; try (by rewrite Hv).
  specialize (Hnd obj eq_refl). unfold not_dirty in Hnd.
  destruct (mutationCache st' !! obj) as [m|]; [|by rewrite Hv].
  rewrite Hnd. simpl. by rewrite Hv.
Qed.

Lemma getFlushed_again_is_stable_witness :
  getFlushed 8 (VRef (_state profile_renamed)) profile_committed
  = Some (VRef 6%positive, profile_committed).
Proof.
  apply (getFlushed_again_is_stable 8 (VRef (_state profile_renamed)) (VRef 6%positive)
           profile_renamed profile_committed).
  - apply (bool_decide_unpack _). vm_compute. exact I.
  - vm_compute. reflexivity.
Defined.

(** ** A write outside an action *)

Lemma unlinkCache_parents_other target prop st l :
  parentsCache st !! l = None →
  parentsCache (unlinkCache target prop st) !! l = None.
Proof.
  intros Hl. unfold unlinkCache.
  destruct (childrenCache st !! target) as [children|]; [|done].
  destruct (alookup prop children) as [child|]; [|done].
  destruct (parentsCache st !! child) as [ps|] eqn:Hps; simpl; [|done].
  rewrite lookup_insert_ne; [done|]. congruence.
Qed.

Lemma aset_nil {A} k (a : A) : aset k a [] = [(k, a)].
Proof. unfold aset. simpl. by destruct (array_index k). Qed.

(** X9.  Outside an action, a write to a key of the state object through
    the [set] trap is committed and published at once, under these
    conditions: the store has no pending mutation and no cached computed
    value; the state is a plain object without a recorded parent; the
    heap holds no proxy and the value written is not a proxy; the key is
    new, or it is a data property that is writable or configurable and
    holds a value [!==] the one written; the snapshot table is within the
    heap.  Then the trap returns [true], each listener is called once
    with the new snapshot and the previous one, nothing stays pending, the
    new state is a new object that holds the value under the key and,
    under every other key that does not hold the state itself, what the
    state held. *)
Theorem write_outside_action_publishes (fuel : nat) (k : key) (v : value)
    (st : store) (ps : list (key * desc)) :
  inAction st = false →
  mutationCache st = ∅ →
  computedCache st = [] →
  s_heap st !! _state st = Some (Obj Plain ps) →
  parentsCache st !! _state st = None →
  proxy_free (s_heap st) →
  not_proxy v →
  match alookup k ps with
  | Some d => has_value d = true
              ∧ desc_writable d || d_configurable d = true
              ∧ strict_eq (desc_value d) v = false
  | None => True
  end →
  dom (snapshotCache st) ⊆ dom (s_heap st) →
  (size (dom (s_heap st)) + 2 < fuel)%nat →
  ∃ st', handler_set fuel (_state st) k v st = Ok true st'
    ∧ notified st' = notified st ++ map (λ l, (l, get st', get st)) (listeners st)
    ∧ mutationCache st' = ∅
    ∧ inAction st' = false
    ∧ s_heap st !! _state st' = None
    ∧ reflect_get (s_heap st') (_state st') k = v
    ∧ ∀ k', k' ≠ k →
        reflect_get (s_heap st) (_state st) k' ≠ VRef (_state st) →
        reflect_get (s_heap st') (_state st') k'
        = reflect_get (s_heap st) (_state st) k'.
Proof.
  intros Hin Hmc Hcc Hroot Hpar Hpf Hv Hdesc Hsnap Hfuel.
  set (root := _state st) in *.
  set (st1 := unlinkCache root k st).
  destruct (unlinkCache_fields root k st) as [Hh1 Hm1]. fold st1 in Hh1, Hm1.
  pose proof (unlinkCache_published root k st) as Hp1. fold st1 in Hp1.
  unfold published in Hp1.
  injection Hp1 as Hs1 Hc1 Hl1 Hn1 Hi1 Hf1 Hcp1 Han1 Hcc1 Hsc1 Hss1 Hev1.
  set (mc2 := <[root := Mut true [(k, MSet v)]]>
                (<[root := Mut false [(k, MSet v)]]> (∅ : gmap loc mutations))).
  set (st2 := with_mutationCache mc2 st1).
  assert (getOwnPropertyDescriptor (s_heap st) root k = alookup k ps) as Hgd.
  { unfold getOwnPropertyDescriptor. by rewrite Hroot. }
  assert (handler_set fuel root k v st
          = rbind (flushMutations fuel st2) (λ _ st3, Ok true st3)) as Hset.
  { assert (record_op fuel root k (MSet v) st
            = rbind (flushMutations fuel st2) (λ _ st3, Ok true st3)) as Hrec.
    { unfold record_op. fold st1. rewrite Hm1, Hmc, lookup_empty. simpl.
      rewrite aset_nil. destruct fuel as [|fuel]; [lia|]. simpl.
      rewrite lookup_insert_eq. simpl.
      pose proof (unlinkCache_parents_other root k st root Hpar) as Hp. fold st1 in Hp.
      rewrite Hp. fold mc2. fold st2. by rewrite Hi1, Hin. }
    unfold handler_set. rewrite Hgd, Hmc, lookup_empty. simpl.
    destruct (alookup k ps) as [d|] eqn:Hk; [|done].
    destruct Hdesc as (Hhv & Hwc & Hse).
    destruct d as [[dv w|g s] e c]; [|done].
    unfold desc_value, desc_writable in *. simpl in *.
    rewrite Hse. destruct w, c; simpl in *; try done. }
  assert (flushable st2) as Hfl.
  { split; [|split]; simpl.
    - unfold mc2. rewrite !dom_insert_L, dom_empty_L, Hh1.
      apply elem_of_dom_2 in Hroot. set_solver.
    - by rewrite Hh1.
    - unfold mc2. rewrite insert_insert_eq.
      apply map_Forall_insert_2; [|apply map_Forall_empty].
      split; simpl.
      + constructor; [|constructor]. unfold op_ok. simpl. split; [done|].
        rewrite Hh1, Hgd. destruct (alookup k ps); [tauto|done].
      + unfold array_ok. by rewrite Hh1, Hroot. }
  assert (is_dirty (mutationCache st2) (_state st2)) as Hd.
  { simpl. rewrite Hs1. fold root. eexists. unfold mc2.
    rewrite lookup_insert_eq. done. }
  assert (dirty_set mc2 = {[root]}) as Hds.
  { apply set_eq. intros o. rewrite elem_of_dirty_set, elem_of_singleton.
    unfold is_dirty, mc2. rewrite insert_insert_eq. split.
    - intros (m & Hm & _). apply lookup_insert_Some in Hm as [[? _]|[_ Hm]]; [done|].
      by rewrite lookup_empty in Hm.
    - intros ->. rewrite lookup_insert_eq. eauto. }
  destruct (getFlushed_state fuel st2 Hfl Hd)
    as (newState & st2' & Hflush & Hrel & Hnew & Hex & Hmat).
  { unfold flush_size. simpl. rewrite Hds, size_singleton, Hh1. lia. }
  pose proof Hrel as (He & _ & Hdm & Hflg & _).
  assert (_state st2' = root ∧ _computedState st2' = _computedState st
          ∧ listeners st2' = listeners st ∧ notified st2' = notified st
          ∧ snapshotCache st2' = snapshotCache st
          ∧ computedCache st2' = computedCache st
          ∧ inAction st2' = false) as (Hs & Hc & Hl & Hn & Hsn & Hccs & Hi).
  { rewrite He. simpl. rewrite Hs1, Hc1, Hl1, Hn1, Hsc1, Hcc1, Hi1. done. }
  simpl in Hnew. rewrite Hh1 in Hnew.
  destruct (setState_fresh fuel newState st2') as (st3 & Hset3 & Hs3 & Hn3 & Hc3 & Hh3 & Hi3).
  { rewrite Hs. intros ->. congruence. }
  { rewrite Hsn. apply not_elem_of_dom. intros Hx. apply Hsnap in Hx.
    apply elem_of_dom in Hx as [? ?]. congruence. }
  { congruence. }
  exists (with_mutationCache ∅ st3). split.
  { rewrite Hset. unfold flushMutations. simpl. rewrite Hs1. fold root.
    unfold mc2 at 1. rewrite lookup_insert_eq.
    simpl in Hflush. rewrite Hs1 in Hflush. fold root in Hflush.
    rewrite Hflush, Hset3. done. }
  unfold get. simpl.
  split; [by rewrite Hn3, Hn, Hl, Hc|]. split; [done|].
  split; [congruence|]. split; [by rewrite Hs3|].
  assert (∀ k0, reflect_get (s_heap st3) newState k0
                = reflect_get (s_heap st2') newState k0) as Hsame.
  { intros k0. unfold reflect_get, getOwnPropertyDescriptor. rewrite Hh3.
    rewrite lookup_insert_ne; [done|]. intros Heq. rewrite Heq in Hc3.
    destruct Hex as [? ?]. congruence. }
  assert (∀ k0, pending (mutationCache st2') root k0
                = (if decide (k0 = k) then Some (MSet v) else None)) as Hpend.
  { intros k0. rewrite (flags_cleared_pending _ _ _ _ Hflg). simpl. unfold pending, mc2.
    rewrite lookup_insert_eq. simpl. by destruct (decide (k0 = k)). }
  assert (¬ is_array (s_heap st2) (_state st2)) as Hna.
  { simpl. rewrite Hs1, Hh1. fold root. intros [? ?]. congruence. }
  simpl in Hmat. rewrite Hs1 in Hmat. fold root in Hmat.
  simpl in Hna. rewrite Hs1 in Hna. fold root in Hna.
  rewrite Hs3. split.
  - rewrite Hsame. destruct (Hmat (λ Ha, False_ind _ (Hna Ha)) k (λ Ha, False_ind _ (Hna Ha)))
      as [Hkd _].
    unfold key_done in Hkd. rewrite Hpend, decide_True in Hkd by done. done.
  - intros k' Hne Hneq. rewrite Hsame.
    destruct (Hmat (λ Ha, False_ind _ (Hna Ha)) k' (λ Ha, False_ind _ (Hna Ha)))
      as [Hkd _].
    unfold key_done in Hkd. rewrite Hpend, decide_False in Hkd by done.
    rewrite Hh1 in Hkd.
    assert (∀ c, c ≠ root → mutationCache st2' !! c = None) as Hnorec.
    { intros c Hc0. specialize (Hflg c). simpl in Hflg. unfold mc2 in Hflg.
      rewrite !lookup_insert_ne, lookup_empty in Hflg by done.
      by destruct (mutationCache st2' !! c). }
    destruct (getOwnPropertyDescriptor (s_heap st) root k') as [d|] eqn:Hd'.
    + destruct (has_value d && d_configurable d); [|done].
      rewrite Hkd. destruct (reflect_get (s_heap st) root k') as [| | | | | |c| | |];
        try done.
      simpl. rewrite Hnorec; [done|]. congruence.
    + unfold reflect_get. by rewrite Hkd, Hd'.
Qed.


Lemma write_outside_action_publishes_witness :
  ∃ st', handler_set 12 (_state counter_watched) "count" (VNum (Num 5)) counter_watched
         = Ok true st'
    ∧ notified st'
      = notified counter_watched
        ++ map (λ l, (l, get st', get counter_watched)) (listeners counter_watched)
    ∧ mutationCache st' = ∅
    ∧ inAction st' = false
    ∧ s_heap counter_watched !! _state st' = None
    ∧ reflect_get (s_heap st') (_state st') "count" = VNum (Num 5)
    ∧ ∀ k', k' ≠ "count" →
        reflect_get (s_heap counter_watched) (_state counter_watched) k'
        ≠ VRef (_state counter_watched) →
        reflect_get (s_heap st') (_state st') k'
        = reflect_get (s_heap counter_watched) (_state counter_watched) k'.
Proof.
  apply (write_outside_action_publishes 12 "count" (VNum (Num 5)) counter_watched
           [("count", Desc (Data (VNum (Num 0)) false) true true)]).
  - vm_compute. reflexivity.
  - vm_compute. reflexivity.
  - vm_compute. reflexivity.
  - vm_compute. reflexivity.
  - vm_compute. reflexivity.
  - apply (bool_decide_unpack _). vm_compute. exact I.
  - exact I.
  - vm_compute. repeat split; reflexivity.
  - apply (bool_decide_unpack _). vm_compute. exact I.
  - vm_compute. lia.
Defined.
(** ** The copies a commit makes are frozen *)

Lemma getFlushed_dirty fuel obj ops st :
  mutationCache st !! obj = Some (Mut true ops) →
  getFlushed (S fuel) (VRef obj) st
  = (st3 ← getFlushed_loop fuel (getFlushed fuel) obj (start_copy obj ops st).1
             (dedup (ownKeys (s_heap st) obj ++ akeys ops)) (start_copy obj ops st).2;
     Some (VRef (start_copy obj ops st).1, st3)).
Proof. intros Hm. simpl. rewrite Hm. reflexivity. Qed.

Lemma start_copy_spec obj ops st :
  wf_mc st → mutationCache st !! obj = Some (Mut true ops) →
  let N := (start_copy obj ops st).1 in
  let st2 := (start_copy obj ops st).2 in
  s_heap st !! N = None
  ∧ obj ≠ N
  ∧ (∃ kd, (kd = Arr ∨ kd = Plain) ∧ (kd = Arr ↔ is_array (s_heap st) obj)
       ∧ s_heap st2 = <[N := empty_obj kd]> (s_heap st))
  ∧ mutationCache st2 = <[obj := Mut false ops]> (mutationCache st)
  ∧ filling obj N ops st2.
Proof.
  intros Hwf Hmo N st2.
  pose proof (fresh_heap (s_heap st)) as HN.
  assert (N = fresh (dom (s_heap st))) as HNeq by done. rewrite <- HNeq in HN.
  assert (is_Some (s_heap st !! obj)) as Ho by (apply Hwf; eauto).
  assert (obj ≠ N) as Hne.
  { intros Heq. rewrite Heq in Ho. destruct Ho as [? ?]. congruence. }
  assert (mutationCache st !! N = None) as HmN.
  { destruct (mutationCache st !! N) eqn:Hx; [|done].
    destruct (Hwf N) as [? ?]; [eauto|congruence]. }
  set (kind := if match s_heap st !! obj with Some (Obj Arr _) => true | _ => false end
               then Arr else Plain).
  assert (s_heap st2 = <[N := empty_obj kind]> (s_heap st)) as Hh2 by done.
  assert (mutationCache st2 = <[obj := Mut false ops]> (mutationCache st)) as Hm2 by done.
  assert (kind = Arr ↔ is_array (s_heap st) obj) as Hkind.
  { unfold is_array, kind. destruct (s_heap st !! obj) as [[[] ps]|]; split;
      try done; try (intros [? ?]; congruence); eauto. }
  split; [done|]. split; [done|]. split.
  { exists kind. split; [unfold kind; case_match; eauto|]. done. }
  split; [done|].
  split; [|split; [|split; [|split]]].
  - intros o Hs. rewrite Hm2 in Hs. rewrite Hh2.
    apply lookup_insert_is_Some in Hs as [<-|[_ Hs]].
    + rewrite lookup_insert_ne by done. done.
    + apply Hwf in Hs. destruct (decide (N = o)) as [<-|?].
      * rewrite lookup_insert_eq. eauto.
      * by rewrite lookup_insert_ne.
  - rewrite Hh2, lookup_insert_eq. eauto.
  - rewrite Hm2, lookup_insert_ne by done. done.
  - rewrite Hm2, lookup_insert_eq. done.
  - unfold is_array. rewrite Hh2, lookup_insert_eq, lookup_insert_ne by done.
    intros [ps Hps]. apply Hkind. destruct kind; simpl in Hps; congruence.
Qed.

Lemma desc_writable_with_value d v :
  desc_writable (with_value d v) = desc_writable d.
Proof. by destruct d as [[v0 w|g s] e c]. Qed.

Lemma hard_frozen h h' l :
  frozen_by h h' → is_Some (h !! l) → hard h l → hard h' l.
Proof.
  intros Hf [o Hl]. unfold hard. rewrite Hl.
  destruct (Hf l o Hl) as ([kd' ps'] & -> & Hk & HF). simpl in *. subst kd'.
  intros Hh. revert Hh.
  induction HF as [|[k d] [k' d'] ps ps'' [Hk Hs] _ IH]; [done|].
  intros Hh. apply Forall_cons in Hh as [Hd Hps]. constructor; [|by apply IH].
  simpl in *. subst k'. destruct Hd as [Hw|Hr]; [left|by right]. simpl in *.
  unfold same_but_writable, desc_writable in *.
  destruct Hs as (_ & _ & Hs).
  destruct (d_slot d) as [v w|g s], (d_slot d') as [v' w'|g' s']; try done.
  destruct Hs as (_ & Hww & _). destruct w'; [|done]. rewrite Hww in Hw; done.
Qed.

Lemma hard_frozen_all (G : gset loc) h h' :
  frozen_by h h' → dom h' = dom h →
  (∀ n, n ∉ G → hard h n) → ∀ n, n ∉ G → hard h' n.
Proof.
  intros Hf Hd Hh n Hn. destruct (h !! n) as [o|] eqn:Hl.
  - eapply hard_frozen; eauto.
  - unfold hard. assert (h' !! n = None) as ->; [|done].
    apply not_elem_of_dom. rewrite Hd. by apply not_elem_of_dom.
Qed.

Lemma hard_define (G : gset loc) h N k dd h' :
  defineProperty h N k dd = Some h' →
  (desc_writable dd = false ∨ (is_array h N ∧ k = "length")) →
  (∀ n, n ∉ G → hard h n) → N ∉ G → ∀ n, n ∉ G → hard h' n.
Proof.
  intros Hdef Hdd Hh HN n Hn. specialize (Hh n Hn).
  destruct (defineProperty_cases _ _ _ _ _ Hdef) as (kd & ps & ps0 & HlN & _ & _).
  destruct (decide (n = N)) as [->|Hne].
  - unfold hard in *. rewrite HlN in Hh. simpl in Hh.
    destruct (defineProperty_Forall (hard_prop kd) h N k dd h' kd ps HlN Hh)
      as (ps' & -> & HF); [| |done|].
    + destruct Hdd as [?|[[ps1 Ha] ->]]; [by left|right].
      split; [congruence|done].
    + intros dl z [Hw|Hr]; [left|by right]. simpl in *.
      by rewrite desc_writable_with_value.
    + by rewrite lookup_insert_eq.
  - destruct (defineProperty_cases _ _ _ _ _ Hdef) as (? & ? & ? & _ & -> & _).
    unfold hard in *. by rewrite lookup_insert_ne.
Qed.

Lemma hard_gopd h l k d :
  hard h l → getOwnPropertyDescriptor h l k = Some d →
  desc_writable d = false ∨ (is_array h l ∧ k = "length").
Proof.
  unfold hard, getOwnPropertyDescriptor, is_array.
  destruct (h !! l) as [[kd ps]|]; simpl; [|done]. intros HF Hk.
  pose proof (Forall_alookup _ _ _ _ HF Hk) as [Hw|[Hkd Hl]]; [by left|right].
  simpl in *. subst. eauto.
Qed.

Section hard_loop.
Context (fuel : nat) (rec : value → store → option (value * store)).
Context (obj N : loc) (ops : list (key * mop)) (G : gset loc).
Hypothesis rec_spec : ∀ x st v st',
  wf_mc st → rec x st = Some (v, st') →
  flush_rel (s_heap st) st st' ∧ flush_result x v st'.
Hypothesis rec_hard : ∀ x st v st',
  wf_mc st → (∀ o, is_Some (mutationCache st !! o) → o ∉ G) →
  G ⊆ dom (s_heap st) → (∀ n, n ∉ G → hard (s_heap st) n) →
  rec x st = Some (v, st') → ∀ n, n ∉ G → hard (s_heap st') n.

Lemma hard_round k st st1 :
  filling obj N ops st → hardening G obj N st →
  getFlushed_loop fuel rec obj N [k] st = Some st1 →
  hardening G obj N st1.
Proof.
  intros Hfill (Harr & HNG & Hrec & HG & Hhard) Hrun.
  destruct (getFlushed_round fuel rec obj N ops rec_spec _ _ _ _ Hfill Hrun)
    as (st1' & [= ->] & Hrel & HarrN & _).
  destruct (filling_obj _ _ _ _ Hfill) as [Ho Hne].
  pose proof Hfill as (Hwf & HN & HmN & Hmo & Hlink).
  pose proof Hrel as (_ & Hfz & Hdom & Hfl & _).
  assert (obj ∉ G) as HoG by (apply Hrec; rewrite Hmo; eauto).
  split; [|split; [done|split; [|split]]].
  - rewrite HarrN, (frozen_by_delete_is_array N _ _ obj Hfz Ho Hne). done.
  - intros o Hs. apply Hrec. by apply (flags_cleared_lookup _ _ _ Hfl).
  - set_solver.
  - simpl in Hrun. fold (pending (mutationCache st) obj k) in Hrun.
    destruct (pending (mutationCache st) obj k) as [[v|]|] eqn:Hp.
    + destruct (readonly fuel (s_heap st) v true ∅) as [[h1 vis]|] eqn:Hro;
        simpl in Hrun; [|done].
      destruct (readonly_frame _ _ _ _ _ Hro) as [Hf1 Hd1].
      pose proof (hard_frozen_all G _ _ Hf1 Hd1 Hhard) as Hhard1.
      assert (∀ dd h2, defineProperty h1 N k dd = Some h2 →
        desc_writable dd = false ∨ (is_array (s_heap st) obj ∧ k = "length") →
        ∀ n, n ∉ G → hard h2 n) as Hdef.
      { intros dd h2 Hd Hdd. eapply hard_define; eauto.
        destruct Hdd as [?|[Ha ->]]; [by left|right]. split; [|done].
        apply (frozen_by_is_array _ _ N Hf1 HN). auto. }
      destruct (getOwnPropertyDescriptor (s_heap st) obj k) as [d|] eqn:Hd.
      * destruct (has_value d); [|done].
        destruct (defineProperty h1 N k (with_value d v)) as [h2|] eqn:Hdf;
          simpl in Hrun; [|done]. injection Hrun as <-. simpl.
        apply (Hdef _ _ Hdf). rewrite desc_writable_with_value.
        by apply (hard_gopd _ _ _ _ (Hhard obj HoG)).
      * destruct (defineProperty h1 N k _) as [h2|] eqn:Hdf;
          simpl in Hrun; [|done]. injection Hrun as <-. simpl.
        apply (Hdef _ _ Hdf). by left.
    + by injection Hrun as <-.
    + destruct (getOwnPropertyDescriptor (s_heap st) N k); [by injection Hrun as <-|].
      destruct (getOwnPropertyDescriptor (s_heap st) obj k) as [d|] eqn:Hd;
        simpl in Hrun; [|done].
      pose proof (hard_gopd _ _ _ _ (Hhard obj HoG) Hd) as Hdd.
      destruct (has_value d && d_configurable d).
      * destruct (rec _ st) as [[v st2]|] eqn:Hr; simpl in Hrun; [|done].
        destruct (defineProperty (s_heap st2) N k (with_value d v)) as [h2|] eqn:Hdf;
          simpl in Hrun; [|done]. injection Hrun as <-. simpl.
        destruct (rec_spec _ _ _ _ Hwf Hr) as [(_ & Hfz2 & _) _].
        eapply hard_define; [exact Hdf| |eapply rec_hard; eauto|done].
        rewrite desc_writable_with_value.
        destruct Hdd as [?|[Ha ->]]; [by left|right]. split; [|done].
        apply (frozen_by_is_array _ _ N Hfz2 HN). auto.
      * destruct (defineProperty (s_heap st) N k d) as [h2|] eqn:Hdf;
          simpl in Hrun; [|done]. injection Hrun as <-. simpl.
        eapply hard_define; [exact Hdf| |done|done].
        destruct Hdd as [?|[Ha ->]]; [by left|right]. auto.
Qed.

Lemma hard_loop ks : ∀ st st',
  filling obj N ops st → hardening G obj N st →
  getFlushed_loop fuel rec obj N ks st = Some st' →
  hardening G obj N st'.
Proof.
  induction ks as [|k ks IH]; intros st st' Hfill Hh Hrun.
  { simpl in Hrun. by simplify_eq. }
  rewrite getFlushed_loop_cons in Hrun.
  destruct (getFlushed_loop fuel rec obj N [k] st) as [st1|] eqn:H1; simpl in Hrun; [|done].
  destruct (getFlushed_round fuel rec obj N ops rec_spec _ _ _ _ Hfill H1)
    as (st1' & [= ->] & Hrel & HarrN & _).
  eapply IH; [|eapply hard_round; eauto|exact Hrun].
  eapply filling_step; eauto.
Qed.

End hard_loop.

Lemma getFlushed_hard (G : gset loc) fuel : ∀ x st v st',
  wf_mc st → (∀ o, is_Some (mutationCache st !! o) → o ∉ G) →
  G ⊆ dom (s_heap st) → (∀ n, n ∉ G → hard (s_heap st) n) →
  getFlushed fuel x st = Some (v, st') → ∀ n, n ∉ G → hard (s_heap st') n.
Proof.
  induction fuel as [|fuel IH]; intros x st v st' Hwf Hrec HG Hhard Hrun; [done|].
  destruct x as [| | | | | |obj| | |]; try (simpl in Hrun; by simplify_eq).
  destruct (mutationCache st !! obj) as [[[] ops]|] eqn:Hmo;
    [|simpl in Hrun; rewrite Hmo in Hrun; simpl in Hrun; by simplify_eq..].
  rewrite (getFlushed_dirty _ _ _ _ Hmo) in Hrun.
  destruct (start_copy_spec obj ops st Hwf Hmo)
    as (HN & Hne & (kd & Hkd & Hka & Hh2) & Hm2 & Hfill).
  set (N := (start_copy obj ops st).1) in *.
  set (st2 := (start_copy obj ops st).2) in *.
  destruct (getFlushed_loop _ _ _ _ _ _) as [st3|] eqn:Hloop; simpl in Hrun; [|done].
  injection Hrun as <- <-.
  assert (N ∉ G) as HNG.
  { intros Hin. apply HG in Hin. apply elem_of_dom in Hin as [? ?]. congruence. }
  eapply (hard_loop fuel (getFlushed fuel) obj N ops G) in Hloop; [| | |exact Hfill|].
  - by destruct Hloop as (_ & _ & _ & _ & Hh).
  - intros. by eapply getFlushed_spec.
  - intros. by eapply IH.
  - split; [|split; [done|split; [|split]]].
    + intros Ha. unfold is_array. rewrite Hh2, lookup_insert_eq.
      assert (kd = Arr) as -> by (apply Hka; revert Ha; unfold is_array;
        rewrite Hh2, lookup_insert_ne by done; done).
      simpl. eauto.
    + intros o Ho. rewrite Hm2 in Ho. apply Hrec.
      apply lookup_insert_is_Some in Ho as [<-|[_ Ho]]; [rewrite Hmo; eauto|done].
    + rewrite Hh2, dom_insert_L. set_solver.
    + intros n Hn. unfold hard. rewrite Hh2.
      destruct (decide (N = n)) as [<-|Hnn].
      * rewrite lookup_insert_eq.
        destruct Hkd as [-> | ->]; simpl; [|done].
        constructor; [by right|done].
      * rewrite lookup_insert_ne by done. by apply Hhard.
Qed.

(** X10.  When every object that has a mutation record (pending
    operations of its own, or the dirty flag alone as an ancestor of a
    written object) has only read-only properties (the [length] of an
    array aside), and [getFlushed] returns, every object it has created
    has only read-only properties too. *)
Theorem commit_copies_are_frozen (fuel : nat) (x v : value) (st st' : store)
    (n : loc) (o : obj) :
  dom (mutationCache st) ⊆ dom (s_heap st) →
  map_Forall (λ l _, hard (s_heap st) l) (mutationCache st) →
  getFlushed fuel x st = Some (v, st') →
  s_heap st !! n = None → s_heap st' !! n = Some o →
  Forall (hard_prop (o_kind o)) (o_props o).
Proof.
  intros Hdom Hrec Hrun Hn Ho.
  pose proof (getFlushed_hard (dom (s_heap st) ∖ dom (mutationCache st)) fuel
                x st v st' (wf_mc_dom _ Hdom)) as H.
  assert (∀ l, is_Some (mutationCache st !! l) →
            l ∉ dom (s_heap st) ∖ dom (mutationCache st)) as H1.
  { intros l Hl Hin. apply elem_of_difference in Hin as [_ Hin].
    apply Hin. by apply elem_of_dom. }
  assert (dom (s_heap st) ∖ dom (mutationCache st) ⊆ dom (s_heap st)) as H2
    by set_solver.
  specialize (λ Hh, H H1 H2 Hh Hrun n). unfold hard in H at 2.
  rewrite Ho in H. apply H.
  - intros l Hl. destruct (mutationCache st !! l) as [m|] eqn:Hm.
    + by apply (Hrec l m).
    + unfold hard. destruct (s_heap st !! l) eqn:Hh; [|done].
      exfalso. apply Hl. apply elem_of_difference. split; [by apply elem_of_dom|].
      by apply not_elem_of_dom.
  - intros Hin. apply elem_of_difference in Hin as [Hin _].
    apply elem_of_dom in Hin as [? ?]. congruence.
Qed.

Lemma commit_copies_are_frozen_witness :
  Forall (hard_prop Plain) [("name", Desc (Data (VStr "bob") false) true true)].
Proof.
  apply (commit_copies_are_frozen 8 (VRef (_state profile_renamed)) (VRef 6%positive)
           profile_renamed profile_committed 7%positive
           (Obj Plain [("name", Desc (Data (VStr "bob") false) true true)])).
  - apply (bool_decide_unpack _). vm_compute. exact I.
  - apply (bool_decide_unpack _). vm_compute. exact I.
  - vm_compute. reflexivity.
  - vm_compute. reflexivity.
  - vm_compute. reflexivity.
Defined.
(** ** [touchAffected] and cycles *)

Lemma foldl_option_elem {A B} (f : B → option A) (l : list B) (x : B) (a : option A) :
  x ∈ l → f x = None → foldl (λ acc y, _ ← acc; f y) a l = None.
Proof.
  revert a. induction l as [|y l IH]; intros a Hin Hx; [by apply elem_of_nil in Hin|].
  simpl. apply elem_of_cons in Hin as [<-|Hin].
  - rewrite Hx. destruct a; simpl; apply (foldl_option_None (λ _ y, f y)).
  - by apply IH.
Qed.

(** X11.  [touchAffected] has no guard against a cycle: when a recorded
    key leads from the source object back to itself, and from the
    destination object back to itself, the walk does not return, whatever
    the depth of the stack. *)
Theorem touchAffected_self_reference_never_returns (fuel : nat) (h : heap)
    (d s : loc) (aff : affected) (u : used) (k : key) :
  aff !! s = Some u → k ∈ u_keys u →
  reflect_get h d k = VRef d → reflect_get h s k = VRef s →
  touchAffected fuel h (VRef d) (VRef s) aff = None.
Proof.
  intros Hu Hk Hd Hs. induction fuel as [|fuel IH]; [done|].
  simpl. rewrite Hu. apply (foldl_option_elem _ _ k); [done|].
  by rewrite Hd, Hs.
Qed.

Lemma touchAffected_self_reference_never_returns_witness :
  touchAffected 1000
    {[ 1%positive := Obj Plain [("self", data (VRef 1%positive))] ]}
    (VRef 1%positive) (VRef 1%positive)
    {[ 1%positive := Used [] false [] ["self"] ]} = None.
Proof.
  apply (touchAffected_self_reference_never_returns 1000 _ 1%positive 1%positive _
           (Used [] false [] ["self"]) "self").
  - vm_compute. reflexivity.
  - apply list_elem_of_here.
  - vm_compute. reflexivity.
  - vm_compute. reflexivity.
Defined.

(** ** Publishing *)

Lemma setState_cases fuel s st st' :
  setState fuel (VRef s) st = Ok () st' →
  (s = _state st ∧ st' = st)
  ∨ (s ≠ _state st ∧ _state st' = s
     ∧ snapshotCache st' !! s = Some (_computedState st')
     ∧ (∀ x, x ≠ s → snapshotCache st' !! x = snapshotCache st !! x)
     ∧ (∀ c, snapshotCache st !! s = Some c → _computedState st' = c)
     ∧ notified st'
       = notified st ++ map (λ l, (l, _computedState st', _computedState st)) (listeners st)
     ∧ listeners st' = listeners st
     ∧ (∀ x, is_Some (s_heap st !! x) → s_heap st' !! x = s_heap st !! x)).
Proof.
  unfold setState, object_is. case_bool_decide as Heq.
  { intros [= <-]. left. split; congruence. }
  assert (s ≠ _state st) as Hne by congruence.
  unfold snapshotComputedState. simpl.
  destruct (snapshotCache st !! s) as [c|] eqn:Hc; simpl.
  - intros [= <-]. right. simpl. repeat split; try done. by intros c' [= <-].
  - destruct (foldl _ _ _) as [cache|]; [|done]. simpl. intros [= <-]. right. simpl.
    split; [done|]. split; [done|]. split; [by rewrite lookup_insert_eq|].
    split; [intros x Hx; by rewrite lookup_insert_ne|].
    split; [done|]. split; [done|]. split; [done|].
    intros x [o Hx]. rewrite lookup_insert_ne; [done|].
    intros <-. by rewrite fresh_heap in Hx.
Qed.

(** X12.  The snapshot of a state object is remembered: when a state is
    published, replaced by another and published again, [$get()] returns
    the same snapshot object as the first time. *)
Theorem republished_state_keeps_snapshot (fuel : nat) (a b : loc)
    (st st1 st2 st3 : store) :
  a ≠ _state st →
  set fuel (VRef a) st = Ok () st1 →
  set fuel (VRef b) st1 = Ok () st2 →
  set fuel (VRef a) st2 = Ok () st3 →
  get st3 = get st1.
Proof.
  unfold set, get. intros Hne H1 H2 H3.
  apply setState_cases in H1 as [[? _]|(_ & Hs1 & Hc1 & _)]; [done|].
  apply setState_cases in H2 as [[Hb ->]|(Hb & Hs2 & _ & Ho2 & _)].
  - apply setState_cases in H3 as [[_ ->]|(Hx & _)]; [done|congruence].
  - apply setState_cases in H3 as [[Hx _]|(_ & _ & _ & _ & Hhit & _)]; [congruence|].
    apply Hhit. rewrite Ho2 by congruence. done.
Qed.

Lemma republished_state_keeps_snapshot_witness :
  get (set_to 1%positive (set_to 2%positive (set_to 1%positive counter_watched)))
  = get (set_to 1%positive counter_watched).
Proof.
  apply (republished_state_keeps_snapshot 8 1%positive 2%positive counter_watched
           (set_to 1%positive counter_watched)
           (set_to 2%positive (set_to 1%positive counter_watched))).
  - vm_compute. discriminate.
  - vm_compute. reflexivity.
  - vm_compute. reflexivity.
  - vm_compute. reflexivity.
Defined.

(** ** Subscriptions *)

Lemma subscribe_fresh st : (subscribe st).1 ∉ listeners st.
Proof.
  unfold subscribe. simpl. intros Hin.
  apply (is_fresh (list_to_set (C := gset nat) (listeners st))).
  by apply elem_of_list_to_set.
Qed.

Lemma filter_ne_snoc (l : list nat) (x : nat) :
  x ∉ l → filter (λ y, y ≠ x) (l ++ [x]) = l.
Proof.
  intros Hx. rewrite filter_app.
  rewrite (filter_cons_False (λ y, y ≠ x)) by (intros H; by apply H).
  rewrite filter_nil, app_nil_r.
  induction l as [|y l IH]; [done|].
  apply not_elem_of_cons in Hx as [Hne Hx].
  rewrite filter_cons_True by done. by rewrite IH.
Qed.

(** X13.  [$subscribe] adds a listener without disturbing the others: at
    the next publication the listeners registered before are called as
    they would have been, and the new one is called once, after them and
    with the same two snapshots.  Unsubscribing it at once gives back the
    store as it was. *)
Theorem new_subscriber_is_called_last (fuel : nat) (s : loc) (st st' : store) :
  s ≠ _state st →
  set fuel (VRef s) st = Ok () st' →
  (subscribe st).1 ∉ listeners st
  ∧ unsubscribe (subscribe st).1 (subscribe st).2 = st
  ∧ ∃ st1', set fuel (VRef s) (subscribe st).2 = Ok () st1'
      ∧ notified st1' = notified st' ++ [((subscribe st).1, get st', get st)]
      ∧ get st1' = get st'.
Proof.
  intros Hne Hset. pose proof (subscribe_fresh st) as Hfresh.
  split; [done|]. split.
  { unfold unsubscribe, with_listeners. simpl. rewrite filter_ne_snoc by done.
    by destruct st. }
  revert Hset. unfold set, get, setState, object_is.
  simpl. case_bool_decide as Heq; [congruence|].
  unfold snapshotComputedState. simpl.
  destruct (snapshotCache st !! s) as [c|] eqn:Hc; simpl.
  - intros [= <-]. eexists. split; [reflexivity|]. simpl.
    by rewrite map_app, app_assoc.
  - destruct (foldl _ _ _) as [cache|]; [|done]. simpl. intros [= <-].
    eexists. split; [reflexivity|]. simpl. by rewrite map_app, app_assoc.
Qed.

Lemma new_subscriber_is_called_last_witness :
  (subscribe counter_watched).1 ∉ listeners counter_watched
  ∧ unsubscribe (subscribe counter_watched).1 (subscribe counter_watched).2
    = counter_watched
  ∧ ∃ st1', set 8 (VRef 1%positive) (subscribe counter_watched).2 = Ok () st1'
      ∧ notified st1'
        = notified (set_to 1%positive counter_watched)
          ++ [((subscribe counter_watched).1, get (set_to 1%positive counter_watched),
               get counter_watched)]
      ∧ get st1' = get (set_to 1%positive counter_watched).
Proof.
  apply (new_subscriber_is_called_last 8 1%positive counter_watched
           (set_to 1%positive counter_watched)).
  - vm_compute. discriminate.
  - vm_compute. reflexivity.
Defined.

(** ** [$patch] *)

Lemma alookup_omap_enumerable (f : key → desc) (ps : list (key * desc)) k :
  alookup k (omap (λ p, if d_enumerable p.2 && negb (bool_decide (p.1 ∈ @nil key))
                        then Some (p.1, f p.1) else None) ps)
  = if decide (k ∈ akeys (filter (λ p, d_enumerable p.2 = true) ps))
    then Some (f k) else None.
Proof.
  set (g := λ p : key * desc,
              if d_enumerable p.2 && negb (bool_decide (p.1 ∈ @nil key))
              then Some (p.1, f p.1) else None).
  assert (∀ p, g p = if d_enumerable p.2 then Some (p.1, f p.1) else None) as Hg.
  { intros p. unfold g. destruct (d_enumerable p.2); [|done].
    rewrite bool_decide_eq_false_2; [done|]. apply not_elem_of_nil. }
  clearbody g.
  induction ps as [|[k0 d0] ps IH]; [done|].
  cbn [omap list_omap]. rewrite Hg. cbn [fst snd].
  destruct (d_enumerable d0) eqn:He.
  - rewrite filter_cons_True by done. cbn [alookup akeys fmap list_fmap fst].
    destruct (decide (k = k0)) as [->|Hne].
    + by rewrite decide_True by apply list_elem_of_here.
    + rewrite IH.
      destruct (decide (k ∈ akeys (filter _ ps))) as [Hin|Hin].
      * by rewrite decide_True by (by apply elem_of_cons; right).
      * rewrite decide_False; [done|]. intros [?|?]%elem_of_cons; done.
  - rewrite filter_cons_False by (simpl; congruence). exact IH.
Qed.

Lemma alookup_spread h x k :
  alookup k (o_props (spread h x []))
  = if decide (k ∈ enumerable_keys h x)
    then Some (Desc (Data (reflect_get h x k) true) true true) else None.
Proof.
  unfold spread, enumerable_keys. simpl.
  destruct (h !! x) as [[kd ps]|]; simpl; [|done].
  apply (alookup_omap_enumerable (λ k, Desc (Data (reflect_get h x k) true) true true)).
Qed.

Lemma spread_configurable h x :
  Forall (λ p : key * desc, d_configurable p.2 = true) (o_props (spread h x [])).
Proof.
  unfold spread. simpl. apply Forall_forall. intros [k d] Hin.
  apply list_elem_of_omap in Hin as (p & _ & Hp).
  destruct (d_enumerable p.2 && _); [|done]. by injection Hp as <- <-.
Qed.

Lemma spread_values h x p :
  p ∈ o_props (spread h x []) → p.2 = Desc (Data (reflect_get h x p.1) true) true true.
Proof.
  unfold spread. simpl. intros Hin.
  apply list_elem_of_omap in Hin as (q & _ & Hq).
  destruct (d_enumerable q.2 && _); [|done]. by injection Hq as <-.
Qed.

Lemma define_all (l : loc) (qs : list (key * desc)) : ∀ (h : heap) ps,
  h !! l = Some (Obj Plain ps) →
  Forall (λ p : key * desc, d_configurable p.2 = true) ps →
  Forall (λ p : key * desc, d_configurable p.2 = true) qs →
  foldl (λ acc p, h' ← acc; defineProperty h' l p.1 p.2) (Some h) qs
  = Some (<[l := Obj Plain (foldl (λ acc p, aset p.1 p.2 acc) ps qs)]> h).
Proof.
  induction qs as [|[k d] qs IH]; intros h ps Hl Hps Hqs; simpl.
  { by rewrite insert_id. }
  apply Forall_cons in Hqs as [Hd Hqs]. simpl in Hd.
  assert (defineProperty h l k d = Some (<[l := Obj Plain (aset k d ps)]> h)) as ->.
  { unfold defineProperty. rewrite Hl. simpl. unfold aset.
    destruct (alookup k ps) as [d0|] eqn:Hk; [|done].
    pose proof (Forall_alookup _ _ _ _ Hps Hk) as Hc. simpl in Hc. by rewrite Hc. }
  rewrite (IH _ (aset k d ps)); [|by rewrite lookup_insert_eq|by apply Forall_aset|done].
  by rewrite insert_insert_eq.
Qed.

Lemma alookup_fold_aset (f : key → desc) (qs : list (key * desc)) k : ∀ ps,
  (∀ p, p ∈ qs → p.2 = f p.1) →
  alookup k (foldl (λ acc p, aset p.1 p.2 acc) ps qs)
  = if decide (k ∈ akeys qs) then Some (f k) else alookup k ps.
Proof.
  induction qs as [|[k0 d0] qs IH]; intros ps Hf; simpl; [done|].
  rewrite IH by (intros p Hp; apply Hf; by apply elem_of_cons; right).
  pose proof (Hf (k0, d0) (list_elem_of_here _ _)) as Hd0. simpl in Hd0.
  destruct (decide (k ∈ akeys qs)) as [Hin|Hin].
  - by rewrite decide_True by (by apply elem_of_cons; right).
  - rewrite alookup_aset. destruct (decide (k = k0)) as [->|Hne].
    + rewrite decide_True by apply list_elem_of_here. by rewrite Hd0.
    + rewrite decide_False; [done|]. intros [?|?]%elem_of_cons; done.
Qed.

Lemma alookup_is_Some_iff {A} (l : list (key * A)) k :
  is_Some (alookup k l) ↔ k ∈ akeys l.
Proof.
  induction l as [|[k0 a0] l IH]; simpl.
  - split; [by intros [? ?]|by intros ?%elem_of_nil].
  - destruct (decide (k = k0)) as [->|Hne].
    + split; [intros _; apply list_elem_of_here|eauto].
    + rewrite IH. split; [by right|]. intros [?|?]%elem_of_cons; done.
Qed.

(** X14.  On a store whose state is an object of the heap,
    [$patch(partial)] publishes whenever it returns, whatever [partial]
    holds, and without cached computed values it does return: the state
    becomes a new object and every listener is called once with the new
    snapshot and the previous one.  The new state reads, under each key,
    what [partial] holds as an enumerable property, and otherwise what the
    previous state held as one. *)
Theorem patch_merges_and_always_publishes (fuel : nat) (partial : loc) (st : store) :
  is_Some (s_heap st !! _state st) →
  (computedCache st = [] → ∃ st', patch fuel partial st = Ok () st')
  ∧ ∀ st', patch fuel partial st = Ok () st' →
      s_heap st !! _state st' = None
      ∧ notified st' = notified st ++ map (λ l, (l, get st', get st)) (listeners st)
      ∧ ∀ k, reflect_get (s_heap st') (_state st') k
             = if decide (k ∈ enumerable_keys (s_heap st) partial)
               then reflect_get (s_heap st) partial k
               else if decide (k ∈ enumerable_keys (s_heap st) (_state st))
                    then reflect_get (s_heap st) (_state st) k
                    else VUndef.
Proof.
  intros Hstate. unfold patch, alloc.
  set (h := s_heap st). set (l := fresh (dom h)).
  pose proof (fresh_heap h) as Hl. fold l in Hl.
  rewrite (define_all l _ _ (o_props (spread h (_state st) [])));
    [|by rewrite lookup_insert_eq|apply spread_configurable..].
  rewrite insert_insert_eq.
  assert (l ≠ _state st) as Hne.
  { intros Heq. destruct Hstate as [o Ho]. rewrite <- Heq in Ho. fold h in Ho.
    congruence. }
  split.
  { intros Hcc. unfold setState. rewrite object_is_ref_ne by done.
    unfold snapshotComputedState. simpl.
    destruct (snapshotCache st !! l); simpl; [by eexists|].
    rewrite Hcc. simpl. by eexists. }
  intros st' Hset.
  pose proof (alookup_spread h partial) as Hsp1.
  pose proof (alookup_spread h (_state st)) as Hsp2.
  pose proof (spread_values h partial) as Hsv.
  set (sp1 := spread h partial []) in *. set (sp2 := spread h (_state st) []) in *.
  clearbody sp1 sp2.
  apply setState_cases in Hset as [[? _]|(_ & Hs & _ & _ & _ & Hn & _ & Hh)]; [done|].
  simpl in *. rewrite Hs. split; [done|]. split; [done|]. intros k.
  unfold reflect_get at 1, getOwnPropertyDescriptor.
  rewrite Hh by (rewrite lookup_insert_eq; eauto). rewrite lookup_insert_eq. simpl.
  rewrite (alookup_fold_aset (λ k, Desc (Data (reflect_get h partial k) true) true true))
    by exact Hsv.
  assert (k ∈ akeys (o_props sp1) ↔ k ∈ enumerable_keys h partial) as Hiff.
  { rewrite <- alookup_is_Some_iff, Hsp1. case_decide; [by eauto|].
    split; [by intros [? ?]|done]. }
  destruct (decide (k ∈ enumerable_keys h partial)) as [Hin|Hin].
  - by rewrite decide_True by (by apply Hiff).
  - rewrite decide_False by (by rewrite Hiff).
    rewrite Hsp2. by case_decide.
Qed.

Lemma patch_merges_and_always_publishes_witness :
  (∃ st', patch 8 3%positive profile_watched = Ok () st')
  ∧ ∀ st', patch 8 3%positive profile_watched = Ok () st' →
      s_heap profile_watched !! _state st' = None
      ∧ notified st'
        = notified profile_watched
          ++ map (λ l, (l, get st', get profile_watched)) (listeners profile_watched)
      ∧ ∀ k, reflect_get (s_heap st') (_state st') k
             = if decide (k ∈ enumerable_keys (s_heap profile_watched) 3%positive)
               then reflect_get (s_heap profile_watched) 3%positive k
               else if decide (k ∈ enumerable_keys (s_heap profile_watched)
                                     (_state profile_watched))
                    then reflect_get (s_heap profile_watched) (_state profile_watched) k
                    else VUndef.
Proof.
  destruct (patch_merges_and_always_publishes 8 3%positive profile_watched) as [H1 H2].
  - vm_compute. eauto.
  - split; [apply H1; vm_compute; reflexivity|exact H2].
Defined.

Lemma Forall_fold_aset (P : key * desc → Prop) (qs : list (key * desc)) : ∀ ps,
  Forall P ps → Forall P qs →
  Forall P (foldl (λ acc p, aset p.1 p.2 acc) ps qs).
Proof.
  induction qs as [|[k d] qs IH]; intros ps Hps Hqs; simpl; [done|].
  apply Forall_cons in Hqs as [Hd Hqs]. apply IH; [|done]. by apply Forall_aset.
Qed.

Lemma spread_open h x :
  Forall (λ p : key * desc,
            desc_writable p.2 = true ∧ d_enumerable p.2 = true ∧ d_configurable p.2 = true)
    (o_props (spread h x [])).
Proof.
  apply Forall_forall. intros p Hp. by rewrite (spread_values _ _ _ Hp).
Qed.

(** X15.  The state that [$patch] publishes is not read-only: each of its
    properties is a writable, enumerable and configurable data property,
    also where the previous state held a read-only one. *)
Theorem patched_state_is_writable (fuel : nat) (partial : loc) (st st' : store)
    (k : key) (d : desc) :
  is_Some (s_heap st !! _state st) →
  patch fuel partial st = Ok () st' →
  getOwnPropertyDescriptor (s_heap st') (_state st') k = Some d →
  has_value d = true ∧ desc_writable d = true
  ∧ d_enumerable d = true ∧ d_configurable d = true.
Proof.
  intros Hstate. unfold patch, alloc.
  set (h := s_heap st). set (l := fresh (dom h)).
  pose proof (fresh_heap h) as Hl. fold l in Hl.
  rewrite (define_all l _ _ (o_props (spread h (_state st) [])));
    [|by rewrite lookup_insert_eq|apply spread_configurable..].
  rewrite insert_insert_eq. intros Hset.
  pose proof (Forall_fold_aset _ _ _ (spread_open h (_state st)) (spread_open h partial))
    as Hall.
  set (ps := foldl _ _ _) in *. clearbody ps.
  assert (l ≠ _state st) as Hne.
  { intros Heq. destruct Hstate as [o Ho]. rewrite <- Heq in Ho. fold h in Ho.
    congruence. }
  apply setState_cases in Hset as [[? _]|(_ & Hs & _ & _ & _ & _ & _ & Hh)]; [done|].
  simpl in *. rewrite Hs. unfold getOwnPropertyDescriptor.
  rewrite Hh by (rewrite lookup_insert_eq; eauto). rewrite lookup_insert_eq. simpl.
  intros Hk. pose proof (Forall_alookup _ _ _ _ Hall Hk) as (Hw & He & Hc). simpl in *.
  repeat split; try done. unfold has_value, desc_writable in *. by destruct (d_slot d).
Qed.

Lemma patched_state_is_writable_witness :
  has_value (Desc (Data (VRef 2%positive) true) true true) = true
  ∧ desc_writable (Desc (Data (VRef 2%positive) true) true true) = true
  ∧ d_enumerable (Desc (Data (VRef 2%positive) true) true true) = true
  ∧ d_configurable (Desc (Data (VRef 2%positive) true) true true) = true.
Proof.
  apply (patched_state_is_writable 8 3%positive profile_watched profile_patched "user").
  - vm_compute. eauto.
  - vm_compute. reflexivity.
  - vm_compute. reflexivity.
Defined.
(** ** Memoized reads *)

Lemma alookup_map_set {A} k (a : A) m : alookup k (map_set k a m) = Some a.
Proof.
  unfold map_set. destruct (alookup k m) as [x|] eqn:Hk.
  - apply alookup_areplace_eq. eauto.
  - rewrite alookup_app, Hk. simpl. by rewrite decide_True.
Qed.

Lemma touchAffected_fuel fuel h d s aff :
  touchAffected fuel h d s aff = Some () → ∃ f, fuel = S f.
Proof. destruct fuel; [done|eauto]. Qed.

Lemma unchanged_same f h s aff : unchanged (S f) h s s aff = Some true.
Proof. unfold unchanged. by rewrite isChanged_same. Qed.

(** X16.  A computed value is evaluated at most once per snapshot: after
    the first read of a computed value that has no entry in
    [computedCache] yet, a second read on the same snapshot returns the
    same result and leaves the store as it is (the getter is not run
    again). *)
Theorem computed_second_read_is_cached (fuel : nat) (snap : loc) (k : key)
    (v : value) (st st1 : store) :
  alookup k (computedCache st) = None →
  computed_get fuel snap k st = Ok v st1 →
  computed_get fuel snap k st1 = Ok v st1.
Proof.
  intros Hcc Hrun. pose proof Hrun as Hrun0. revert Hrun. unfold computed_get at 1.
  destruct (snapshots st !! snap) as [[state cache]|] eqn:Hsnap; [|done].
  destruct (alookup k (computed st)) as [getter|] eqn:Hget; [|done].
  destruct (alookup k cache) as [e|] eqn:Hk.
  { destruct (touchAffected _ _ _ _ _); [|done]. intros [= <- <-]. exact Hrun0. }
  rewrite Hcc.
  destruct (run_tracked _ _ _) as [[[[r|e] h1] aff1]|]; [|done..].
  destruct (untrack _ _ _) as [[v' s2]|]; [|done].
  cbn [s_heap with_evaluated with_memoSet with_heap computedCache].
  destruct (touchAffected _ _ _ _ _) as [[]|] eqn:Ht; [|done].
  rewrite Hcc. intros [= <- <-]. clear Hrun0.
  unfold computed_get, set_snapshot_cache. simpl.
  rewrite Hsnap, lookup_insert_eq, Hget, alookup_map_set. simpl.
  by rewrite Ht.
Qed.

Lemma computed_second_read_is_cached_witness :
  computed_get 8 (get labelled_store) "label" labelled_read
  = Ok (VStr "ann") labelled_read.
Proof.
  apply (computed_second_read_is_cached 8 (get labelled_store) "label" (VStr "ann")
           labelled_store labelled_read).
  - vm_compute. reflexivity.
  - vm_compute. reflexivity.
Defined.

(** X17.  A memoized selector called again with the state object of the
    call before returns the same result without running the selector, and
    its memo stays as it is. *)
Theorem memoizeSelector_same_state_hits (fuel : nat) (fn : evaluator) (state : loc)
    (m m1 : memo) (v : value) :
  memoizeSelector fuel fn state m = Some (Returned v, m1) →
  memoizeSelector fuel fn state m1 = Some (Returned v, m1).
Proof.
  intros Hrun. pose proof Hrun as Hrun0. revert Hrun. unfold memoizeSelector at 1.
  assert (∀ x : option (outcome * memo),
    x = ('(out, h1, aff1) ← run_tracked (fn (VTrack state)) (memo_heap m) ∅;
         match out with
         | Raised e =>
             Some (Raised e, Memo h1 (memo_set m) (memo_cache m) (memo_runs m ++ [state]))
         | Returned r =>
             '(v, s2) ← untrack fuel r (UState h1 aff1 (memo_set m) ∅);
             _ ← touchAffected fuel (us_heap s2) (VRef state) (VRef state) (us_affected s2);
             Some (Returned v,
                   Memo (us_heap s2) (us_memo s2)
                     (Some (CEntry state (us_affected s2) v)) (memo_runs m ++ [state]))
         end) →
    x = Some (Returned v, m1) →
    memoizeSelector fuel fn state m1 = Some (Returned v, m1)) as Heval.
  { intros x -> Hx. clear Hrun0.
    destruct (run_tracked _ _ _) as [[[[r|e] h1] aff1]|]; simpl in Hx; [|done..].
    destruct (untrack _ _ _) as [[v' s2]|]; simpl in Hx; [|done].
    destruct (touchAffected _ _ _ _ _) as [[]|] eqn:Ht; simpl in Hx; [|done].
    injection Hx as <- <-. unfold memoizeSelector. simpl.
    destruct (touchAffected_fuel _ _ _ _ _ Ht) as [f ->].
    rewrite unchanged_same. simpl. simpl in Ht. by rewrite Ht. }
  destruct (memo_cache m) as [e|] eqn:Hc; [|by apply Heval].
  destruct (unchanged _ _ _ _ _) as [[]|]; simpl; [| |done].
  - destruct (touchAffected _ _ _ _ _); simpl; [|done]. intros [= <- <-]. exact Hrun0.
  - by apply Heval.
Qed.

Lemma memoizeSelector_same_state_hits_witness :
  memoizeSelector 8 label 1%positive label_memo
  = Some (Returned (VStr "ann"), label_memo).
Proof.
  apply (memoizeSelector_same_state_hits 8 label 1%positive
           (Memo profile_heap ∅ None []) label_memo (VStr "ann")).
  vm_compute. reflexivity.
Defined.

(** X18.  A memoized selector compares only what the selector read.  Let
    its cache hold the result for the state [S1] with an access map that
    records the read of [a] on [S1] and the read of [b] on [S1.a].  Called
    on a state [S2] with [S2.a.b] being [S1.a.b] (the replay of the reads
    below [a.b] ending), it returns the cached result, does not run the
    selector, and keeps its memo. *)
Theorem memoizeSelector_kept_outside_path (f1 : nat) (fn : evaluator) (m : memo)
    (S1 S2 A1 A2 : loc) (aff : affected) (r : value) (a b : key) :
  memo_cache m = Some (CEntry S1 aff r) →
  aff !! S1 = Some (Used [] false [] [a]) →
  aff !! A1 = Some (Used [] false [] [b]) →
  reflect_get (memo_heap m) S1 a = VRef A1 →
  reflect_get (memo_heap m) S2 a = VRef A2 →
  reflect_get (memo_heap m) A2 b = reflect_get (memo_heap m) A1 b →
  touchAffected (S f1) (memo_heap m) (reflect_get (memo_heap m) A1 b)
    (reflect_get (memo_heap m) A1 b) aff = Some () →
  memoizeSelector (S (S (S f1))) fn S2 m = Some (Returned r, m).
Proof.
  intros Hc HaS HaA Hold Hnew Hsame Htouch.
  pose proof (touchAffected_ab _ _ _ _ _ _ _ _ HaS HaA Hold Hnew Hsame _ Htouch) as Ht.
  pose proof (unchanged_ab _ _ _ _ _ _ _ _ HaS HaA Hold Hnew Hsame f1) as Hu.
  unfold memoizeSelector. rewrite Hc. cbn [ce_state ce_affected ce_result].
  rewrite Hu. cbn [mbind option_bind]. by rewrite Ht.
Qed.

Lemma memoizeSelector_kept_outside_path_witness :
  memoizeSelector 4 label 4%positive label_memo_rethemed
  = Some (Returned (VStr "ann"), label_memo_rethemed).
Proof.
  apply (memoizeSelector_kept_outside_path 1 label label_memo_rethemed
           1%positive 4%positive 2%positive 2%positive
           {[ 1%positive := Used [] false [] ["user"];
              2%positive := Used [] false [] ["name"] ]} (VStr "ann") "user" "name").
  - vm_compute. reflexivity.
  - vm_compute. reflexivity.
  - vm_compute. reflexivity.
  - vm_compute. reflexivity.
  - vm_compute. reflexivity.
  - vm_compute. reflexivity.
  - vm_compute. reflexivity.
Defined.

(** ** The descriptor trap *)

Lemma desc_value_with_value d v : has_value d = true → desc_value (with_value d v) = v.
Proof. by destruct d as [[v0 w|g s] e c]. Qed.

(** X19.  On a draft, [Reflect.getOwnPropertyDescriptor] agrees with the
    other traps.  It returns a descriptor exactly for the keys that
    [ownKeys] lists.  The value of that descriptor is what [get] returns
    when an operation is pending on the key or the value is not a
    container; for a container held by the target it is the underlying
    object, for which [get] hands out a draft. *)
Theorem draft_descriptor_matches_keys_and_reads (t : loc) (k : key)
    (st st' : store) (od : option desc) :
  (∀ m, mutationCache st !! t = Some m → NoDup (akeys (m_ops m))) →
  handler_getOwnPropertyDescriptor t k st = Ok od st' →
  st' = st
  ∧ (is_Some od ↔ k ∈ handler_ownKeys t st)
  ∧ (∀ d, od = Some d → has_value d = true →
       pending (mutationCache st) t k ≠ None
       ∨ canProxy (s_heap st) (desc_value d) = false →
       handler_get t k st = Ok (desc_value d) st)
  ∧ (∀ d c, od = Some d → pending (mutationCache st) t k = None →
       desc_value d = VRef c → canProxy (s_heap st) (VRef c) = true →
       ∃ st2, handler_get t k st = Ok (VDraft c) st2).
Proof.
  intros Hnd Hrun. rewrite (elem_of_handler_ownKeys t k st Hnd).
  revert Hrun. unfold handler_getOwnPropertyDescriptor, handler_has, handler_get, pending.
  destruct (mutationCache st !! t ≫= _) as [[v|]|] eqn:Hp.
  - destruct (getOwnPropertyDescriptor (s_heap st) t k) as [d0|] eqn:Hd0.
    + destruct (has_value d0) eqn:Hv; [|done]. intros [= <- <-].
      split; [done|]. split; [split; eauto|]. split; [|done].
      intros d [= <-] _ _. simpl. by rewrite desc_value_with_value.
    + intros [= <- <-]. split; [done|]. split; [split; eauto|]. split; [|done].
      by intros d [= <-] _ _.
  - intros [= <- <-]. split; [done|]. split; [|done].
    split; [by intros [? ?]|done].
  - intros [= <- <-]. split; [done|]. split.
    { unfold reflect_has. by rewrite bool_decide_eq_true. }
    split.
    + intros d Hd Hv [?|Hcp]; [done|]. rewrite Hd, Hv. simpl.
      rewrite (reflect_get_desc _ _ _ _ Hd Hv), Hcp. done.
    + intros d c Hd _ Hc Hcp.
      assert (has_value d = true) as Hv.
      { destruct d as [[v0 w|g s] e cf]; [done|]. by simpl in Hc. }
      rewrite Hd, Hv. simpl. rewrite (reflect_get_desc _ _ _ _ Hd Hv), Hc, Hcp. simpl.
      eauto.
Qed.

Lemma draft_descriptor_matches_keys_and_reads_witness :
  profile_named = profile_named
  ∧ (is_Some (Some (Desc (Data (VStr "bob") false) true true))
     ↔ "name" ∈ handler_ownKeys 2%positive profile_named)
  ∧ (∀ d, Some (Desc (Data (VStr "bob") false) true true) = Some d →
       has_value d = true →
       pending (mutationCache profile_named) 2%positive "name" ≠ None
       ∨ canProxy (s_heap profile_named) (desc_value d) = false →
       handler_get 2%positive "name" profile_named = Ok (desc_value d) profile_named)
  ∧ (∀ d c, Some (Desc (Data (VStr "bob") false) true true) = Some d →
       pending (mutationCache profile_named) 2%positive "name" = None →
       desc_value d = VRef c → canProxy (s_heap profile_named) (VRef c) = true →
       ∃ st2, handler_get 2%positive "name" profile_named = Ok (VDraft c) st2).
Proof.
  apply (draft_descriptor_matches_keys_and_reads 2%positive "name"
           profile_named profile_named).
  - intros m Hm. vm_compute in Hm. injection Hm as <-.
    apply (bool_decide_unpack _). vm_compute. exact I.
  - vm_compute. reflexivity.
Defined.

(** ** Getter names *)

Lemma prefix_app (p s : string) : String.prefix p (p +:+ s) = true.
Proof.
  induction p as [|a p IH]; simpl; [by destruct s|].
  destruct (Ascii.ascii_dec a a); [exact IH|done].
Qed.

Lemma substring_all (s : string) : String.substring 0 (String.length s) s = s.
Proof. induction s as [|a s IH]; simpl; [done|]. by rewrite IH. Qed.

Lemma string_slice_app (p s : string) : string_slice (String.length p) (p +:+ s) = s.
Proof.
  unfold string_slice. induction p as [|a p IH]; simpl.
  - rewrite Nat.sub_0_r. apply substring_all.
  - exact IH.
Qed.

Lemma prefix_split (p k : string) :
  String.prefix p k = true → k = p +:+ string_slice (String.length p) k.
Proof.
  unfold string_slice. revert k. induction p as [|a p IH]; intros k Hk; simpl.
  - rewrite Nat.sub_0_r. by rewrite substring_all.
  - destruct k as [|b k]; [done|]. simpl in *.
    destruct (Ascii.ascii_dec a b) as [->|]; [|done].
    exact (f_equal (String b) (IH k Hk)).
Qed.

(** X20.  Getter names round-trip through [create]: a function declared
    under [get(name)] becomes the computed value [name], and nothing else
    does - a property is taken as a computed value only when its key is
    [get(name)] for the name it gets and it holds a function. *)
Theorem getter_name_round_trip (name : string) (f : nat) (w e c : bool) :
  slot_of (getterName name) (Desc (Data (VFun f) w) e c) = SComputed name
  ∧ ∀ k d n, slot_of k d = SComputed n →
      k = getterName n ∧ ∃ g, desc_value d = VFun g.
Proof.
  split.
  - unfold slot_of, getterName. simpl desc_value. cbv iota.
    by rewrite prefix_app, string_slice_app.
  - intros k d n. unfold slot_of, getterName.
    destruct (desc_value d) as [| | | | |g| | | |]; try done.
    destruct (String.prefix getterNamePrefix k) eqn:Hp; [|done].
    intros [= <-]. split; [by apply prefix_split|eauto].
Qed.

(** X25.  The subscriber of [$subscribe(selector, subscriber)] is not
    called for a change outside what the selector read.  Let the memo of
    the selector hold the result for the previous snapshot with an access
    map that records the read of [a] on it and the read of [b] on its [a].
    When the new snapshot has the same value at [a.b], the listener
    returns without calling the subscriber and without running the
    selector, and the memo stays as it is. *)
Theorem selector_subscriber_silent_outside_path (f1 : nat) (selector : evaluator)
    (m : memo) (prevState state A1 A2 : loc) (aff : affected) (r : value) (a b : key) :
  memo_cache m = Some (CEntry prevState aff r) →
  aff !! prevState = Some (Used [] false [] [a]) →
  aff !! A1 = Some (Used [] false [] [b]) →
  reflect_get (memo_heap m) prevState a = VRef A1 →
  reflect_get (memo_heap m) state a = VRef A2 →
  reflect_get (memo_heap m) A2 b = reflect_get (memo_heap m) A1 b →
  touchAffected (S f1) (memo_heap m) (reflect_get (memo_heap m) A1 b)
    (reflect_get (memo_heap m) A1 b) aff = Some () →
  selector_listener (S (S (S f1))) selector state prevState m = Some (Silent, m).
Proof.
  intros Hc HaS HaA Hold Hnew Hsame Htouch.
  pose proof (touchAffected_ab _ _ _ _ _ _ _ _ HaS HaA Hold Hnew Hsame _ Htouch) as Ht.
  pose proof (unchanged_ab _ _ _ _ _ _ _ _ HaS HaA Hold Hnew Hsame f1) as Hu.
  pose proof (touchAffected_ab _ _ _ _ _ _ _ _ HaS HaA Hold Hold eq_refl _ Htouch) as Ht0.
  assert (∀ S2, unchanged (S (S (S f1))) (memo_heap m) prevState S2 aff = Some true →
    touchAffected (S (S (S f1))) (memo_heap m) (VRef S2) (VRef prevState) aff = Some () →
    memoizeSelector (S (S (S f1))) selector S2 m = Some (Returned r, m)) as Hhit.
  { intros S2 Hu2 Ht2. unfold memoizeSelector. rewrite Hc.
    cbn [ce_state ce_affected ce_result]. rewrite Hu2. cbn [mbind option_bind].
    by rewrite Ht2. }
  unfold selector_listener.
  rewrite (Hhit state Hu Ht). cbn [mbind option_bind].
  rewrite (Hhit prevState (unchanged_same _ _ _ _) Ht0). cbn [mbind option_bind].
  by rewrite object_is_refl.
Qed.

Lemma selector_subscriber_silent_outside_path_witness :
  selector_listener 4 label 4%positive 1%positive label_memo_rethemed
  = Some (Silent, label_memo_rethemed).
Proof.
  apply (selector_subscriber_silent_outside_path 1 label label_memo_rethemed
           1%positive 4%positive 2%positive 2%positive
           {[ 1%positive := Used [] false [] ["user"];
              2%positive := Used [] false [] ["name"] ]} (VStr "ann") "user" "name").
  - vm_compute. reflexivity.
  - vm_compute. reflexivity.
  - vm_compute. reflexivity.
  - vm_compute. reflexivity.
  - vm_compute. reflexivity.
  - vm_compute. reflexivity.
  - vm_compute. reflexivity.
Defined.
(** ** [readonly] is idempotent *)

Lemma frozen_by_gopd_None h h' l k :
  frozen_by h h' → dom h' = dom h →
  getOwnPropertyDescriptor h l k = None → getOwnPropertyDescriptor h' l k = None.
Proof.
  intros Hf Hdom Hk.
  destruct (getOwnPropertyDescriptor h' l k) as [d'|] eqn:Hd'; [|done].
  destruct (frozen_by_gopd_inv _ _ _ _ _ Hf Hdom Hd') as (d & Hd & _). congruence.
Qed.

Section readonly_again.
Context (rec : heap → value → gset loc → option (heap * gset loc)).
Context (l : loc) (hF : heap).
Hypothesis rec_post : ∀ h v vis h' vis',
  rec h v vis = Some (h', vis') → ro_post h v vis h' vis'.
Hypothesis rec_again : ∀ h v vis h' vis',
  rec h v vis = Some (h', vis') → frozen_by h' hF → dom hF = dom h' →
  rec hF v vis = Some (hF, vis').
Hypothesis frozen_l : frozen_obj hF l.

Lemma readonly_loop_again ks : ∀ h vis h' vis',
  readonly_loop rec true l ks h vis = Some (h', vis') →
  frozen_by h' hF → dom hF = dom h' →
  readonly_loop rec true l ks hF vis = Some (hF, vis').
Proof.
  induction ks as [|k ks IH]; intros h vis h' vis' Hrun HfF HdF.
  { simpl in *. by simplify_eq. }
  destruct (readonly_loop_spec rec l rec_post _ _ _ _ _ Hrun) as (Hf & Hdom & _).
  assert (frozen_by h hF) as HhF by (eapply frozen_by_trans; eauto).
  assert (dom hF = dom h) as HdhF by congruence.
  simpl in Hrun. simpl.
  destruct (getOwnPropertyDescriptor h l k) as [d|] eqn:Hd.
  2:{ rewrite (frozen_by_gopd_None _ _ _ _ HhF HdhF Hd). by eapply IH. }
  destruct (frozen_by_gopd _ _ _ _ _ HhF Hd) as (dF & HdF' & HsF).
  rewrite HdF'. pose proof (same_but_writable_facts _ _ HsF) as (_ & HcF & HvF).
  rewrite HcF, HvF, (frozen_by_canProxy h hF) by done.
  destruct (d_configurable d) eqn:Hc; simpl in *; [|by eapply IH].
  assert (desc_writable dF = false) as HwF by (apply (frozen_l k); congruence).
  rewrite HwF. simpl.
  assert (∀ h1 vis1 hR,
    (if desc_writable d
     then defineProperty h1 l k (clear_writable d) = Some hR
     else hR = h1) →
    frozen_by h h1 → dom h1 = dom h →
    readonly_loop rec true l ks hR vis1 = Some (h', vis') →
    frozen_by h1 hF ∧ dom hF = dom h1
    ∧ readonly_loop rec true l ks hF vis1 = Some (hF, vis')) as Hrest.
  { intros h1 vis1 hR HR Hf1 Hdom1 Hloop.
    destruct (readonly_loop_spec rec l rec_post _ _ _ _ _ Hloop) as (HfR & HdomR & _).
    assert (frozen_by h1 hR ∧ dom hR = dom h1) as [Hf1R Hd1R].
    { destruct (desc_writable d) eqn:Hw; [|subst; split; [apply frozen_by_refl|done]].
      destruct (frozen_by_gopd _ _ _ _ _ Hf1 Hd) as (d1 & Hd1 & Hs1).
      assert (same_but_writable d1 (clear_writable d)) as Hs2.
      { destruct Hs1 as (He & Hcc & Hs). unfold same_but_writable, clear_writable.
        unfold desc_writable in Hw.
        destruct d as [[v w|g s] e c], d1 as [[v1 w1|g1 s1] e1 c1];
          simpl in *; try done. destruct Hs as (-> & _ & _). subst.
        split; [done|]. split; [done|]. split; [done|]. split; [done|].
        intros; congruence. }
      destruct (defineProperty_clear h1 l k d1 (clear_writable d)) as
        (h2 & Hdef & Hf2 & Hdom2 & _); [done|destruct Hs1 as (?&?&?); congruence|done|].
      assert (h2 = hR) as -> by congruence. done. }
    split; [eapply frozen_by_trans; [exact Hf1R|]; eapply frozen_by_trans; eauto|].
    split; [congruence|]. by eapply IH. }
  destruct (truthy (desc_value d) && canProxy h (desc_value d)) eqn:Hcond.
  - destruct (rec h (desc_value d) vis) as [[h1 vis1]|] eqn:Hr; [|done].
    destruct (rec_post _ _ _ _ _ Hr) as (Hf1 & Hdom1 & _).
    destruct (Hrest h1 vis1 (if desc_writable d
                             then default h1 (defineProperty h1 l k (clear_writable d))
                             else h1)) as (Hf1F & Hd1F & Hloop); [|done|done| |].
    + destruct (desc_writable d); [|done].
      by destruct (defineProperty h1 l k (clear_writable d)).
    + destruct (desc_writable d); simpl in Hrun; [|done].
      by destruct (defineProperty h1 l k (clear_writable d)).
    + by rewrite (rec_again _ _ _ _ _ Hr Hf1F Hd1F).
  - destruct (Hrest h vis (if desc_writable d
                           then default h (defineProperty h l k (clear_writable d))
                           else h)) as (_ & _ & Hloop);
      [|apply frozen_by_refl|done| |done].
    + destruct (desc_writable d); [|done].
      by destruct (defineProperty h l k (clear_writable d)).
    + destruct (desc_writable d); simpl in Hrun; [|done].
      by destruct (defineProperty h l k (clear_writable d)).
Qed.
End readonly_again.

Lemma readonly_again fuel : ∀ h target vis h' vis' hF,
  readonly fuel h target true vis = Some (h', vis') →
  frozen_by h' hF → dom hF = dom h' →
  readonly fuel hF target true vis = Some (hF, vis').
Proof.
  induction fuel as [|fuel IH]; intros h target vis h' vis' hF Hrun HfF HdF; [done|].
  destruct (readonly_post _ _ _ _ _ _ Hrun) as (Hf & Hdom & _ & _ & Hnew).
  assert (frozen_by h hF) as HhF by (eapply frozen_by_trans; eauto).
  assert (dom hF = dom h) as HdhF by congruence.
  simpl in Hrun. simpl. rewrite (frozen_by_canProxy h hF) by done.
  destruct (canProxy h target) eqn:Hp; simpl in *; [|by simplify_eq].
  destruct target as [| | | | | |l| | |]; try done.
  destruct (decide (l ∈ vis)) as [Hin|Hnin]; [by simplify_eq|].
  rewrite (frozen_by_ownKeys h hF) by done.
  eapply (readonly_loop_again _ l hF); [| | |exact Hrun|done|done].
  - intros. by eapply readonly_post.
  - intros. by eapply IH.
  - apply (frozen_by_frozen_obj h' hF); [done|done|].
    apply Hnew; [|done].
    destruct (readonly_loop_spec _ l (λ h0 v vis0 h1 vis1, readonly_post fuel h0 v vis0 h1 vis1)
                _ _ _ _ _ Hrun) as (_ & _ & Hv & _).
    set_solver.
Qed.

(** X21.  [readonly(target, true)] is idempotent: run again on the heap it
    has produced, it returns with the same objects visited and changes
    nothing. *)
Theorem readonly_twice_changes_nothing (fuel : nat) (h h' : heap) (target : value)
    (vis vis' : gset loc) :
  readonly fuel h target true vis = Some (h', vis') →
  readonly fuel h' target true vis = Some (h', vis').
Proof.
  intros Hrun. eapply readonly_again; [exact Hrun|apply frozen_by_refl|done].
Qed.

Lemma readonly_twice_changes_nothing_witness :
  readonly 8 profile_frozen.1 (VRef 1%positive) true ∅
  = Some (profile_frozen.1, profile_frozen.2).
Proof.
  apply (readonly_twice_changes_nothing 8 profile_heap profile_frozen.1
           (VRef 1%positive) ∅ profile_frozen.2).
  vm_compute. reflexivity.
Defined.
(** ** Isolation of a running action *)

(** X22.  Nothing is published while the body of an action runs, for a
    body that reads, writes and deletes properties through the store and
    its drafts, tests and lists keys, creates objects and calls actions (a
    [prog]; a body that calls a helper such as [$set], [$patch] or
    [$subscribe] is not one, and publishes or registers at that call):
    whether the body returns or throws, the state, the snapshot that
    [$get()] returns, the listeners and the notifications made so far are
    the same afterwards, and the store is still inside the action. *)
Theorem action_body_publishes_nothing (fuel : nat) (p : prog) (st st' : store)
    (r : value) :
  inAction st = true →
  exec fuel p st = Ok r st' ∨ exec fuel p st = Exn r st' →
  _state st' = _state st ∧ get st' = get st
  ∧ listeners st' = listeners st ∧ notified st' = notified st
  ∧ inAction st' = true.
Proof.
  intros Hin Hrun. destruct (exec_published fuel p st Hin) as [Hok Hexn].
  assert (published st' = published st) as Hp.
  { destruct Hrun as [H|H]; [by eapply Hok|by eapply Hexn]. }
  unfold published, get in *. simplify_eq. repeat split; congruence.
Qed.

Lemma action_body_publishes_nothing_witness :
  _state profile_renamed = _state profile_acting
  ∧ get profile_renamed = get profile_acting
  ∧ listeners profile_renamed = listeners profile_acting
  ∧ notified profile_renamed = notified profile_acting
  ∧ inAction profile_renamed = true.
Proof.
  apply (action_body_publishes_nothing 8 rename profile_acting profile_renamed VUndef).
  - vm_compute. reflexivity.
  - left. vm_compute. reflexivity.
Defined.

Lemma handler_get_mutationCache t k st v st' :
  handler_get t k st = Ok v st' → mutationCache st' = mutationCache st.
Proof. unfold handler_get. intros H. repeat case_match; simplify_eq; done. Qed.

Lemma exec_reads_only fuel p :
  reads_only p → ∀ st r st',
  inAction st = true →
  exec fuel p st = Ok r st' →
  mutationCache st' = mutationCache st ∧ published st' = published st.
Proof.
  induction 1 as [v|e|t k cont _ IH|t k cont _ IH|t cont _ IH|kind props cont _ IH
                  |body cont _ IHb _ IH]; intros st r st' Hin Hrun; simpl in Hrun.
  - by simplify_eq.
  - done.
  - assert (∀ l, rbind (handler_get l k st) (λ v st1, exec fuel (cont v) st1) = Ok r st' →
      mutationCache st' = mutationCache st ∧ published st' = published st) as Hstep.
    { intros l Hr. destruct (handler_get l k st) as [v st1| |] eqn:Hg; simpl in Hr; [|done..].
      pose proof (handler_get_published _ _ _ _ _ Hg) as Hp.
      pose proof (handler_get_mutationCache _ _ _ _ _ Hg) as Hm.
      destruct (IH v st1 r st') as [Hm' Hp']; [|done|].
      { rewrite (published_inAction _ _ Hp). done. }
      split; congruence. }
    destruct t as [| |b|n|s|f|l|l|l|]; simpl in Hrun;
      try done; try (eapply IH; [exact Hin|exact Hrun]).
    + by apply (Hstep l).
    + destruct (in_store st k); [eapply IH; [exact Hin|exact Hrun]|].
      case_bool_decide; [done|]. by apply (Hstep (_state st)).
  - destruct t as [| |b|n|s|f|l|l|l|]; simpl in Hrun;
      try done; try (eapply IH; [exact Hin|exact Hrun]).
    destruct (in_store st k || _); [eapply IH; [exact Hin|exact Hrun]|].
    destruct (mutationCache st !! _state st); (eapply IH; [exact Hin|exact Hrun]).
  - destruct t as [| |b|n|s|f|l|l|l|]; simpl in Hrun;
      try done; try (eapply IH; [exact Hin|exact Hrun]).
  - destruct (foldl _ _ _) as [h2|]; [|done].
    assert (inAction (with_heap h2 st) = true) as Hin2 by done.
    destruct (IH _ _ _ _ Hin2 Hrun) as [Hm Hp]. by split.
  - unfold act_with in Hrun. rewrite Hin in Hrun.
    destruct (exec fuel body st) as [v st1| |] eqn:Hb; simpl in Hrun; [|done..].
    destruct (IHb st v st1 Hin Hb) as [Hm Hp].
    destruct (IH v st1 r st') as [Hm' Hp']; [|done|].
    { rewrite (published_inAction _ _ Hp). done. }
    split; congruence.
Qed.

(** X23.  An action that only reads notifies nobody: a body that reads
    properties, tests and lists keys, creates objects and calls actions of
    the same kind, without an assignment, a [delete] or a call of a helper
    such as [$set] or [$patch] ([reads_only]), dispatched outside a
    running action on a store without a pending mutation of the state,
    leaves the state, the snapshot, the notifications and the pending
    mutations as they were when it returns. *)
Theorem reading_action_notifies_nobody (fuel : nat) (p : prog) (st st' : store)
    (r : value) :
  reads_only p →
  inAction st = false →
  mutationCache st !! _state st = None →
  act fuel p st = Ok r st' →
  _state st' = _state st ∧ get st' = get st ∧ notified st' = notified st
  ∧ mutationCache st' = mutationCache st ∧ inAction st' = false.
Proof.
  intros Hp Hin Hm. unfold act, act_with. rewrite Hin.
  destruct (exec fuel p (with_inAction true st)) as [v st1| |] eqn:Hb; simpl; [|done..].
  assert (inAction (with_inAction true st) = true) as Hin1 by done.
  destruct (exec_reads_only fuel p Hp _ _ _ Hin1 Hb) as [Hm1 Hp1].
  unfold published in Hp1. simpl in *.
  assert (_state st1 = _state st) as Hs by congruence.
  unfold flushMutations. rewrite Hm1, Hs, Hm. simpl. intros [= <- <-]. simpl.
  unfold get. repeat split; congruence.
Qed.

Lemma reading_action_notifies_nobody_witness :
  _state counter_read = _state counter_watched
  ∧ get counter_read = get counter_watched
  ∧ notified counter_read = notified counter_watched
  ∧ mutationCache counter_read = mutationCache counter_watched
  ∧ inAction counter_read = false.
Proof.
  apply (reading_action_notifies_nobody 8 total counter_watched counter_read
           (VNum (Num 0))).
  - apply reads_get. intros v. apply reads_ret.
  - vm_compute. reflexivity.
  - vm_compute. reflexivity.
  - vm_compute. reflexivity.
Defined.
(** ** [create]: the initial state *)

Lemma create_fold (h1 : heap) (slice I : loc) (ks : list key) : ∀ ps,
  I ≠ slice → NoDup ks →
  (∀ k, k ∈ ks → alookup k ps = None) →
  (∀ k, k ∈ ks → is_Some (getOwnPropertyDescriptor h1 slice k)) →
  h1 !! I = None →
  ∃ ps',
    foldl (λ acc k, h' ← acc;
             d ← getOwnPropertyDescriptor h' slice k;
             match desc_value d with
             | VFun _ => Some h'
             | _ => defineProperty h' I k d
             end)
      (Some (<[I := Obj Plain ps]> h1)) ks
    = Some (<[I := Obj Plain ps']> h1)
    ∧ ∀ k, alookup k ps'
           = if decide (k ∈ ks)
             then d ← getOwnPropertyDescriptor h1 slice k;
                  match desc_value d with VFun _ => None | _ => Some d end
             else alookup k ps.
Proof.
  induction ks as [|k ks IH]; intros ps Hne Hnd Hfresh Hsome HI.
  { exists ps. split; [done|]. intros k. by rewrite decide_False by apply not_elem_of_nil. }
  apply NoDup_cons in Hnd as [Hk Hnd].
  destruct (Hsome k (list_elem_of_here _ _)) as [d Hd].
  assert (getOwnPropertyDescriptor (<[I := Obj Plain ps]> h1) slice k = Some d) as Hd'.
  { unfold getOwnPropertyDescriptor in *. by rewrite lookup_insert_ne. }
  assert (∃ ps1,
    (match desc_value d with
     | VFun _ => Some (<[I := Obj Plain ps]> h1)
     | _ => defineProperty (<[I := Obj Plain ps]> h1) I k d
     end) = Some (<[I := Obj Plain ps1]> h1)
    ∧ ∀ k', alookup k' ps1
            = if decide (k' = k)
              then match desc_value d with VFun _ => None | _ => Some d end
              else alookup k' ps) as (ps1 & Hstep & Hps1).
  { assert (defineProperty (<[I := Obj Plain ps]> h1) I k d
            = Some (<[I := Obj Plain (aset k d ps)]> h1)) as Hdef.
    { unfold defineProperty. rewrite lookup_insert_eq. simpl.
      rewrite (Hfresh k (list_elem_of_here _ _)). by rewrite insert_insert_eq. }
    assert (∀ k', alookup k' ps = if decide (k' = k) then None else alookup k' ps) as Hsame.
    { intros k'. case_decide; [subst; by apply Hfresh, list_elem_of_here|done]. }
    destruct (desc_value d);
      try (exists (aset k d ps); split; [exact Hdef|]; intros k'; by apply alookup_aset).
    exists ps. split; [done|]. exact Hsame. }
  destruct (IH ps1) as (ps' & Hfold & Hps'); [done|done| | |done|].
  { intros k' Hk'. rewrite Hps1. rewrite decide_False by (intros ->; done).
    apply Hfresh. by apply elem_of_cons; right. }
  { intros k' Hk'. apply Hsome. by apply elem_of_cons; right. }
  exists ps'. split.
  - simpl. rewrite Hd'. simpl. rewrite Hstep. exact Hfold.
  - intros k'. rewrite Hps'. destruct (decide (k' ∈ ks)) as [Hin|Hin].
    + by rewrite decide_True by (by apply elem_of_cons; right).
    + rewrite Hps1. destruct (decide (k' = k)) as [->|Hnk].
      * rewrite decide_True by apply list_elem_of_here. by rewrite Hd.
      * rewrite decide_False; [done|]. intros [?|?]%elem_of_cons; done.
Qed.

(** X24.  [create] on a slice that is a plain object or an array makes the
    state a new object that holds the properties of the slice that are not
    functions, and no others, each with the value and the attributes it has
    in the slice except that no configurable property is writable.  The
    store starts outside an action, without listeners, and [$get()] is
    [$getInitialState()]. *)
Theorem create_state_is_frozen_copy (fuel : nat) (h : heap) (slice : loc)
    (getters : list (key * evaluator)) (actions : list key) (st : store) :
  canProxy h (VRef slice) = true →
  NoDup (ownKeys h slice) →
  create fuel h slice getters actions = Some st →
  h !! _state st = None
  ∧ (∀ k d', getOwnPropertyDescriptor (s_heap st) (_state st) k = Some d' →
       (∀ f, desc_value d' ≠ VFun f)
       ∧ (d_configurable d' = true → desc_writable d' = false)
       ∧ ∃ d, getOwnPropertyDescriptor h slice k = Some d ∧ same_but_writable d d')
  ∧ (∀ k d, getOwnPropertyDescriptor h slice k = Some d →
       (∀ f, desc_value d ≠ VFun f) →
       is_Some (getOwnPropertyDescriptor (s_heap st) (_state st) k))
  ∧ get st = getInitialState st ∧ listeners st = [] ∧ inAction st = false.
Proof.
  intros Hcp Hnd. unfold create.
  destruct (readonly fuel h (VRef slice) true ∅) as [[h1 vis]|] eqn:Hro; simpl; [|done].
  destruct (readonly_post _ _ _ _ _ _ Hro) as (Hf & Hdom & _ & Hroot & Hdone).
  destruct (Hroot Hcp) as (l & [= <-] & Hin).
  destruct (Hdone slice Hin ltac:(set_solver)) as [Hfrozen _].
  set (I := fresh (dom h1)).
  pose proof (fresh_heap h1) as HI. fold I in HI.
  assert (is_Some (h !! slice)) as Hslice.
  { unfold canProxy in Hcp. simpl in Hcp. destruct (h !! slice); [eauto|done]. }
  assert (I ≠ slice) as Hne.
  { intros Heq. apply (not_elem_of_dom_2 h1) in HI. rewrite Hdom, Heq in HI.
    apply HI. by apply elem_of_dom. }
  destruct (create_fold h1 slice I (ownKeys h1 slice) []) as (ps & Hfold & Hps);
    [done|by rewrite (frozen_by_ownKeys h h1)|done| |done|].
  { intros k Hk. destruct (getOwnPropertyDescriptor h1 slice k) eqn:Hd; [eauto|].
    exfalso. unfold ownKeys, getOwnPropertyDescriptor in *.
    destruct (h1 !! slice) as [o|]; simpl in *; [|by apply elem_of_nil in Hk].
    apply alookup_None_akeys in Hd. done. }
  rewrite Hfold. simpl. unfold snapshotComputedState. simpl.
  intros [= <-]. simpl.
  split. { apply not_elem_of_dom. rewrite <- Hdom. by apply not_elem_of_dom. }
  assert (∀ k, getOwnPropertyDescriptor
                 (<[fresh (dom (<[I := Obj Plain ps]> h1)) :=
                      spread (<[I := Obj Plain ps]> h1) I (akeys getters)]>
                    (<[I := Obj Plain ps]> h1)) I k
               = alookup k ps) as Hst.
  { intros k. unfold getOwnPropertyDescriptor. rewrite lookup_insert_ne.
    - by rewrite lookup_insert_eq.
    - intros Heq. pose proof (fresh_heap (<[I := Obj Plain ps]> h1)) as Hfr.
      rewrite Heq, lookup_insert_eq in Hfr. done. }
  split; [|split; [|done]].
  - intros k d'. rewrite Hst, Hps. case_decide as Hk; [|done].
    destruct (getOwnPropertyDescriptor h1 slice k) as [d1|] eqn:Hd1; simpl; [|done].
    intros Hd'. assert (d1 = d' ∧ ∀ f, desc_value d1 ≠ VFun f) as [-> Hnf].
    { destruct (desc_value d1); by simplify_eq. }
    split; [done|]. split; [by apply (Hfrozen k)|].
    by apply (frozen_by_gopd_inv h h1).
  - intros k d Hd Hnf. rewrite Hst, Hps.
    destruct (frozen_by_gopd _ _ _ _ _ Hf Hd) as (d1 & Hd1 & Hs).
    pose proof (same_but_writable_facts _ _ Hs) as (_ & _ & Hv).
    rewrite decide_True.
    + rewrite Hd1. simpl. rewrite Hv. destruct (desc_value d); eauto. by destruct (Hnf f).
    + destruct (decide (k ∈ ownKeys h1 slice)) as [|Hk]; [done|].
      apply ownKeys_gopd in Hk. congruence.
Qed.

Lemma create_state_is_frozen_copy_witness :
  profile_heap !! _state profile_store = None
  ∧ (∀ k d', getOwnPropertyDescriptor (s_heap profile_store) (_state profile_store) k
             = Some d' →
       (∀ f, desc_value d' ≠ VFun f)
       ∧ (d_configurable d' = true → desc_writable d' = false)
       ∧ ∃ d, getOwnPropertyDescriptor profile_heap 1%positive k = Some d
              ∧ same_but_writable d d')
  ∧ (∀ k d, getOwnPropertyDescriptor profile_heap 1%positive k = Some d →
       (∀ f, desc_value d ≠ VFun f) →
       is_Some (getOwnPropertyDescriptor (s_heap profile_store) (_state profile_store) k))
  ∧ get profile_store = getInitialState profile_store
  ∧ listeners profile_store = [] ∧ inAction profile_store = false.
Proof.
  apply (create_state_is_frozen_copy 8 profile_heap 1%positive [] ["rename"]
           profile_store).
  - vm_compute. reflexivity.
  - apply (bool_decide_unpack _). vm_compute. exact I.
  - vm_compute. reflexivity.
Defined.
(** ** A draft kept across a publication *)

(** X26.  A write through a draft that the parent back-references do not
    connect to the current state (a draft read before a publication and
    used after it) is accepted but not published: outside an action, the
    [set] trap returns [true] for a new key, no listener is called, the
    state and its snapshot stay, and the operation is left pending. *)
Theorem detached_draft_write_is_not_published (fuel : nat) (t : loc) (k : key)
    (v : value) (st st' : store) (b : bool) :
  inAction st = false →
  mutationCache st !! _state st = None →
  childrenCache st !! t = None →
  ¬ rtc (plink (parentsCache st)) (_state st) t →
  getOwnPropertyDescriptor (s_heap st) t k = None →
  handler_set fuel t k v st = Ok b st' →
  b = true
  ∧ pending (mutationCache st') t k = Some (MSet v)
  ∧ notified st' = notified st
  ∧ _state st' = _state st ∧ get st' = get st
  ∧ s_heap st' = s_heap st ∧ inAction st' = false.
Proof.
  intros Hin Hms Hcc Hnr Hd. unfold handler_set. rewrite Hd.
  assert (∀ op, op = MSet v →
    record_op fuel t k op st = Ok b st' →
    b = true ∧ pending (mutationCache st') t k = Some (MSet v)
    ∧ notified st' = notified st ∧ _state st' = _state st ∧ get st' = get st
    ∧ s_heap st' = s_heap st ∧ inAction st' = false) as Hrec.
  { intros op -> Hrun. revert Hrun. unfold record_op, unlinkCache. rewrite Hcc.
    destruct (markDirty _ _ _ _) as [mc2|] eqn:Hmark; [|done].
    destruct (markDirty_spec _ _ _ _ _ Hmark) as [Hrel _].
    simpl. rewrite Hin. unfold flushMutations. simpl.
    assert (mc2 !! _state st = None) as ->.
    { specialize (Hrel (_state st)).
      assert (t ≠ _state st) as Hne by (intros ->; apply Hnr, rtc_refl).
      rewrite lookup_insert_ne, Hms in Hrel by done.
      destruct (mc2 !! _state st); [|done]. by destruct Hrel as (_ & _ & ?). }
    simpl. intros [= <- <-]. simpl. split; [done|]. split; [|done].
    rewrite (mark_rel_pending _ _ _ _ t k Hrel). unfold pending.
    rewrite lookup_insert_eq. simpl. by rewrite alookup_aset, decide_True. }
  destruct (mutationCache st !! t) as [m|] eqn:Hm; simpl; [|by apply Hrec].
  destruct (alookup k (m_ops m)) as [[prev|]|] eqn:Hk; try (by apply Hrec).
  unfold object_is. case_bool_decide as Heq; [|by apply Hrec].
  intros [= <- <-]. unfold pending. rewrite Hm. simpl. rewrite Hk. by subst.
Qed.

Lemma detached_draft_write_is_not_published_witness :
  true = true
  ∧ pending (mutationCache profile_late) 2%positive "nick" = Some (MSet (VStr "bo"))
  ∧ notified profile_late = notified profile_moved
  ∧ _state profile_late = _state profile_moved
  ∧ get profile_late = get profile_moved
  ∧ s_heap profile_late = s_heap profile_moved
  ∧ inAction profile_late = false.
Proof.
  apply (detached_draft_write_is_not_published 12 2%positive "nick" (VStr "bo")
           profile_moved profile_late true).
  - vm_compute. reflexivity.
  - vm_compute. reflexivity.
  - vm_compute. reflexivity.
  - intros Hr. apply rtc_inv_r in Hr as [Heq|(p & Hr & ps & Hps & Hp)].
    { vm_compute in Heq. discriminate Heq. }
    vm_compute in Hps. injection Hps as <-.
    apply list_elem_of_singleton in Hp as ->.
    apply rtc_inv_r in Hr as [Heq|(p & _ & ps & Hps & _)].
    { vm_compute in Heq. discriminate Heq. }
    vm_compute in Hps. discriminate Hps.
  - vm_compute. reflexivity.
  - vm_compute. reflexivity.
Defined.
(** ** Re-entrant actions *)

(** [getFlushed] touches the heap, [mutationCache] and [flushCache] only. *)
Lemma getFlushed_fields fuel : ∀ x st v st',
  getFlushed fuel x st = Some (v, st') →
  st' = with_flushCache (flushCache st')
          (with_mutationCache (mutationCache st') (with_heap (s_heap st') st)).
Proof.
  induction fuel as [|fuel IH]; intros x st v st' Hrun; [done|].
  assert (∀ s : store, s = with_flushCache (flushCache s)
            (with_mutationCache (mutationCache s) (with_heap (s_heap s) s))) as Hid
    by (by intros []).
  simpl in Hrun.
  destruct x as [| | | | | |obj| | |]; try (injection Hrun as <- <-; apply Hid).
  destruct (mutationCache st !! obj) as [[[] ops]|];
    try (simpl in Hrun; injection Hrun as <- <-; apply Hid).
  simpl in Hrun.
  set (N := fresh (dom (s_heap st))) in *.
  set (st2 := with_flushCache _ _) in Hrun.
  destruct (getFlushed_loop _ _ _ _ _ _) as [st3|] eqn:Hloop; simpl in Hrun; [|done].
  injection Hrun as <- <-.
  assert (∀ ks s s', getFlushed_loop fuel (getFlushed fuel) obj N ks s = Some s' →
    s' = with_flushCache (flushCache s')
           (with_mutationCache (mutationCache s') (with_heap (s_heap s') s))) as Hl.
  { clear Hloop. induction ks as [|k ks IHk]; intros s s' Hr.
    { simpl in Hr. injection Hr as <-. apply Hid. }
    rewrite getFlushed_loop_cons in Hr.
    destruct (getFlushed_loop fuel (getFlushed fuel) obj N [k] s) as [s1|] eqn:H1;
      simpl in Hr; [|done].
    apply IHk in Hr. rewrite Hr.
    assert (s1 = with_flushCache (flushCache s1)
              (with_mutationCache (mutationCache s1) (with_heap (s_heap s1) s))) as ->;
      [|done].
    clear Hr. simpl in H1.
    destruct (mutationCache s !! obj ≫= _) as [[v0|]|].
    - destruct (readonly _ _ _ _ _) as [[h1 vis]|]; simpl in H1; [|done].
      destruct (getOwnPropertyDescriptor (s_heap s) obj k) as [d|];
        [destruct (has_value d); [|done]|];
        (destruct (defineProperty _ _ _ _) as [h2|]; simpl in H1; [|done];
         injection H1 as <-; by destruct s).
    - injection H1 as <-. apply Hid.
    - destruct (getOwnPropertyDescriptor (s_heap s) N k); [injection H1 as <-; apply Hid|].
      destruct (getOwnPropertyDescriptor (s_heap s) obj k) as [d|]; simpl in H1; [|done].
      destruct (has_value d && d_configurable d).
      + destruct (getFlushed fuel _ s) as [[v1 s1']|] eqn:Hrec; simpl in H1; [|done].
        destruct (defineProperty _ _ _ _) as [h2|]; simpl in H1; [|done].
        injection H1 as <-. apply IH in Hrec. rewrite Hrec. by destruct s.
      + destruct (defineProperty _ _ _ _) as [h2|]; simpl in H1; [|done].
        injection H1 as <-. by destruct s. }
  apply Hl in Hloop. rewrite Hloop. by destruct st.
Qed.

(** C4.  An action that calls other actions behaves as the action with the
    callees' bodies inlined, and the callees' writes land in the caller's
    batch.  (1) Whatever the store, dispatching the action and dispatching
    its inlined form give the same result and leave the same store: the
    same snapshots, the same listener calls with the same arguments, the
    same pending batch.  (2) In a running action, the call of an action is
    the run of its body in place: nothing is committed when it returns.
    (3) A dispatch that returns has published nothing and made no listener
    call, or (outside a running action) has made one round, in which each
    listener is called once with the snapshot published at the end and the
    snapshot published before the dispatch: no snapshot is published for a
    callee on its own.  (4) A dispatch that throws has published nothing.
    (5) The round is made: when the inlined body, run as one batch on a
    store with nothing pending and no cached computed value, returns with
    a mutation recorded under the state (by the action or by a callee) and
    leaves a store that can be committed, its snapshot table within the
    heap, the dispatch returns with that one round, a new state object and
    the batch cleared. *)
Theorem reentrant_action_is_inlined (fuel : nat) (a : prog) (st : store) :
  act fuel a st = act fuel (inline a) st
  ∧ (∀ b cont, exec fuel (Call b cont) (with_inAction true st)
               = exec fuel (bind b cont) (with_inAction true st))
  ∧ (∀ r st', act fuel a st = Ok r st' →
       (notified st' = notified st ∧ get st' = get st)
       ∨ (inAction st = false
          ∧ notified st'
            = notified st ++ map (λ l, (l, get st', get st)) (listeners st)))
  ∧ (∀ e st', act fuel a st = Exn e st' →
       notified st' = notified st ∧ get st' = get st)
  ∧ (∀ r st1,
       inAction st = false →
       mutationCache st = ∅ →
       computedCache st = [] →
       exec fuel (inline a) (with_inAction true st) = Ok r st1 →
       is_Some (mutationCache st1 !! _state st1) →
       flushable st1 →
       dom (snapshotCache st1) ⊆ dom (s_heap st1) →
       (flush_size st1 + size (dirty_set (mutationCache st1)) < fuel)%nat →
       ∃ st2, act fuel a st = Ok r st2
         ∧ notified st2 = notified st ++ map (λ l, (l, get st2, get st)) (listeners st)
         ∧ s_heap st1 !! _state st2 = None
         ∧ mutationCache st2 = ∅
         ∧ inAction st2 = false).
Proof.
  assert (∀ s r s', inAction s = true →
    exec fuel a s = Ok r s' ∨ exec fuel a s = Exn r s' →
    notified s' = notified s ∧ get s' = get s ∧ _state s' = _state s
    ∧ listeners s' = listeners s) as Hbody.
  { intros s r s' Hin Hrun. destruct (exec_published fuel a s Hin) as [Hok Hexn].
    assert (published s' = published s) as Hp.
    { destruct Hrun as [H|H]; [by eapply Hok|by eapply Hexn]. }
    unfold published, get in *. by simplify_eq. }
  split; [|split; [|split; [|split]]].
  - unfold act, act_with. destruct (inAction st) eqn:Hin; by rewrite exec_inline.
  - intros b cont. rewrite exec_bind. simpl. done.
  - intros r st'. unfold act, act_with. destruct (inAction st) eqn:Hin.
    { intros Hrun. left. destruct (Hbody st r st' Hin) as (? & ? & _); eauto. }
    destruct (exec fuel a (with_inAction true st)) as [v st1| |] eqn:Hb; simpl; [|done..].
    destruct (Hbody (with_inAction true st) v st1 eq_refl (or_introl Hb))
      as (Hn1 & Hg1 & Hs1 & Hl1).
    simpl in *. unfold flushMutations.
    destruct (mutationCache st1 !! _state st1).
    2:{ simpl. intros [= <- <-]. left. by simpl. }
    destruct (getFlushed fuel _ st1) as [[x st1']|] eqn:Hfl; [|done].
    apply getFlushed_fields in Hfl.
    destruct x as [| | | | | |s| | |]; try done.
    destruct (setState fuel (VRef s) st1') as [[] st2| |] eqn:Hset; simpl; [|done..].
    intros [= <- <-]. unfold get in *. simpl.
    apply setState_cases in Hset as [[_ ->]|(_ & _ & _ & _ & _ & Hn & _)].
    + left. rewrite Hfl. simpl. done.
    + right. split; [done|]. rewrite Hn, Hfl. simpl. by rewrite Hn1, Hg1, Hl1.
  - intros e st'. unfold act, act_with. destruct (inAction st) eqn:Hin.
    { intros Hrun. destruct (Hbody st e st' Hin) as (? & ? & _); eauto. }
    destruct (exec fuel a (with_inAction true st)) as [v st1|e1 st1|] eqn:Hb; simpl.
    + destruct (Hbody (with_inAction true st) v st1 eq_refl (or_introl Hb))
        as (Hn1 & Hg1 & Hs1 & Hl1).
      unfold flushMutations. destruct (mutationCache st1 !! _state st1); [|done].
      destruct (getFlushed fuel _ st1) as [[x st1']|] eqn:Hfl; [|done].
      destruct x as [| | | | | |s| | |]; try done.
      intros Hrun. exfalso. revert Hrun. unfold setState.
      destruct (object_is _ _); [done|]. simpl.
      unfold snapshotComputedState. simpl.
      destruct (snapshotCache st1' !! s); [done|].
      by destruct (foldl _ _ _).
    + intros [= <- <-].
      destruct (Hbody (with_inAction true st) e1 st1 eq_refl (or_intror Hb)) as (? & ? & _).
      by simpl in *.
    + done.
  - intros r st1 Hin Hmc Hcc Hrun Hm0 Hfl Hsc Hsize.
    rewrite exec_inline in Hrun by done.
    destruct (act_commits_batch fuel a st st1 r Hin Hmc Hcc Hrun Hm0 Hfl Hsc Hsize)
      as (newState & st1' & st2 & Hflush & Hact & Hn & Hs & Hi & Hm & Hnew & Hsnap & Hh
          & _).
    exists st2. by rewrite Hs.
Qed.

(** On the store [profile_watched], the action [flag_and_rename], which
    writes [flag] and calls [rename]: one round, with both writes. *)
Lemma reentrant_action_is_inlined_witness :
  ∃ st2, act 12 flag_and_rename profile_watched = Ok VUndef st2
    ∧ notified st2
      = notified profile_watched
        ++ map (λ l, (l, get st2, get profile_watched)) (listeners profile_watched)
    ∧ s_heap profile_flagged_renamed !! _state st2 = None
    ∧ mutationCache st2 = ∅
    ∧ inAction st2 = false.
Proof.
  destruct (reentrant_action_is_inlined 12 flag_and_rename profile_watched)
    as (_ & _ & _ & _ & H).
  apply (H VUndef profile_flagged_renamed).
  - vm_compute. reflexivity.
  - vm_compute. reflexivity.
  - vm_compute. reflexivity.
  - vm_compute. reflexivity.
  - apply (bool_decide_unpack _). vm_compute. exact I.
  - apply (bool_decide_unpack _). vm_compute. exact I.
  - apply (bool_decide_unpack _). vm_compute. exact I.
  - vm_compute. lia.
Defined.
